(** * The section-transition state machine and the point resampler of main.js

    A shallow embedding of the scroll-driven transition logic of
    [src/main.js] (configuration in [src/js/sections.js]) together with the
    properties the specification states about it.

    Conventions of the embedding.
    - A JavaScript number is a rational ([Q]); integer counters and array
      indices are [Z].  The resampler computes as the source does: the
      step, the products and the quotients of [computeSampleFractions] and
      [createPointGeometry] are rounded to the nearest double ([double]) and
      what is stored in the [Float32Array] of sample fractions to the
      nearest single ([fround]).  The exponent range (overflow, subnormal
      numbers) is not represented; counts and indices of arrays stay far
      inside it.  The transition machine (progress, camera, colours)
      computes in exact rationals.  Values that are computed are compared
      with [==]; values that are copied are compared with [=].
    - A typed array is a [list Q]; reading past the end gives [undefined],
      which every read in the source turns into [0] with [?? 0].
      Coordinates and colours are only copied from one typed array to
      another of its kind, which does not change them.
    - The module-level variables of main.js are the fields of [State];
      a function of the source that mutates them is a function
      [State -> State].
    - DOM writes, shader uniforms, [positionCameraOnPath] and
      [controls.update] only feed the renderer and are left out.  A GSAP
      tween is kept as the record of its end values; a tick of its playback
      is a step of its own ([playScrollTween], [playBackgroundTween]).
    - A promise is an entry of [loads]; the loader's callback and the
      microtask queue are explicit events. *)

From Stdlib Require Import String.
From Stdlib Require Import ZArith QArith Qabs Qminmax Qround Qpower.
From Stdlib Require Import List Bool Lia Lqa.
Import ListNotations.

Open Scope Q_scope.

(** ** Numbers *)

Definition Qlt_bool (a b : Q) : bool := negb (Qle_bool b a).

(** [THREE.MathUtils.clamp(value, min, max)] is
    [Math.max(min, Math.min(max, value))]. *)
Definition clamp (value lo hi : Q) : Q := Qmax lo (Qmin hi value).

(** [THREE.MathUtils.lerp(x, y, t)] is [(1 - t) * x + t * y]. *)
Definition lerp (x y t : Q) : Q := (1 - t) * x + t * y.

(** [Math.round]: the nearest integer, halves going up. *)
Definition jsRound (x : Q) : Z := Qfloor (x + (1 # 2)).

(** *** IEEE 754 rounding

    [pow2 e] is [2^e]; the binade of a positive number [x] is the [e] with
    [2^e <= x < 2^(e+1)]. *)
Definition pow2 (e : Z) : Q := 2 ^ e.

Definition binade (x : Q) : Z :=
  let e := (Z.log2 (Qnum x) - Z.log2 (Zpos (Qden x)))%Z in
  if Qle_bool (pow2 e) x then e else (e - 1)%Z.

(** The nearest integer, a half going to the even neighbour. *)
Definition roundHalfEven (x : Q) : Z :=
  let f := Qfloor x in
  let r := x - inject_Z f in
  if Qlt_bool r (1 # 2) then f
  else if Qlt_bool (1 # 2) r then (f + 1)%Z
  else if Z.even f then f else (f + 1)%Z.

(** The nearest number with [p] significant bits (round to nearest, ties to
    even): the significand of [x] is rounded to an integer of [p] bits. *)
Definition roundPositive (p : Z) (x : Q) : Q :=
  let ulp := pow2 (binade x - (p - 1)) in
  inject_Z (roundHalfEven (x / ulp)) * ulp.

Definition roundTo (p : Z) (x : Q) : Q :=
  Qred (if Qlt_bool 0 x then roundPositive p x
        else if Qlt_bool x 0 then - roundPositive p (- x)
        else 0).

(** The result of an arithmetic operation on numbers: 53 significant bits. *)
Definition double : Q -> Q := roundTo 53.

(** A store into a [Float32Array]: 24 significant bits. *)
Definition fround : Q -> Q := roundTo 24.

(** [Math.PI] is the double nearest to pi; this is its exact value. *)
Definition Math_PI : Q := 884279719003555 # 281474976710656.

Definition easeInOutCubic (t : Q) : Q :=
  let clamped := clamp t 0 1 in
  if Qlt_bool clamped (1 # 2)
  then 4 * clamped * clamped * clamped
  else 1 - ((-2 * clamped + 2) * (-2 * clamped + 2) * (-2 * clamped + 2)) / 2.

(** ** Typed arrays and geometries *)

(** A [THREE.BufferAttribute]: the flat array and the number of components
    per point. *)
Record BufferAttribute := {
  array : list Q;
  itemSize : Z
}.

(** [attr.count] is [array.length / itemSize]. *)
Definition count (a : BufferAttribute) : Z :=
  (Z.of_nat (length (array a)) / itemSize a)%Z.

(** A [THREE.BufferGeometry], by the four attributes main.js reads with
    [getAttribute]. *)
Record Geometry := {
  position : option BufferAttribute;
  color : option BufferAttribute;
  morphTarget : option BufferAttribute;
  morphColor : option BufferAttribute
}.

(** [arr[i] ?? 0]. *)
Definition readOr0 (arr : list Q) (i : Z) : Q :=
  if (i <? 0)%Z then 0 else nth (Z.to_nat i) arr 0.

(** The values [0, 1, ..., n-1] of a [for (let i = 0; i < n; i++)] loop. *)
Definition loopRange (n : Z) : list Z := map Z.of_nat (seq 0 (Z.to_nat n)).

(** [attr.itemSize || 3]. *)
Definition strideOf (a : BufferAttribute) : Z :=
  if (itemSize a =? 0)%Z then 3%Z else itemSize a.

(** ** The resampler *)

(** The index chosen for slot [i]; the body of the loop that
    [computeSampleFractions] and [createPointGeometry] both contain:
    [let index = Math.floor(i * step);
     if (i === keepCount - 1 || index >= sourceCount) index = sourceCount - 1;] *)
Definition sampleIndex (sourceCount keepCount i : Z) : Z :=
  let step := double (inject_Z sourceCount / inject_Z keepCount) in
  let index := Qfloor (double (inject_Z i * step)) in
  if ((i =? keepCount - 1) || (sourceCount <=? index))%Z
  then (sourceCount - 1)%Z
  else index.

(** [srcDenom > 0 ? index / srcDenom : 0] with
    [srcDenom = Math.max(1, sourceCount - 1)], as it is read back from the
    [Float32Array] it is stored in. *)
Definition sampleFraction (sourceCount index : Z) : Q :=
  let srcDenom := Z.max 1 (sourceCount - 1) in
  if (0 <? srcDenom)%Z
  then fround (double (inject_Z index / inject_Z srcDenom))
  else 0.

Definition computeSampleFractions (sourceGeom : option Geometry) (keepCount : Z)
  : option (list Q) :=
  match sourceGeom with
  | None => None
  | Some g =>
    match position g with
    | None => None
    | Some srcPos =>
      if (keepCount <=? 0)%Z then None else
      let sourceCount := count srcPos in
      if (sourceCount <=? 0)%Z then None else
      Some (map (fun i => sampleFraction sourceCount (sampleIndex sourceCount keepCount i))
                (loopRange keepCount))
    end
  end.

(** The index of the target point for a slot of fraction [fraction]:
    [Math.round(fraction * (tgtCount - 1))], kept inside [0, tgtCount - 1].
    The product of a single ([fraction] is read from a [Float32Array]) and
    an integer of at most 29 bits is a double: it is not rounded. *)
Definition targetIndexOf (fraction : Q) (tgtCount : Z) : Z :=
  let targetIndex := jsRound (fraction * inject_Z (tgtCount - 1)) in
  let targetIndex := if (targetIndex <? 0)%Z then 0%Z else targetIndex in
  if (tgtCount <=? targetIndex)%Z then (tgtCount - 1)%Z else targetIndex.

(** The three components written for one slot from the point at [index]. *)
Definition copyPoint3 (arr : list Q) (stride index : Z) : list Q :=
  let srcOffset := (index * stride)%Z in
  [ readOr0 arr (srcOffset + 0);
    if (1 <? stride)%Z then readOr0 arr (srcOffset + 1) else 0;
    if (2 <? stride)%Z then readOr0 arr (srcOffset + 2) else 0 ].

(** The [stride] components written for one slot of a colour array. *)
Definition copyPointN (arr : list Q) (stride index : Z) : list Q :=
  map (fun k => readOr0 arr (index * stride + k)) (loopRange stride).

(** The placement of the point cloud object: [rotation.x/y/z], the uniform
    [scale] and the [offset] (for [points]: [points.position]). *)
Record Transform := {
  rotation_x : Q; rotation_y : Q; rotation_z : Q;
  scale : Q;
  offset_x : Q; offset_y : Q; offset_z : Q
}.

(** [points]: the displayed [THREE.Points] object. *)
Record Points := {
  geometry : Geometry;
  placement : Transform
}.

Definition generateMorphTargetArrayWithFractions
  (points : option Points) (targetGeom : option Geometry)
  (sampleFractions : option (list Q)) : option (list Q) :=
  match points with
  | None => None
  | Some pts =>
    match morphTarget (geometry pts) with
    | None => None
    | Some morphAttr =>
      match sampleFractions with
      | None => None
      | Some fractions =>
        if negb (Z.of_nat (length fractions) =? count morphAttr)%Z then None else
        match targetGeom with
        | None => None
        | Some tg =>
          match position tg with
          | None => None
          | Some tgtPos =>
            let tgtArray := array tgtPos in
            let tgtStride := strideOf tgtPos in
            let tgtCount := count tgtPos in
            if (tgtCount <=? 0)%Z then None else
            Some (flat_map
                    (fun f =>
                       let fraction := clamp f 0 1 in
                       copyPoint3 tgtArray tgtStride (targetIndexOf fraction tgtCount))
                    fractions)
          end
        end
      end
    end
  end.

Definition generateMorphColorArrayWithFractions
  (points : option Points) (targetGeom : option Geometry)
  (sampleFractions : option (list Q)) : option (list Q) :=
  match points with
  | None => None
  | Some pts =>
    match morphTarget (geometry pts) with
    | None => None
    | Some morphAttr =>
      match sampleFractions with
      | None => None
      | Some fractions =>
        if negb (Z.of_nat (length fractions) =? count morphAttr)%Z then None else
        match targetGeom with
        | None => None
        | Some tg =>
          match color tg with
          | None => None
          | Some tgtColAttr =>
            let tgtColorArray := array tgtColAttr in
            let tgtColorStride := strideOf tgtColAttr in
            let tgtCount := count tgtColAttr in
            if (tgtCount <=? 0)%Z then None else
            Some (flat_map
                    (fun f =>
                       let fraction := clamp f 0 1 in
                       copyPointN tgtColorArray tgtColorStride
                                  (targetIndexOf fraction tgtCount))
                    fractions)
          end
        end
      end
    end
  end.

(** [keepRatio >= 0.999 ? sourceCount
                         : Math.max(1, Math.floor(sourceCount * keepRatio))].
    [keepRatio] and the literal [0.999] are doubles: of whatever rational
    is written or passed, the nearest double is meant. *)
Definition keepCountOf (sourceCount : Z) (keepRatio : Q) : Z :=
  if Qle_bool (double (999 # 1000)) (double keepRatio)
  then sourceCount
  else Z.max 1 (Qfloor (double (inject_Z sourceCount * double keepRatio))).

(** [createPointGeometry(sourceGeom, targetGeom, keepRatio)]: the fixed slot
    array of the displayed cloud, with its morph target. *)
Definition createPointGeometry
  (sourceGeom targetGeom : option Geometry) (keepRatio : Q) : option Geometry :=
  match sourceGeom with
  | None => None
  | Some sg =>
    match position sg with
    | None => None
    | Some srcPos =>
      let sourceCount := count srcPos in
      if (sourceCount <=? 0)%Z then None else
      let keepCount := keepCountOf sourceCount keepRatio in
      let srcStride := strideOf srcPos in
      let srcArray := array srcPos in
      let slots := loopRange keepCount in
      let index := sampleIndex sourceCount keepCount in
      let positions := flat_map (fun i => copyPoint3 srcArray srcStride (index i)) slots in
      let colors :=
        match color sg with
        | None => None
        | Some colAttr =>
          Some (flat_map (fun i => copyPointN (array colAttr) (strideOf colAttr) (index i))
                         slots)
        end in
      let sampleFractions := map (fun i => sampleFraction sourceCount (index i)) slots in
      let morphArrays :=
        match targetGeom with
        | None => (None, None)
        | Some tg =>
          match position tg with
          | None => (None, None)
          | Some tgtPos =>
            if (0 <? count tgtPos)%Z then
              let tgtCount := count tgtPos in
              (Some (flat_map (fun fraction =>
                                 copyPoint3 (array tgtPos) (strideOf tgtPos)
                                            (targetIndexOf fraction tgtCount))
                              sampleFractions),
               match color tg with
               | None => None
               | Some tgtColAttr =>
                 Some (flat_map (fun fraction =>
                                   copyPointN (array tgtColAttr) (strideOf tgtColAttr)
                                              (targetIndexOf fraction tgtCount))
                                sampleFractions)
               end)
            else (None, None)
          end
        end in
      let morphArray :=
        match fst morphArrays with
        | Some m => m
        | None => positions
        end in
      Some {|
        position := Some {| array := positions; itemSize := 3 |};
        morphTarget := Some {| array := morphArray; itemSize := 3 |};
        color :=
          match color sg, colors with
          | Some colAttr, Some cs => Some {| array := cs; itemSize := strideOf colAttr |}
          | _, _ => None
          end;
        morphColor :=
          match color sg, colors with
          | Some colAttr, Some cs =>
            let morphColorsToUse :=
              match snd morphArrays with
              | Some mc => if (length mc =? length cs)%nat then mc else cs
              | None => cs
              end in
            Some {| array := morphColorsToUse; itemSize := strideOf colAttr |}
          | _, _ => None
          end
      |}
    end
  end.

(** [setPointsMorphTarget], [setPointsMorphColor], [setPointsPositionArray]:
    overwrite one attribute of the displayed geometry when the lengths agree. *)
Definition setAttrArray (attr : option BufferAttribute) (arr : option (list Q))
  : option BufferAttribute :=
  match attr, arr with
  | Some a, Some new =>
    if (length new =? length (array a))%nat
    then Some {| array := new; itemSize := itemSize a |}
    else attr
  | _, _ => attr
  end.

Definition withGeometry (f : Geometry -> Geometry) (points : option Points)
  : option Points :=
  match points with
  | None => None
  | Some pts => Some {| geometry := f (geometry pts); placement := placement pts |}
  end.

Definition setPointsMorphTarget (arr : option (list Q)) : option Points -> option Points :=
  withGeometry (fun g =>
    {| position := position g; color := color g;
       morphTarget := setAttrArray (morphTarget g) arr;
       morphColor := morphColor g |}).

Definition setPointsMorphColor (arr : option (list Q)) : option Points -> option Points :=
  withGeometry (fun g =>
    {| position := position g; color := color g;
       morphTarget := morphTarget g;
       morphColor := setAttrArray (morphColor g) arr |}).

Definition setPointsPositionArray (arr : option (list Q)) : option Points -> option Points :=
  withGeometry (fun g =>
    {| position := setAttrArray (position g) arr; color := color g;
       morphTarget := morphTarget g;
       morphColor := morphColor g |}).

(** ** Configuration (src/js/sections.js) *)

(** A colour in the normalized form [#rrggbb] that [HEX_PATTERN] produces.
    A value the pattern rejects is represented by its absence. *)
Definition HexColor := string.

Record Gradient := {
  top : HexColor;
  mid : HexColor;
  bottom : HexColor
}.

(** The initial value of [backgroundGradient]. *)
Definition initialBackgroundGradient : Gradient :=
  {| top := "#4f6469"%string; mid := "#162227"%string; bottom := "#000000"%string |}.

(** The [camera] entry of a section; a field that is missing or not a finite
    number is [None]. *)
Record CameraCfg := {
  cam_pathT : option Q;
  cam_yaw : option Q;
  cam_pitch : option Q
}.

(** The timing entries read from [SECTION_TRANSITION] and from a section's
    [transition] override; every read in main.js has a [??] fallback. *)
Record TransitionCfg := {
  cfg_spinTurns : option Q;
  cfg_spinDuration : option Q;
  cfg_scatterOut : option Q;
  cfg_scatterPeak : option Q;
  cfg_scatterIn : option Q;
  cfg_wheelThreshold : option Q;
  cfg_scrollScale : option Q
}.

(** One entry of [sections].  [background] is the value of
    [normalizeBackgroundInput(section.settings?.background)]. *)
Record SectionCfg := {
  id : string;
  modelPath : string;
  camera : option CameraCfg;
  transform : option Transform;
  transition : option TransitionCfg;
  background : option Gradient
}.

(** [a ?? b] *)
Definition orElse {A} (a : option A) (b : A) : A :=
  match a with Some v => v | None => b end.

Definition orElseOpt {A} (a b : option A) : option A :=
  match a with Some v => Some v | None => b end.

(** ** State *)

Inductive Phase := boot | idle | fadeOut | loading | fadeIn.

Definition Phase_eqb (a b : Phase) : bool :=
  match a, b with
  | boot, boot | idle, idle | fadeOut, fadeOut | loading, loading | fadeIn, fadeIn => true
  | _, _ => false
  end.

(** A camera pose [{ pathT, yaw, pitch }]. *)
Record Pose := {
  pathT : Q;
  yaw : Q;
  pitch : Q
}.

(** The object [sectionState]. *)
Record SectionState := {
  index : Z;
  phase : Phase;
  phaseElapsed : Q;
  transitionElapsed : Q;
  rotationStart : Q;
  rotationMid : Q;
  rotationTarget : Q;
  rotationDuration : Q;
  wheelAccumulator : Q;
  pendingIndex : Z;
  pendingPromise : option nat;
  scatterRest : Q;
  spinTurns : Q;
  isReady : bool;
  direction : Z;
  nextIndex : Z;
  nextSection : option SectionCfg;
  transitionProgress : Q;
  pendingScrollCarry : Q;
  scatterOut : Q;
  nextScatterRest : Q;
  cameraStartPose : option Pose;
  cameraEndPose : option Pose;
  morphReady : bool
}.

(** The shape of [scrollTweenState] and of [scrollTargetsCurrent]. *)
Record TweenVals := {
  tw_rotation : Q;
  tw_scatter : Q;
  tw_morph : Q;
  tw_colorMix : Q;
  tw_transform : Transform
}.

(** The object [backgroundTransition]; [bg_tween] is the end value of the
    running GSAP tween on [state.progress], if there is one. *)
Record BackgroundTransition := {
  bg_active : bool;
  bg_from : option Gradient;
  bg_to : option Gradient;
  bg_progress : Q;
  bg_tween : option Q
}.

(** An entry of [sectionAssets]. *)
Record Asset := {
  asset_path : string;
  asset_geometry : option Geometry;
  asset_morphArray : option (list Q)
}.

(** *** Promises

    Every call of [ensureSectionMorphTarget] creates one promise chain, kept
    as a [Load].  [load_source] says how [ensureSectionGeometry] answers:
    with a rejection when the section has no asset, from the cached geometry
    (a promise that is already resolved), or from the loader's callback.
    [load_guarded] holds for the chain of [startSectionTransition], which
    ends in [.then(...).catch(...)]; [load_handler] records whether
    [beginSectionLoad] has attached its own [.then(...).catch(...)]. *)
Inductive LoadSource :=
| NoAsset
| FromCache (g : Geometry)
| FromLoader.

Inductive LoadStatus := Pending | Fulfilled | Rejected.

Inductive HandlerState := NoHandler | Attached | Ran.

Record Load := {
  load_section : SectionCfg;
  load_source : LoadSource;
  load_guarded : bool;
  load_status : LoadStatus;
  load_handler : HandlerState
}.

(** The module-level variables of main.js that the transition logic reads or
    writes. *)
Record State := {
  sectionState : SectionState;
  cameraPathT : Q;
  cameraPathTarget : Q;
  cameraYawOffsetDeg : Q;
  cameraPitchOffsetDeg : Q;
  groupRotationY : Q;             (* pointCloudGroup.rotation.y *)
  scatterAmp : Q;
  scatterGoal : Q;
  morphProgress : Q;
  morphUniformValue : Q;
  textOpacityTarget : Q;
  textOpacityValue : Q;
  scrollTweenState : TweenVals;
  scrollTargetsCurrent : TweenVals;
  scrollTween : option TweenVals;  (* end values of the running tween *)
  backgroundTransition : BackgroundTransition;
  backgroundGradient : Gradient;
  points : option Points;
  sectionAssets : list (string * Asset);
  currentSectionId : option string;
  baseSampleFractions : option (list Q);
  baseVertexCount : Z;
  originalGeom : option Geometry;
  morphTargetOriginal : option Geometry;
  keepRatio : Q;
  currentModelPath : string;
  loads : list Load
}.

(** *** Field updates

    [obj.field = v] is [set_field v obj].  The setters are built from the
    eta-expansion of each record. *)
Ltac make_setter eta proj :=
  let v := fresh "v" in
  let r := fresh "r" in
  intros v r;
  let body := eval cbv beta delta [eta] in (eta r) in
  let pat := eval pattern (proj r) in body in
  lazymatch pat with
  | ?F _ => let res := eval cbv beta in (F v) in exact res
  end.

Definition etaSectionState (r : SectionState) : SectionState :=
  Build_SectionState
    (index r) (phase r) (phaseElapsed r) (transitionElapsed r) (rotationStart r)
    (rotationMid r) (rotationTarget r) (rotationDuration r) (wheelAccumulator r)
    (pendingIndex r) (pendingPromise r) (scatterRest r) (spinTurns r) (isReady r)
    (direction r) (nextIndex r) (nextSection r) (transitionProgress r)
    (pendingScrollCarry r) (scatterOut r) (nextScatterRest r) (cameraStartPose r)
    (cameraEndPose r) (morphReady r).

Definition set_index : Z -> SectionState -> SectionState :=
  ltac:(make_setter etaSectionState index).
Definition set_phase : Phase -> SectionState -> SectionState :=
  ltac:(make_setter etaSectionState phase).
Definition set_phaseElapsed : Q -> SectionState -> SectionState :=
  ltac:(make_setter etaSectionState phaseElapsed).
Definition set_transitionElapsed : Q -> SectionState -> SectionState :=
  ltac:(make_setter etaSectionState transitionElapsed).
Definition set_rotationStart : Q -> SectionState -> SectionState :=
  ltac:(make_setter etaSectionState rotationStart).
Definition set_rotationMid : Q -> SectionState -> SectionState :=
  ltac:(make_setter etaSectionState rotationMid).
Definition set_rotationTarget : Q -> SectionState -> SectionState :=
  ltac:(make_setter etaSectionState rotationTarget).
Definition set_rotationDuration : Q -> SectionState -> SectionState :=
  ltac:(make_setter etaSectionState rotationDuration).
Definition set_wheelAccumulator : Q -> SectionState -> SectionState :=
  ltac:(make_setter etaSectionState wheelAccumulator).
Definition set_pendingIndex : Z -> SectionState -> SectionState :=
  ltac:(make_setter etaSectionState pendingIndex).
Definition set_pendingPromise : option nat -> SectionState -> SectionState :=
  ltac:(make_setter etaSectionState pendingPromise).
Definition set_scatterRest : Q -> SectionState -> SectionState :=
  ltac:(make_setter etaSectionState scatterRest).
Definition set_spinTurns : Q -> SectionState -> SectionState :=
  ltac:(make_setter etaSectionState spinTurns).
Definition set_isReady : bool -> SectionState -> SectionState :=
  ltac:(make_setter etaSectionState isReady).
Definition set_direction : Z -> SectionState -> SectionState :=
  ltac:(make_setter etaSectionState direction).
Definition set_nextIndex : Z -> SectionState -> SectionState :=
  ltac:(make_setter etaSectionState nextIndex).
Definition set_nextSection : option SectionCfg -> SectionState -> SectionState :=
  ltac:(make_setter etaSectionState nextSection).
Definition set_transitionProgress : Q -> SectionState -> SectionState :=
  ltac:(make_setter etaSectionState transitionProgress).
Definition set_pendingScrollCarry : Q -> SectionState -> SectionState :=
  ltac:(make_setter etaSectionState pendingScrollCarry).
Definition set_scatterOut : Q -> SectionState -> SectionState :=
  ltac:(make_setter etaSectionState scatterOut).
Definition set_nextScatterRest : Q -> SectionState -> SectionState :=
  ltac:(make_setter etaSectionState nextScatterRest).
Definition set_cameraStartPose : option Pose -> SectionState -> SectionState :=
  ltac:(make_setter etaSectionState cameraStartPose).
Definition set_cameraEndPose : option Pose -> SectionState -> SectionState :=
  ltac:(make_setter etaSectionState cameraEndPose).
Definition set_morphReady : bool -> SectionState -> SectionState :=
  ltac:(make_setter etaSectionState morphReady).

Definition etaState (r : State) : State :=
  Build_State
    (sectionState r) (cameraPathT r) (cameraPathTarget r) (cameraYawOffsetDeg r)
    (cameraPitchOffsetDeg r) (groupRotationY r) (scatterAmp r) (scatterGoal r)
    (morphProgress r) (morphUniformValue r) (textOpacityTarget r) (textOpacityValue r)
    (scrollTweenState r) (scrollTargetsCurrent r) (scrollTween r)
    (backgroundTransition r) (backgroundGradient r) (points r) (sectionAssets r)
    (currentSectionId r) (baseSampleFractions r) (baseVertexCount r) (originalGeom r)
    (morphTargetOriginal r) (keepRatio r) (currentModelPath r) (loads r).

Definition set_sectionState : SectionState -> State -> State :=
  ltac:(make_setter etaState sectionState).
Definition set_cameraPathT : Q -> State -> State :=
  ltac:(make_setter etaState cameraPathT).
Definition set_cameraPathTarget : Q -> State -> State :=
  ltac:(make_setter etaState cameraPathTarget).
Definition set_cameraYawOffsetDeg : Q -> State -> State :=
  ltac:(make_setter etaState cameraYawOffsetDeg).
Definition set_cameraPitchOffsetDeg : Q -> State -> State :=
  ltac:(make_setter etaState cameraPitchOffsetDeg).
Definition set_groupRotationY : Q -> State -> State :=
  ltac:(make_setter etaState groupRotationY).
Definition set_scatterAmp : Q -> State -> State :=
  ltac:(make_setter etaState scatterAmp).
Definition set_scatterGoal : Q -> State -> State :=
  ltac:(make_setter etaState scatterGoal).
Definition set_morphProgress : Q -> State -> State :=
  ltac:(make_setter etaState morphProgress).
Definition set_morphUniformValue : Q -> State -> State :=
  ltac:(make_setter etaState morphUniformValue).
Definition set_textOpacityTarget : Q -> State -> State :=
  ltac:(make_setter etaState textOpacityTarget).
Definition set_textOpacityValue : Q -> State -> State :=
  ltac:(make_setter etaState textOpacityValue).
Definition set_scrollTweenState : TweenVals -> State -> State :=
  ltac:(make_setter etaState scrollTweenState).
Definition set_scrollTargetsCurrent : TweenVals -> State -> State :=
  ltac:(make_setter etaState scrollTargetsCurrent).
Definition set_scrollTween : option TweenVals -> State -> State :=
  ltac:(make_setter etaState scrollTween).
Definition set_backgroundTransition : BackgroundTransition -> State -> State :=
  ltac:(make_setter etaState backgroundTransition).
Definition set_backgroundGradient : Gradient -> State -> State :=
  ltac:(make_setter etaState backgroundGradient).
Definition set_points : option Points -> State -> State :=
  ltac:(make_setter etaState points).
Definition set_sectionAssets : list (string * Asset) -> State -> State :=
  ltac:(make_setter etaState sectionAssets).
Definition set_currentSectionId : option string -> State -> State :=
  ltac:(make_setter etaState currentSectionId).
Definition set_baseSampleFractions : option (list Q) -> State -> State :=
  ltac:(make_setter etaState baseSampleFractions).
Definition set_baseVertexCount : Z -> State -> State :=
  ltac:(make_setter etaState baseVertexCount).
Definition set_originalGeom : option Geometry -> State -> State :=
  ltac:(make_setter etaState originalGeom).
Definition set_morphTargetOriginal : option Geometry -> State -> State :=
  ltac:(make_setter etaState morphTargetOriginal).
Definition set_currentModelPath : string -> State -> State :=
  ltac:(make_setter etaState currentModelPath).
Definition set_loads : list Load -> State -> State :=
  ltac:(make_setter etaState loads).

(** [sectionState.field = v] *)
Definition onSectionState (f : SectionState -> SectionState) (st : State) : State :=
  set_sectionState (f (sectionState st)) st.

(** *** The configuration of src/js/sections.js *)

Definition SECTION_TRANSITION_js : TransitionCfg :=
  {| cfg_spinTurns := Some 1;
     cfg_spinDuration := Some (26 # 10);
     cfg_scatterOut := Some (85 # 100);
     cfg_scatterPeak := Some (85 # 100);
     cfg_scatterIn := Some 0;
     cfg_wheelThreshold := Some 80;
     cfg_scrollScale := Some 900 |}.

Definition harbourTransform : Transform :=
  {| rotation_x := 0; rotation_y := 95 # 100; rotation_z := 5 # 100;
     scale := 12 # 10;
     offset_x := 0; offset_y := 0; offset_z := -(19 # 100) |}.

Definition sections_js : list SectionCfg :=
  [ {| id := "intro"; modelPath := "point/akl3-bw.ply";
       camera := Some {| cam_pathT := Some (1 # 10); cam_yaw := Some (-18);
                         cam_pitch := Some (-8) |};
       transform := Some {| rotation_x := 0; rotation_y := 0; rotation_z := 0;
                            scale := 1;
                            offset_x := 0; offset_y := 0; offset_z := 0 |};
       transition := None;
       background := Some {| top := "#4f6469"; mid := "#162227"; bottom := "#000000" |} |};
    {| id := "harbour"; modelPath := "point/nz2.ply";
       camera := Some {| cam_pathT := Some (1 # 10); cam_yaw := Some (-18);
                         cam_pitch := Some (-6) |};
       transform := Some harbourTransform;
       transition := None;
       background := Some {| top := "#4f6469"; mid := "#162227"; bottom := "#000000" |} |};
    {| id := "midtown"; modelPath := "point/server-pc.ply";
       camera := Some {| cam_pathT := Some (42 # 100); cam_yaw := Some (-8);
                         cam_pitch := Some (-4) |};
       transform := None;
       transition := None;
       background := None |};
    {| id := "closer-to-home"; modelPath := "point/nz2.ply";
       camera := Some {| cam_pathT := Some (1 # 10); cam_yaw := Some (-18);
                         cam_pitch := Some (-6) |};
       transform := Some harbourTransform;
       transition := None;
       background := Some {| top := "#000000"; mid := "#162227"; bottom := "#4f6469" |} |};
    {| id := "nature"; modelPath := "point/riverV1.ply";
       camera := Some {| cam_pathT := Some (65 # 100); cam_yaw := Some 0;
                         cam_pitch := Some (-20) |};
       transform := Some {| rotation_x := 115 # 100; rotation_y := 45 # 100;
                            rotation_z := 0;
                            scale := 12 # 10;
                            offset_x := 1 # 10; offset_y := 2 # 10;
                            offset_z := -(1 # 10) |};
       transition := None;
       background := Some {| top := "#8fa4b7"; mid := "#1a1a2e"; bottom := "#020203" |} |}
  ]%string.

(** Stand-ins for the two three.js helpers, for running the machine on
    concrete inputs: a blend that agrees with [lerpHexColor] at both ends, and
    a [preprocessGeometry] that leaves the points where they are. *)
Definition nearestEndColor (a b : HexColor) (t : Q) : HexColor :=
  if Qle_bool (1 # 2) t then b else a.

Definition keepGeometry (g : Geometry) (path : string) : Geometry := g.

(** Small clouds for concrete runs: [n] points on a line, each with three
    coordinates, starting at [base]. *)
Definition lineCloud (base : Z) (n : nat) : Geometry :=
  {| position :=
       Some {| array := flat_map (fun k => [inject_Z (base + Z.of_nat k); 0; 0]) (seq 0 n);
               itemSize := 3 |};
     color := None; morphTarget := None; morphColor := None |}.

(** A configuration whose second section asks for a camera pose outside the
    range of the camera controls (yaw 400 degrees, pitch -80 degrees). *)
Definition sections_steep : list SectionCfg :=
  [ {| id := "intro"; modelPath := "point/akl3-bw.ply";
       camera := Some {| cam_pathT := Some (1 # 10); cam_yaw := Some (-18);
                         cam_pitch := Some (-8) |};
       transform := None;
       transition := None;
       background := None |};
    {| id := "harbour"; modelPath := "point/nz2.ply";
       camera := Some {| cam_pathT := Some (1 # 10); cam_yaw := Some 400;
                         cam_pitch := Some (-80) |};
       transform := None;
       transition := None;
       background := None |}
  ]%string.
From Stdlib Require Import Ascii.

(** ** Colour strings (HEX_PATTERN, normalizeBackgroundInput,
    setBackgroundGradient of src/main.js) *)

(** A property value as these functions see it: a string; a value that is
    not a string and is falsy ([undefined], [null], [0], [false]); or a value
    that is not a string, is truthy and has no [match] method (a number,
    [true], a plain object), on which [.match(...)] throws a TypeError. *)
Inductive JsValue :=
| JsString (s : string)
| JsFalsy
| JsTruthy.

Definition truthy (v : JsValue) : bool :=
  match v with
  | JsString EmptyString => false
  | JsString _ => true
  | JsFalsy => false
  | JsTruthy => true
  end.

(** [a || b] *)
Definition jsOr (a b : JsValue) : JsValue := if truthy a then a else b.

(** What a call comes to: a returned value or a thrown TypeError. *)
Inductive Completion (A : Type) :=
| Returns (a : A)
| Throws.
Arguments Returns {A} a.
Arguments Throws {A}.

(** [[0-9a-fA-F]] *)
Definition isHexDigit (c : ascii) : bool :=
  let n := nat_of_ascii c in
  ((48 <=? n) && (n <=? 57) || (65 <=? n) && (n <=? 70)
   || (97 <=? n) && (n <=? 102))%nat.

Fixpoint allHex (s : string) : bool :=
  match s with
  | EmptyString => true
  | String c rest => isHexDigit c && allHex rest
  end.

(** [toLowerCase()] on the characters the capture group can hold. *)
Definition toLowerCase1 (c : ascii) : ascii :=
  let n := nat_of_ascii c in
  if ((65 <=? n) && (n <=? 90))%nat then ascii_of_nat (n + 32) else c.

Fixpoint toLowerCase (s : string) : string :=
  match s with
  | EmptyString => EmptyString
  | String c rest => String (toLowerCase1 c) (toLowerCase rest)
  end.

(** [s.match(HEX_PATTERN)] with
    [HEX_PATTERN = /^#?([0-9a-fA-F]{6})([0-9a-fA-F]{2})?$/]: [None] when the
    match is [null], otherwise the first capture group. *)
Definition matchHex (s : string) : option string :=
  let body := match s with
              | String "#"%char rest => rest
              | _ => s
              end in
  if allHex body
     && ((String.length body =? 6)%nat || (String.length body =? 8)%nat)
  then Some (substring 0 6 body)
  else None.

(** [`#${match[1].toLowerCase()}`] *)
Definition hexOf (group1 : string) : HexColor :=
  String "#"%char (toLowerCase group1).

(** The idiom [m = s.match(HEX_PATTERN)], then [`#${m[1].toLowerCase()}`]
    when [m] is not [null]. *)
Definition normalizeHex (s : string) : option HexColor :=
  match matchHex s with
  | Some group1 => Some (hexOf group1)
  | None => None
  end.

(** The properties that [normalizeBackgroundInput] reads from an object. *)
Record BackgroundFields := {
  f_top : JsValue;
  f_mid : JsValue;
  f_bottom : JsValue;
  f_color : JsValue;
  f_topColor : JsValue;
  f_middle : JsValue;
  f_midColor : JsValue;
  f_bottomColor : JsValue
}.

(** The argument of [normalizeBackgroundInput]: a falsy value that is not a
    string, a string, an object, or a truthy value that is neither (a number,
    [true], a function). *)
Inductive BackgroundInput :=
| BgFalsy
| BgString (s : string)
| BgObject (fields : BackgroundFields)
| BgOther.

(** [typeof v === 'string' ? v : fallback] *)
Definition stringOr (v fallback : JsValue) : JsValue :=
  match v with
  | JsString s => JsString s
  | _ => fallback
  end.

(** [v && v.match(HEX_PATTERN) ? `#${...}` : fallback], and the same test
    written with [if] for [bottom]. *)
Definition hexOrFallback (v : JsValue) (fallback : HexColor) : Completion HexColor :=
  if truthy v then
    match v with
    | JsString s =>
      match matchHex s with
      | Some group1 => Returns (hexOf group1)
      | None => Returns fallback
      end
    | _ => Throws
    end
  else Returns fallback.

Definition normalizeBackgroundInput (value : BackgroundInput)
  : Completion (option Gradient) :=
  match value with
  | BgFalsy => Returns None
  | BgString s =>
    if negb (truthy (JsString s)) then Returns None
    else
      match matchHex s with
      | None => Returns None
      | Some group1 =>
        let normalized := hexOf group1 in
        Returns (Some {| top := normalized; mid := normalized; bottom := normalized |})
      end
  | BgObject value =>
    let topValue := stringOr (f_top value) (jsOr (f_color value) (f_topColor value)) in
    let midValue := stringOr (f_mid value) (jsOr (f_middle value) (f_midColor value)) in
    let bottomValue := stringOr (f_bottom value) (f_bottomColor value) in
    if negb (truthy topValue) then Returns None
    else
      match topValue with
      | JsString topString =>
        match matchHex topString with
        | None => Returns None
        | Some group1 =>
          let topHex := hexOf group1 in
          match hexOrFallback midValue topHex with
          | Throws => Throws
          | Returns midHex =>
            match hexOrFallback bottomValue topHex with
            | Throws => Throws
            | Returns bottomHex =>
              Returns (Some {| top := topHex; mid := midHex; bottom := bottomHex |})
            end
          end
        end
      | _ => Throws
      end
  | BgOther => Returns None
  end.

(** [typeof v === 'string' ? v.match(HEX_PATTERN) : null] *)
Definition stringMatch (v : JsValue) : option string :=
  match v with
  | JsString s => matchHex s
  | _ => None
  end.

(** [setBackgroundGradient({ top, mid, bottom })] on the properties as they
    come: nothing is stored unless [top] matches; a [mid] that does not match
    takes the new [top], a [bottom] that does not match the new [mid]. *)
Definition setBackgroundGradient_fields (topValue midValue bottomValue : JsValue)
           (st : State) : State :=
  match stringMatch topValue with
  | None => st
  | Some topGroup =>
    let newTop := hexOf topGroup in
    let newMid := match stringMatch midValue with
                  | Some midGroup => hexOf midGroup
                  | None => newTop
                  end in
    let newBottom := match stringMatch bottomValue with
                     | Some bottomGroup => hexOf bottomGroup
                     | None => newMid
                     end in
    set_backgroundGradient {| top := newTop; mid := newMid; bottom := newBottom |} st
  end.

(** The object [{ top, mid, bottom }] of a gradient, as an argument. *)
Definition fieldsOfGradient (g : Gradient) : BackgroundFields :=
  {| f_top := JsString (top g); f_mid := JsString (mid g);
     f_bottom := JsString (bottom g);
     f_color := JsFalsy; f_topColor := JsFalsy; f_middle := JsFalsy;
     f_midColor := JsFalsy; f_bottomColor := JsFalsy |}.

(** A gradient whose three colours are in the form [#rrggbb] that the
    pattern produces. *)
Definition normalGradient (g : Gradient) : Prop :=
  normalizeHex (top g) = Some (top g) /\
  normalizeHex (mid g) = Some (mid g) /\
  normalizeHex (bottom g) = Some (bottom g).

(** ** The transition machine *)

Section Machine.

(** [sections] and [SECTION_TRANSITION] of src/js/sections.js. *)
Variable sections : list SectionCfg.
Variable SECTION_TRANSITION : TransitionCfg.

(** [lerpHexColor] blends two colours through [THREE.Color]. *)
Variable lerpHexColor : HexColor -> HexColor -> Q -> HexColor.

(** [preprocessGeometry(geom, path)] centres, scales and turns a loaded
    geometry with three.js; it adds and removes no point. *)
Variable preprocessGeometry : Geometry -> string -> Geometry.

Definition SCROLL_SCATTER_PEAK : Q :=
  orElse (cfg_scatterPeak SECTION_TRANSITION)
         (orElse (cfg_scatterOut SECTION_TRANSITION) (85 # 100)).
Definition SCROLL_TRIGGER_THRESHOLD : Q :=
  orElse (cfg_wheelThreshold SECTION_TRANSITION) 120.
Definition TOUCH_TRIGGER_THRESHOLD : Q := SCROLL_TRIGGER_THRESHOLD * (6 # 10).
Definition SCROLL_PROGRESS_SCALE : Q :=
  orElse (cfg_scrollScale SECTION_TRANSITION) 900.
Definition TOUCH_PROGRESS_SCALE : Q := SCROLL_PROGRESS_SCALE * (6 # 10).

Definition getSectionCount : Z := Z.of_nat (length sections).

Definition normalizeSectionIndex (index : Z) : Z :=
  let total := getSectionCount in
  if (total <=? 0)%Z then 0%Z else
  let mod_ := Z.rem index total in
  if (mod_ <? 0)%Z then (mod_ + total)%Z else mod_.

Definition getSectionByIndex (index : Z) : option SectionCfg :=
  let total := getSectionCount in
  if (total =? 0)%Z then None
  else nth_error sections (Z.to_nat (normalizeSectionIndex index)).

Definition getDefaultTransform : Transform :=
  {| rotation_x := 0; rotation_y := 0; rotation_z := 0;
     scale := 1;
     offset_x := 0; offset_y := 0; offset_z := 0 |}.

Definition getSectionTransform (section : option SectionCfg) : Transform :=
  match section with
  | Some s => orElse (transform s) getDefaultTransform
  | None => getDefaultTransform
  end.

(** *** [sectionAssets], a [Map] from section id to asset *)

Fixpoint assetGet (key : string) (assets : list (string * Asset)) : option Asset :=
  match assets with
  | [] => None
  | (k, a) :: rest => if String.eqb k key then Some a else assetGet key rest
  end.

Fixpoint assetSet (key : string) (a : Asset) (assets : list (string * Asset))
  : list (string * Asset) :=
  match assets with
  | [] => [(key, a)]
  | (k, b) :: rest =>
    if String.eqb k key then (k, a) :: rest else (k, b) :: assetSet key a rest
  end.

(** The map built at start-up:
    [sections.forEach((section) => sectionAssets.set(section.id, {...}))]. *)
Definition initialSectionAssets : list (string * Asset) :=
  fold_left
    (fun assets s =>
       assetSet (id s)
                {| asset_path := modelPath s; asset_geometry := None;
                   asset_morphArray := None |}
                assets)
    sections [].

Definition getSectionAsset (section : option SectionCfg) (st : State) : option Asset :=
  match section with
  | None => None
  | Some s => assetGet (id s) (sectionAssets st)
  end.

(** *** Displayed values *)

Definition setScatterAmplitude (value : Q) (syncTarget : bool) (st : State) : State :=
  let clamped := Qmax 0 (Qmin 1 value) in
  let st := set_scatterAmp clamped st in
  if syncTarget then set_scatterGoal clamped st else st.

Definition setScatterTarget (value : Q) (st : State) : State :=
  set_scatterGoal (clamp value 0 1) st.

Definition setMorphProgress (value : Q) (st : State) : State :=
  set_morphProgress (clamp value 0 1) st.

Definition setTextOpacityTarget (value : Q) (immediate : bool) (st : State) : State :=
  let clamped := clamp value 0 1 in
  let st := set_textOpacityTarget clamped st in
  if immediate then set_textOpacityValue clamped st else st.

Definition ensureTextOpacity (value : Q) (st : State) : State :=
  let clamped := clamp value 0 1 in
  if Qlt_bool (1 # 1000) (Qabs (textOpacityValue st - clamped))
  then setTextOpacityTarget clamped true st
  else st.

Definition applyScrollTweenState (st : State) : State :=
  let tw := scrollTweenState st in
  let st := set_groupRotationY (tw_rotation tw) st in
  let st := setScatterAmplitude (tw_scatter tw) true st in
  let st := setMorphProgress (tw_morph tw) st in
  match points st with
  | Some pts =>
    set_points (Some {| geometry := geometry pts; placement := tw_transform tw |}) st
  | None => st
  end.

Definition transformDiff (a b : Transform) : Q :=
  Qabs (rotation_x a - rotation_x b)
  + Qabs (rotation_y a - rotation_y b)
  + Qabs (rotation_z a - rotation_z b)
  + Qabs (scale a - scale b)
  + Qabs (offset_x a - offset_x b)
  + Qabs (offset_y a - offset_y b)
  + Qabs (offset_z a - offset_z b).

(** [tweenToScrollTargets(targets, { immediate })]; every caller passes
    [colorMix] and [transform]. *)
Definition tweenToScrollTargets (targets : TweenVals) (immediate : bool) (st : State)
  : State :=
  let cur := scrollTargetsCurrent st in
  let rotDiff := Qabs (tw_rotation targets - tw_rotation cur) in
  let scatterDiff := Qabs (tw_scatter targets - tw_scatter cur) in
  let morphDiff := Qabs (tw_morph targets - tw_morph cur) in
  let colorMixDiff := Qabs (tw_colorMix targets - tw_colorMix cur) in
  let transformDiff := 0 + transformDiff (tw_transform targets) (tw_transform cur) in
  let eps := 1 # 10000 in
  if Qlt_bool rotDiff eps && Qlt_bool scatterDiff eps && Qlt_bool morphDiff eps
     && Qlt_bool colorMixDiff eps && Qlt_bool transformDiff eps
  then st
  else
    let st := set_scrollTargetsCurrent targets st in
    let st := set_scrollTween None st in
    if immediate then
      let st := set_scrollTweenState targets st in
      applyScrollTweenState st
    else
      set_scrollTween (Some targets) st.

(** *** Background blend *)

Definition setBackgroundGradient (g : Gradient) (st : State) : State :=
  set_backgroundGradient g st.

Definition applyBackgroundBlend (value : Q) (st : State) : State :=
  let bt := backgroundTransition st in
  match bg_active bt, bg_from bt, bg_to bt with
  | true, Some from, Some to =>
    let t := clamp value 0 1 in
    setBackgroundGradient
      {| top := lerpHexColor (top from) (top to) t;
         mid := lerpHexColor (mid from) (mid to) t;
         bottom := lerpHexColor (bottom from) (bottom to) t |}
      st
  | _, _, _ => st
  end.

(** [finishBackgroundBlend({ commit })]: the state and the applied colours. *)
Definition finishBackgroundBlend (commit : bool) (st : State)
  : State * option Gradient :=
  let bt := backgroundTransition st in
  if negb (bg_active bt) then (st, None) else
  let applied :=
    if commit then bg_to bt
    else bg_from bt in
  let st :=
    match applied with
    | Some g => setBackgroundGradient g st
    | None => st
    end in
  (set_backgroundTransition
     {| bg_active := false; bg_from := None; bg_to := None;
        bg_progress := 0; bg_tween := None |} st,
   applied).

Definition startBackgroundBlend (targetColors : option Gradient) (st : State) : State :=
  match targetColors with
  | None => fst (finishBackgroundBlend false st)
  | Some target =>
    let st :=
      set_backgroundTransition
        {| bg_active := true;
           bg_from := Some (backgroundGradient st);
           bg_to := Some target;
           bg_progress := 0;
           bg_tween := None |} st in
    applyBackgroundBlend 0 st
  end.

Definition animateBackgroundBlend (target : Q) (immediate : bool) (st : State) : State :=
  let bt := backgroundTransition st in
  if negb (bg_active bt) then st else
  let clamped := clamp target 0 1 in
  if Qlt_bool (Qabs (bg_progress bt - clamped)) (1 # 10000) && negb immediate
  then st
  else if immediate then
    let st :=
      set_backgroundTransition
        {| bg_active := bg_active bt; bg_from := bg_from bt; bg_to := bg_to bt;
           bg_progress := clamped; bg_tween := None |} st in
    applyBackgroundBlend clamped st
  else
    set_backgroundTransition
      {| bg_active := bg_active bt; bg_from := bg_from bt; bg_to := bg_to bt;
         bg_progress := bg_progress bt; bg_tween := Some clamped |} st.

(** *** Camera *)

Definition getCurrentCameraPose (st : State) : Pose :=
  {| pathT := cameraPathTarget st;
     yaw := cameraYawOffsetDeg st;
     pitch := cameraPitchOffsetDeg st |}.

Definition updateCameraPose (progress : Q) (st : State) : State :=
  let start := orElse (cameraStartPose (sectionState st)) (getCurrentCameraPose st) in
  let end_ := orElse (cameraEndPose (sectionState st)) start in
  let t := clamp progress 0 1 in
  let newPathT := lerp (pathT start) (pathT end_) t in
  let newYaw := lerp (yaw start) (yaw end_) t in
  let newPitch := lerp (pitch start) (pitch end_) t in
  let st := set_cameraPathTarget (clamp newPathT 0 1) st in
  let st := set_cameraPathT (cameraPathTarget st) st in
  let st := set_cameraYawOffsetDeg newYaw st in
  set_cameraPitchOffsetDeg newPitch st.

(** [setCameraYawOffset(degrees)]; [None] stands for an argument that
    [Number(...)] does not turn into a finite number. *)
Definition setCameraYawOffset (degrees : option Q) (st : State) : State :=
  let clamped :=
    match degrees with
    | Some parsed => clamp parsed (-360) 360
    | None => cameraYawOffsetDeg st
    end in
  set_cameraYawOffsetDeg clamped st.

Definition setCameraPitchOffset (degrees : option Q) (st : State) : State :=
  let clamped :=
    match degrees with
    | Some parsed => clamp parsed (-60) 60
    | None => cameraPitchOffsetDeg st
    end in
  set_cameraPitchOffsetDeg clamped st.

Definition setSectionCameraPose (section : option SectionCfg) (immediate : bool)
  (st : State) : State :=
  match section with
  | None => st
  | Some s =>
    match camera s with
    | None => st
    | Some cam =>
      let st :=
        match cam_pathT cam with
        | Some p =>
          let clamped := clamp p 0 1 in
          let st := set_cameraPathTarget clamped st in
          if immediate then set_cameraPathT clamped st else st
        | None => st
        end in
      let st :=
        match cam_yaw cam with
        | Some y => setCameraYawOffset (Some y) st
        | None => st
        end in
      match cam_pitch cam with
      | Some p => setCameraPitchOffset (Some p) st
      | None => st
      end
    end
  end.

(** *** The per-phase targets *)

Definition mkTargets (rotation scatter morph colorMix : Q) (transform : Transform)
  : TweenVals :=
  {| tw_rotation := rotation; tw_scatter := scatter; tw_morph := morph;
     tw_colorMix := colorMix; tw_transform := transform |}.

Definition lerpTransform (a b : Transform) (t : Q) : Transform :=
  {| rotation_x := lerp (rotation_x a) (rotation_x b) t;
     rotation_y := lerp (rotation_y a) (rotation_y b) t;
     rotation_z := lerp (rotation_z a) (rotation_z b) t;
     scale := lerp (scale a) (scale b) t;
     offset_x := lerp (offset_x a) (offset_x b) t;
     offset_y := lerp (offset_y a) (offset_y b) t;
     offset_z := lerp (offset_z a) (offset_z b) t |}.

Definition updateSectionTransition (st : State) : State :=
  let ss := sectionState st in
  let currentSection := getSectionByIndex (index ss) in
  let nextSection := nextSection ss in
  match phase ss with
  | fadeOut =>
    let eased := easeInOutCubic (transitionProgress ss) in
    let st := ensureTextOpacity (1 - eased) st in
    let scatterTarget := lerp (scatterRest ss) SCROLL_SCATTER_PEAK eased in
    let rotationTarget := lerp (rotationStart ss) (rotationMid ss) eased in
    let morphTarget := if morphReady ss then eased else 0 in
    let currentTransform := getSectionTransform currentSection in
    let nextTransform := getSectionTransform nextSection in
    let interpolatedTransform := lerpTransform currentTransform nextTransform eased in
    let st :=
      tweenToScrollTargets
        (mkTargets rotationTarget scatterTarget morphTarget morphTarget
                   interpolatedTransform)
        false st in
    let st := updateCameraPose eased st in
    animateBackgroundBlend (eased * (1 # 2)) false st
  | loading =>
    let st := ensureTextOpacity 0 st in
    let st := animateBackgroundBlend (1 # 2) false st in
    let morphTarget := if morphReady ss then 1 else 0 in
    let nextTransform := getSectionTransform nextSection in
    let st :=
      tweenToScrollTargets
        (mkTargets (rotationMid ss) SCROLL_SCATTER_PEAK morphTarget morphTarget
                   nextTransform)
        true st in
    updateCameraPose 1 st
  | fadeIn =>
    let eased := easeInOutCubic (transitionProgress ss) in
    let st := ensureTextOpacity eased st in
    let scatterTarget := lerp SCROLL_SCATTER_PEAK (nextScatterRest ss) eased in
    let rotationTarget := lerp (rotationMid ss) (rotationTarget ss) eased in
    let morphTarget := if morphReady ss then 1 else 0 in
    let nextTransform := getSectionTransform nextSection in
    let st :=
      tweenToScrollTargets
        (mkTargets rotationTarget scatterTarget morphTarget morphTarget nextTransform)
        false st in
    let st := updateCameraPose 1 st in
    animateBackgroundBlend ((1 # 2) + eased * (1 # 2)) false st
  | idle | boot =>
    let st := ensureTextOpacity 1 st in
    let currentTransform := getSectionTransform currentSection in
    let st :=
      tweenToScrollTargets
        (mkTargets (rotationTarget ss) (scatterRest ss) 0 0 currentTransform)
        false st in
    let st := updateCameraPose 1 st in
    if negb (bg_active (backgroundTransition st))
    then animateBackgroundBlend 0 true st
    else st
  end.

(** The first assignments of [cancelTransition], up to the call of
    [updateCameraPose]. *)
Definition cancelSetup (st : State) : State :=
  let st := onSectionState (set_phase idle) st in
  let st := onSectionState (set_transitionProgress 0) st in
  let st := onSectionState (set_pendingIndex (index (sectionState st))) st in
  let st := onSectionState (set_pendingPromise None) st in
  let st := onSectionState (set_nextSection None) st in
  let st := onSectionState (set_pendingScrollCarry 0) st in
  let st := set_groupRotationY (rotationStart (sectionState st)) st in
  let st := onSectionState (set_rotationTarget (rotationStart (sectionState st))) st in
  let st := onSectionState (set_rotationMid (rotationStart (sectionState st))) st in
  onSectionState (set_cameraEndPose (cameraStartPose (sectionState st))) st.

Definition cancelTransition (st : State) : State :=
  let st := cancelSetup st in
  let st := updateCameraPose 0 st in
  let st := updateSectionTransition st in
  let st := onSectionState (set_morphReady false) st in
  fst (finishBackgroundBlend false st).

(** *** Loading a morph target *)

(** The body of the [.then((geom) => ...)] of [ensureSectionMorphTarget]:
    resample the loaded geometry onto the displayed slots and write it into
    the displayed morph buffer.  The boolean is [true] when the callback
    returns and [false] when it rejects or throws. *)
Definition ensureSectionMorphTarget_then (section : SectionCfg) (geom : Geometry)
  (st : State) : State * bool :=
  match points st with
  | None => (st, false)
  | Some pts =>
    match morphTarget (geometry pts) with
    | None => (st, false)
    | Some morphAttr =>
      let targetSampleFractions := computeSampleFractions (Some geom) (count morphAttr) in
      match targetSampleFractions with
      | None => (st, false)
      | Some _ =>
        match generateMorphTargetArrayWithFractions
                (points st) (Some geom) targetSampleFractions with
        | None => (st, false)
        | Some arr =>
          let st :=
            match assetGet (id section) (sectionAssets st) with
            | Some asset =>
              set_sectionAssets
                (assetSet (id section)
                          {| asset_path := asset_path asset;
                             asset_geometry := asset_geometry asset;
                             asset_morphArray := Some arr |}
                          (sectionAssets st)) st
            | None => st
            end in
          let st := set_points (setPointsMorphTarget (Some arr) (points st)) st in
          let colorArray :=
            generateMorphColorArrayWithFractions
              (points st) (Some geom) targetSampleFractions in
          let st :=
            match colorArray with
            | Some _ => set_points (setPointsMorphColor colorArray (points st)) st
            | None => st
            end in
          let st :=
            set_currentModelPath
              (match assetGet (id section) (sectionAssets st) with
               | Some asset => asset_path asset
               | None => modelPath section
               end) st in
          (st, true)
        end
      end
    end
  end.

(** [ensureSectionMorphTarget(section)]: start the promise chain.  The
    result is the state with the new chain and its handle. *)
Definition ensureSectionMorphTarget (section : SectionCfg) (guarded : bool) (st : State)
  : State * nat :=
  let source :=
    match getSectionAsset (Some section) st with
    | None => NoAsset
    | Some asset =>
      match asset_geometry asset with
      | Some g => FromCache g
      | None => FromLoader
      end
    end in
  let handle := length (loads st) in
  (set_loads (loads st ++ [ {| load_section := section;
                               load_source := source;
                               load_guarded := guarded;
                               load_status := Pending;
                               load_handler := NoHandler |} ]) st,
   handle).

Fixpoint updateLoad (handle : nat) (f : Load -> Load) (ls : list Load) : list Load :=
  match ls, handle with
  | [], _ => []
  | l :: rest, O => f l :: rest
  | l :: rest, S n => l :: updateLoad n f rest
  end.

Definition set_load_status (s : LoadStatus) (l : Load) : Load :=
  {| load_section := load_section l; load_source := load_source l;
     load_guarded := load_guarded l; load_status := s;
     load_handler := load_handler l |}.

Definition set_load_handler (h : HandlerState) (l : Load) : Load :=
  {| load_section := load_section l; load_source := load_source l;
     load_guarded := load_guarded l; load_status := load_status l;
     load_handler := h |}.

(** [beginSectionLoad()] up to the point where it attaches
    [.then(...).catch(...)] to the morph promise. *)
Definition beginSectionLoad (st : State) : State :=
  match nextSection (sectionState st) with
  | None => cancelTransition st
  | Some nextSection =>
    let st := onSectionState (set_phase loading) st in
    let st := updateSectionTransition st in
    let '(st, morphPromise) :=
      match pendingPromise (sectionState st) with
      | Some p => (st, p)
      | None => ensureSectionMorphTarget nextSection false st
      end in
    let st := onSectionState (set_pendingPromise (Some morphPromise)) st in
    set_loads (updateLoad morphPromise (set_load_handler Attached) (loads st)) st
  end.

(** The [.catch((err) => ...)] of [beginSectionLoad]. *)
Definition beginSectionLoad_catch (st : State) : State :=
  let st := onSectionState (set_phase idle) st in
  let st := onSectionState (set_transitionProgress 0) st in
  let st := onSectionState (set_pendingPromise None) st in
  let st := onSectionState (set_pendingScrollCarry 0) st in
  let st := onSectionState (set_morphReady false) st in
  let st := fst (finishBackgroundBlend false st) in
  updateSectionTransition st.

(** [direction >= 0 ? 1 : -1] *)
Definition directionSignOf (direction : Z) : Z :=
  if (0 <=? direction)%Z then 1%Z else (-1)%Z.

(** The assignments of [startSectionTransition] from [sectionState.phase =
    'fadeOut'] to the snapshot of the tween state, before the background
    blend and the preload are started. *)
Definition transitionSetup (targetIndex : Z) (nextSection : SectionCfg)
  (direction : Z) (initialProgress : Q) (st : State) : State :=
  let directionSign := directionSignOf direction in
  let baseTurns :=
    orElse (orElseOpt (match transition nextSection with
                       | Some t => cfg_spinTurns t | None => None end)
                      (cfg_spinTurns SECTION_TRANSITION)) 1 in
  let scatterOut :=
    orElse (orElseOpt (match transition nextSection with
                       | Some t => cfg_scatterOut t | None => None end)
                      (cfg_scatterOut SECTION_TRANSITION)) (32 # 100) in
  let scatterIn :=
    orElse (orElseOpt (match transition nextSection with
                       | Some t => cfg_scatterIn t | None => None end)
                      (cfg_scatterIn SECTION_TRANSITION)) (4 # 100) in
  let st := onSectionState (set_phase fadeOut) st in
  let st := onSectionState (set_phaseElapsed 0) st in
  let st := onSectionState (set_transitionElapsed 0) st in
  let st := onSectionState (set_pendingIndex targetIndex) st in
  let st := onSectionState (set_pendingPromise None) st in
  let st := onSectionState (set_direction directionSign) st in
  let st := onSectionState (set_nextIndex targetIndex) st in
  let st := onSectionState (set_nextSection (Some nextSection)) st in
  let st := onSectionState (set_spinTurns baseTurns) st in
  let st := onSectionState (set_rotationStart (groupRotationY st)) st in
  let st :=
    onSectionState
      (set_rotationMid (rotationStart (sectionState st)
                        + inject_Z directionSign * baseTurns * Math_PI)) st in
  let st :=
    onSectionState
      (set_rotationTarget (rotationStart (sectionState st)
                           + inject_Z directionSign * baseTurns * Math_PI * 2)) st in
  let st :=
    onSectionState
      (set_rotationDuration
         (orElse (orElseOpt (match transition nextSection with
                             | Some t => cfg_spinDuration t | None => None end)
                            (cfg_spinDuration SECTION_TRANSITION)) (36 # 10))) st in
  let st := onSectionState (set_scatterOut (Qmax scatterOut SCROLL_SCATTER_PEAK)) st in
  let st := onSectionState (set_nextScatterRest scatterIn) st in
  let st := onSectionState (set_transitionProgress (clamp initialProgress 0 1)) st in
  let st := onSectionState (set_pendingScrollCarry 0) st in
  let st := onSectionState (set_wheelAccumulator 0) st in
  let st := onSectionState (set_morphReady false) st in
  let currentPose := getCurrentCameraPose st in
  let targetCamera :=
    orElse (camera nextSection)
           {| cam_pathT := None; cam_yaw := None; cam_pitch := None |} in
  let endPathT :=
    match cam_pathT targetCamera with
    | Some p => clamp p 0 1
    | None => pathT currentPose
    end in
  let endYaw := orElse (cam_yaw targetCamera) (yaw currentPose) in
  let endPitch := orElse (cam_pitch targetCamera) (pitch currentPose) in
  let st := onSectionState (set_cameraStartPose (Some currentPose)) st in
  let st :=
    onSectionState
      (set_cameraEndPose
         (Some {| pathT := endPathT; yaw := endYaw; pitch := endPitch |})) st in
  let placed :=
    match points st with
    | Some pts => placement pts
    | None => getDefaultTransform
    end in
  let st :=
    set_scrollTweenState
      (mkTargets (groupRotationY st) (scatterAmp st) (morphProgress st)
                 (morphProgress st) placed) st in
  set_scrollTargetsCurrent (scrollTweenState st) st.

(** The next steps of [startSectionTransition]: the background blend and
    the preload of the morph target, whose promise becomes
    [sectionState.pendingPromise]. *)
Definition transitionStarted (targetIndex : Z) (nextSection : SectionCfg)
  (direction : Z) (initialProgress : Q) (st : State) : State :=
  let st := transitionSetup targetIndex nextSection direction initialProgress st in
  let st := startBackgroundBlend (background nextSection) st in
  let '(st, morphPromise) := ensureSectionMorphTarget nextSection true st in
  onSectionState (set_pendingPromise (Some morphPromise)) st.

Definition startSectionTransition (nextIndex : Z) (direction : Z) (initialProgress : Q)
  (st : State) : State :=
  let total := getSectionCount in
  if (total <=? 0)%Z then st else
  let targetIndex := normalizeSectionIndex nextIndex in
  if (targetIndex =? index (sectionState st))%Z
     && negb (Phase_eqb (phase (sectionState st)) boot)
  then st else
  match getSectionByIndex targetIndex with
  | None => st
  | Some nextSection =>
    let st := transitionStarted targetIndex nextSection direction initialProgress st in
    let st := updateSectionTransition st in
    if Qle_bool (1 - (1 # 10000)) (transitionProgress (sectionState st))
    then beginSectionLoad st
    else st
  end.

(** *** Completing and advancing a transition *)

Definition refreshAllMorphTargets (st : State) : State :=
  let st :=
    set_baseSampleFractions
      (computeSampleFractions (originalGeom st) (baseVertexCount st)) st in
  set_sectionAssets
    (map (fun entry : string * Asset =>
            (fst entry,
             {| asset_path := asset_path (snd entry);
                asset_geometry := asset_geometry (snd entry);
                asset_morphArray := None |}))
         (sectionAssets st)) st.

Definition setAssetMorphArray (key : string) (arr : option (list Q)) (st : State)
  : State :=
  match assetGet key (sectionAssets st) with
  | Some asset =>
    set_sectionAssets
      (assetSet key
                {| asset_path := asset_path asset;
                   asset_geometry := asset_geometry asset;
                   asset_morphArray := arr |}
                (sectionAssets st)) st
  | None => st
  end.

(** The commit step of [completeFadeIn]: the morph target of the section
    that has arrived becomes the base of the displayed cloud. *)
Definition commitMorph (activeSection : SectionCfg) (st : State) : State :=
  match getSectionAsset (Some activeSection) st with
  | None => st
  | Some asset =>
    match asset_morphArray asset, points st with
    | Some morphArr, Some _ =>
      let st := set_points (setPointsPositionArray (Some morphArr) (points st)) st in
      let posAttr := match points st with
                     | Some pts => position (geometry pts)
                     | None => None
                     end in
      let st :=
        match asset_geometry asset with
        | Some g =>
          let st :=
            match posAttr with
            | Some a => set_baseVertexCount (count a) st
            | None => st
            end in
          let st := set_originalGeom (Some g) st in
          let st := set_morphTargetOriginal (originalGeom st) st in
          refreshAllMorphTargets st
        | None => st
        end in
      let st :=
        match posAttr with
        | Some a =>
          let st := setAssetMorphArray (id activeSection) (Some (array a)) st in
          set_points (setPointsMorphTarget (Some (array a)) (points st)) st
        | None => st
        end in
      let st :=
        match points st with
        | Some pts =>
          match morphColor (geometry pts), color (geometry pts) with
          | Some morphColorAttr, Some colorAttr =>
            if (length (array colorAttr) =? length (array morphColorAttr))%nat
            then
              set_points
                (Some {| geometry :=
                           {| position := position (geometry pts);
                              color := Some {| array := array morphColorAttr;
                                               itemSize := itemSize colorAttr |};
                              morphTarget := morphTarget (geometry pts);
                              morphColor := morphColor (geometry pts) |};
                         placement := placement pts |}) st
            else st
          | _, _ => st
          end
        | None => st
        end in
      let st := setMorphProgress 0 st in
      set_morphUniformValue 0 st
    | _, _ => st
    end
  end.

(** [completeFadeIn()] up to the point where the leftover carry is read:
    the machine is back at rest on the section that has arrived. *)
Definition fadeInSettled (st : State) : State :=
  let st := onSectionState (set_phase idle) st in
  let st := onSectionState (set_transitionProgress 0) st in
  let st := onSectionState (set_pendingPromise None) st in
  let activeSection :=
    orElseOpt (nextSection (sectionState st))
              (getSectionByIndex (index (sectionState st))) in
  let st := onSectionState (set_nextSection None) st in
  let st := onSectionState (set_rotationStart (groupRotationY st)) st in
  let st := onSectionState (set_rotationTarget (rotationStart (sectionState st))) st in
  let st := onSectionState (set_rotationMid (rotationStart (sectionState st))) st in
  let endPose :=
    orElse (cameraEndPose (sectionState st)) (getCurrentCameraPose st) in
  let st := onSectionState (set_cameraStartPose (Some endPose)) st in
  let st := onSectionState (set_cameraEndPose (Some endPose)) st in
  let st := set_cameraPathTarget (clamp (pathT endPose) 0 1) st in
  let st := set_cameraPathT (cameraPathTarget st) st in
  let st := set_cameraYawOffsetDeg (yaw endPose) st in
  let st := set_cameraPitchOffsetDeg (pitch endPose) st in
  let st := setCameraYawOffset (Some (yaw endPose)) st in
  let st := setCameraPitchOffset (Some (pitch endPose)) st in
  let st := updateSectionTransition st in
  let st := fst (finishBackgroundBlend true st) in
  let st :=
    match activeSection with
    | Some s =>
      let st := commitMorph s st in
      set_currentSectionId (Some (id s)) st
    | None => st
    end in
  let st :=
    set_scrollTweenState
      (mkTargets (groupRotationY st) (scatterRest (sectionState st)) 0 0
                 (tw_transform (scrollTweenState st))) st in
  let st :=
    set_scrollTargetsCurrent
      (mkTargets (tw_rotation (scrollTweenState st)) (tw_scatter (scrollTweenState st))
                 (tw_morph (scrollTweenState st)) (tw_colorMix (scrollTweenState st))
                 (tw_transform (scrollTargetsCurrent st))) st in
  applyScrollTweenState st.

(** [completeFadeIn()]; [applyScrollDelta] is the function it calls to
    replay the leftover carry. *)
Definition completeFadeIn_with (applyScrollDelta : Q -> bool -> State -> State)
  (st : State) : State :=
  let st := fadeInSettled st in
  let leftover := pendingScrollCarry (sectionState st) in
  let st := onSectionState (set_pendingScrollCarry 0) st in
  if Qlt_bool (1 # 10000) leftover
  then
    let delta :=
      leftover * SCROLL_PROGRESS_SCALE * inject_Z (direction (sectionState st)) in
    applyScrollDelta delta false st
  else st.

(** [sectionState.direction || 1] *)
Definition directionOr1 (st : State) : Z :=
  if (direction (sectionState st) =? 0)%Z then 1%Z else direction (sectionState st).

Definition advanceTransitionProgress_with (applyScrollDelta : Q -> bool -> State -> State)
  (stepRaw : Q) (st : State) : State :=
  let phase_ := phase (sectionState st) in
  match phase_ with
  | fadeOut | fadeIn =>
    let direction := directionOr1 st in
    let signed := stepRaw * inject_Z direction in
    if Qeq_bool signed 0 then updateSectionTransition st else
    match phase_ with
    | fadeOut =>
      let next := transitionProgress (sectionState st) + signed in
      if Qle_bool next 0 then cancelTransition st
      else if Qle_bool 1 next then
        let st :=
          onSectionState
            (set_pendingScrollCarry
               (pendingScrollCarry (sectionState st) + Qmax 0 (next - 1))) st in
        let st := onSectionState (set_transitionProgress 1) st in
        let st := updateSectionTransition st in
        beginSectionLoad st
      else
        let st := onSectionState (set_transitionProgress (clamp next 0 1)) st in
        updateSectionTransition st
    | _ =>
      let next := transitionProgress (sectionState st) + signed in
      if Qle_bool 1 next then
        let st :=
          onSectionState
            (set_pendingScrollCarry
               (pendingScrollCarry (sectionState st) + Qmax 0 (next - 1))) st in
        let st := onSectionState (set_transitionProgress 1) st in
        let st := updateSectionTransition st in
        completeFadeIn_with applyScrollDelta st
      else
        let st := onSectionState (set_transitionProgress (clamp next 0 1)) st in
        updateSectionTransition st
    end
  | _ => st
  end.

(** The last part of [applyScrollDelta], reached when no transition is in
    flight: accumulate the delta and start a transition once the threshold
    is reached. *)
Definition accumulateScroll (delta threshold progressScale : Q) (st : State) : State :=
  let st :=
    onSectionState
      (set_wheelAccumulator (wheelAccumulator (sectionState st) + delta)) st in
  if Qle_bool threshold (Qabs (wheelAccumulator (sectionState st))) then
    let direction :=
      if Qlt_bool 0 (wheelAccumulator (sectionState st)) then 1%Z else (-1)%Z in
    let overshoot :=
      wheelAccumulator (sectionState st) - inject_Z direction * threshold in
    let progressRaw := Qabs overshoot / progressScale in
    let initialProgress := Qmin 1 progressRaw in
    let carry := Qmax 0 (progressRaw - initialProgress) in
    let st := onSectionState (set_wheelAccumulator 0) st in
    let st :=
      startSectionTransition
        (normalizeSectionIndex (index (sectionState st) + direction))
        direction initialProgress st in
    if Qlt_bool 0 carry
    then onSectionState (set_pendingScrollCarry carry) st
    else st
  else st.

(** [applyScrollDelta(delta, { isTouch })]; [self] is the function itself,
    reached again only through [completeFadeIn]. *)
Definition applyScrollDelta_with (self : Q -> bool -> State -> State)
  (delta : Q) (isTouch : bool) (st : State) : State :=
  if negb (isReady (sectionState st)) then st else
  let progressScale := if isTouch then TOUCH_PROGRESS_SCALE else SCROLL_PROGRESS_SCALE in
  let threshold := if isTouch then TOUCH_TRIGGER_THRESHOLD else SCROLL_TRIGGER_THRESHOLD in
  let normalized := delta / progressScale in
  match phase (sectionState st) with
  | fadeOut | fadeIn => advanceTransitionProgress_with self normalized st
  | loading =>
    let direction := directionOr1 st in
    let carry := normalized * inject_Z direction in
    if Qlt_bool 0 carry
    then onSectionState
           (set_pendingScrollCarry (pendingScrollCarry (sectionState st) + carry)) st
    else st
  | _ => accumulateScroll delta threshold progressScale st
  end.

(** The call cycle [applyScrollDelta -> advanceTransitionProgress ->
    completeFadeIn -> applyScrollDelta] is cut by its depth.
    [completeFadeIn] sets the phase to [idle] before it calls
    [applyScrollDelta], which then does not advance a transition, so depth two
    is never exhausted ([applyScrollDelta_depth]). *)
Fixpoint applyScrollDelta_upto (depth : nat) : Q -> bool -> State -> State :=
  match depth with
  | O => fun _ _ st => st
  | S d => applyScrollDelta_with (applyScrollDelta_upto d)
  end.

Definition applyScrollDelta : Q -> bool -> State -> State :=
  applyScrollDelta_upto 2.

Definition completeFadeIn : State -> State :=
  completeFadeIn_with (applyScrollDelta_upto 1).

Definition advanceTransitionProgress : Q -> State -> State :=
  advanceTransitionProgress_with (applyScrollDelta_upto 1).

(** The [.then(() => ...)] of [beginSectionLoad], up to the entry into the
    fade-in. *)
Definition fadeInEntry (st : State) : State :=
  let wasMorphReady := morphReady (sectionState st) in
  let st := onSectionState (set_morphReady true) st in
  let currentProgress := transitionProgress (sectionState st) in
  let st :=
    if negb wasMorphReady && Qlt_bool 0 currentProgress
       && (Phase_eqb (phase (sectionState st)) fadeOut
           || Phase_eqb (phase (sectionState st)) fadeIn)
    then setMorphProgress (easeInOutCubic currentProgress) st
    else st in
  let st := updateSectionTransition st in
  let st := onSectionState (set_index (nextIndex (sectionState st))) st in
  let st := onSectionState (set_scatterRest (nextScatterRest (sectionState st))) st in
  let st :=
    onSectionState
      (set_transitionProgress (Qmin 1 (pendingScrollCarry (sectionState st)))) st in
  let st :=
    onSectionState
      (set_pendingScrollCarry
         (Qmax 0 (pendingScrollCarry (sectionState st)
                  - transitionProgress (sectionState st)))) st in
  let st := onSectionState (set_phase fadeIn) st in
  let st := ensureTextOpacity 0 st in
  updateSectionTransition st.

(** The whole [.then(() => ...)]: enter the fade-in and complete it at once
    when the carry has already filled it. *)
Definition beginSectionLoad_then (st : State) : State :=
  let st := fadeInEntry st in
  if Qle_bool (1 - (1 # 10000)) (transitionProgress (sectionState st))
  then completeFadeIn st
  else st.

(** *** Promise resolution and events *)

(** Run the handlers [beginSectionLoad] attached, once the chain is
    settled. *)
Definition runLoadHandler (handle : nat) (st : State) : State :=
  match nth_error (loads st) handle with
  | Some ld =>
    match load_handler ld, load_status ld with
    | Attached, Fulfilled =>
      let st := set_loads (updateLoad handle (set_load_handler Ran) (loads st)) st in
      beginSectionLoad_then st
    | Attached, Rejected =>
      let st := set_loads (updateLoad handle (set_load_handler Ran) (loads st)) st in
      beginSectionLoad_catch st
    | _, _ => st
    end
  | None => st
  end.

(** How [ensureSectionGeometry] answers.  [outcome] is what the loader
    delivers to a chain that waits for it: [Some geom] for its success
    callback, which preprocesses the geometry and caches it in the asset,
    [None] for its error callback. *)
Definition resolveGeometry (ld : Load) (outcome : option Geometry) (st : State)
  : State * option Geometry :=
  let section := load_section ld in
  match load_source ld with
  | NoAsset => (st, None)
  | FromCache g => (st, Some g)
  | FromLoader =>
    match outcome with
    | None => (st, None)
    | Some raw =>
      match assetGet (id section) (sectionAssets st) with
      | Some asset =>
        let g := preprocessGeometry raw (asset_path asset) in
        (set_sectionAssets
           (assetSet (id section)
                     {| asset_path := asset_path asset;
                        asset_geometry := Some g;
                        asset_morphArray := asset_morphArray asset |}
                     (sectionAssets st)) st,
         Some g)
      | None => (st, Some (preprocessGeometry raw (modelPath section)))
      end
    end
  end.

(** The chain itself, in order: the answer of [ensureSectionGeometry]; the
    body of [ensureSectionMorphTarget]; and for a chain started by
    [startSectionTransition] its [.then] (which sets [morphReady]) on
    success or its [.catch] (which clears it) on failure, after which the
    promise is fulfilled either way. *)
Definition settleChain (handle : nat) (outcome : option Geometry) (ld : Load)
  (st : State) : State :=
  let resolved := resolveGeometry ld outcome st in
  let morphed :=
    match snd resolved with
    | Some g => ensureSectionMorphTarget_then (load_section ld) g (fst resolved)
    | None => (fst resolved, false)
    end in
  let ok := snd morphed in
  let st := fst morphed in
  let st := if load_guarded ld then onSectionState (set_morphReady ok) st else st in
  let fulfilled := if load_guarded ld then true else ok in
  set_loads
    (updateLoad handle
                (set_load_status (if fulfilled then Fulfilled else Rejected))
                (loads st)) st.

(** Settle the chain [handle], then run the handlers of [beginSectionLoad]
    if they are attached. *)
Definition settleLoad (handle : nat) (outcome : option Geometry) (st : State) : State :=
  match nth_error (loads st) handle with
  | None => st
  | Some ld =>
    match load_status ld with
    | Pending => runLoadHandler handle (settleChain handle outcome ld st)
    | _ => st
    end
  end.

(** A chain that can run without the loader: one that does not wait for it
    and is not settled yet, or a settled one whose handlers were attached
    afterwards. *)
Definition runnable (ld : Load) : bool :=
  match load_status ld, load_source ld, load_handler ld with
  | Pending, FromLoader, _ => false
  | Pending, _, _ => true
  | _, _, Attached => true
  | _, _, _ => false
  end.

Fixpoint firstRunnable (ls : list Load) (handle : nat) : option nat :=
  match ls with
  | [] => None
  | l :: rest => if runnable l then Some handle else firstRunnable rest (S handle)
  end.

(** Drain the microtask queue. *)
Fixpoint runMicrotasks (fuel : nat) (st : State) : State :=
  match fuel with
  | O => st
  | S n =>
    match firstRunnable (loads st) 0 with
    | None => st
    | Some handle =>
      match nth_error (loads st) handle with
      | Some ld =>
        match load_status ld with
        | Pending => runMicrotasks n (settleLoad handle None st)
        | _ => runMicrotasks n (runLoadHandler handle st)
        end
      | None => st
      end
    end
  end.

(** What the browser delivers to the page. *)
Inductive Event :=
| Wheel (deltaY : Q)                                   (* 'wheel' listener *)
| TouchMove (deltaY : Q)                               (* handleTouchMove *)
| LoaderFinished (handle : nat) (outcome : option Geometry).

Definition handleEvent (ev : Event) (st : State) : State :=
  match ev with
  | Wheel deltaY =>
    if Qeq_bool deltaY 0 then st else applyScrollDelta deltaY false st
  | TouchMove deltaY => applyScrollDelta deltaY true st
  | LoaderFinished handle outcome =>
    match nth_error (loads st) handle with
    | Some ld =>
      match load_source ld with
      | FromLoader => settleLoad handle outcome st
      | _ => st
      end
    | None => st
    end
  end.

(** One task of the event loop: the handler, then the microtasks. *)
Definition dispatch (ev : Event) (st : State) : State :=
  runMicrotasks 64 (handleEvent ev st).

Definition run (evs : list Event) (st : State) : State :=
  fold_left (fun s ev => dispatch ev s) evs st.

(** *** Building the displayed cloud *)

Definition buildPoints (st : State) : State :=
  match originalGeom st with
  | None => st
  | Some _ =>
    match createPointGeometry (originalGeom st) (morphTargetOriginal st) (keepRatio st) with
    | None => st
    | Some g =>
      let st :=
        match points st with
        | None => set_points (Some {| geometry := g; placement := getDefaultTransform |}) st
        | Some pts => set_points (Some {| geometry := g; placement := placement pts |}) st
        end in
      let st := setScatterAmplitude (scatterAmp st) true st in
      match position g with
      | None => st
      | Some posAttr =>
        let st := set_baseVertexCount (count posAttr) st in
        let st := refreshAllMorphTargets st in
        match currentSectionId st with
        | None => st
        | Some cur =>
          match assetGet cur (sectionAssets st) with
          | None => st
          | Some asset =>
            let st :=
              set_sectionAssets
                (assetSet cur
                          {| asset_path := asset_path asset;
                             asset_geometry := originalGeom st;
                             asset_morphArray := Some (array posAttr) |}
                          (sectionAssets st)) st in
            set_points (setPointsMorphTarget (Some (array posAttr)) (points st)) st
          end
        end
      end
    end
  end.

(** The page once [bootstrapSections] has displayed the first section from
    the cloud [cloud]: idle, ready, the camera on the first section's pose,
    nothing in flight. *)
Definition displayedState (cloud : Geometry) (ratio : Q) : State :=
  let first := getSectionByIndex 0 in
  let rest :=
    orElse (orElseOpt (match first with
                       | Some s => match transition s with
                                   | Some t => cfg_scatterIn t | None => None end
                       | None => None end)
                      (cfg_scatterIn SECTION_TRANSITION)) (4 # 100) in
  let st :=
    {| sectionState :=
         {| index := 0; phase := idle; phaseElapsed := 0; transitionElapsed := 0;
            rotationStart := 0; rotationMid := 0; rotationTarget := 0;
            rotationDuration := orElse (cfg_spinDuration SECTION_TRANSITION) (36 # 10);
            wheelAccumulator := 0; pendingIndex := 0; pendingPromise := None;
            scatterRest := rest;
            spinTurns := orElse (cfg_spinTurns SECTION_TRANSITION) 1;
            isReady := true; direction := 1; nextIndex := 0; nextSection := None;
            transitionProgress := 0; pendingScrollCarry := 0;
            scatterOut := orElse (cfg_scatterOut SECTION_TRANSITION) (32 # 100);
            nextScatterRest := orElse (cfg_scatterIn SECTION_TRANSITION) (4 # 100);
            cameraStartPose := None; cameraEndPose := None; morphReady := false |};
       cameraPathT := 0; cameraPathTarget := 0;
       cameraYawOffsetDeg := -20; cameraPitchOffsetDeg := -10;
       groupRotationY := 0;
       scatterAmp := clamp rest 0 1; scatterGoal := clamp rest 0 1;
       morphProgress := 0; morphUniformValue := 0;
       textOpacityTarget := 1; textOpacityValue := 1;
       scrollTweenState := mkTargets 0 rest 0 0 getDefaultTransform;
       scrollTargetsCurrent := mkTargets 0 rest 0 0 getDefaultTransform;
       scrollTween := None;
       backgroundTransition :=
         {| bg_active := false; bg_from := None; bg_to := None;
            bg_progress := 0; bg_tween := None |};
       backgroundGradient :=
         match first with
         | Some s => orElse (background s) initialBackgroundGradient
         | None => initialBackgroundGradient
         end;
       points := None;
       sectionAssets := initialSectionAssets;
       currentSectionId := match first with Some s => Some (id s) | None => None end;
       baseSampleFractions := None; baseVertexCount := 0;
       originalGeom := Some cloud; morphTargetOriginal := Some cloud;
       keepRatio := ratio;
       currentModelPath := match first with Some s => modelPath s | None => EmptyString end;
       loads := [] |} in
  let st := buildPoints st in
  let st := setSectionCameraPose first true st in
  let st := onSectionState (set_cameraStartPose (Some (getCurrentCameraPose st))) st in
  onSectionState (set_cameraEndPose (Some (getCurrentCameraPose st))) st.

(** The coordinates of a buffer, in lowest terms. *)
Definition coordinates (attr : option BufferAttribute) : option (list Q) :=
  match attr with
  | Some a => Some (map Qred (array a))
  | None => None
  end.

(** The buffer of base positions of the displayed cloud. *)
Definition pointsPosition (st : State) : option BufferAttribute :=
  match points st with
  | Some pts => position (geometry pts)
  | None => None
  end.

(** The displayed morph buffer: the [morphTarget] and [morphColor]
  attributes of the point geometry. *)
Definition morphBuffer (st : State) : option BufferAttribute * option BufferAttribute :=
  match points st with
  | Some pts => (morphTarget (geometry pts), morphColor (geometry pts))
  | None => (None, None)
  end.


(** The camera pose that [updateCameraPose] writes at blend value [t]. *)
Definition poseAt (start end_ : Pose) (t : Q) : Pose :=
  {| pathT := clamp (lerp (pathT start) (pathT end_) t) 0 1;
     yaw := lerp (yaw start) (yaw end_) t;
     pitch := lerp (pitch start) (pitch end_) t |}.

(** Two poses with equal numbers. *)
Definition Pose_eq (a b : Pose) : Prop :=
  pathT a == pathT b /\ yaw a == yaw b /\ pitch a == pitch b.

(** The blend value of the camera in each phase. *)
Definition cameraBlend (ss : SectionState) : Q :=
  match phase ss with
  | fadeOut => easeInOutCubic (transitionProgress ss)
  | _ => 1
  end.

(** *** Playback of the GSAP tweens

    [gsap.to(scrollTweenState, tweenProps)] and
    [gsap.to(backgroundTransition.state, { progress })] are played by GSAP's
    ticker: at every tick the tween sets each of its properties to a value
    on the line from where the property is to the end value of the tween,
    all properties by the same ratio, and then calls [onUpdate].  [ratio] is
    the part of the remaining way one tick covers; it depends on the time
    and on the ease and is left open (1 completes the tween). *)
Definition lerpTweenVals (a b : TweenVals) (t : Q) : TweenVals :=
  mkTargets (lerp (tw_rotation a) (tw_rotation b) t)
            (lerp (tw_scatter a) (tw_scatter b) t)
            (lerp (tw_morph a) (tw_morph b) t)
            (lerp (tw_colorMix a) (tw_colorMix b) t)
            (lerpTransform (tw_transform a) (tw_transform b) t).

(** One tick of [scrollTween]; [onUpdate] is [applyScrollTweenState]. *)
Definition playScrollTween (ratio : Q) (st : State) : State :=
  match scrollTween st with
  | None => st
  | Some targets =>
    applyScrollTweenState
      (set_scrollTweenState (lerpTweenVals (scrollTweenState st) targets ratio) st)
  end.

(** One tick of [backgroundTransition.tween]; [onUpdate] is
    [applyBackgroundBlend(backgroundTransition.state.progress)]. *)
Definition playBackgroundTween (ratio : Q) (st : State) : State :=
  let bt := backgroundTransition st in
  match bg_tween bt with
  | None => st
  | Some target =>
    let progress := lerp (bg_progress bt) target ratio in
    applyBackgroundBlend progress
      (set_backgroundTransition
         {| bg_active := bg_active bt; bg_from := bg_from bt; bg_to := bg_to bt;
            bg_progress := progress; bg_tween := bg_tween bt |} st)
  end.

(** *** Runs inside one fade-out

    What can happen between the start of a fade-out and its end while the
    machine stays in that fade-out: a scroll event that neither cancels nor
    completes it, the settling of a promise chain that [beginSectionLoad] is
    not waiting for, the call of [updateSectionTransition] from the
    animation frame, and a tick of either GSAP tween, which turns the cloud
    and blends the background. *)
Inductive fadeOutStep : State -> State -> Prop :=
| step_scroll (delta : Q) (isTouch : bool) (st : State) :
    phase (sectionState st) = fadeOut ->
    phase (sectionState (applyScrollDelta delta isTouch st)) = fadeOut ->
    fadeOutStep st (applyScrollDelta delta isTouch st)
| step_settle (handle : nat) (outcome : option Geometry) (ld : Load) (st : State) :
    nth_error (loads st) handle = Some ld ->
    load_handler ld <> Attached ->
    fadeOutStep st (settleLoad handle outcome st)
| step_frame (st : State) :
    fadeOutStep st (updateSectionTransition st)
| step_scrollTween (ratio : Q) (st : State) :
    fadeOutStep st (playScrollTween ratio st)
| step_backgroundTween (ratio : Q) (st : State) :
    fadeOutStep st (playBackgroundTween ratio st).

Inductive fadeOutRun (start : State) : State -> Prop :=
| run_here : fadeOutRun start start
| run_more (st st' : State) :
    fadeOutRun start st -> fadeOutStep st st' -> fadeOutRun start st'.

(** What a fade-out keeps of the state [origin] it started from: the
    snapshot of rotation and camera pose, the section index, the base
    positions, and either the start colours of the running blend or, with no
    blend, the gradient itself. *)
Definition fadeOutKeeps (origin st : State) : Prop :=
  phase (sectionState st) = fadeOut /\
  rotationStart (sectionState st) = groupRotationY origin /\
  cameraStartPose (sectionState st) = Some (getCurrentCameraPose origin) /\
  index (sectionState st) = index (sectionState origin) /\
  pointsPosition st = pointsPosition origin /\
  ((bg_active (backgroundTransition st) = true /\
    bg_from (backgroundTransition st) = Some (backgroundGradient origin)) \/
   (bg_active (backgroundTransition st) = false /\
    backgroundGradient st = backgroundGradient origin)).

(** *** Bounds of the transition state *)

(** The transition progress is a fraction, the pending carry is not
    negative, and the displayed and the target section index are indices of
    [sections]. *)
Definition withinBounds (st : State) : Prop :=
  0 <= transitionProgress (sectionState st) <= 1 /\
  0 <= pendingScrollCarry (sectionState st) /\
  (0 <= index (sectionState st) < getSectionCount)%Z /\
  (0 <= nextIndex (sectionState st) < getSectionCount)%Z.

(** *** Sizes of the displayed buffers *)

(** The length and the item size of an attribute buffer. *)
Definition attrSize (attr : option BufferAttribute) : option (nat * Z) :=
  match attr with
  | Some a => Some (length (array a), itemSize a)
  | None => None
  end.

(** The sizes of the four attribute buffers of the displayed cloud. *)
Definition bufferSizes (st : State)
  : option (option (nat * Z) * option (nat * Z) * option (nat * Z) * option (nat * Z)) :=
  match points st with
  | Some pts =>
    Some (attrSize (position (geometry pts)), attrSize (color (geometry pts)),
          attrSize (morphTarget (geometry pts)), attrSize (morphColor (geometry pts)))
  | None => None
  end.

(** The geometry of the displayed cloud, if a cloud is displayed. *)
Definition displayedGeometry (st : State) : option Geometry :=
  match points st with
  | Some pts => Some (geometry pts)
  | None => None
  end.

(** What the commit of a transition works on: the displayed geometry, the
    asset cache and the id of the current section. *)
Definition cloudCore (st : State)
  : option Geometry * list (string * Asset) * option string :=
  (displayedGeometry st, sectionAssets st, currentSectionId st).

(** *** Displayed fractions *)

(** The values the renderer reads as fractions: the scatter amplitude and
    its target, the morph progress and the morph uniform, the text opacity
    target and value, and the position of the camera on its path with its
    target. *)
Definition displayedFractions (st : State) : list Q :=
  [scatterAmp st; scatterGoal st; morphProgress st; morphUniformValue st;
   textOpacityTarget st; textOpacityValue st; cameraPathTarget st; cameraPathT st].

Definition fractionsInRange (st : State) : Prop :=
  Forall (fun v => 0 <= v <= 1) (displayedFractions st).

(** *** The render loop *)

Definition CAMERA_PATH_LERP_SPEED : Q := 16 # 10.
Definition MORPH_LERP_SPEED : Q := 4.
Definition TEXT_FADE_SPEED : Q := 4.

(** The blocks of [animate()], in the order of the source.  [dt] is the
    time in seconds since the previous frame. *)

(** The camera moves along its path toward [cameraPathTarget]. *)
Definition animateCameraPath (dt : Q) (st : State) : State :=
  if Qlt_bool (1 # 10000) (Qabs (cameraPathTarget st - cameraPathT st)) then
    let diff := cameraPathTarget st - cameraPathT st in
    let step := diff * Qmin 1 (CAMERA_PATH_LERP_SPEED * dt) in
    set_cameraPathT (clamp (cameraPathT st + step) 0 1) st
  else st.

(** The uniform [uMorphFactor] follows [morphProgress]; a displayed cloud
    has that uniform. *)
Definition animateMorphFactor (dt : Q) (st : State) : State :=
  match points st with
  | Some _ =>
    let diff := morphProgress st - morphUniformValue st in
    if Qlt_bool (1 # 10000) (Qabs diff)
    then set_morphUniformValue
           (morphUniformValue st + diff * Qmin 1 (MORPH_LERP_SPEED * dt)) st
    else set_morphUniformValue (morphProgress st) st
  | None => st
  end.

(** The scatter amplitude follows [scatterGoal]; [scatterSpeed] is
    [SECTION_TRANSITION.scatterSpeed], from which [SCATTER_EASE_SPEED] is
    read. *)
Definition animateScatter (scatterSpeed : option Q) (dt : Q) (st : State) : State :=
  if Qlt_bool (1 # 10000) (Qabs (scatterGoal st - scatterAmp st)) then
    let delta := scatterGoal st - scatterAmp st in
    let step := delta * Qmin 1 (orElse scatterSpeed (45 # 10) * dt) in
    setScatterAmplitude (scatterAmp st + step) false st
  else st.

(** The text opacity follows its target; [floatingTextEl] says whether the
    page has the element [#floating-text]. *)
Definition animateTextOpacity (floatingTextEl : bool) (dt : Q) (st : State) : State :=
  if floatingTextEl then
    let diff := textOpacityTarget st - textOpacityValue st in
    if Qlt_bool (1 # 1000) (Qabs diff)
    then set_textOpacityValue
           (textOpacityValue st + diff * Qmin 1 (TEXT_FADE_SPEED * dt)) st
    else set_textOpacityValue (textOpacityTarget st) st
  else st.

(** One call of [animate()]. *)
Definition animate (scatterSpeed : option Q) (floatingTextEl : bool) (dt : Q)
           (st : State) : State :=
  let st := animateCameraPath dt st in
  let st := animateMorphFactor dt st in
  let st := updateSectionTransition st in
  let st := animateScatter scatterSpeed dt st in
  animateTextOpacity floatingTextEl dt st.

(** What happens on the page: the browser delivers an event, or a frame is
    rendered [dt] seconds after the previous one. *)
Inductive Tick :=
| Input (ev : Event)
| Frame (dt : Q).

Definition tick (scatterSpeed : option Q) (floatingTextEl : bool) (t : Tick)
           (st : State) : State :=
  match t with
  | Input ev => dispatch ev st
  | Frame dt => animate scatterSpeed floatingTextEl dt st
  end.

Definition runTicks (scatterSpeed : option Q) (floatingTextEl : bool)
           (ticks : list Tick) (st : State) : State :=
  fold_left (fun s t => tick scatterSpeed floatingTextEl t s) ticks st.

(** No frame goes back in time. *)
Definition forwardInTime (ticks : list Tick) : Prop :=
  Forall (fun t => match t with Frame dt => 0 <= dt | Input _ => True end) ticks.

(** *** Coherence of the phase, the target and the promises *)

(** What a promise chain of the machine looks like: it is the guarded
    preload of [startSectionTransition], it is not rejected, and once the
    handlers of [beginSectionLoad] have run on it, it is fulfilled. *)
Definition soundLoad (ld : Load) : Prop :=
  load_guarded ld = true /\
  load_status ld <> Rejected /\
  (load_handler ld = Ran -> load_status ld = Fulfilled).

(** The transition state [ss] and the promise chains [ls] fit together:
    at rest nothing is in flight, in flight there is a target section and a
    pending promise that exists, and handlers are attached only to the
    pending promise of a loading phase. *)
Definition coherentOf (ss : SectionState) (ls : list Load) : Prop :=
  phase ss <> boot /\
  Forall soundLoad ls /\
  (phase ss = idle ->
   nextSection ss = None /\ pendingPromise ss = None /\ transitionProgress ss = 0) /\
  (phase ss <> idle ->
   nextSection ss <> None /\
   exists p, pendingPromise ss = Some p /\ (p < length ls)%nat) /\
  (forall handle ld,
     nth_error ls handle = Some ld -> load_handler ld = Attached ->
     phase ss = loading /\ pendingPromise ss = Some handle).

Definition coherent (st : State) : Prop :=
  coherentOf (sectionState st) (loads st).

(** No handler waits on any chain. *)
Definition quiet (ls : list Load) : Prop :=
  forall handle ld, nth_error ls handle = Some ld -> load_handler ld <> Attached.

(** The part of the transition state that coherence reads. *)
Definition coherenceCore (ss : SectionState) :=
  (phase ss, nextSection ss, pendingPromise ss, transitionProgress ss).

(** *** Waiting for the load

    The machine is in the loading phase and waits for promise [p]: the
    chain behind it is the one [startSectionTransition] started (it ends in
    a [.catch] and cannot reject), it is not settled yet, and
    [beginSectionLoad] has attached its [.then(...).catch(...)] to it. *)
Definition awaitingLoad (p : nat) (st : State) : Prop :=
  phase (sectionState st) = loading /\
  pendingPromise (sectionState st) = Some p /\
  exists chain,
    nth_error (loads st) p = Some chain /\
    load_status chain = Pending /\
    load_guarded chain = true /\
    load_handler chain = Attached.

(** * Properties *)

(** ** Numbers *)

Lemma Qlt_bool_iff a b : Qlt_bool a b = true <-> a < b.
Proof.
  unfold Qlt_bool. rewrite negb_true_iff. split; intro H.
  - apply Qnot_le_lt. intro L. apply Qle_bool_iff in L. congruence.
  - destruct (Qle_bool b a) eqn:E; [|reflexivity].
    apply Qle_bool_iff in E. exfalso. apply (Qlt_not_le _ _ H E).
Qed.

Lemma Qlt_bool_false a b : Qlt_bool a b = false <-> b <= a.
Proof.
  unfold Qlt_bool. rewrite negb_false_iff. apply Qle_bool_iff.
Qed.

Lemma Qle_bool_false a b : Qle_bool a b = false <-> b < a.
Proof.
  split; intro H.
  - apply Qnot_le_lt. intro L. apply Qle_bool_iff in L. congruence.
  - destruct (Qle_bool a b) eqn:E; [|reflexivity].
    apply Qle_bool_iff in E. exfalso. apply (Qlt_not_le _ _ H E).
Qed.

Lemma clamp_bounds v lo hi : lo <= hi -> lo <= clamp v lo hi /\ clamp v lo hi <= hi.
Proof.
  intro H. unfold clamp. split.
  - apply Q.le_max_l.
  - apply Q.max_lub; [exact H | apply Q.le_min_l].
Qed.

Lemma clamp_id v lo hi : lo <= v -> v <= hi -> clamp v lo hi == v.
Proof.
  intros H1 H2. unfold clamp.
  rewrite (Q.min_r hi v H2). apply Q.max_r. exact H1.
Qed.

Lemma lerp_0 x y : lerp x y 0 == x.
Proof. unfold lerp. ring. Qed.

Lemma lerp_1 x y : lerp x y 1 == y.
Proof. unfold lerp. ring. Qed.

Lemma lerp_same x t : lerp x x t == x.
Proof. unfold lerp. ring. Qed.


(** ** IEEE 754 rounding *)

(** *** Powers of two *)

Lemma two_nonzero : ~ 2 == 0.
Proof. lra. Qed.

Lemma pow2_pos e : 0 < pow2 e.
Proof. apply Qpower_0_lt. lra. Qed.

Lemma pow2_plus a b : pow2 (a + b) == pow2 a * pow2 b.
Proof. apply Qpower_plus, two_nonzero. Qed.

Lemma pow2_succ e : pow2 (e + 1) == 2 * pow2 e.
Proof. rewrite pow2_plus. unfold pow2 at 2. rewrite Qpower_1_r. ring. Qed.

Lemma pow2_le a b : (a <= b)%Z -> pow2 a <= pow2 b.
Proof. intro H. apply Qpower_le_compat_l; [exact H | lra]. Qed.

Lemma pow2_lt a b : (a < b)%Z -> pow2 a < pow2 b.
Proof. intro H. apply Qpower_lt_compat_l; [exact H | lra]. Qed.

Lemma pow2_lt_inv a b : pow2 a < pow2 b -> (a < b)%Z.
Proof. intro H. apply (Qpower_lt_compat_l_inv 2); [exact H | lra]. Qed.

Lemma pow2_inject k : (0 <= k)%Z -> inject_Z (2 ^ k) == pow2 k.
Proof. intro H. apply Zpower_Qpower, H. Qed.

Lemma pow2_0 : pow2 0 == 1.
Proof. reflexivity. Qed.

(** *** The binade *)

Lemma Q_as_quotient x : x * inject_Z (Zpos (Qden x)) == inject_Z (Qnum x).
Proof.
  destruct x as [n d]. unfold Qeq, Qmult, inject_Z. simpl. lia.
Qed.

Lemma Qnum_pos x : 0 < x -> (0 < Qnum x)%Z.
Proof. destruct x as [n d]. unfold Qlt. simpl. lia. Qed.

Lemma log2_bounds n : (0 < n)%Z ->
  pow2 (Z.log2 n) <= inject_Z n < 2 * pow2 (Z.log2 n).
Proof.
  intro H. destruct (Z.log2_spec n H) as [L U].
  pose proof (Z.log2_nonneg n) as P.
  rewrite <- pow2_succ, <- !pow2_inject by lia.
  rewrite <- Zle_Qle, <- Zlt_Qlt.
  replace (Z.log2 n + 1)%Z with (Z.succ (Z.log2 n)) by lia. lia.
Qed.

Lemma binade_spec x : 0 < x -> pow2 (binade x) <= x < pow2 (binade x + 1).
Proof.
  intro H. unfold binade.
  pose proof (Qnum_pos x H) as Hn.
  destruct (log2_bounds (Qnum x) Hn) as [Ln Un].
  destruct (log2_bounds (Zpos (Qden x)) eq_refl) as [Ld Ud].
  pose proof (Q_as_quotient x) as E.
  set (a := Z.log2 (Qnum x)) in *. set (b := Z.log2 (Zpos (Qden x))) in *.
  assert (P : pow2 (a - b) * pow2 b == pow2 a).
  { rewrite <- pow2_plus. replace (a - b + b)%Z with a by lia. reflexivity. }
  pose proof (pow2_pos (a - b)) as Pe. pose proof (pow2_pos b) as Pb.
  set (N := inject_Z (Qnum x)) in *. set (D := inject_Z (Zpos (Qden x))) in *.
  set (Pa := pow2 a) in *. set (Pbv := pow2 b) in *. set (Ev := pow2 (a - b)) in *.
  assert (Up : x < 2 * Ev) by nra.
  assert (Lo : Ev < 2 * x) by nra.
  destruct (Qle_bool Ev x) eqn:T.
  - apply Qle_bool_iff in T. split; [exact T|]. rewrite pow2_succ. exact Up.
  - apply Qle_bool_false in T.
    replace (a - b - 1 + 1)%Z with (a - b)%Z by lia. fold Ev.
    split; [|exact T].
    assert (S : pow2 (a - b - 1 + 1) == 2 * pow2 (a - b - 1)) by apply pow2_succ.
    replace (a - b - 1 + 1)%Z with (a - b)%Z in S by lia. fold Ev in S. lra.
Qed.

Lemma binade_unique x e : pow2 e <= x -> x < pow2 (e + 1) -> binade x = e.
Proof.
  intros L U.
  assert (H : 0 < x) by (pose proof (pow2_pos e); lra).
  destruct (binade_spec x H) as [L' U'].
  assert (A : (e < binade x + 1)%Z) by (apply pow2_lt_inv; lra).
  assert (B : (binade x < e + 1)%Z) by (apply pow2_lt_inv; lra).
  lia.
Qed.

Lemma binade_comp x y : 0 < x -> x == y -> binade x = binade y.
Proof.
  intros H E. symmetry. destruct (binade_spec x H) as [L U].
  apply binade_unique; rewrite <- E; assumption.
Qed.

Lemma binade_mono x y : 0 < x -> x <= y -> (binade x <= binade y)%Z.
Proof.
  intros H L. destruct (binade_spec x H) as [Lx Ux].
  destruct (binade_spec y ltac:(lra)) as [Ly Uy].
  assert (A : (binade x < binade y + 1)%Z) by (apply pow2_lt_inv; lra).
  lia.
Qed.

Lemma binade_below x e : 0 < x -> x < pow2 e -> (binade x < e)%Z.
Proof.
  intros H U. destruct (binade_spec x H) as [L _].
  apply pow2_lt_inv. lra.
Qed.

(** *** Rounding to the nearest integer *)

Lemma roundHalfEven_cases x :
  (roundHalfEven x = Qfloor x /\ x - inject_Z (Qfloor x) <= 1 # 2) \/
  (roundHalfEven x = (Qfloor x + 1)%Z /\ 1 # 2 <= x - inject_Z (Qfloor x)).
Proof.
  unfold roundHalfEven. cbv zeta.
  destruct (Qlt_bool (x - inject_Z (Qfloor x)) (1 # 2)) eqn:A.
  - apply Qlt_bool_iff in A. left. split; [reflexivity | lra].
  - apply Qlt_bool_false in A.
    destruct (Qlt_bool (1 # 2) (x - inject_Z (Qfloor x))) eqn:B.
    + right. split; [reflexivity | exact A].
    + apply Qlt_bool_false in B.
      destruct (Z.even (Qfloor x)); [left | right]; split;
        try reflexivity; assumption.
Qed.

Lemma floor_bounds x : inject_Z (Qfloor x) <= x < inject_Z (Qfloor x) + 1.
Proof.
  split; [apply Qfloor_le|].
  pose proof (Qlt_floor x) as H. rewrite inject_Z_plus in H. exact H.
Qed.

Lemma roundHalfEven_error x :
  - (1 # 2) <= inject_Z (roundHalfEven x) - x <= 1 # 2.
Proof.
  pose proof (floor_bounds x) as [L U].
  destruct (roundHalfEven_cases x) as [[-> H] | [-> H]].
  - lra.
  - rewrite inject_Z_plus. change (inject_Z 1) with 1. lra.
Qed.

Lemma roundHalfEven_Z k : roundHalfEven (inject_Z k) = k.
Proof.
  unfold roundHalfEven. rewrite Qfloor_Z. cbv zeta.
  replace (Qlt_bool (inject_Z k - inject_Z k) (1 # 2)) with true; [reflexivity|].
  symmetry. apply Qlt_bool_iff. lra.
Qed.

Lemma Qlt_bool_comp a a' b b' : a == a' -> b == b' -> Qlt_bool a b = Qlt_bool a' b'.
Proof.
  intros Ea Eb. destruct (Qlt_bool a' b') eqn:T.
  - apply Qlt_bool_iff. apply Qlt_bool_iff in T. lra.
  - apply Qlt_bool_false. apply Qlt_bool_false in T. lra.
Qed.

Lemma roundHalfEven_comp x y : x == y -> roundHalfEven x = roundHalfEven y.
Proof.
  intro E. unfold roundHalfEven. rewrite (Qfloor_comp x y E). cbv zeta.
  rewrite (Qlt_bool_comp (x - inject_Z (Qfloor y)) (y - inject_Z (Qfloor y))
                         (1 # 2) (1 # 2)) by lra.
  rewrite (Qlt_bool_comp (1 # 2) (1 # 2)
                         (x - inject_Z (Qfloor y)) (y - inject_Z (Qfloor y))) by lra.
  reflexivity.
Qed.

Lemma roundHalfEven_mono x y : x <= y -> (roundHalfEven x <= roundHalfEven y)%Z.
Proof.
  intro H. pose proof (Qfloor_resp_le x y H) as F.
  destruct (Z.eq_dec (Qfloor x) (Qfloor y)) as [E | N].
  - unfold roundHalfEven. cbv zeta. rewrite E.
    destruct (Qlt_bool (x - inject_Z (Qfloor y)) (1 # 2)) eqn:A.
    + destruct (Qlt_bool (y - inject_Z (Qfloor y)) (1 # 2));
        [lia|]. destruct (Qlt_bool (1 # 2) (y - inject_Z (Qfloor y))); [lia|].
      destruct (Z.even (Qfloor y)); lia.
    + apply Qlt_bool_false in A.
      replace (Qlt_bool (y - inject_Z (Qfloor y)) (1 # 2)) with false
        by (symmetry; apply Qlt_bool_false; lra).
      destruct (Qlt_bool (1 # 2) (x - inject_Z (Qfloor y))) eqn:B.
      * apply Qlt_bool_iff in B.
        replace (Qlt_bool (1 # 2) (y - inject_Z (Qfloor y))) with true
          by (symmetry; apply Qlt_bool_iff; lra).
        lia.
      * destruct (Qlt_bool (1 # 2) (y - inject_Z (Qfloor y))).
        -- destruct (Z.even (Qfloor y)); lia.
        -- lia.
  - destruct (roundHalfEven_cases x) as [[-> _] | [-> _]];
      destruct (roundHalfEven_cases y) as [[-> _] | [-> _]]; lia.
Qed.

Lemma Qred_inject_Z k : Qred (inject_Z k) = inject_Z k.
Proof.
  pose proof (Qred_correct (inject_Z k)) as C.
  pose proof (gcd_Qred (inject_Z k)) as G.
  destruct (Qred (inject_Z k)) as [n d]. unfold Qeq in C. simpl in C, G.
  assert (E : n = (k * Zpos d)%Z) by lia. subst n.
  rewrite Z.mul_comm, Z.gcd_comm, Z.gcd_mul_diag_l in G by lia.
  injection G as ->. unfold inject_Z. f_equal. lia.
Qed.

(** *** Rounding to [p] significant bits *)

Section Rounding.

Variable p : Z.
Hypothesis precision : (1 <= p)%Z.

Lemma ulp_scale b : pow2 (b - (p - 1)) * pow2 (p - 1) == pow2 b.
Proof.
  rewrite <- pow2_plus. replace (b - (p - 1) + (p - 1))%Z with b by lia.
  reflexivity.
Qed.

Lemma significand_bounds x : 0 < x ->
  pow2 (p - 1) <= x / pow2 (binade x - (p - 1)) < pow2 p.
Proof.
  intro H. destruct (binade_spec x H) as [L U].
  pose proof (pow2_pos (binade x - (p - 1))) as Pu.
  pose proof (ulp_scale (binade x)) as S.
  assert (S' : pow2 (binade x + 1) == pow2 (binade x - (p - 1)) * pow2 p).
  { rewrite <- pow2_plus. replace (binade x - (p - 1) + p)%Z with (binade x + 1)%Z by lia.
    reflexivity. }
  split.
  - apply Qle_shift_div_l; [exact Pu|]. lra.
  - apply Qlt_shift_div_r; [exact Pu|]. lra.
Qed.

Lemma significand_rounded x : 0 < x ->
  (2 ^ (p - 1) <= roundHalfEven (x / pow2 (binade x - (p - 1))) <= 2 ^ p)%Z.
Proof.
  intro H. destruct (significand_bounds x H) as [L U].
  rewrite <- (pow2_inject (p - 1)) in L by lia.
  rewrite <- (pow2_inject p) in U by lia.
  split.
  - rewrite <- (roundHalfEven_Z (2 ^ (p - 1))). apply roundHalfEven_mono, L.
  - rewrite <- (roundHalfEven_Z (2 ^ p)). apply roundHalfEven_mono. lra.
Qed.

Lemma roundPositive_bounds x : 0 < x ->
  pow2 (binade x) <= roundPositive p x <= pow2 (binade x + 1).
Proof.
  intro H. destruct (significand_rounded x H) as [L U].
  unfold roundPositive. cbv zeta.
  pose proof (pow2_pos (binade x - (p - 1))) as Pu.
  pose proof (ulp_scale (binade x)) as S.
  assert (S' : pow2 (binade x + 1) == pow2 (binade x - (p - 1)) * pow2 p).
  { rewrite <- pow2_plus. replace (binade x - (p - 1) + p)%Z with (binade x + 1)%Z by lia.
    reflexivity. }
  rewrite Zle_Qle in L. rewrite Zle_Qle in U.
  rewrite (pow2_inject (p - 1)) in L by lia. rewrite (pow2_inject p) in U by lia.
  set (m := inject_Z (roundHalfEven (x / pow2 (binade x - (p - 1))))) in *.
  split; nra.
Qed.

Lemma roundPositive_pos x : 0 < x -> 0 < roundPositive p x.
Proof.
  intro H. destruct (roundPositive_bounds x H) as [L _].
  pose proof (pow2_pos (binade x)). lra.
Qed.

(** The result is within half a unit in the last place. *)
Lemma roundPositive_error x : 0 < x ->
  Qabs (roundPositive p x - x) <= pow2 (binade x - p).
Proof.
  intro H. unfold roundPositive. cbv zeta.
  pose proof (pow2_pos (binade x - (p - 1))) as Pu.
  assert (S : pow2 (binade x - (p - 1)) == 2 * pow2 (binade x - p)).
  { rewrite <- pow2_succ. replace (binade x - p + 1)%Z with (binade x - (p - 1))%Z by lia.
    reflexivity. }
  assert (X : x == x / pow2 (binade x - (p - 1)) * pow2 (binade x - (p - 1))).
  { field. lra. }
  pose proof (roundHalfEven_error (x / pow2 (binade x - (p - 1)))) as [L U].
  set (m := x / pow2 (binade x - (p - 1))) in *.
  set (r := inject_Z (roundHalfEven m)) in *.
  set (u := pow2 (binade x - (p - 1))) in *.
  apply Qabs_Qle_condition. split; nra.
Qed.

Lemma roundPositive_comp x y : 0 < x -> x == y ->
  roundPositive p x == roundPositive p y.
Proof.
  intros H E. unfold roundPositive. cbv zeta.
  rewrite <- (binade_comp x y H E).
  rewrite (roundHalfEven_comp (x / pow2 (binade x - (p - 1)))
                              (y / pow2 (binade x - (p - 1)))).
  - reflexivity.
  - apply Qdiv_comp; [exact E | reflexivity].
Qed.

Lemma roundPositive_mono x y : 0 < x -> x <= y ->
  roundPositive p x <= roundPositive p y.
Proof.
  intros H L. assert (Hy : 0 < y) by lra.
  pose proof (binade_mono x y H L) as B.
  destruct (Z.eq_dec (binade x) (binade y)) as [E | N].
  - unfold roundPositive. cbv zeta. rewrite E.
    pose proof (pow2_pos (binade y - (p - 1))) as Pu.
    apply Qmult_le_compat_r; [|lra].
    rewrite <- Zle_Qle. apply roundHalfEven_mono.
    apply Qmult_le_compat_r; [exact L|].
    apply Qlt_le_weak, Qinv_lt_0_compat, Pu.
  - destruct (roundPositive_bounds x H) as [_ U].
    destruct (roundPositive_bounds y Hy) as [L' _].
    pose proof (pow2_le (binade x + 1) (binade y) ltac:(lia)). lra.
Qed.

(** A multiple of the unit in the last place is not changed. *)
Lemma roundPositive_exact x k : 0 < x ->
  x == inject_Z k * pow2 (binade x - (p - 1)) ->
  roundPositive p x == x.
Proof.
  intros H E. unfold roundPositive. cbv zeta.
  pose proof (pow2_pos (binade x - (p - 1))) as Pu.
  rewrite (roundHalfEven_comp _ (inject_Z k)).
  - rewrite roundHalfEven_Z. symmetry. exact E.
  - rewrite E at 1. field. lra.
Qed.

Lemma roundPositive_Z k : (0 < k < 2 ^ p)%Z ->
  roundPositive p (inject_Z k) == inject_Z k.
Proof.
  intros [L U].
  assert (H : 0 < inject_Z k)
    by (replace 0 with (inject_Z 0) by reflexivity; rewrite <- Zlt_Qlt; exact L).
  assert (B : (binade (inject_Z k) < p)%Z).
  { apply binade_below; [exact H|]. rewrite <- pow2_inject by lia.
    rewrite <- Zlt_Qlt. exact U. }
  set (s := (p - 1 - binade (inject_Z k))%Z).
  apply (roundPositive_exact (inject_Z k) (k * 2 ^ s)); [exact H|].
  rewrite inject_Z_mult, pow2_inject by (unfold s; lia).
  rewrite <- Qmult_assoc, <- pow2_plus.
  replace (s + (binade (inject_Z k) - (p - 1)))%Z with 0%Z by (unfold s; lia).
  rewrite pow2_0. ring.
Qed.

Lemma roundTo_positive x : 0 < x -> roundTo p x == roundPositive p x.
Proof.
  intro H. unfold roundTo. rewrite Qred_correct.
  replace (Qlt_bool 0 x) with true by (symmetry; apply Qlt_bool_iff; exact H).
  reflexivity.
Qed.

Lemma roundTo_zero x : x == 0 -> roundTo p x = 0.
Proof.
  intro H. unfold roundTo.
  replace (Qlt_bool 0 x) with false by (symmetry; apply Qlt_bool_false; lra).
  replace (Qlt_bool x 0) with false by (symmetry; apply Qlt_bool_false; lra).
  reflexivity.
Qed.

Lemma roundTo_negative x : x < 0 -> roundTo p x == - roundPositive p (- x).
Proof.
  intro H. unfold roundTo. rewrite Qred_correct.
  replace (Qlt_bool 0 x) with false by (symmetry; apply Qlt_bool_false; lra).
  replace (Qlt_bool x 0) with true by (symmetry; apply Qlt_bool_iff; exact H).
  reflexivity.
Qed.

Lemma roundTo_sign x :
  (0 < x -> 0 < roundTo p x) /\ (x <= 0 -> roundTo p x <= 0).
Proof.
  split; intro H.
  - rewrite (roundTo_positive x H). apply roundPositive_pos, H.
  - destruct (Qlt_le_dec x 0) as [N | Z0].
    + rewrite (roundTo_negative x N).
      pose proof (roundPositive_pos (- x) ltac:(lra)). lra.
    + rewrite (roundTo_zero x) by lra. lra.
Qed.

Lemma roundTo_nonneg x : 0 <= x -> 0 <= roundTo p x.
Proof.
  intro H. destruct (Qlt_le_dec 0 x) as [P | Z0].
  - apply Qlt_le_weak, (proj1 (roundTo_sign x)), P.
  - rewrite (roundTo_zero x) by lra. lra.
Qed.

(** Rounding gives the same number for equal rationals, whatever their
    numerators and denominators. *)
Lemma roundTo_comp x y : x == y -> roundTo p x = roundTo p y.
Proof.
  intro E. unfold roundTo. apply Qred_complete.
  rewrite (Qlt_bool_comp 0 0 x y) by lra.
  rewrite (Qlt_bool_comp x y 0 0) by lra.
  destruct (Qlt_bool 0 y) eqn:A.
  - apply Qlt_bool_iff in A. apply roundPositive_comp; lra.
  - destruct (Qlt_bool y 0) eqn:B; [|reflexivity].
    apply Qlt_bool_iff in B.
    rewrite (roundPositive_comp (- x) (- y)) by lra. reflexivity.
Qed.

Lemma roundTo_mono x y : x <= y -> roundTo p x <= roundTo p y.
Proof.
  intro L.
  destruct (Qlt_le_dec 0 x) as [Px | Nx].
  - rewrite (roundTo_positive x Px), (roundTo_positive y) by lra.
    apply roundPositive_mono; assumption.
  - destruct (Qlt_le_dec 0 y) as [Py | Ny].
    + pose proof (proj2 (roundTo_sign x) Nx).
      pose proof (proj1 (roundTo_sign y) Py). lra.
    + destruct (Qlt_le_dec y 0) as [Hy | Zy].
      * rewrite (roundTo_negative x), (roundTo_negative y) by lra.
        pose proof (roundPositive_mono (- y) (- x) ltac:(lra) ltac:(lra)). lra.
      * rewrite (roundTo_zero y) by lra. apply (proj2 (roundTo_sign x) Nx).
Qed.

(** Integers of at most [p] bits are not changed. *)
Lemma roundTo_Z k : (0 <= k < 2 ^ p)%Z -> roundTo p (inject_Z k) = inject_Z k.
Proof.
  intros [L U]. destruct (Z.eq_dec k 0) as [-> | N].
  - apply roundTo_zero. reflexivity.
  - unfold roundTo.
    replace (Qlt_bool 0 (inject_Z k)) with true.
    + rewrite (Qred_complete _ _ (roundPositive_Z k ltac:(lia))).
      apply Qred_inject_Z.
    + symmetry. apply Qlt_bool_iff.
      replace 0 with (inject_Z 0) by reflexivity. rewrite <- Zlt_Qlt. lia.
Qed.

Lemma roundTo_one x : x == 1 -> roundTo p x = 1.
Proof.
  intro E. rewrite (roundTo_comp x (inject_Z 1) E).
  apply roundTo_Z. split; [lia|]. apply Z.pow_gt_1; lia.
Qed.

(** Below [2^e] the absolute error is at most [2^(e-1-p)]. *)
Lemma roundTo_error x e : 0 <= x -> x < pow2 e ->
  Qabs (roundTo p x - x) <= pow2 (e - 1 - p).
Proof.
  intros L U. destruct (Qlt_le_dec 0 x) as [P | Z0].
  - rewrite (roundTo_positive x P).
    apply Qle_trans with (pow2 (binade x - p)).
    + apply roundPositive_error, P.
    + apply pow2_le. pose proof (binade_below x e P U). lia.
  - rewrite (roundTo_zero x) by lra.
    apply Qabs_Qle_condition. pose proof (pow2_pos (e - 1 - p)). split; lra.
Qed.

(** The relative error is at most [2^-p]. *)
Lemma roundTo_relative x : 0 <= x ->
  Qabs (roundTo p x - x) <= x * pow2 (- p).
Proof.
  intro L. destruct (Qlt_le_dec 0 x) as [P | Z0].
  - rewrite (roundTo_positive x P).
    apply Qle_trans with (pow2 (binade x - p)).
    + apply roundPositive_error, P.
    + replace (binade x - p)%Z with (binade x + - p)%Z by lia.
      rewrite pow2_plus. destruct (binade_spec x P) as [B _].
      pose proof (pow2_pos (- p)). nra.
  - rewrite (roundTo_zero x) by lra.
    apply Qabs_Qle_condition. pose proof (pow2_pos (- p)). split; nra.
Qed.

End Rounding.

(** *** Doubles and singles *)

Lemma double_comp x y : x == y -> double x = double y.
Proof. apply roundTo_comp. Qed.

Lemma double_mono x y : x <= y -> double x <= double y.
Proof. apply roundTo_mono. lia. Qed.

Lemma double_nonneg x : 0 <= x -> 0 <= double x.
Proof. apply roundTo_nonneg. lia. Qed.

Lemma double_nonpos x : x <= 0 -> double x <= 0.
Proof. apply roundTo_sign. lia. Qed.

Lemma double_zero x : x == 0 -> double x = 0.
Proof. apply roundTo_zero. Qed.

Lemma double_one x : x == 1 -> double x = 1.
Proof. apply roundTo_one. lia. Qed.

(** Every integer below [2^53] is a double. *)
Lemma double_Z k : (0 <= k < 2 ^ 53)%Z -> double (inject_Z k) = inject_Z k.
Proof. apply roundTo_Z. lia. Qed.

Lemma double_error x e : 0 <= x -> x < pow2 e ->
  Qabs (double x - x) <= pow2 (e - 1 - 53).
Proof. apply roundTo_error. Qed.

Lemma double_relative x : 0 <= x -> Qabs (double x - x) <= x * pow2 (- 53).
Proof. apply roundTo_relative. Qed.

Lemma fround_comp x y : x == y -> fround x = fround y.
Proof. apply roundTo_comp. Qed.

Lemma fround_mono x y : x <= y -> fround x <= fround y.
Proof. apply roundTo_mono. lia. Qed.

Lemma fround_nonneg x : 0 <= x -> 0 <= fround x.
Proof. apply roundTo_nonneg. lia. Qed.

Lemma fround_zero x : x == 0 -> fround x = 0.
Proof. apply roundTo_zero. Qed.

Lemma fround_one x : x == 1 -> fround x = 1.
Proof. apply roundTo_one. lia. Qed.

Lemma fround_error x e : 0 <= x -> x < pow2 e ->
  Qabs (fround x - x) <= pow2 (e - 1 - 24).
Proof. apply roundTo_error. Qed.

(** ** The resampler *)

Lemma loopRange_length n : length (loopRange n) = Z.to_nat n.
Proof. unfold loopRange. rewrite length_map, length_seq. reflexivity. Qed.

Lemma In_loopRange i n : In i (loopRange n) <-> (0 <= i < n)%Z.
Proof.
  unfold loopRange. rewrite in_map_iff. split.
  - intros [k [<- Hk]]. apply in_seq in Hk. lia.
  - intros H. exists (Z.to_nat i). split; [lia|]. apply in_seq. lia.
Qed.

Lemma nth_loopRange k n d : (k < Z.to_nat n)%nat -> nth k (loopRange n) d = Z.of_nat k.
Proof.
  intro H. unfold loopRange.
  rewrite (nth_indep _ d (Z.of_nat 0)) by (rewrite length_map, length_seq; exact H).
  rewrite map_nth, seq_nth by exact H. reflexivity.
Qed.

Lemma inject_Z_nonzero z : z <> 0%Z -> ~ inject_Z z == 0.
Proof.
  intros H E. apply H. unfold Qeq in E. simpl in E. lia.
Qed.

Lemma targetIndexOf_comp f f' n : f == f' -> targetIndexOf f n = targetIndexOf f' n.
Proof.
  intro E. unfold targetIndexOf, jsRound.
  assert (F : Qfloor (f * inject_Z (n - 1) + (1 # 2))
              = Qfloor (f' * inject_Z (n - 1) + (1 # 2))).
  { apply Qfloor_comp. rewrite E. reflexivity. }
  rewrite F. reflexivity.
Qed.

Lemma Qfloor_eq k x : inject_Z k <= x -> x < inject_Z k + 1 -> Qfloor x = k.
Proof.
  intros L U. apply Z.le_antisymm.
  - apply Z.lt_succ_r. rewrite Zlt_Qlt.
    apply Qle_lt_trans with x; [apply Qfloor_le|].
    replace (Z.succ k) with (k + 1)%Z by lia.
    rewrite inject_Z_plus. exact U.
  - rewrite <- (Qfloor_Z k). apply Qfloor_resp_le, L.
Qed.

Lemma inject_Z_nonneg z : (0 <= z)%Z -> 0 <= inject_Z z.
Proof.
  intro H. replace 0 with (inject_Z 0) by reflexivity. rewrite <- Zle_Qle. exact H.
Qed.

Lemma inject_Z_pos z : (0 < z)%Z -> 0 < inject_Z z.
Proof.
  intro H. replace 0 with (inject_Z 0) by reflexivity. rewrite <- Zlt_Qlt. exact H.
Qed.

Lemma Qdiv_nonneg a b : 0 <= a -> 0 < b -> 0 <= a / b.
Proof.
  intros Ha Hb. apply Qle_shift_div_l; [exact Hb | lra].
Qed.

Section SampleIndex.

Variables sourceCount keepCount : Z.
Hypothesis source_nonempty : (1 <= sourceCount)%Z.
Hypothesis keep_nonempty : (1 <= keepCount)%Z.

Lemma step_nonneg : 0 <= double (inject_Z sourceCount / inject_Z keepCount).
Proof.
  apply double_nonneg.
  apply Qdiv_nonneg; [apply inject_Z_nonneg | apply inject_Z_pos]; lia.
Qed.

Lemma floorOfProduct_nonneg i : (0 <= i)%Z ->
  (0 <= Qfloor (double (inject_Z i * double (inject_Z sourceCount / inject_Z keepCount))))%Z.
Proof.
  intro H.
  rewrite <- (Qfloor_Z 0). apply Qfloor_resp_le.
  apply double_nonneg.
  pose proof step_nonneg. pose proof (inject_Z_nonneg i H).
  change (inject_Z 0) with 0. nra.
Qed.

Lemma floorOfProduct_mono i j : (0 <= i)%Z -> (i <= j)%Z ->
  (Qfloor (double (inject_Z i * double (inject_Z sourceCount / inject_Z keepCount)))
   <= Qfloor (double (inject_Z j * double (inject_Z sourceCount / inject_Z keepCount))))%Z.
Proof.
  intros Hi Hij.
  apply Qfloor_resp_le, double_mono.
  apply Qmult_le_compat_r; [|apply step_nonneg].
  rewrite <- Zle_Qle. exact Hij.
Qed.

(** Slot [i] takes the point [Math.floor(i * step)], the product and the
    step being doubles, or the last point if that lies past the end; the
    last slot takes the last point. *)
Lemma sampleIndex_spec i :
  sampleIndex sourceCount keepCount i
  = if (i =? keepCount - 1)%Z then (sourceCount - 1)%Z
    else Z.min (sourceCount - 1)
               (Qfloor (double (inject_Z i * double (inject_Z sourceCount / inject_Z keepCount)))).
Proof.
  unfold sampleIndex. cbv zeta.
  destruct (i =? keepCount - 1)%Z; [reflexivity|]. simpl.
  destruct (sourceCount <=? _)%Z eqn:E.
  - apply Z.leb_le in E. lia.
  - apply Z.leb_gt in E. lia.
Qed.

Lemma sampleIndex_range i : (0 <= i < keepCount)%Z ->
  (0 <= sampleIndex sourceCount keepCount i <= sourceCount - 1)%Z.
Proof.
  intro H. rewrite (sampleIndex_spec i).
  pose proof (floorOfProduct_nonneg i ltac:(lia)).
  destruct (i =? keepCount - 1)%Z; lia.
Qed.

Lemma sampleIndex_mono i j : (0 <= i)%Z -> (i <= j)%Z -> (j < keepCount)%Z ->
  (sampleIndex sourceCount keepCount i <= sampleIndex sourceCount keepCount j)%Z.
Proof.
  intros Hi Hij Hj.
  rewrite (sampleIndex_spec i), (sampleIndex_spec j).
  pose proof (floorOfProduct_mono i j Hi Hij).
  destruct (j =? keepCount - 1)%Z eqn:Ej.
  - destruct (i =? keepCount - 1)%Z; lia.
  - apply Z.eqb_neq in Ej.
    destruct (i =? keepCount - 1)%Z eqn:Ei.
    + apply Z.eqb_eq in Ei. lia.
    + lia.
Qed.

Lemma sampleIndex_last :
  sampleIndex sourceCount keepCount (keepCount - 1) = (sourceCount - 1)%Z.
Proof. rewrite sampleIndex_spec, Z.eqb_refl. reflexivity. Qed.

Lemma sampleFraction_eq index :
  sampleFraction sourceCount index
  = fround (double (inject_Z index / inject_Z (Z.max 1 (sourceCount - 1)))).
Proof.
  unfold sampleFraction.
  destruct (0 <? Z.max 1 (sourceCount - 1))%Z eqn:E; [reflexivity|].
  apply Z.ltb_ge in E. lia.
Qed.

Lemma denom_pos : 0 < inject_Z (Z.max 1 (sourceCount - 1)).
Proof. apply inject_Z_pos. lia. Qed.

Lemma quotient_mono a b : (a <= b)%Z ->
  inject_Z a / inject_Z (Z.max 1 (sourceCount - 1))
  <= inject_Z b / inject_Z (Z.max 1 (sourceCount - 1)).
Proof.
  intro H. unfold Qdiv. apply Qmult_le_compat_r.
  - rewrite <- Zle_Qle. exact H.
  - apply Qlt_le_weak, Qinv_lt_0_compat, denom_pos.
Qed.

Lemma sampleFraction_mono a b : (a <= b)%Z ->
  sampleFraction sourceCount a <= sampleFraction sourceCount b.
Proof.
  intro H. rewrite !sampleFraction_eq.
  apply fround_mono, double_mono.
  apply quotient_mono, H.
Qed.

Lemma sampleFraction_first : sampleFraction sourceCount 0 = 0.
Proof.
  rewrite sampleFraction_eq.
  rewrite (double_zero (inject_Z 0 / inject_Z (Z.max 1 (sourceCount - 1))))
    by (unfold Qdiv; ring).
  apply fround_zero. reflexivity.
Qed.

Lemma sampleFraction_last :
  sampleFraction sourceCount (sourceCount - 1)
  = if (1 <? sourceCount)%Z then 1 else 0.
Proof.
  destruct (1 <? sourceCount)%Z eqn:E.
  - apply Z.ltb_lt in E. rewrite sampleFraction_eq.
    rewrite double_one
      by (rewrite Z.max_r by lia; field; apply inject_Z_nonzero; lia).
    apply fround_one. reflexivity.
  - apply Z.ltb_ge in E. replace (sourceCount - 1)%Z with 0%Z by lia.
    apply sampleFraction_first.
Qed.

Lemma sampleFraction_bounds index : (0 <= index <= sourceCount - 1)%Z ->
  0 <= sampleFraction sourceCount index <= 1.
Proof.
  intro H. split.
  - rewrite <- sampleFraction_first. apply sampleFraction_mono. lia.
  - apply Qle_trans with (sampleFraction sourceCount (sourceCount - 1)).
    + apply sampleFraction_mono. lia.
    + rewrite sampleFraction_last. destruct (1 <? sourceCount)%Z; lra.
Qed.

Lemma floor_half index : Qfloor (inject_Z index + (1 # 2)) = index.
Proof. apply Qfloor_eq; lra. Qed.

(** The stored fraction is within [2^-25 + 2^-54] of the exact quotient:
    half a unit in the last place of a single below 1, and of a double. *)
Lemma sampleFraction_error index : (0 <= index <= sourceCount - 1)%Z ->
  Qabs (sampleFraction sourceCount index
        - inject_Z index / inject_Z (Z.max 1 (sourceCount - 1)))
  <= pow2 (-25) + pow2 (-54).
Proof.
  intro H. pose proof denom_pos as D.
  set (q := inject_Z index / inject_Z (Z.max 1 (sourceCount - 1))).
  assert (Q0 : 0 <= q) by (apply Qdiv_nonneg; [apply inject_Z_nonneg; lia | exact D]).
  destruct (Z.eq_dec index (Z.max 1 (sourceCount - 1))) as [E | N].
  - assert (Q1 : q == 1) by (unfold q; rewrite E; field; lra).
    rewrite sampleFraction_eq. fold q.
    rewrite (double_one q Q1). rewrite (fround_one 1) by reflexivity.
    apply Qabs_Qle_condition.
    pose proof (pow2_pos (-25)). pose proof (pow2_pos (-54)). split; lra.
  - assert (Q1 : q < pow2 0).
    { unfold q. apply Qlt_shift_div_r; [exact D|].
      rewrite pow2_0, Qmult_1_l. rewrite <- Zlt_Qlt. lia. }
    pose proof (double_error q 0 Q0 Q1) as E1.
    assert (D0 : 0 <= double q) by (apply double_nonneg, Q0).
    assert (D1 : double q <= 1).
    { rewrite <- (double_one 1) by reflexivity.
      apply double_mono. rewrite pow2_0 in Q1. lra. }
    assert (E2 : Qabs (fround (double q) - double q) <= pow2 (-25)).
    { destruct (Qlt_le_dec (double q) 1) as [Lt | Ge].
      - apply (fround_error (double q) 0 D0). rewrite pow2_0. exact Lt.
      - rewrite (fround_one (double q)) by lra.
        apply Qabs_Qle_condition. pose proof (pow2_pos (-25)). split; lra. }
    rewrite sampleFraction_eq. fold q.
    change (0 - 1 - 53)%Z with (-54)%Z in E1.
    apply Qabs_Qle_condition in E1. apply Qabs_Qle_condition in E2.
    apply Qabs_Qle_condition. split; lra.
Qed.

(** Going from an index to its stored fraction and back to the nearest
    index of the same cloud gives the index again, as long as the cloud has
    no more points than a single has significand values. *)
Lemma jsRound_sampleFraction index :
  (sourceCount <= 2 ^ 24)%Z -> (0 <= index <= sourceCount - 1)%Z ->
  jsRound (sampleFraction sourceCount index * inject_Z (sourceCount - 1)) = index.
Proof.
  intros Hsmall H. unfold jsRound.
  destruct (Z.eq_dec sourceCount 1) as [E1 | Hne].
  - replace index with 0%Z by lia. rewrite sampleFraction_first.
    rewrite E1. reflexivity.
  - pose proof (sampleFraction_error index H) as E.
    rewrite Z.max_r in E by lia.
    assert (D : 0 < inject_Z (sourceCount - 1)) by (apply inject_Z_pos; lia).
    assert (DU : inject_Z (sourceCount - 1) <= 16777215).
    { change 16777215 with (inject_Z 16777215). rewrite <- Zle_Qle.
      change (2 ^ 24)%Z with 16777216%Z in Hsmall. lia. }
    assert (P : pow2 (-25) + pow2 (-54) == (1 # 33554432) + (1 # 18014398509481984))
      by reflexivity.
    rewrite P in E. apply Qabs_Qle_condition in E. destruct E as [EL EU].
    set (f := sampleFraction sourceCount index) in *.
    set (d := inject_Z (sourceCount - 1)) in *.
    assert (X : inject_Z index == inject_Z index / d * d) by (field; lra).
    set (q := inject_Z index / d) in *.
    apply Qfloor_eq; nra.
Qed.

Lemma targetIndexOf_sampleFraction index :
  (sourceCount <= 2 ^ 24)%Z -> (0 <= index <= sourceCount - 1)%Z ->
  targetIndexOf (sampleFraction sourceCount index) sourceCount = index.
Proof.
  intros Hsmall H. unfold targetIndexOf.
  rewrite (jsRound_sampleFraction index Hsmall H).
  cbv zeta.
  destruct (index <? 0)%Z eqn:A; [apply Z.ltb_lt in A; lia|].
  destruct (sourceCount <=? index)%Z eqn:B; [apply Z.leb_le in B; lia|].
  reflexivity.
Qed.

Lemma targetIndexOf_clamped index :
  (sourceCount <= 2 ^ 24)%Z -> (0 <= index <= sourceCount - 1)%Z ->
  targetIndexOf (clamp (sampleFraction sourceCount index) 0 1) sourceCount = index.
Proof.
  intros Hsmall H. destruct (sampleFraction_bounds index H) as [L U].
  rewrite (targetIndexOf_comp _ _ sourceCount (clamp_id _ 0 1 L U)).
  apply targetIndexOf_sampleFraction; assumption.
Qed.

End SampleIndex.

(** The exact quotient, for comparison: [floor(i * sourceCount / keepCount)]
    without any rounding. *)
Lemma floor_scaled sourceCount keepCount i : (1 <= keepCount)%Z ->
  Qfloor (inject_Z i * (inject_Z sourceCount / inject_Z keepCount))
  = (i * sourceCount / keepCount)%Z.
Proof.
  intro keep_nonempty.
  assert (E : inject_Z i * (inject_Z sourceCount / inject_Z keepCount)
              == (i * sourceCount) # (Z.to_pos keepCount)).
  { rewrite (Qmake_Qdiv (i * sourceCount) (Z.to_pos keepCount)).
    rewrite Z2Pos.id by lia. rewrite inject_Z_mult.
    field. apply inject_Z_nonzero. lia. }
  rewrite E. unfold Qfloor. rewrite Z2Pos.id by lia. reflexivity.
Qed.

(** The two roundings move the product by less than a half as long as the
    cloud has at most [2^50] points, so the index of a slot is the floor of
    the exact quotient or one next to it. *)
Lemma product_error sourceCount keepCount i :
  (1 <= sourceCount <= 2 ^ 50)%Z -> (0 <= i < keepCount)%Z ->
  Qabs (double (inject_Z i * double (inject_Z sourceCount / inject_Z keepCount))
        - inject_Z i * (inject_Z sourceCount / inject_Z keepCount)) <= 1 # 2.
Proof.
  intros [Hs Hsmall] Hi.
  assert (K : 0 < inject_Z keepCount) by (apply inject_Z_pos; lia).
  assert (I0 : 0 <= inject_Z i) by (apply inject_Z_nonneg; lia).
  assert (IK : inject_Z i < inject_Z keepCount) by (rewrite <- Zlt_Qlt; lia).
  assert (S0 : 0 <= inject_Z sourceCount) by (apply inject_Z_nonneg; lia).
  assert (SU : inject_Z sourceCount <= 1125899906842624).
  { change 1125899906842624 with (inject_Z (2 ^ 50)). rewrite <- Zle_Qle. exact Hsmall. }
  set (r := inject_Z sourceCount / inject_Z keepCount).
  assert (R0 : 0 <= r) by (apply Qdiv_nonneg; assumption).
  assert (RK : r * inject_Z keepCount == inject_Z sourceCount) by (unfold r; field; lra).
  pose proof (double_relative r R0) as E1.
  pose proof (double_nonneg r R0) as D0.
  set (s := double r) in *.
  assert (P0 : 0 <= inject_Z i * s) by nra.
  pose proof (double_relative (inject_Z i * s) P0) as E2.
  set (y := double (inject_Z i * s)) in *.
  assert (C : pow2 (- 53) == 1 # 9007199254740992) by reflexivity.
  rewrite C in E1, E2.
  apply Qabs_Qle_condition in E1. apply Qabs_Qle_condition in E2.
  destruct E1 as [E1l E1u]. destruct E2 as [E2l E2u].
  set (n := inject_Z i) in *. set (k := inject_Z keepCount) in *.
  set (c := inject_Z sourceCount) in *.
  assert (X : n * r <= c) by nra.
  assert (A1 : n * s - n * r <= n * r * (1 # 9007199254740992)) by nra.
  assert (A2 : - (n * r * (1 # 9007199254740992)) <= n * s - n * r) by nra.
  apply Qabs_Qle_condition. split; lra.
Qed.

Lemma floor_near x y : Qabs (y - x) <= 1 # 2 ->
  (Qfloor x - 1 <= Qfloor y <= Qfloor x + 1)%Z.
Proof.
  intro H. apply Qabs_Qle_condition in H. destruct H as [L U].
  pose proof (floor_bounds x) as [Lx Ux]. pose proof (floor_bounds y) as [Ly Uy].
  split.
  - assert (A : inject_Z (Qfloor x - 2) < inject_Z (Qfloor y)).
    { unfold Z.sub. rewrite inject_Z_plus. change (inject_Z (- (2))) with (- (2)). lra. }
    rewrite <- Zlt_Qlt in A. lia.
  - assert (A : inject_Z (Qfloor y) < inject_Z (Qfloor x + 2)).
    { rewrite inject_Z_plus. change (inject_Z 2) with 2. lra. }
    rewrite <- Zlt_Qlt in A. lia.
Qed.

Lemma floorOfProduct_near sourceCount keepCount i :
  (1 <= sourceCount <= 2 ^ 50)%Z -> (0 <= i < keepCount)%Z ->
  (i * sourceCount / keepCount - 1
   <= Qfloor (double (inject_Z i * double (inject_Z sourceCount / inject_Z keepCount)))
   <= i * sourceCount / keepCount + 1)%Z.
Proof.
  intros Hs Hi. rewrite <- (floor_scaled sourceCount keepCount i) by lia.
  apply floor_near, product_error; assumption.
Qed.

Lemma last_as_nth {A} (l : list A) d : last l d = nth (length l - 1) l d.
Proof.
  induction l as [|x [|y l] IH]; try reflexivity.
  change (last (x :: y :: l) d) with (last (y :: l) d). rewrite IH.
  simpl. rewrite Nat.sub_0_r. reflexivity.
Qed.

Lemma flat_map_map_ext {A B C} (f : B -> list C) (g : A -> B) (h : A -> list C) l :
  (forall x, In x l -> f (g x) = h x) -> flat_map f (map g l) = flat_map h l.
Proof.
  induction l as [|x l IH]; intro H; [reflexivity|]. simpl.
  rewrite (H x (or_introl eq_refl)), IH; [reflexivity|].
  intros y Hy. apply H. right. exact Hy.
Qed.

Lemma length_flat_map_copyPoint3 {A} (idx : A -> Z) arr stride (l : list A) :
  length (flat_map (fun i => copyPoint3 arr stride (idx i)) l) = (3 * length l)%nat.
Proof.
  induction l as [|x l IH]; [reflexivity|].
  simpl flat_map. simpl length. rewrite IH. lia.
Qed.

Lemma keepCountOf_pos sourceCount keepRatio :
  (1 <= sourceCount)%Z -> (1 <= keepCountOf sourceCount keepRatio)%Z.
Proof.
  intro H. unfold keepCountOf. destruct (Qle_bool _ _); lia.
Qed.

Lemma computeSampleFractions_eq g srcPos keepCount :
  position g = Some srcPos -> (1 <= keepCount)%Z -> (1 <= count srcPos)%Z ->
  computeSampleFractions (Some g) keepCount
  = Some (map (fun i => sampleFraction (count srcPos)
                                       (sampleIndex (count srcPos) keepCount i))
              (loopRange keepCount)).
Proof.
  intros Hp Hk Hs. unfold computeSampleFractions. rewrite Hp.
  destruct (keepCount <=? 0)%Z eqn:E1; [apply Z.leb_le in E1; lia|].
  destruct (count srcPos <=? 0)%Z eqn:E2; [apply Z.leb_le in E2; lia|].
  reflexivity.
Qed.

Lemma nth_fractions sourceCount keepCount k :
  (k < Z.to_nat keepCount)%nat ->
  nth k (map (fun i => sampleFraction sourceCount (sampleIndex sourceCount keepCount i))
             (loopRange keepCount)) 0
  = sampleFraction sourceCount (sampleIndex sourceCount keepCount (Z.of_nat k)).
Proof.
  intro H.
  rewrite (nth_indep _ 0 (sampleFraction sourceCount (sampleIndex sourceCount keepCount 0)))
    by (rewrite length_map, loopRange_length; exact H).
  rewrite (map_nth (fun i => sampleFraction sourceCount (sampleIndex sourceCount keepCount i))).
  rewrite nth_loopRange by exact H. reflexivity.
Qed.

(** C7, as the code has it.  For [keepCount >= 1] and a source cloud of
    [sourceCount >= 1] points, [computeSampleFractions] returns an array of
    length [keepCount] whose entries lie in [0,1] and never decrease, whose
    last entry is 1 when [sourceCount > 1] and 0 when [sourceCount = 1].
    Slot [i] holds the single nearest to [index / max(1, sourceCount - 1)],
    where [index] is [sourceCount - 1] for the last slot and otherwise
    [Math.floor(i * step)] kept below [sourceCount], the step
    [sourceCount / keepCount] and the product being rounded to doubles; for
    a cloud of at most [2^50] points that floor is
    [floor(i * sourceCount / keepCount)] or an index next to it. *)
Theorem computeSampleFractions_spec (g : Geometry) (srcPos : BufferAttribute)
    (keepCount : Z) :
  position g = Some srcPos ->
  (1 <= keepCount)%Z ->
  (1 <= count srcPos)%Z ->
  exists fractions,
    computeSampleFractions (Some g) keepCount = Some fractions /\
    Z.of_nat (length fractions) = keepCount /\
    Forall (fun x => 0 <= x <= 1) fractions /\
    (forall i j, (i <= j)%nat -> (j < length fractions)%nat ->
                 nth i fractions 0 <= nth j fractions 0) /\
    last fractions 0 = (if (1 <? count srcPos)%Z then 1 else 0) /\
    (forall i, (0 <= i < keepCount)%Z ->
       let step := double (inject_Z (count srcPos) / inject_Z keepCount) in
       let floored := Qfloor (double (inject_Z i * step)) in
       let index := if (i =? keepCount - 1)%Z then (count srcPos - 1)%Z
                    else Z.min (count srcPos - 1) floored in
       nth (Z.to_nat i) fractions 0
       = fround (double (inject_Z index / inject_Z (Z.max 1 (count srcPos - 1)))) /\
       ((count srcPos <= 2 ^ 50)%Z ->
        (i * count srcPos / keepCount - 1 <= floored
         <= i * count srcPos / keepCount + 1)%Z)).
Proof.
  intros Hp Hk Hs. eexists. split; [apply (computeSampleFractions_eq g srcPos); assumption|].
  set (sc := count srcPos) in *.
  assert (Hlen : length (map (fun i => sampleFraction sc (sampleIndex sc keepCount i))
                             (loopRange keepCount)) = Z.to_nat keepCount)
    by (rewrite length_map; apply loopRange_length).
  split; [rewrite Hlen; lia|].
  split.
  { apply Forall_forall. intros x Hx. apply in_map_iff in Hx.
    destruct Hx as [i [<- Hi]]. apply In_loopRange in Hi.
    apply sampleFraction_bounds; try assumption.
    apply sampleIndex_range; assumption. }
  split.
  { intros i j Hij Hj. rewrite Hlen in Hj.
    rewrite !nth_fractions by lia.
    apply sampleFraction_mono; try assumption. apply sampleIndex_mono; lia. }
  split.
  { rewrite last_as_nth, Hlen, nth_fractions by lia.
    replace (Z.of_nat (Z.to_nat keepCount - 1)) with (keepCount - 1)%Z by lia.
    rewrite sampleIndex_last. apply sampleFraction_last; exact Hs. }
  intros i Hi. cbv zeta. split.
  - rewrite nth_fractions by lia.
    rewrite Z2Nat.id by lia.
    rewrite sampleFraction_eq, sampleIndex_spec. reflexivity.
  - intro Hsmall. apply floorOfProduct_near; lia.
Qed.

Lemma count_of_slots {A} (idx : A -> Z) arr stride (l : list A) :
  count {| array := flat_map (fun i => copyPoint3 arr stride (idx i)) l; itemSize := 3 |}
  = Z.of_nat (length l).
Proof.
  unfold count. simpl. rewrite length_flat_map_copyPoint3.
  rewrite Nat2Z.inj_mul. rewrite Z.mul_comm. apply Z.div_mul. lia.
Qed.

Lemma resample_self arr stride sourceCount keepCount :
  (1 <= sourceCount <= 2 ^ 24)%Z -> (1 <= keepCount)%Z ->
  flat_map (fun f => copyPoint3 arr stride (targetIndexOf (clamp f 0 1) sourceCount))
           (map (fun i => sampleFraction sourceCount (sampleIndex sourceCount keepCount i))
                (loopRange keepCount))
  = flat_map (fun i => copyPoint3 arr stride (sampleIndex sourceCount keepCount i))
             (loopRange keepCount).
Proof.
  intros [Hs Hsmall] Hk. apply flat_map_map_ext. intros i Hi. apply In_loopRange in Hi.
  rewrite targetIndexOf_clamped; [reflexivity | assumption ..|].
  apply sampleIndex_range; assumption.
Qed.

Lemma resample_self_unclamped arr stride sourceCount keepCount :
  (1 <= sourceCount <= 2 ^ 24)%Z -> (1 <= keepCount)%Z ->
  flat_map (fun f => copyPoint3 arr stride (targetIndexOf f sourceCount))
           (map (fun i => sampleFraction sourceCount (sampleIndex sourceCount keepCount i))
                (loopRange keepCount))
  = flat_map (fun i => copyPoint3 arr stride (sampleIndex sourceCount keepCount i))
             (loopRange keepCount).
Proof.
  intros [Hs Hsmall] Hk. apply flat_map_map_ext. intros i Hi. apply In_loopRange in Hi.
  rewrite targetIndexOf_sampleFraction; [reflexivity | assumption ..|].
  apply sampleIndex_range; assumption.
Qed.

(** C8, as the code has it.  For a cloud [A] of at most [2^24] points,
    downsampling [A] to its slots and resampling [A] itself by the sample
    fractions of those slots gives the downsampled positions again: both
    through [generateMorphTargetArrayWithFractions] on the built geometry and
    inside [createPointGeometry] when the morph target is [A].  ([2^24] is the
    number of significand values of the singles the fractions are stored
    as.) *)
Theorem self_resample_roundtrip (A : Geometry) (srcPos : BufferAttribute)
    (other : option Geometry) (keepRatio : Q) (place : Transform) :
  position A = Some srcPos ->
  (1 <= count srcPos <= 2 ^ 24)%Z ->
  let N := keepCountOf (count srcPos) keepRatio in
  exists built positions fractions selfBuilt,
    createPointGeometry (Some A) other keepRatio = Some built /\
    position built = Some {| array := positions; itemSize := 3 |} /\
    Z.of_nat (length positions) = (3 * N)%Z /\
    computeSampleFractions (Some A) N = Some fractions /\
    generateMorphTargetArrayWithFractions
      (Some {| geometry := built; placement := place |}) (Some A) (Some fractions)
    = Some positions /\
    createPointGeometry (Some A) (Some A) keepRatio = Some selfBuilt /\
    position selfBuilt = position built /\
    morphTarget selfBuilt = position built.
Proof.
  intros Hp Hbound N. assert (Hs : (1 <= count srcPos)%Z) by lia.
  assert (HN : (1 <= N)%Z) by (apply keepCountOf_pos; exact Hs).
  assert (Hc : (count srcPos <=? 0)%Z = false) by (apply Z.leb_gt; lia).
  assert (Hc' : (0 <? count srcPos)%Z = true) by (apply Z.ltb_lt; lia).
  eexists. eexists. eexists. eexists.
  split.
  { unfold createPointGeometry. rewrite Hp, Hc. fold N. reflexivity. }
  split; [reflexivity|].
  split.
  { rewrite length_flat_map_copyPoint3, loopRange_length. lia. }
  split; [apply (computeSampleFractions_eq A srcPos); assumption|].
  split.
  { unfold generateMorphTargetArrayWithFractions.
    cbn [geometry morphTarget]. rewrite Hp, Hc.
    rewrite length_map, loopRange_length.
    match goal with
    | |- (if negb (_ =? count ?a)%Z then _ else _) = _ =>
      assert (E : count a = N)
    end.
    { destruct other as [tg|]; cbn [fst]; [destruct (position tg) as [tp|]; cbn [fst]|].
      - destruct (0 <? count tp)%Z; cbn [fst].
        + unfold count. cbn [array itemSize].
          rewrite length_flat_map_copyPoint3, length_map, loopRange_length.
          rewrite Nat2Z.inj_mul, Z.mul_comm, Z.div_mul by lia. lia.
        + rewrite count_of_slots, loopRange_length. lia.
      - rewrite count_of_slots, loopRange_length. lia.
      - rewrite count_of_slots, loopRange_length. lia. }
    rewrite E. replace (Z.of_nat (Z.to_nat N) =? N)%Z with true
      by (symmetry; apply Z.eqb_eq; lia).
    cbn [negb]. f_equal. apply resample_self; assumption. }
  split.
  { unfold createPointGeometry. rewrite Hp, Hc, Hc'. fold N. reflexivity. }
  split; [reflexivity|].
  cbn [morphTarget position fst]. f_equal. f_equal.
  apply resample_self_unclamped; assumption.
Qed.

(** ** The easing curve *)

Lemma clamp01_mono a b : a <= b -> clamp a 0 1 <= clamp b 0 1.
Proof.
  intro H. unfold clamp.
  apply Q.max_le_compat_l. apply Q.min_le_compat_l. exact H.
Qed.

Lemma clamp01_flip t : clamp (1 - t) 0 1 == 1 - clamp t 0 1.
Proof.
  unfold clamp.
  destruct (Qlt_le_dec t 0) as [Hneg | Hpos].
  - rewrite (Q.min_l 1 (1 - t)) by lra. rewrite (Q.max_r 0 1) by lra.
    rewrite (Q.min_r 1 t) by lra. rewrite (Q.max_l 0 t) by lra. lra.
  - destruct (Qlt_le_dec 1 t) as [Hbig | Hin].
    + rewrite (Q.min_r 1 (1 - t)) by lra. rewrite (Q.max_l 0 (1 - t)) by lra.
      rewrite (Q.min_l 1 t) by lra. rewrite (Q.max_r 0 1) by lra. lra.
    + rewrite (Q.min_r 1 (1 - t)) by lra. rewrite (Q.max_r 0 (1 - t)) by lra.
      rewrite (Q.min_r 1 t) by lra. rewrite (Q.max_r 0 t) by lra. lra.
Qed.

Lemma easeInOutCubic_cases t :
  (clamp t 0 1 < 1 # 2 /\
   easeInOutCubic t = 4 * clamp t 0 1 * clamp t 0 1 * clamp t 0 1) \/
  (1 # 2 <= clamp t 0 1 /\
   easeInOutCubic t
   = 1 - ((-2 * clamp t 0 1 + 2) * (-2 * clamp t 0 1 + 2) * (-2 * clamp t 0 1 + 2)) / 2).
Proof.
  unfold easeInOutCubic. cbv zeta.
  destruct (Qlt_bool (clamp t 0 1) (1 # 2)) eqn:E.
  - left. split; [apply Qlt_bool_iff; exact E | reflexivity].
  - right. split; [apply Qlt_bool_false; exact E | reflexivity].
Qed.

Lemma half_eq x : x / 2 == x * (1 # 2).
Proof. reflexivity. Qed.

Lemma cube_mono a b : 0 <= a -> a <= b -> a * a * a <= b * b * b.
Proof.
  intros Ha Hab.
  assert (H1 : a * a <= b * b) by nra.
  assert (H2 : 0 <= a * a) by nra.
  nra.
Qed.


(** ** More on the resampler *)

Lemma flat_map_ext_on {A B} (f h : A -> list B) l :
  (forall x, In x l -> f x = h x) -> flat_map f l = flat_map h l.
Proof.
  intro H. rewrite <- (map_id l) at 1. apply flat_map_map_ext. exact H.
Qed.

(** With as many slots as points the step is 1 and slot [i] takes point
    [i]: every index of an array is a double. *)
Lemma sampleIndex_full sourceCount i :
  (sourceCount <= 2 ^ 53)%Z -> (0 <= i < sourceCount)%Z ->
  sampleIndex sourceCount sourceCount i = i.
Proof.
  intros Hsmall H. rewrite sampleIndex_spec.
  destruct (i =? sourceCount - 1)%Z eqn:E.
  - apply Z.eqb_eq in E. lia.
  - rewrite (double_one (inject_Z sourceCount / inject_Z sourceCount))
      by (field; apply inject_Z_nonzero; lia).
    rewrite (double_comp (inject_Z i * 1) (inject_Z i)) by ring.
    rewrite double_Z by lia. rewrite Qfloor_Z.
    apply Z.eqb_neq in E. lia.
Qed.

Lemma loopRange_succ n :
  loopRange (Z.of_nat (S n)) = 0%Z :: map Z.succ (loopRange (Z.of_nat n)).
Proof.
  unfold loopRange. rewrite !Nat2Z.id. simpl. f_equal.
  rewrite <- seq_shift, !map_map. apply map_ext. intro k. lia.
Qed.

Lemma copyPoint3_shift a b c rest i :
  (0 <= i)%Z ->
  copyPoint3 (a :: b :: c :: rest) 3 (Z.succ i) = copyPoint3 rest 3 i.
Proof.
  intro H. unfold copyPoint3, readOr0. cbv zeta.
  change (1 <? 3)%Z with true. change (2 <? 3)%Z with true. cbv iota.
  repeat match goal with
         | |- context [(?x <? 0)%Z] =>
           replace (x <? 0)%Z with false by (symmetry; apply Z.ltb_ge; lia)
         end.
  replace (Z.to_nat (Z.succ i * 3 + 0)) with (S (S (S (Z.to_nat (i * 3 + 0))))) by lia.
  replace (Z.to_nat (Z.succ i * 3 + 1)) with (S (S (S (Z.to_nat (i * 3 + 1))))) by lia.
  replace (Z.to_nat (Z.succ i * 3 + 2)) with (S (S (S (Z.to_nat (i * 3 + 2))))) by lia.
  reflexivity.
Qed.

Lemma flat_map_copyPoint3_all n : forall arr,
  length arr = (3 * n)%nat ->
  flat_map (fun i => copyPoint3 arr 3 i) (loopRange (Z.of_nat n)) = arr.
Proof.
  induction n as [|n IH]; intros arr Hlen.
  - destruct arr; [reflexivity | discriminate].
  - destruct arr as [|a [|b [|c rest]]]; try (simpl in Hlen; lia).
    rewrite loopRange_succ. simpl flat_map.
    rewrite (flat_map_map_ext _ Z.succ (fun i => copyPoint3 rest 3 i)).
    + rewrite IH by (simpl in Hlen; lia). reflexivity.
    + intros i Hi. apply In_loopRange in Hi. apply copyPoint3_shift. lia.
Qed.

(** With a keep ratio of 0.999 or more, [createPointGeometry] keeps every
    point of a three-component source cloud where it is: the position buffer
    of the built geometry is the source buffer.  (The cloud has at most
    [2^53] points, as every array has: its indices are doubles.) *)
Theorem createPointGeometry_keeps_every_point
    (sg : Geometry) (srcPos : BufferAttribute) (other : option Geometry)
    (keepRatio : Q) (n : nat) :
  position sg = Some srcPos ->
  itemSize srcPos = 3%Z ->
  length (array srcPos) = (3 * n)%nat ->
  (1 <= n)%nat ->
  (Z.of_nat n <= 2 ^ 53)%Z ->
  999 # 1000 <= keepRatio ->
  exists built,
    createPointGeometry (Some sg) other keepRatio = Some built /\
    position built = Some {| array := array srcPos; itemSize := 3 |}.
Proof.
  intros Hp Hsize Hlen Hn Hsmall Hratio.
  assert (Hcount : count srcPos = Z.of_nat n).
  { unfold count. rewrite Hsize, Hlen, Nat2Z.inj_mul, Z.mul_comm.
    apply Z.div_mul. lia. }
  unfold createPointGeometry. rewrite Hp. cbv zeta. rewrite Hcount.
  destruct (Z.of_nat n <=? 0)%Z eqn:E; [apply Z.leb_le in E; lia|].
  eexists. split; [reflexivity|]. cbn [position].
  f_equal. f_equal.
  unfold keepCountOf.
  replace (Qle_bool (double (999 # 1000)) (double keepRatio)) with true
    by (symmetry; apply Qle_bool_iff, double_mono, Hratio).
  unfold strideOf. rewrite Hsize. change (3 =? 0)%Z with false. cbv iota.
  transitivity (flat_map (fun i => copyPoint3 (array srcPos) 3 i)
                         (loopRange (Z.of_nat n)));
    [|apply flat_map_copyPoint3_all; exact Hlen].
  apply flat_map_ext_on. intros i Hi. apply In_loopRange in Hi.
  rewrite sampleIndex_full by lia. reflexivity.
Qed.

Lemma keepCountOf_le sourceCount keepRatio :
  (1 <= sourceCount)%Z -> (keepCountOf sourceCount keepRatio <= sourceCount)%Z.
Proof.
  intro H. unfold keepCountOf.
  destruct (Qle_bool (double (999 # 1000)) (double keepRatio)) eqn:E; [lia|].
  apply Qle_bool_false in E.
  assert (C0 : double (999 # 1000) == 8998192055486251 # 9007199254740992)
    by (vm_compute; reflexivity).
  rewrite C0 in E. set (r := double keepRatio) in *.
  apply Z.max_lub; [lia|].
  rewrite <- (Qfloor_Z sourceCount) at 2. apply Qfloor_resp_le.
  pose proof (inject_Z_pos sourceCount ltac:(lia)) as S.
  set (c := inject_Z sourceCount) in *.
  destruct (Qlt_le_dec 0 r) as [P | N].
  - assert (X0 : 0 <= c * r) by nra.
    pose proof (double_relative (c * r) X0) as R.
    assert (C : pow2 (- 53) == 1 # 9007199254740992) by reflexivity.
    rewrite C in R. apply Qabs_Qle_condition in R. destruct R as [_ R].
    assert (X1 : c * r <= c * (8998192055486251 # 9007199254740992)) by nra.
    lra.
  - assert (X0 : c * r <= 0) by nra.
    pose proof (double_nonpos (c * r) X0). lra.
Qed.

(** Whatever the morph target and the keep ratio, the geometry that
    [createPointGeometry] builds from a non-empty cloud has between one and
    [sourceCount] slots, its [position] and [morphTarget] buffers both hold
    three components per slot, and [color] and [morphColor] are present
    together and have the same length. *)
Theorem createPointGeometry_buffers_agree
    (sg : Geometry) (srcPos : BufferAttribute) (other : option Geometry)
    (keepRatio : Q) :
  position sg = Some srcPos ->
  (1 <= count srcPos)%Z ->
  let N := keepCountOf (count srcPos) keepRatio in
  (1 <= N <= count srcPos)%Z /\
  exists built pos target,
    createPointGeometry (Some sg) other keepRatio = Some built /\
    position built = Some {| array := pos; itemSize := 3 |} /\
    morphTarget built = Some {| array := target; itemSize := 3 |} /\
    Z.of_nat (length pos) = (3 * N)%Z /\
    length target = length pos /\
    match color built, morphColor built with
    | Some c, Some mc =>
      length (array mc) = length (array c) /\ itemSize mc = itemSize c
    | None, None => color sg = None
    | _, _ => False
    end.
Proof.
  intros Hp Hs N.
  split; [split; [apply keepCountOf_pos | apply keepCountOf_le]; exact Hs|].
  unfold createPointGeometry. rewrite Hp. cbv zeta.
  destruct (count srcPos <=? 0)%Z eqn:E; [apply Z.leb_le in E; lia|].
  fold N.
  eexists. eexists. eexists.
  split; [reflexivity|]. cbn [position morphTarget color morphColor].
  split; [reflexivity|]. split; [reflexivity|].
  split.
  { rewrite length_flat_map_copyPoint3, loopRange_length.
    pose proof (keepCountOf_pos (count srcPos) keepRatio Hs). fold N in H. lia. }
  split.
  { destruct other as [tg|]; [|reflexivity]. cbn [fst].
    destruct (position tg) as [tgtPos|]; [|reflexivity].
    destruct (0 <? count tgtPos)%Z; [|reflexivity]. cbn [fst].
    rewrite !length_flat_map_copyPoint3, length_map. reflexivity. }
  destruct (color sg) as [colAttr|]; [|reflexivity].
  cbn [array itemSize]. split; [|reflexivity].
  destruct other as [tg|]; [|reflexivity]. cbn [snd].
  destruct (position tg) as [tgtPos|]; [|reflexivity].
  destruct (0 <? count tgtPos)%Z; [|reflexivity]. cbn [snd].
  destruct (color tg) as [tgtCol|]; [|reflexivity].
  destruct (_ =? _)%nat eqn:L; [|reflexivity].
  apply Nat.eqb_eq in L. exact L.
Qed.

Lemma targetIndexOf_range f n :
  (1 <= n)%Z -> (0 <= targetIndexOf f n < n)%Z.
Proof.
  intro H. unfold targetIndexOf. cbv zeta.
  destruct (jsRound (f * inject_Z (n - 1)) <? 0)%Z eqn:A.
  - destruct (n <=? 0)%Z eqn:B; [apply Z.leb_le in B; lia | lia].
  - apply Z.ltb_ge in A.
    destruct (n <=? jsRound (f * inject_Z (n - 1)))%Z eqn:B.
    + lia.
    + apply Z.leb_gt in B. lia.
Qed.

Lemma targetIndexOf_first f n :
  (1 <= n)%Z -> f == 0 -> targetIndexOf f n = 0%Z.
Proof.
  intros H E. rewrite (targetIndexOf_comp f 0 n E).
  unfold targetIndexOf, jsRound.
  assert (F : Qfloor (0 * inject_Z (n - 1) + (1 # 2)) = 0%Z).
  { rewrite (Qfloor_comp _ (inject_Z 0 + (1 # 2))) by ring. apply floor_half. }
  rewrite F. cbv zeta. change (0 <? 0)%Z with false. cbv iota.
  destruct (n <=? 0)%Z eqn:B; [apply Z.leb_le in B; lia | reflexivity].
Qed.

Lemma targetIndexOf_last f n :
  (1 <= n)%Z -> f == 1 -> targetIndexOf f n = (n - 1)%Z.
Proof.
  intros H E. rewrite (targetIndexOf_comp f 1 n E).
  unfold targetIndexOf, jsRound.
  assert (F : Qfloor (1 * inject_Z (n - 1) + (1 # 2)) = (n - 1)%Z).
  { rewrite (Qfloor_comp _ (inject_Z (n - 1) + (1 # 2))) by ring. apply floor_half. }
  rewrite F. cbv zeta.
  destruct (n - 1 <? 0)%Z eqn:A; [apply Z.ltb_lt in A; lia|].
  destruct (n <=? n - 1)%Z eqn:B; [apply Z.leb_le in B; lia | reflexivity].
Qed.

Lemma flat_map_chunk {A B} (f : A -> list B) (d : A) : forall l i,
  (forall x, length (f x) = 3%nat) ->
  (i < length l)%nat ->
  firstn 3 (skipn (3 * i) (flat_map f l)) = f (nth i l d).
Proof.
  induction l as [|x l IH]; intros i Hf Hi; [simpl in Hi; lia|].
  simpl flat_map. destruct i as [|i].
  - change (3 * 0)%nat with 0%nat. rewrite skipn_O.
    rewrite firstn_app, (Hf x), Nat.sub_diag, firstn_O, app_nil_r.
    simpl nth. apply firstn_all2. rewrite (Hf x). lia.
  - replace (3 * S i)%nat with (length (f x) + 3 * i)%nat by (rewrite (Hf x); lia).
    rewrite skipn_app, skipn_all2 by lia.
    replace (length (f x) + 3 * i - length (f x))%nat with (3 * i)%nat by lia.
    simpl app. simpl nth. apply IH; [exact Hf | simpl in Hi; lia].
Qed.

(** [generateMorphTargetArrayWithFractions] writes three components per
    fraction, and each slot is a point of the target cloud: it never reads
    outside the target.  A fraction of 0 or less takes the first point of the
    target, a fraction of 1 or more the last. *)
Theorem generateMorphTargetArrayWithFractions_points_of_target
    (pts : Points) (morphAttr tgtPos : BufferAttribute) (tg : Geometry)
    (fractions : list Q) :
  morphTarget (geometry pts) = Some morphAttr ->
  Z.of_nat (length fractions) = count morphAttr ->
  position tg = Some tgtPos ->
  (1 <= count tgtPos)%Z ->
  exists result,
    generateMorphTargetArrayWithFractions (Some pts) (Some tg) (Some fractions)
    = Some result /\
    length result = (3 * length fractions)%nat /\
    forall i, (i < length fractions)%nat ->
      exists j,
        (0 <= j < count tgtPos)%Z /\
        firstn 3 (skipn (3 * i) result)
        = copyPoint3 (array tgtPos) (strideOf tgtPos) j /\
        (nth i fractions 0 <= 0 -> j = 0%Z) /\
        (1 <= nth i fractions 0 -> j = (count tgtPos - 1)%Z).
Proof.
  intros Hm Hlen Hp Hc.
  unfold generateMorphTargetArrayWithFractions. rewrite Hm, Hlen, Z.eqb_refl, Hp.
  cbv zeta. cbn [negb].
  destruct (count tgtPos <=? 0)%Z eqn:E; [apply Z.leb_le in E; lia|].
  eexists. split; [reflexivity|]. split.
  { apply (length_flat_map_copyPoint3
             (fun f => targetIndexOf (clamp f 0 1) (count tgtPos))). }
  intros i Hi.
  exists (targetIndexOf (clamp (nth i fractions 0) 0 1) (count tgtPos)).
  split; [apply targetIndexOf_range; exact Hc|].
  split.
  { apply (flat_map_chunk
             (fun f => copyPoint3 (array tgtPos) (strideOf tgtPos)
                                  (targetIndexOf (clamp f 0 1) (count tgtPos)))
             0 fractions i); [reflexivity | exact Hi]. }
  split; intro H.
  - apply targetIndexOf_first; [exact Hc|].
    unfold clamp. rewrite (Q.min_r 1 _) by lra. apply Q.max_l. exact H.
  - apply targetIndexOf_last; [exact Hc|].
    unfold clamp. rewrite (Q.min_l 1 _) by exact H. apply Q.max_r. lra.
Qed.

(** ** Frame lemmas: what each helper leaves alone *)

Ltac case_split :=
  match goal with
  | |- context [if ?c then _ else _] => destruct c eqn:?
  | |- context [match ?c with _ => _ end] => destruct c eqn:?
  end.

Ltac frame := intros; repeat case_split; try reflexivity.

Lemma sectionState_setScatterAmplitude v b st :
  sectionState (setScatterAmplitude v b st) = sectionState st.
Proof. unfold setScatterAmplitude. frame. Qed.

Lemma sectionState_setMorphProgress v st :
  sectionState (setMorphProgress v st) = sectionState st.
Proof. reflexivity. Qed.

Lemma sectionState_ensureTextOpacity v st :
  sectionState (ensureTextOpacity v st) = sectionState st.
Proof. unfold ensureTextOpacity, setTextOpacityTarget. frame. Qed.

Lemma sectionState_applyScrollTweenState st :
  sectionState (applyScrollTweenState st) = sectionState st.
Proof. unfold applyScrollTweenState, setScatterAmplitude, setMorphProgress. frame. Qed.

Lemma sectionState_tweenToScrollTargets t b st :
  sectionState (tweenToScrollTargets t b st) = sectionState st.
Proof.
  unfold tweenToScrollTargets.
  destruct (_ && _); [reflexivity|]. destruct b; [|reflexivity].
  cbv zeta. rewrite sectionState_applyScrollTweenState. reflexivity.
Qed.

Lemma sectionState_updateCameraPose p st :
  sectionState (updateCameraPose p st) = sectionState st.
Proof. reflexivity. Qed.

Lemma sectionState_applyBackgroundBlend v st :
  sectionState (applyBackgroundBlend v st) = sectionState st.
Proof. unfold applyBackgroundBlend. frame. Qed.

Lemma sectionState_animateBackgroundBlend v b st :
  sectionState (animateBackgroundBlend v b st) = sectionState st.
Proof.
  unfold animateBackgroundBlend.
  destruct (negb _); [reflexivity|]. destruct (_ && _); [reflexivity|].
  destruct b; [|reflexivity]. cbv zeta. rewrite sectionState_applyBackgroundBlend.
  reflexivity.
Qed.

Lemma sectionState_finishBackgroundBlend c st :
  sectionState (fst (finishBackgroundBlend c st)) = sectionState st.
Proof. unfold finishBackgroundBlend. frame. Qed.

Lemma sectionState_startBackgroundBlend t st :
  sectionState (startBackgroundBlend t st) = sectionState st.
Proof.
  unfold startBackgroundBlend. destruct t.
  - cbv zeta. rewrite sectionState_applyBackgroundBlend. reflexivity.
  - apply sectionState_finishBackgroundBlend.
Qed.

(** [updateSectionTransition] reads [sectionState] and never writes it. *)
Lemma sectionState_updateSectionTransition st :
  sectionState (updateSectionTransition st) = sectionState st.
Proof.
  unfold updateSectionTransition.
  destruct (phase (sectionState st)); cbv zeta;
    repeat first
      [ rewrite sectionState_animateBackgroundBlend
      | rewrite sectionState_updateCameraPose
      | rewrite sectionState_tweenToScrollTargets
      | rewrite sectionState_ensureTextOpacity
      | case_split ];
    reflexivity.
Qed.

Lemma sectionState_ensureSectionMorphTarget sec g st :
  sectionState (fst (ensureSectionMorphTarget sec g st)) = sectionState st.
Proof. reflexivity. Qed.

Lemma sectionState_ensureSectionMorphTarget_then sec g st :
  sectionState (fst (ensureSectionMorphTarget_then sec g st)) = sectionState st.
Proof. unfold ensureSectionMorphTarget_then. frame. Qed.

(** ** Starting a transition *)

(** C10.  A call of [startSectionTransition] whose target normalizes to the
    displayed section while the phase is not [boot] changes nothing: phase,
    progress, pending load, carry, camera poses and rotation targets are all
    as before. *)
Theorem startSectionTransition_same_section_noop
    (nextIndex direction : Z) (initialProgress : Q) (st : State) :
  normalizeSectionIndex nextIndex = index (sectionState st) ->
  phase (sectionState st) <> boot ->
  startSectionTransition nextIndex direction initialProgress st = st.
Proof.
  intros Hsame Hphase. unfold startSectionTransition.
  destruct (getSectionCount <=? 0)%Z; [reflexivity|].
  rewrite Hsame, Z.eqb_refl.
  destruct (phase (sectionState st)); try reflexivity.
  contradiction Hphase. reflexivity.
Qed.

(** ** Scrolling while the model loads *)

(** C6, as the code has it.  While the machine is loading, a scroll delta
    leaves phase and progress alone; a delta in the direction of the transition
    is added to the pending carry and changes nothing else, and a delta against
    the direction (or a zero delta) changes nothing at all. *)
Theorem loading_scroll_feeds_carry_forward_only
    (delta : Q) (isTouch : bool) (st : State) :
  isReady (sectionState st) = true ->
  phase (sectionState st) = loading ->
  let progressScale := if isTouch then TOUCH_PROGRESS_SCALE else SCROLL_PROGRESS_SCALE in
  let carry := delta / progressScale * inject_Z (directionOr1 st) in
  let st' := applyScrollDelta delta isTouch st in
  phase (sectionState st') = loading /\
  transitionProgress (sectionState st') = transitionProgress (sectionState st) /\
  (0 < carry ->
   st' = onSectionState
           (set_pendingScrollCarry (pendingScrollCarry (sectionState st) + carry)) st) /\
  (carry <= 0 -> st' = st).
Proof.
  intros Hready Hphase progressScale carry st'.
  assert (E : st' = if Qlt_bool 0 carry
                    then onSectionState
                           (set_pendingScrollCarry
                              (pendingScrollCarry (sectionState st) + carry)) st
                    else st).
  { subst st' carry progressScale.
    unfold applyScrollDelta, applyScrollDelta_upto, applyScrollDelta_with.
    rewrite Hready, Hphase. reflexivity. }
  rewrite E. destruct (Qlt_bool 0 carry) eqn:C.
  - apply Qlt_bool_iff in C. repeat split; try (cbn; assumption); try reflexivity.
    intro L. exfalso. apply (Qlt_not_le _ _ C L).
  - apply Qlt_bool_false in C. repeat split; try assumption; try reflexivity.
    intro L. exfalso. apply (Qlt_not_le _ _ L C).
Qed.

Ltac unfold_helpers :=
  unfold ensureTextOpacity, setTextOpacityTarget, tweenToScrollTargets,
    applyScrollTweenState, setScatterAmplitude, setMorphProgress, updateCameraPose,
    animateBackgroundBlend, applyBackgroundBlend, finishBackgroundBlend,
    setBackgroundGradient, pointsPosition, morphBuffer.

Ltac frame_all :=
  intros; unfold_helpers; cbv zeta; repeat case_split;
  try reflexivity; try (simpl in *; congruence).

Create Rewrite HintDb frame.

#[local] Hint Rewrite
  sectionState_setScatterAmplitude sectionState_setMorphProgress
  sectionState_ensureTextOpacity sectionState_applyScrollTweenState
  sectionState_tweenToScrollTargets sectionState_updateCameraPose
  sectionState_applyBackgroundBlend sectionState_animateBackgroundBlend
  sectionState_finishBackgroundBlend sectionState_startBackgroundBlend
  sectionState_updateSectionTransition sectionState_ensureSectionMorphTarget
  sectionState_ensureSectionMorphTarget_then : frame.

(** *** The displayed cloud *)

Ltac frame_points :=
  intros;
  unfold ensureTextOpacity, setTextOpacityTarget, updateCameraPose,
    animateBackgroundBlend, applyBackgroundBlend, finishBackgroundBlend,
    setBackgroundGradient;
  cbv zeta; repeat case_split; reflexivity.

Lemma points_ensureTextOpacity v st : points (ensureTextOpacity v st) = points st.
Proof. frame_points. Qed.

Lemma points_updateCameraPose p st : points (updateCameraPose p st) = points st.
Proof. reflexivity. Qed.

Lemma points_animateBackgroundBlend v b st :
  points (animateBackgroundBlend v b st) = points st.
Proof. frame_points. Qed.

Lemma points_finishBackgroundBlend c st :
  points (fst (finishBackgroundBlend c st)) = points st.
Proof. frame_points. Qed.

Lemma points_startBackgroundBlend t st : points (startBackgroundBlend t st) = points st.
Proof.
  unfold startBackgroundBlend. destruct t; [|apply points_finishBackgroundBlend].
  frame_points.
Qed.

Lemma points_tweenToScrollTargets_tween t st :
  points (tweenToScrollTargets t false st) = points st.
Proof. unfold tweenToScrollTargets. cbv zeta. repeat case_split; reflexivity. Qed.

(** Displaying a tween state moves the cloud and leaves its buffers. *)
Lemma geometry_applyScrollTweenState st :
  pointsPosition (applyScrollTweenState st) = pointsPosition st /\
  morphBuffer (applyScrollTweenState st) = morphBuffer st.
Proof.
  unfold pointsPosition, morphBuffer, applyScrollTweenState, setScatterAmplitude,
    setMorphProgress.
  cbn. destruct (points st) eqn:E; cbn; rewrite ?E; split; reflexivity.
Qed.

Lemma geometry_tweenToScrollTargets t b st :
  pointsPosition (tweenToScrollTargets t b st) = pointsPosition st /\
  morphBuffer (tweenToScrollTargets t b st) = morphBuffer st.
Proof.
  unfold tweenToScrollTargets. destruct (_ && _); [split; reflexivity|].
  destruct b; [|split; reflexivity]. cbv zeta.
  destruct (geometry_applyScrollTweenState
              (set_scrollTweenState t (set_scrollTween None
                 (set_scrollTargetsCurrent t st)))) as [P M].
  rewrite P, M. split; reflexivity.
Qed.

Lemma pointsPosition_of_points st st' : points st' = points st ->
  pointsPosition st' = pointsPosition st /\ morphBuffer st' = morphBuffer st.
Proof. unfold pointsPosition, morphBuffer. intros ->. split; reflexivity. Qed.

Lemma geometry_updateSectionTransition st :
  pointsPosition (updateSectionTransition st) = pointsPosition st /\
  morphBuffer (updateSectionTransition st) = morphBuffer st.
Proof.
  unfold updateSectionTransition.
  destruct (phase (sectionState st)); cbv zeta;
    repeat match goal with
    | |- context [if ?c then _ else _] => destruct c
    | |- context [pointsPosition (?f ?a ?b ?s)] =>
      first
        [ rewrite (proj1 (geometry_tweenToScrollTargets a b s)),
                  (proj2 (geometry_tweenToScrollTargets a b s))
        | rewrite (proj1 (pointsPosition_of_points s (f a b s)
                            (points_animateBackgroundBlend a b s))),
                  (proj2 (pointsPosition_of_points s (f a b s)
                            (points_animateBackgroundBlend a b s))) ]
    | |- context [pointsPosition (?f ?a ?s)] =>
      first
        [ rewrite (proj1 (pointsPosition_of_points s (f a s)
                            (points_updateCameraPose a s))),
                  (proj2 (pointsPosition_of_points s (f a s)
                            (points_updateCameraPose a s)))
        | rewrite (proj1 (pointsPosition_of_points s (f a s)
                            (points_ensureTextOpacity a s))),
                  (proj2 (pointsPosition_of_points s (f a s)
                            (points_ensureTextOpacity a s))) ]
    end;
    split; reflexivity.
Qed.

Lemma pointsPosition_updateSectionTransition st :
  pointsPosition (updateSectionTransition st) = pointsPosition st.
Proof. apply geometry_updateSectionTransition. Qed.

Ltac through_phases :=
  unfold updateSectionTransition;
  destruct (phase (sectionState _)); cbv zeta;
  repeat first [ progress autorewrite with frame | case_split ];
  try reflexivity.


(** *** The displayed rotation *)

Lemma groupRotationY_ensureTextOpacity v st :
  groupRotationY (ensureTextOpacity v st) = groupRotationY st.
Proof. frame_all. Qed.

(** A target handed to a tween is not displayed at once. *)
Lemma groupRotationY_tweenToScrollTargets_tween t st :
  groupRotationY (tweenToScrollTargets t false st) = groupRotationY st.
Proof. frame_all. Qed.

Lemma groupRotationY_updateCameraPose p st :
  groupRotationY (updateCameraPose p st) = groupRotationY st.
Proof. reflexivity. Qed.

Lemma groupRotationY_animateBackgroundBlend v b st :
  groupRotationY (animateBackgroundBlend v b st) = groupRotationY st.
Proof. frame_all. Qed.

Lemma groupRotationY_finishBackgroundBlend c st :
  groupRotationY (fst (finishBackgroundBlend c st)) = groupRotationY st.
Proof. frame_all. Qed.

#[local] Hint Rewrite
  groupRotationY_ensureTextOpacity groupRotationY_tweenToScrollTargets_tween
  groupRotationY_updateCameraPose groupRotationY_animateBackgroundBlend
  groupRotationY_finishBackgroundBlend : frame.

Lemma groupRotationY_updateSectionTransition st :
  phase (sectionState st) <> loading ->
  groupRotationY (updateSectionTransition st) = groupRotationY st.
Proof.
  intro H. unfold updateSectionTransition.
  destruct (phase (sectionState st)); try (contradiction H; reflexivity); cbv zeta;
    repeat first [ progress autorewrite with frame | case_split ]; reflexivity.
Qed.

(** *** The background *)

Lemma background_ensureTextOpacity v st :
  backgroundTransition (ensureTextOpacity v st) = backgroundTransition st /\
  backgroundGradient (ensureTextOpacity v st) = backgroundGradient st.
Proof. split; frame_all. Qed.

Lemma background_tweenToScrollTargets t b st :
  backgroundTransition (tweenToScrollTargets t b st) = backgroundTransition st /\
  backgroundGradient (tweenToScrollTargets t b st) = backgroundGradient st.
Proof. split; frame_all. Qed.

Lemma background_updateCameraPose p st :
  backgroundTransition (updateCameraPose p st) = backgroundTransition st /\
  backgroundGradient (updateCameraPose p st) = backgroundGradient st.
Proof. split; reflexivity. Qed.

(** A blend value handed to a tween leaves the gradient, the flag and the
    start colours as they are. *)
Lemma background_animateBackgroundBlend_tween v st :
  bg_active (backgroundTransition (animateBackgroundBlend v false st))
  = bg_active (backgroundTransition st) /\
  bg_from (backgroundTransition (animateBackgroundBlend v false st))
  = bg_from (backgroundTransition st) /\
  backgroundGradient (animateBackgroundBlend v false st) = backgroundGradient st.
Proof. repeat split; frame_all. Qed.

Lemma background_updateSectionTransition_fadeOut st :
  phase (sectionState st) = fadeOut ->
  bg_active (backgroundTransition (updateSectionTransition st))
  = bg_active (backgroundTransition st) /\
  bg_from (backgroundTransition (updateSectionTransition st))
  = bg_from (backgroundTransition st) /\
  backgroundGradient (updateSectionTransition st) = backgroundGradient st.
Proof.
  intro H. unfold updateSectionTransition. rewrite H. cbv zeta.
  match goal with
  | |- context [animateBackgroundBlend ?v false ?s] =>
    destruct (background_animateBackgroundBlend_tween v s) as [A [F G]];
    rewrite A, F, G
  end.
  rewrite !(proj1 (background_updateCameraPose _ _)),
          !(proj2 (background_updateCameraPose _ _)).
  rewrite !(proj1 (background_tweenToScrollTargets _ _ _)),
          !(proj2 (background_tweenToScrollTargets _ _ _)).
  rewrite !(proj1 (background_ensureTextOpacity _ _)),
          !(proj2 (background_ensureTextOpacity _ _)).
  repeat split; reflexivity.
Qed.

(** In the idle phase with no blend in progress the background is not
    touched. *)
Lemma background_updateSectionTransition_idle st :
  phase (sectionState st) = idle ->
  backgroundTransition (updateSectionTransition st) = backgroundTransition st /\
  (bg_active (backgroundTransition st) = false ->
   backgroundGradient (updateSectionTransition st) = backgroundGradient st).
Proof.
  intro H. unfold updateSectionTransition. rewrite H. cbv zeta.
  set (s1 := updateCameraPose 1 _).
  assert (B : backgroundTransition s1 = backgroundTransition st).
  { subst s1. rewrite (proj1 (background_updateCameraPose _ _)).
    rewrite (proj1 (background_tweenToScrollTargets _ _ _)).
    apply (proj1 (background_ensureTextOpacity _ _)). }
  assert (G : backgroundGradient s1 = backgroundGradient st).
  { subst s1. rewrite (proj2 (background_updateCameraPose _ _)).
    rewrite (proj2 (background_tweenToScrollTargets _ _ _)).
    apply (proj2 (background_ensureTextOpacity _ _)). }
  rewrite B. destruct (bg_active (backgroundTransition st)) eqn:A; cbn [negb].
  - split; [exact B | discriminate].
  - unfold animateBackgroundBlend. rewrite B, A. cbn [negb]. split; [exact B | intros _; exact G].
Qed.

(** *** The camera *)

Ltac frame_camera :=
  intros;
  unfold ensureTextOpacity, setTextOpacityTarget, tweenToScrollTargets,
    applyScrollTweenState, setScatterAmplitude, setMorphProgress,
    animateBackgroundBlend, applyBackgroundBlend, finishBackgroundBlend,
    setBackgroundGradient;
  cbv zeta; repeat case_split; reflexivity.

Lemma camera_ensureTextOpacity v st :
  getCurrentCameraPose (ensureTextOpacity v st) = getCurrentCameraPose st.
Proof. frame_camera. Qed.

Lemma camera_tweenToScrollTargets t b st :
  getCurrentCameraPose (tweenToScrollTargets t b st) = getCurrentCameraPose st.
Proof. frame_camera. Qed.

Lemma camera_animateBackgroundBlend v b st :
  getCurrentCameraPose (animateBackgroundBlend v b st) = getCurrentCameraPose st.
Proof. frame_camera. Qed.

Lemma camera_finishBackgroundBlend c st :
  getCurrentCameraPose (fst (finishBackgroundBlend c st)) = getCurrentCameraPose st.
Proof. frame_camera. Qed.

Lemma camera_updateCameraPose p st s e :
  cameraStartPose (sectionState st) = Some s ->
  cameraEndPose (sectionState st) = Some e ->
  getCurrentCameraPose (updateCameraPose p st) = poseAt s e (clamp p 0 1).
Proof.
  intros Hs He. unfold updateCameraPose, getCurrentCameraPose, poseAt.
  rewrite Hs, He. reflexivity.
Qed.

Lemma camera_updateSectionTransition st s e :
  cameraStartPose (sectionState st) = Some s ->
  cameraEndPose (sectionState st) = Some e ->
  getCurrentCameraPose (updateSectionTransition st)
  = poseAt s e (clamp (cameraBlend (sectionState st)) 0 1).
Proof.
  intros Hs He. unfold updateSectionTransition, cameraBlend.
  destruct (phase (sectionState st)); cbv zeta;
    repeat first
      [ rewrite camera_animateBackgroundBlend
      | case_split ];
    (erewrite camera_updateCameraPose;
     [ reflexivity
     | autorewrite with frame; exact Hs
     | autorewrite with frame; exact He ]).
Qed.

Lemma poseAt_same s t : Pose_eq (poseAt s s t) {| pathT := clamp (pathT s) 0 1;
                                                  yaw := yaw s; pitch := pitch s |}.
Proof.
  unfold Pose_eq, poseAt. cbn. repeat split; try apply lerp_same.
  unfold clamp. rewrite lerp_same. reflexivity.
Qed.

Lemma sectionState_onSectionState f st :
  sectionState (onSectionState f st) = f (sectionState st).
Proof. reflexivity. Qed.

Lemma camera_onSectionState f st :
  getCurrentCameraPose (onSectionState f st) = getCurrentCameraPose st.
Proof. reflexivity. Qed.

Lemma pointsPosition_onSectionState f st :
  pointsPosition (onSectionState f st) = pointsPosition st.
Proof. reflexivity. Qed.

Lemma morphBuffer_onSectionState f st :
  morphBuffer (onSectionState f st) = morphBuffer st.
Proof. reflexivity. Qed.

Lemma groupRotationY_onSectionState f st :
  groupRotationY (onSectionState f st) = groupRotationY st.
Proof. reflexivity. Qed.

Lemma backgroundTransition_onSectionState f st :
  backgroundTransition (onSectionState f st) = backgroundTransition st.
Proof. reflexivity. Qed.

Lemma backgroundGradient_onSectionState f st :
  backgroundGradient (onSectionState f st) = backgroundGradient st.
Proof. reflexivity. Qed.

Lemma points_onSectionState f st : points (onSectionState f st) = points st.
Proof. reflexivity. Qed.

Lemma loads_onSectionState f st : loads (onSectionState f st) = loads st.
Proof. reflexivity. Qed.

#[local] Hint Rewrite
  sectionState_onSectionState camera_onSectionState pointsPosition_onSectionState
  morphBuffer_onSectionState groupRotationY_onSectionState
  backgroundTransition_onSectionState backgroundGradient_onSectionState
  points_onSectionState loads_onSectionState : frame.

(** ** Cancelling a transition *)

Lemma cancelTransition_eq st :
  cancelTransition st
  = fst (finishBackgroundBlend false
           (onSectionState (set_morphReady false)
              (updateSectionTransition (updateCameraPose 0 (cancelSetup st))))).
Proof. reflexivity. Qed.

Lemma phase_cancelTransition st : phase (sectionState (cancelTransition st)) = idle.
Proof.
  rewrite cancelTransition_eq. autorewrite with frame. reflexivity.
Qed.

Lemma sectionState_cancelSetup st :
  sectionState (cancelSetup st)
  = set_cameraEndPose (cameraStartPose (sectionState st))
      (set_rotationMid (rotationStart (sectionState st))
         (set_rotationTarget (rotationStart (sectionState st))
            (set_pendingScrollCarry 0
               (set_nextSection None
                  (set_pendingPromise None
                     (set_pendingIndex (index (sectionState st))
                        (set_transitionProgress 0
                           (set_phase idle (sectionState st))))))))).
Proof. reflexivity. Qed.

Lemma cancelSetup_rest st :
  groupRotationY (cancelSetup st) = rotationStart (sectionState st) /\
  points (cancelSetup st) = points st /\
  backgroundTransition (cancelSetup st) = backgroundTransition st /\
  backgroundGradient (cancelSetup st) = backgroundGradient st /\
  loads (cancelSetup st) = loads st.
Proof. repeat split; reflexivity. Qed.

Lemma sectionState_cancelTransition st :
  sectionState (cancelTransition st)
  = set_morphReady false (sectionState (cancelSetup st)).
Proof.
  rewrite cancelTransition_eq. autorewrite with frame. reflexivity.
Qed.

Lemma cancelTransition_restores st s :
  cameraStartPose (sectionState st) = Some s ->
  let st' := cancelTransition st in
  groupRotationY st' = rotationStart (sectionState st) /\
  Pose_eq (getCurrentCameraPose st')
          {| pathT := clamp (pathT s) 0 1; yaw := yaw s; pitch := pitch s |} /\
  pointsPosition st' = pointsPosition st /\
  bg_active (backgroundTransition st') = false /\
  (bg_active (backgroundTransition st) = false ->
   backgroundGradient st' = backgroundGradient st) /\
  (forall from, bg_active (backgroundTransition st) = true ->
                bg_from (backgroundTransition st) = Some from ->
                backgroundGradient st' = from).
Proof.
  intros Hs st'. subst st'. rewrite cancelTransition_eq.
  destruct (cancelSetup_rest st) as [R [P [B [G _]]]].
  pose proof (sectionState_cancelSetup st) as S.
  assert (Hphase : phase (sectionState (updateCameraPose 0 (cancelSetup st))) = idle).
  { rewrite sectionState_updateCameraPose, S. reflexivity. }
  assert (Hstart : cameraStartPose (sectionState (updateCameraPose 0 (cancelSetup st)))
                   = Some s).
  { rewrite sectionState_updateCameraPose, S. exact Hs. }
  assert (Hend : cameraEndPose (sectionState (updateCameraPose 0 (cancelSetup st)))
                 = Some s).
  { rewrite sectionState_updateCameraPose, S. exact Hs. }
  destruct (background_updateSectionTransition_idle _ Hphase) as [BT BG].
  rewrite (proj1 (background_updateCameraPose _ _)), B in BT.
  rewrite (proj1 (background_updateCameraPose _ _)),
          (proj2 (background_updateCameraPose _ _)), B, G in BG.
  set (moved := updateSectionTransition (updateCameraPose 0 (cancelSetup st))) in *.
  assert (Hbt : backgroundTransition (onSectionState (set_morphReady false) moved)
                = backgroundTransition st).
  { rewrite backgroundTransition_onSectionState. exact BT. }
  split; [|split; [|split; [|split; [|split]]]].
  - rewrite groupRotationY_finishBackgroundBlend, groupRotationY_onSectionState.
    subst moved.
    rewrite groupRotationY_updateSectionTransition by (rewrite Hphase; discriminate).
    rewrite groupRotationY_updateCameraPose. exact R.
  - rewrite camera_finishBackgroundBlend, camera_onSectionState. subst moved.
    rewrite (camera_updateSectionTransition _ s s Hstart Hend).
    apply poseAt_same.
  - rewrite (proj1 (pointsPosition_of_points _ _ (points_finishBackgroundBlend _ _))).
    rewrite pointsPosition_onSectionState. subst moved.
    rewrite pointsPosition_updateSectionTransition.
    apply (pointsPosition_of_points st). rewrite points_updateCameraPose. exact P.
  - unfold finishBackgroundBlend. rewrite Hbt.
    destruct (bg_active (backgroundTransition st)) eqn:A; cbn [negb fst].
    + destruct (bg_from (backgroundTransition st)); reflexivity.
    + rewrite Hbt. exact A.
  - intro A. unfold finishBackgroundBlend. rewrite Hbt, A. cbn [negb fst].
    rewrite backgroundGradient_onSectionState. apply BG. exact A.
  - intros from A F. unfold finishBackgroundBlend. rewrite Hbt, A, F.
    reflexivity.
Qed.

(** ** Starting a transition, unfolded *)

Lemma startSectionTransition_eq nextIndex direction initialProgress st sec :
  (getSectionCount <=? 0)%Z = false ->
  (normalizeSectionIndex nextIndex =? index (sectionState st))%Z
  && negb (Phase_eqb (phase (sectionState st)) boot) = false ->
  getSectionByIndex (normalizeSectionIndex nextIndex) = Some sec ->
  startSectionTransition nextIndex direction initialProgress st
  = let st1 := updateSectionTransition
                 (transitionStarted (normalizeSectionIndex nextIndex) sec
                                    direction initialProgress st) in
    if Qle_bool (1 - (1 # 10000)) (transitionProgress (sectionState st1))
    then beginSectionLoad st1
    else st1.
Proof.
  intros Htotal Hsame Hsec. unfold startSectionTransition.
  rewrite Htotal, Hsame, Hsec. reflexivity.
Qed.

Lemma transitionSetup_sectionState targetIndex sec dir initialProgress st :
  let ss := sectionState (transitionSetup targetIndex sec dir initialProgress st) in
  phase ss = fadeOut /\
  index ss = index (sectionState st) /\
  isReady ss = isReady (sectionState st) /\
  direction ss = directionSignOf dir /\
  nextIndex ss = targetIndex /\
  nextSection ss = Some sec /\
  rotationStart ss = groupRotationY st /\
  transitionProgress ss = clamp initialProgress 0 1 /\
  pendingScrollCarry ss = 0 /\
  wheelAccumulator ss = 0 /\
  cameraStartPose ss = Some (getCurrentCameraPose st) /\
  morphReady ss = false.
Proof. repeat split; reflexivity. Qed.

Lemma transitionSetup_rest targetIndex sec direction initialProgress st :
  let st' := transitionSetup targetIndex sec direction initialProgress st in
  groupRotationY st' = groupRotationY st /\
  points st' = points st /\
  backgroundTransition st' = backgroundTransition st /\
  backgroundGradient st' = backgroundGradient st /\
  getCurrentCameraPose st' = getCurrentCameraPose st /\
  loads st' = loads st /\
  sectionAssets st' = sectionAssets st.
Proof. repeat split; reflexivity. Qed.

Lemma transitionStarted_sectionState targetIndex sec direction initialProgress st :
  sectionState (transitionStarted targetIndex sec direction initialProgress st)
  = set_pendingPromise (Some (length (loads st)))
      (sectionState (transitionSetup targetIndex sec direction initialProgress st)).
Proof.
  unfold transitionStarted. cbv zeta. unfold ensureSectionMorphTarget.
  rewrite sectionState_onSectionState. cbn [sectionState set_loads].
  rewrite sectionState_startBackgroundBlend.
  f_equal. f_equal.
  assert (L : forall t s, loads (startBackgroundBlend t s) = loads s).
  { intros t s. unfold startBackgroundBlend, applyBackgroundBlend, finishBackgroundBlend,
      setBackgroundGradient. repeat case_split; reflexivity. }
  rewrite L. reflexivity.
Qed.

(** ** Entering the loading phase *)

Lemma loads_frames :
  (forall v st, loads (ensureTextOpacity v st) = loads st) /\
  (forall t b st, loads (tweenToScrollTargets t b st) = loads st) /\
  (forall p st, loads (updateCameraPose p st) = loads st) /\
  (forall v b st, loads (animateBackgroundBlend v b st) = loads st) /\
  (forall c st, loads (fst (finishBackgroundBlend c st)) = loads st).
Proof.
  repeat split; intros;
    unfold ensureTextOpacity, setTextOpacityTarget, tweenToScrollTargets,
      applyScrollTweenState, setScatterAmplitude, setMorphProgress,
      animateBackgroundBlend, applyBackgroundBlend, finishBackgroundBlend,
      setBackgroundGradient;
    cbv zeta; repeat case_split; reflexivity.
Qed.

Lemma loads_updateSectionTransition st : loads (updateSectionTransition st) = loads st.
Proof.
  destruct loads_frames as [A [B [C [D _]]]].
  unfold updateSectionTransition.
  destruct (phase (sectionState st)); cbv zeta;
    repeat first [ rewrite A | rewrite B | rewrite C | rewrite D | case_split ];
    reflexivity.
Qed.

Lemma sectionState_set_loads l st : sectionState (set_loads l st) = sectionState st.
Proof. reflexivity. Qed.

#[local] Hint Rewrite sectionState_set_loads : frame.

Lemma sectionState_beginSectionLoad st sec p :
  nextSection (sectionState st) = Some sec ->
  pendingPromise (sectionState st) = Some p ->
  sectionState (beginSectionLoad st)
  = set_pendingPromise (Some p) (set_phase loading (sectionState st)).
Proof.
  intros Hn Hp. unfold beginSectionLoad. rewrite Hn. cbv zeta.
  rewrite sectionState_updateSectionTransition, sectionState_onSectionState.
  change (pendingPromise (set_phase loading (sectionState st)))
    with (pendingPromise (sectionState st)).
  rewrite Hp. autorewrite with frame. reflexivity.
Qed.

Lemma phase_beginSectionLoad st :
  phase (sectionState (beginSectionLoad st))
  = match nextSection (sectionState st) with
    | Some _ => loading
    | None => idle
    end.
Proof.
  unfold beginSectionLoad. destruct (nextSection (sectionState st)) as [sec|].
  - cbv zeta.
    destruct (pendingPromise
                (sectionState (updateSectionTransition
                                 (onSectionState (set_phase loading) st)))) eqn:E.
    + autorewrite with frame. reflexivity.
    + unfold ensureSectionMorphTarget. autorewrite with frame. reflexivity.
  - apply phase_cancelTransition.
Qed.

(** The [.catch] of [beginSectionLoad] aborts to idle at progress 0 with the
    carry dropped and the section index untouched. *)
Lemma beginSectionLoad_catch_aborts st :
  let st' := beginSectionLoad_catch st in
  phase (sectionState st') = idle /\
  transitionProgress (sectionState st') = 0 /\
  pendingScrollCarry (sectionState st') = 0 /\
  pendingPromise (sectionState st') = None /\
  morphReady (sectionState st') = false /\
  index (sectionState st') = index (sectionState st) /\
  bg_active (backgroundTransition st') = false.
Proof.
  unfold beginSectionLoad_catch. cbv zeta.
  repeat split; autorewrite with frame; try reflexivity.
  match goal with
  | |- context [updateSectionTransition ?s] =>
    assert (P : phase (sectionState s) = idle)
      by (autorewrite with frame; reflexivity);
    rewrite (proj1 (background_updateSectionTransition_idle s P))
  end.
  unfold finishBackgroundBlend. autorewrite with frame.
  destruct (bg_active (backgroundTransition st)) eqn:A; cbn [negb fst].
  - reflexivity.
  - autorewrite with frame. exact A.
Qed.

(** ** Settling a promise chain *)

Lemma ensureSectionMorphTarget_then_frames sec g st :
  let st' := fst (ensureSectionMorphTarget_then sec g st) in
  sectionState st' = sectionState st /\
  pointsPosition st' = pointsPosition st /\
  groupRotationY st' = groupRotationY st /\
  backgroundTransition st' = backgroundTransition st /\
  backgroundGradient st' = backgroundGradient st /\
  getCurrentCameraPose st' = getCurrentCameraPose st.
Proof.
  unfold ensureSectionMorphTarget_then, pointsPosition, setPointsMorphTarget,
    setPointsMorphColor, withGeometry.
  cbv zeta.
  destruct (points st) as [pts|] eqn:P; [|cbn; rewrite P; repeat split; reflexivity].
  destruct (morphTarget (geometry pts)); [|cbn; rewrite P; repeat split; reflexivity].
  destruct (computeSampleFractions _ _); [|cbn; rewrite P; repeat split; reflexivity].
  destruct (generateMorphTargetArrayWithFractions _ _ _);
    [|cbn; rewrite P; repeat split; reflexivity].
  destruct (assetGet (id sec) (sectionAssets st));
    cbn [points set_sectionAssets set_points]; rewrite ?P;
    destruct (generateMorphColorArrayWithFractions _ _ _);
    cbn; repeat split; reflexivity.
Qed.

Lemma nth_error_updateLoad handle f ls ld :
  nth_error ls handle = Some ld ->
  nth_error (updateLoad handle f ls) handle = Some (f ld).
Proof.
  revert handle. induction ls as [|l ls IH]; intros [|n] H; simpl in *;
    try discriminate.
  - inversion H. reflexivity.
  - apply IH. exact H.
Qed.

Lemma runLoadHandler_unattached handle st ld :
  nth_error (loads st) handle = Some ld ->
  load_handler ld <> Attached ->
  runLoadHandler handle st = st.
Proof.
  intros H N. unfold runLoadHandler. rewrite H.
  destruct (load_handler ld); try reflexivity. contradiction N. reflexivity.
Qed.

Lemma resolveGeometry_frames ld outcome st :
  let st' := fst (resolveGeometry ld outcome st) in
  sectionState st' = sectionState st /\
  points st' = points st /\
  groupRotationY st' = groupRotationY st /\
  backgroundTransition st' = backgroundTransition st /\
  backgroundGradient st' = backgroundGradient st /\
  getCurrentCameraPose st' = getCurrentCameraPose st /\
  loads st' = loads st.
Proof.
  unfold resolveGeometry. cbv zeta.
  destruct (load_source ld); try (repeat split; reflexivity).
  destruct outcome; try (repeat split; reflexivity).
  destruct (assetGet _ _); repeat split; reflexivity.
Qed.

Lemma loads_ensureSectionMorphTarget_then sec g st :
  loads (fst (ensureSectionMorphTarget_then sec g st)) = loads st.
Proof.
  unfold ensureSectionMorphTarget_then. cbv zeta.
  repeat case_split; reflexivity.
Qed.

Lemma pointsPosition_set_loads l st : pointsPosition (set_loads l st) = pointsPosition st.
Proof. reflexivity. Qed.

Lemma groupRotationY_set_loads l st : groupRotationY (set_loads l st) = groupRotationY st.
Proof. reflexivity. Qed.

Lemma backgroundTransition_set_loads l st :
  backgroundTransition (set_loads l st) = backgroundTransition st.
Proof. reflexivity. Qed.

Lemma backgroundGradient_set_loads l st :
  backgroundGradient (set_loads l st) = backgroundGradient st.
Proof. reflexivity. Qed.

Lemma camera_set_loads l st :
  getCurrentCameraPose (set_loads l st) = getCurrentCameraPose st.
Proof. reflexivity. Qed.

Lemma loads_set_loads l st : loads (set_loads l st) = l.
Proof. reflexivity. Qed.

(** Settling a chain writes the morph buffer, the asset cache and
    [morphReady]; the rest of the transition state, the base positions, the
    rotation, the camera and the background are left alone. *)
Lemma settleChain_frames handle outcome ld st :
  let st' := settleChain handle outcome ld st in
  (sectionState st' = sectionState st \/
   exists b, sectionState st' = set_morphReady b (sectionState st)) /\
  pointsPosition st' = pointsPosition st /\
  groupRotationY st' = groupRotationY st /\
  backgroundTransition st' = backgroundTransition st /\
  backgroundGradient st' = backgroundGradient st /\
  getCurrentCameraPose st' = getCurrentCameraPose st /\
  exists s, loads st' = updateLoad handle (set_load_status s) (loads st).
Proof.
  unfold settleChain. cbv zeta.
  destruct (resolveGeometry_frames ld outcome st) as [S [P [R [BT [BG [C L]]]]]].
  set (resolved := resolveGeometry ld outcome st) in *.
  set (morphed := match snd resolved with
                  | Some g => ensureSectionMorphTarget_then (load_section ld) g (fst resolved)
                  | None => (fst resolved, false)
                  end).
  assert (M : sectionState (fst morphed) = sectionState st /\
              pointsPosition (fst morphed) = pointsPosition st /\
              groupRotationY (fst morphed) = groupRotationY st /\
              backgroundTransition (fst morphed) = backgroundTransition st /\
              backgroundGradient (fst morphed) = backgroundGradient st /\
              getCurrentCameraPose (fst morphed) = getCurrentCameraPose st /\
              loads (fst morphed) = loads st).
  { subst morphed. destruct (snd resolved) as [g|].
    - destruct (ensureSectionMorphTarget_then_frames (load_section ld) g (fst resolved))
        as [S' [P' [R' [BT' [BG' C']]]]].
      rewrite S', P', R', BT', BG', C', loads_ensureSectionMorphTarget_then.
      repeat split; try assumption.
      apply (pointsPosition_of_points st). exact P.
    - cbn [fst]. repeat split; try assumption.
      apply (pointsPosition_of_points st). exact P. }
  destruct M as [S' [P' [R' [BT' [BG' [C' L']]]]]].
  destruct (load_guarded ld).
  - rewrite sectionState_set_loads, pointsPosition_set_loads, groupRotationY_set_loads,
      backgroundTransition_set_loads, backgroundGradient_set_loads, camera_set_loads,
      loads_set_loads.
    autorewrite with frame. rewrite S', L'.
    repeat split; try assumption.
    + right. exists (snd morphed). reflexivity.
    + exists Fulfilled. reflexivity.
  - rewrite sectionState_set_loads, pointsPosition_set_loads, groupRotationY_set_loads,
      backgroundTransition_set_loads, backgroundGradient_set_loads, camera_set_loads,
      loads_set_loads.
    rewrite L'. repeat split; try assumption.
    + left. exact S'.
    + eexists. reflexivity.
Qed.

(** ** A fade-out keeps its snapshot *)

Lemma fadeOutKeeps_update origin st :
  fadeOutKeeps origin st -> fadeOutKeeps origin (updateSectionTransition st).
Proof.
  intros [Hp [Hr [Hc [Hi [Hpos Hbg]]]]]. unfold fadeOutKeeps.
  rewrite sectionState_updateSectionTransition, pointsPosition_updateSectionTransition.
  destruct (background_updateSectionTransition_fadeOut st Hp) as [A [F G]].
  rewrite A, F, G. repeat split; assumption.
Qed.

Lemma fadeOutKeeps_progress origin st v :
  fadeOutKeeps origin st ->
  fadeOutKeeps origin (onSectionState (set_transitionProgress v) st).
Proof.
  intros [Hp [Hr [Hc [Hi [Hpos Hbg]]]]]. unfold fadeOutKeeps.
  autorewrite with frame. repeat split; assumption.
Qed.

Lemma fadeOutKeeps_morphReady origin st b :
  fadeOutKeeps origin st ->
  fadeOutKeeps origin (onSectionState (set_morphReady b) st).
Proof.
  intros [Hp [Hr [Hc [Hi [Hpos Hbg]]]]]. unfold fadeOutKeeps.
  autorewrite with frame. repeat split; assumption.
Qed.

Lemma fadeOutKeeps_scroll origin st delta isTouch :
  fadeOutKeeps origin st ->
  phase (sectionState (applyScrollDelta delta isTouch st)) = fadeOut ->
  fadeOutKeeps origin (applyScrollDelta delta isTouch st).
Proof.
  intros K. pose proof K as [Hp _].
  unfold applyScrollDelta, applyScrollDelta_upto, applyScrollDelta_with.
  destruct (negb (isReady (sectionState st))); [intros _; exact K|].
  rewrite Hp. unfold advanceTransitionProgress_with. rewrite Hp. cbv zeta.
  destruct (Qeq_bool _ 0); [intros _; apply fadeOutKeeps_update, K|].
  destruct (Qle_bool _ 0).
  { rewrite phase_cancelTransition. discriminate. }
  destruct (Qle_bool 1 _).
  { rewrite phase_beginSectionLoad. destruct (nextSection _); discriminate. }
  intros _. apply fadeOutKeeps_update, fadeOutKeeps_progress, K.
Qed.

Lemma fadeOutKeeps_settle origin st handle outcome ld :
  fadeOutKeeps origin st ->
  nth_error (loads st) handle = Some ld ->
  load_handler ld <> Attached ->
  fadeOutKeeps origin (settleLoad handle outcome st).
Proof.
  intros K H N. unfold settleLoad. rewrite H.
  destruct (load_status ld); try exact K.
  destruct (settleChain_frames handle outcome ld st) as [S [P [R [BT [BG [C [s L]]]]]]].
  rewrite (runLoadHandler_unattached handle _ (set_load_status s ld)).
  - destruct K as [Hp [Hr [Hc [Hi [Hpos Hbg]]]]]. unfold fadeOutKeeps.
    rewrite P, BT, BG.
    destruct S as [S | [b S]]; rewrite S; repeat split; assumption.
  - rewrite L. apply nth_error_updateLoad. exact H.
  - exact N.
Qed.

(** A tick of the scroll tween turns the cloud and moves scatter, morph and
    placement; the snapshot, the base positions and the background are not
    touched. *)
Lemma background_applyScrollTweenState st :
  backgroundTransition (applyScrollTweenState st) = backgroundTransition st /\
  backgroundGradient (applyScrollTweenState st) = backgroundGradient st.
Proof.
  unfold applyScrollTweenState, setScatterAmplitude, setMorphProgress.
  cbv zeta. repeat case_split; split; reflexivity.
Qed.

Lemma fadeOutKeeps_playScrollTween origin st ratio :
  fadeOutKeeps origin st -> fadeOutKeeps origin (playScrollTween ratio st).
Proof.
  intros K. unfold playScrollTween.
  destruct (scrollTween st) as [targets|]; [|exact K].
  destruct K as [Hp [Hr [Hc [Hi [Hpos Hbg]]]]]. unfold fadeOutKeeps.
  rewrite sectionState_applyScrollTweenState.
  rewrite (proj1 (geometry_applyScrollTweenState _)).
  destruct (background_applyScrollTweenState
              (set_scrollTweenState (lerpTweenVals (scrollTweenState st) targets ratio) st))
    as [BT BG].
  rewrite BT, BG.
  repeat split; assumption.
Qed.

(** A tick of the background tween blends the gradient between the colours
    of the running blend, whose start colours stay on record. *)
Lemma applyBackgroundBlend_frames v st :
  backgroundTransition (applyBackgroundBlend v st) = backgroundTransition st /\
  pointsPosition (applyBackgroundBlend v st) = pointsPosition st /\
  (bg_active (backgroundTransition st) = false ->
   backgroundGradient (applyBackgroundBlend v st) = backgroundGradient st).
Proof.
  unfold applyBackgroundBlend, setBackgroundGradient. cbv zeta.
  destruct (bg_active (backgroundTransition st)),
           (bg_from (backgroundTransition st)),
           (bg_to (backgroundTransition st));
    repeat split; try reflexivity; intro H; discriminate H.
Qed.

Lemma fadeOutKeeps_playBackgroundTween origin st ratio :
  fadeOutKeeps origin st -> fadeOutKeeps origin (playBackgroundTween ratio st).
Proof.
  intros K. unfold playBackgroundTween. cbv zeta.
  destruct (bg_tween (backgroundTransition st)) as [target|]; [|exact K].
  destruct K as [Hp [Hr [Hc [Hi [Hpos Hbg]]]]]. unfold fadeOutKeeps.
  match goal with
  | |- context [applyBackgroundBlend ?v ?s] =>
    destruct (applyBackgroundBlend_frames v s) as [BT [P G]]
  end.
  rewrite sectionState_applyBackgroundBlend, BT, P.
  repeat split; try assumption.
  destruct Hbg as [[A F] | [A G0]].
  - left. split; assumption.
  - right. split; [exact A|]. rewrite G; [exact G0 | exact A].
Qed.

Lemma fadeOutKeeps_run origin start st :
  fadeOutKeeps origin start -> fadeOutRun start st -> fadeOutKeeps origin st.
Proof.
  intros K R. induction R as [|st st' R IH step]; [exact K|].
  destruct step as [delta isTouch st Hp Hp' | handle outcome ld st H N | st
                    | ratio st | ratio st].
  - apply fadeOutKeeps_scroll; assumption.
  - apply (fadeOutKeeps_settle origin st handle outcome ld); assumption.
  - apply fadeOutKeeps_update, IH.
  - apply fadeOutKeeps_playScrollTween, IH.
  - apply fadeOutKeeps_playBackgroundTween, IH.
Qed.

Lemma startBackgroundBlend_keeps t st :
  bg_active (backgroundTransition st) = false ->
  let st' := startBackgroundBlend t st in
  (bg_active (backgroundTransition st') = true /\
   bg_from (backgroundTransition st') = Some (backgroundGradient st)) \/
  (bg_active (backgroundTransition st') = false /\
   backgroundGradient st' = backgroundGradient st).
Proof.
  intro A. unfold startBackgroundBlend. destruct t as [target|].
  - left. unfold applyBackgroundBlend, setBackgroundGradient. cbn. split; reflexivity.
  - right. unfold finishBackgroundBlend. rewrite A. cbn. split; [exact A | reflexivity].
Qed.

Lemma transitionStarted_frames targetIndex sec dir initialProgress st :
  let st' := transitionStarted targetIndex sec dir initialProgress st in
  let blended :=
    startBackgroundBlend (background sec)
                         (transitionSetup targetIndex sec dir initialProgress st) in
  pointsPosition st' = pointsPosition st /\
  backgroundTransition st' = backgroundTransition blended /\
  backgroundGradient st' = backgroundGradient blended.
Proof.
  unfold transitionStarted, ensureSectionMorphTarget. cbv zeta.
  rewrite pointsPosition_onSectionState, backgroundTransition_onSectionState,
    backgroundGradient_onSectionState.
  rewrite pointsPosition_set_loads, backgroundTransition_set_loads,
    backgroundGradient_set_loads.
  repeat split.
  apply (pointsPosition_of_points st). rewrite points_startBackgroundBlend.
  apply transitionSetup_rest.
Qed.

Lemma fadeOutKeeps_started targetIndex sec dir initialProgress st :
  bg_active (backgroundTransition st) = false ->
  fadeOutKeeps st (transitionStarted targetIndex sec dir initialProgress st).
Proof.
  intro A. unfold fadeOutKeeps.
  rewrite transitionStarted_sectionState.
  destruct (transitionSetup_sectionState targetIndex sec dir initialProgress st)
    as [Hp [Hi [_ [_ [_ [_ [Hr [_ [_ [_ [Hc _]]]]]]]]]]].
  destruct (transitionStarted_frames targetIndex sec dir initialProgress st)
    as [P [BT BG]].
  destruct (transitionSetup_rest targetIndex sec dir initialProgress st)
    as [_ [_ [BT0 [BG0 _]]]].
  rewrite P, BT, BG.
  repeat split; try assumption.
  rewrite <- BG0. apply startBackgroundBlend_keeps. rewrite BT0. exact A.
Qed.

Lemma fadeOutKeeps_startSectionTransition nextIndex dir initialProgress st :
  phase (sectionState st) = idle ->
  bg_active (backgroundTransition st) = false ->
  phase (sectionState (startSectionTransition nextIndex dir initialProgress st)) = fadeOut ->
  fadeOutKeeps st (startSectionTransition nextIndex dir initialProgress st).
Proof.
  intros Hidle A. unfold startSectionTransition. cbv zeta.
  destruct (getSectionCount <=? 0)%Z; [rewrite Hidle; discriminate|].
  destruct (_ && _); [rewrite Hidle; discriminate|].
  destruct (getSectionByIndex _) as [sec|]; [|rewrite Hidle; discriminate].
  destruct (Qle_bool _ _).
  - rewrite phase_beginSectionLoad. destruct (nextSection _); discriminate.
  - intros _. apply fadeOutKeeps_update, fadeOutKeeps_started, A.
Qed.

(** C3.  A fade-out whose progress is driven back to 0 or below before it
    reaches 1 is cancelled, whatever has happened since it started: scrolls
    that kept it going, preloads that settled, animation frames, and ticks of
    the two GSAP tweens, which turn the cloud and blend the background while
    the fade-out runs.  The phase is idle again at progress 0 with the
    pending carry cleared and no target left, the rotation, the camera pose
    and the background gradient are those of the state the transition started
    from, and neither the section index nor the base positions of the cloud
    have changed. *)
Theorem fadeOut_reversal_cancels
    (nextIndex dir : Z) (initialProgress stepRaw : Q) (origin st : State) :
  phase (sectionState origin) = idle ->
  bg_active (backgroundTransition origin) = false ->
  0 <= cameraPathTarget origin <= 1 ->
  phase (sectionState (startSectionTransition nextIndex dir initialProgress origin))
  = fadeOut ->
  fadeOutRun (startSectionTransition nextIndex dir initialProgress origin) st ->
  ~ stepRaw * inject_Z (directionOr1 st) == 0 ->
  transitionProgress (sectionState st) + stepRaw * inject_Z (directionOr1 st) <= 0 ->
  let st' := advanceTransitionProgress stepRaw st in
  phase (sectionState st') = idle /\
  transitionProgress (sectionState st') = 0 /\
  pendingScrollCarry (sectionState st') = 0 /\
  nextSection (sectionState st') = None /\
  pendingPromise (sectionState st') = None /\
  groupRotationY st' = groupRotationY origin /\
  Pose_eq (getCurrentCameraPose st') (getCurrentCameraPose origin) /\
  backgroundGradient st' = backgroundGradient origin /\
  bg_active (backgroundTransition st') = false /\
  index (sectionState st') = index (sectionState origin) /\
  pointsPosition st' = pointsPosition origin.
Proof.
  intros Hidle Hbg [Hlo Hhi] Hstart Hrun Hmove Hback st'.
  pose proof (fadeOutKeeps_run origin _ st
                (fadeOutKeeps_startSectionTransition _ _ _ _ Hidle Hbg Hstart) Hrun)
    as [Hp [Hr [Hc [Hi [Hpos Hkeep]]]]].
  assert (E : st' = cancelTransition st).
  { subst st'. unfold advanceTransitionProgress, advanceTransitionProgress_with.
    rewrite Hp. cbv zeta.
    destruct (Qeq_bool _ 0) eqn:Z0; [apply Qeq_bool_iff in Z0; contradiction|].
    apply Qle_bool_iff in Hback. rewrite Hback. reflexivity. }
  rewrite E. clear E st'.
  destruct (cancelTransition_restores st _ Hc) as [R [C [P [BA [BG0 BG1]]]]].
  rewrite sectionState_cancelTransition, sectionState_cancelSetup.
  split; [reflexivity|]. split; [reflexivity|]. split; [reflexivity|].
  split; [reflexivity|]. split; [reflexivity|].
  split; [rewrite R; exact Hr|].
  split.
  { destruct C as [Cp [Cy Cq]]. repeat split; try assumption.
    rewrite Cp. apply clamp_id; assumption. }
  split.
  { destruct Hkeep as [[A F] | [A G]].
    - apply BG1; assumption.
    - rewrite BG0; assumption. }
  split; [exact BA|].
  split; [exact Hi|].
  rewrite P. exact Hpos.
Qed.

(** ** Section indices *)

Lemma normalizeSectionIndex_mod i :
  (0 < getSectionCount)%Z -> normalizeSectionIndex i = (i mod getSectionCount)%Z.
Proof.
  intro H. unfold normalizeSectionIndex.
  destruct (getSectionCount <=? 0)%Z eqn:E; [apply Z.leb_le in E; lia|].
  pose proof (Z.quot_rem' i getSectionCount) as Q.
  assert (B : (- getSectionCount < Z.rem i getSectionCount < getSectionCount)%Z).
  { destruct (Z_le_gt_dec 0 i) as [P|N].
    - pose proof (Z.rem_bound_pos i getSectionCount P H). lia.
    - pose proof (Z.rem_bound_pos (- i) getSectionCount ltac:(lia) H) as R.
      rewrite Z.rem_opp_l in R by lia. lia. }
  assert (S : (0 <= i -> 0 <= Z.rem i getSectionCount)%Z).
  { intro P. apply Z.rem_bound_pos; assumption. }
  assert (S' : (i < 0 -> Z.rem i getSectionCount <= 0)%Z).
  { intro N. pose proof (Z.rem_bound_pos (- i) getSectionCount ltac:(lia) H) as R.
    rewrite Z.rem_opp_l in R by lia. lia. }
  destruct (Z.rem i getSectionCount <? 0)%Z eqn:F.
  - apply Z.ltb_lt in F.
    apply (Z.mod_unique i getSectionCount (Z.quot i getSectionCount - 1)); lia.
  - apply Z.ltb_ge in F.
    apply (Z.mod_unique i getSectionCount (Z.quot i getSectionCount)); lia.
Qed.

Lemma normalizeSectionIndex_range i :
  (0 < getSectionCount)%Z -> (0 <= normalizeSectionIndex i < getSectionCount)%Z.
Proof.
  intro H. rewrite normalizeSectionIndex_mod by exact H.
  apply Z.mod_pos_bound. exact H.
Qed.

Lemma normalizeSectionIndex_idem i :
  normalizeSectionIndex (normalizeSectionIndex i) = normalizeSectionIndex i.
Proof.
  destruct (Z_lt_le_dec 0 getSectionCount) as [H|H].
  - rewrite (normalizeSectionIndex_mod (normalizeSectionIndex i)) by exact H.
    apply Z.mod_small, normalizeSectionIndex_range, H.
  - unfold normalizeSectionIndex.
    destruct (getSectionCount <=? 0)%Z eqn:E; [reflexivity|].
    apply Z.leb_gt in E. lia.
Qed.

Lemma normalizeSectionIndex_neighbour i d :
  (2 <= getSectionCount)%Z -> (0 <= i < getSectionCount)%Z -> (d = 1 \/ d = -1)%Z ->
  normalizeSectionIndex (i + d) <> i.
Proof.
  intros H Hi Hd. rewrite normalizeSectionIndex_mod by lia.
  destruct Hd as [-> | ->].
  - destruct (Z.eq_dec (i + 1) getSectionCount) as [E|N].
    + rewrite E, Z.mod_same by lia. lia.
    + rewrite Z.mod_small by lia. lia.
  - destruct (Z.eq_dec i 0) as [E|N].
    + subst i.
      rewrite <- (Z.mod_unique (0 + -1) getSectionCount (-1) (getSectionCount - 1)); lia.
    + rewrite Z.mod_small by lia. lia.
Qed.

Lemma getSectionByIndex_some i :
  (0 < getSectionCount)%Z -> exists sec, getSectionByIndex i = Some sec.
Proof.
  intro H. unfold getSectionByIndex.
  destruct (getSectionCount =? 0)%Z eqn:E; [apply Z.eqb_eq in E; lia|].
  pose proof (normalizeSectionIndex_range i H) as R.
  destruct (nth_error sections (Z.to_nat (normalizeSectionIndex i))) eqn:N.
  - eexists. reflexivity.
  - apply nth_error_None in N. unfold getSectionCount in R. lia.
Qed.

(** ** Scrolling while idle *)

Lemma set_pendingPromise_fields p ss :
  let ss' := set_pendingPromise p ss in
  pendingPromise ss' = p /\
  phase ss' = phase ss /\ index ss' = index ss /\ isReady ss' = isReady ss /\
  direction ss' = direction ss /\ nextIndex ss' = nextIndex ss /\
  nextSection ss' = nextSection ss /\
  transitionProgress ss' = transitionProgress ss /\
  pendingScrollCarry ss' = pendingScrollCarry ss /\
  wheelAccumulator ss' = wheelAccumulator ss /\
  morphReady ss' = morphReady ss.
Proof. repeat split; reflexivity. Qed.

Lemma set_phase_fields p ss :
  let ss' := set_phase p ss in
  phase ss' = p /\
  pendingPromise ss' = pendingPromise ss /\ index ss' = index ss /\
  isReady ss' = isReady ss /\
  direction ss' = direction ss /\ nextIndex ss' = nextIndex ss /\
  nextSection ss' = nextSection ss /\
  transitionProgress ss' = transitionProgress ss /\
  pendingScrollCarry ss' = pendingScrollCarry ss /\
  wheelAccumulator ss' = wheelAccumulator ss /\
  morphReady ss' = morphReady ss.
Proof. repeat split; reflexivity. Qed.

Lemma set_pendingScrollCarry_fields c ss :
  let ss' := set_pendingScrollCarry c ss in
  pendingScrollCarry ss' = c /\
  phase ss' = phase ss /\ pendingPromise ss' = pendingPromise ss /\
  index ss' = index ss /\ isReady ss' = isReady ss /\
  direction ss' = direction ss /\ nextIndex ss' = nextIndex ss /\
  nextSection ss' = nextSection ss /\
  transitionProgress ss' = transitionProgress ss /\
  wheelAccumulator ss' = wheelAccumulator ss /\
  morphReady ss' = morphReady ss.
Proof. repeat split; reflexivity. Qed.

Lemma set_wheelAccumulator_fields a ss :
  let ss' := set_wheelAccumulator a ss in
  wheelAccumulator ss' = a /\
  phase ss' = phase ss /\ index ss' = index ss /\ isReady ss' = isReady ss.
Proof. repeat split; reflexivity. Qed.

(** The transition state after [startSectionTransition] has started a
    transition: the set-up values with the preload as pending promise, and the
    loading phase entered at once when the initial progress is (almost) 1. *)
Lemma sectionState_startSectionTransition nextIndex dir initialProgress st sec :
  (getSectionCount <=? 0)%Z = false ->
  (normalizeSectionIndex nextIndex =? index (sectionState st))%Z
  && negb (Phase_eqb (phase (sectionState st)) boot) = false ->
  getSectionByIndex (normalizeSectionIndex nextIndex) = Some sec ->
  let started :=
    set_pendingPromise
      (Some (length (loads st)))
      (sectionState (transitionSetup (normalizeSectionIndex nextIndex) sec dir
                                     initialProgress st)) in
  sectionState (startSectionTransition nextIndex dir initialProgress st)
  = if Qle_bool (1 - (1 # 10000)) (clamp initialProgress 0 1)
    then set_pendingPromise (Some (length (loads st))) (set_phase loading started)
    else started.
Proof.
  intros Htotal Hsame Hsec started.
  rewrite (startSectionTransition_eq _ _ _ _ sec Htotal Hsame Hsec). cbv zeta.
  set (ti := normalizeSectionIndex nextIndex) in *.
  pose proof (transitionStarted_sectionState ti sec dir initialProgress st) as S.
  fold started in S.
  destruct (set_pendingPromise_fields
              (Some (length (loads st)))
              (sectionState (transitionSetup ti sec dir initialProgress st)))
    as [Fp [_ [_ [_ [_ [_ [Fn [Ft _]]]]]]]].
  fold started in Fp, Fn, Ft.
  destruct (transitionSetup_sectionState ti sec dir initialProgress st)
    as [_ [_ [_ [_ [_ [Hn [_ [Ht _]]]]]]]].
  rewrite sectionState_updateSectionTransition, S, Ft, Ht.
  destruct (Qle_bool _ _).
  - rewrite (sectionState_beginSectionLoad _ sec (length (loads st))).
    + rewrite sectionState_updateSectionTransition, S. reflexivity.
    + rewrite sectionState_updateSectionTransition, S, Fn. exact Hn.
    + rewrite sectionState_updateSectionTransition, S. exact Fp.
  - rewrite sectionState_updateSectionTransition. exact S.
Qed.

Lemma accumulateScroll_below delta threshold progressScale st :
  Qabs (wheelAccumulator (sectionState st) + delta) < threshold ->
  accumulateScroll delta threshold progressScale st
  = onSectionState (set_wheelAccumulator (wheelAccumulator (sectionState st) + delta)) st.
Proof.
  intro H. unfold accumulateScroll. cbv zeta.
  rewrite sectionState_onSectionState.
  rewrite (proj1 (set_wheelAccumulator_fields _ _)).
  apply Qle_bool_false in H. rewrite H. reflexivity.
Qed.

Lemma accumulateScroll_trigger delta threshold progressScale st :
  threshold <= Qabs (wheelAccumulator (sectionState st) + delta) ->
  let acc := wheelAccumulator (sectionState st) + delta in
  let direction := if Qlt_bool 0 acc then 1%Z else (-1)%Z in
  let progressRaw := Qabs (acc - inject_Z direction * threshold) / progressScale in
  let initialProgress := Qmin 1 progressRaw in
  let carry := Qmax 0 (progressRaw - initialProgress) in
  let started :=
    startSectionTransition
      (normalizeSectionIndex (index (sectionState st) + direction))
      direction initialProgress
      (onSectionState (set_wheelAccumulator 0)
                      (onSectionState (set_wheelAccumulator acc) st)) in
  accumulateScroll delta threshold progressScale st
  = if Qlt_bool 0 carry
    then onSectionState (set_pendingScrollCarry carry) started
    else started.
Proof.
  intro H. cbv zeta. unfold accumulateScroll. cbv zeta.
  rewrite !sectionState_onSectionState.
  rewrite !(proj1 (set_wheelAccumulator_fields _ _)).
  apply Qle_bool_iff in H. rewrite H.
  destruct (set_wheelAccumulator_fields 0
              (set_wheelAccumulator (wheelAccumulator (sectionState st) + delta)
                                    (sectionState st))) as [_ [_ [I _]]].
  rewrite I.
  destruct (set_wheelAccumulator_fields (wheelAccumulator (sectionState st) + delta)
                                        (sectionState st)) as [_ [_ [I' _]]].
  rewrite I'. reflexivity.
Qed.

Lemma Qabs_sign_threshold acc threshold :
  0 < threshold -> threshold <= Qabs acc ->
  (0 < acc /\ Qlt_bool 0 acc = true) \/ (acc < 0 /\ Qlt_bool 0 acc = false).
Proof.
  intros Ht Ha. destruct (Qlt_le_dec 0 acc) as [P|N].
  - left. split; [exact P | apply Qlt_bool_iff; exact P].
  - right. split; [|apply Qlt_bool_false; exact N].
    apply Qle_lt_or_eq in N. destruct N as [N|E]; [exact N|].
    exfalso. rewrite E in Ha. change (Qabs 0) with 0 in Ha.
    apply (Qlt_not_le _ _ Ht Ha).
Qed.

Lemma carry_stored (started : State) (carry : Q) :
  0 <= carry ->
  pendingScrollCarry (sectionState started) = 0 ->
  pendingScrollCarry
    (sectionState (if Qlt_bool 0 carry
                   then onSectionState (set_pendingScrollCarry carry) started
                   else started)) == carry.
Proof.
  intros H0 Hs. destruct (Qlt_bool 0 carry) eqn:C.
  - rewrite sectionState_onSectionState.
    rewrite (proj1 (set_pendingScrollCarry_fields carry (sectionState started))).
    reflexivity.
  - apply Qlt_bool_false in C. rewrite Hs.
    apply Qle_antisym; assumption.
Qed.

(** The content of C5 with every intermediate value named by an equation. *)
Lemma accumulateScroll_starts
    (delta threshold progressScale : Q) (st : State)
    (acc : Q) (dir : Z) (progressRaw initialProgress carry : Q) :
  acc = wheelAccumulator (sectionState st) + delta ->
  dir = (if Qlt_bool 0 acc then 1%Z else (-1)%Z) ->
  progressRaw = Qabs (acc - inject_Z dir * threshold) / progressScale ->
  initialProgress = Qmin 1 progressRaw ->
  carry = Qmax 0 (progressRaw - initialProgress) ->
  (2 <= getSectionCount)%Z ->
  (0 <= index (sectionState st) < getSectionCount)%Z ->
  0 < threshold ->
  0 < progressScale ->
  threshold <= Qabs acc ->
  forall st', st' = accumulateScroll delta threshold progressScale st ->
  ((0 < acc /\ dir = 1%Z) \/ (acc < 0 /\ dir = (-1)%Z)) /\
  phase (sectionState st')
  = (if Qle_bool (1 - (1 # 10000)) initialProgress then loading else fadeOut) /\
  direction (sectionState st') = dir /\
  nextIndex (sectionState st')
  = normalizeSectionIndex (index (sectionState st) + dir) /\
  nextIndex (sectionState st') <> index (sectionState st) /\
  index (sectionState st') = index (sectionState st) /\
  pendingPromise (sectionState st') = Some (length (loads st)) /\
  transitionProgress (sectionState st') == initialProgress /\
  pendingScrollCarry (sectionState st') == carry /\
  wheelAccumulator (sectionState st') = 0.
Proof.
  intros Hacc Hdir Hraw Hini Hcar Htotal Hindex Hthr Hscale Hreach st' Hst'.
  pose proof (accumulateScroll_trigger delta threshold progressScale st) as T.
  cbv zeta in T. rewrite <- Hacc in T. rewrite <- Hdir in T. rewrite <- Hraw in T.
  rewrite <- Hini in T. rewrite <- Hcar in T. specialize (T Hreach).
  rewrite T in Hst'. clear T.
  assert (Hc0 : 0 <= carry) by (rewrite Hcar; apply Q.le_max_l).
  assert (Hd : (dir = 1 \/ dir = -1)%Z)
    by (rewrite Hdir; destruct (Qlt_bool 0 acc); [left|right]; reflexivity).
  assert (Hsign : (0 < acc /\ dir = 1%Z) \/ (acc < 0 /\ dir = (-1)%Z)).
  { rewrite Hdir.
    destruct (Qabs_sign_threshold acc threshold Hthr Hreach) as [[P B]|[N B]];
      rewrite B; [left|right]; split; try assumption; reflexivity. }
  assert (Hip : 0 <= initialProgress <= 1).
  { rewrite Hini. split.
    - apply Q.min_glb; [discriminate|]. rewrite Hraw. unfold Qdiv.
      apply Qmult_le_0_compat; [apply Qabs_nonneg|].
      apply Qlt_le_weak, Qinv_lt_0_compat, Hscale.
    - apply Q.le_min_l. }
  assert (Hclamp : clamp initialProgress 0 1 == initialProgress)
    by (apply clamp_id; apply Hip).
  clear Hacc Hdir Hraw Hini Hcar Hthr Hscale Hreach progressRaw.
  set (ti := normalizeSectionIndex (index (sectionState st) + dir)) in *.
  assert (Hne : ti <> index (sectionState st))
    by (apply normalizeSectionIndex_neighbour; assumption).
  destruct (getSectionByIndex_some ti ltac:(lia)) as [sec Hsec].
  assert (Htot : (getSectionCount <=? 0)%Z = false) by (apply Z.leb_gt; lia).
  assert (Hti : normalizeSectionIndex ti = ti) by apply normalizeSectionIndex_idem.
  clearbody ti.
  assert (I2 : index (sectionState
                        (onSectionState (set_wheelAccumulator 0)
                           (onSectionState (set_wheelAccumulator acc) st)))
               = index (sectionState st)) by reflexivity.
  assert (L2 : loads (onSectionState (set_wheelAccumulator 0)
                        (onSectionState (set_wheelAccumulator acc) st))
               = loads st) by reflexivity.
  remember (onSectionState (set_wheelAccumulator 0)
              (onSectionState (set_wheelAccumulator acc) st)) as st2 eqn:E2.
  clear E2.
  assert (Hsame : (normalizeSectionIndex ti =? index (sectionState st2))%Z
                  && negb (Phase_eqb (phase (sectionState st2)) boot) = false).
  { rewrite Hti, I2. apply andb_false_iff. left. apply Z.eqb_neq. exact Hne. }
  rewrite <- Hti in Hsec.
  pose proof (sectionState_startSectionTransition ti dir initialProgress st2 sec
                Htot Hsame Hsec) as S.
  cbv zeta in S. rewrite Hti, L2 in S.
  destruct (transitionSetup_sectionState ti sec dir initialProgress st2)
    as [Bp [Bi [_ [Bd [Bn [_ [_ [Bt [Bc [Bw _]]]]]]]]]].
  rewrite I2 in Bi.
  remember (sectionState (transitionSetup ti sec dir initialProgress st2)) as base
    eqn:Ebase.
  clear Ebase.
  remember (startSectionTransition ti dir initialProgress st2) as started eqn:Estarted.
  clear Estarted.
  assert (Hds : directionSignOf dir = dir)
    by (unfold directionSignOf; destruct Hd as [-> | ->]; reflexivity).
  assert (Hphase_if : Qle_bool (1 - (1 # 10000)) (clamp initialProgress 0 1)
                      = Qle_bool (1 - (1 # 10000)) initialProgress)
    by (rewrite Hclamp; reflexivity).
  rewrite Hphase_if in S. clear Hphase_if.
  assert (Hss : sectionState st'
                = if Qlt_bool 0 carry
                  then set_pendingScrollCarry carry (sectionState started)
                  else sectionState started).
  { rewrite Hst'. destruct (Qlt_bool 0 carry); [apply sectionState_onSectionState|].
    reflexivity. }
  clear Hst'.
  assert (F : phase (sectionState started)
              = (if Qle_bool (1 - (1 # 10000)) initialProgress then loading else fadeOut) /\
              direction (sectionState started) = dir /\
              nextIndex (sectionState started) = ti /\
              index (sectionState started) = index (sectionState st) /\
              pendingPromise (sectionState started) = Some (length (loads st)) /\
              transitionProgress (sectionState started) == initialProgress /\
              pendingScrollCarry (sectionState started) = 0 /\
              wheelAccumulator (sectionState started) = 0).
  { rewrite S. clear S Hss.
    destruct (Qle_bool _ initialProgress).
    - destruct (set_pendingPromise_fields
                  (Some (length (loads st)))
                  (set_phase loading
                     (set_pendingPromise (Some (length (loads st))) base)))
        as [A1 [_ [A3 [_ [A5 [A6 [_ [A8 [A9 [A10 _]]]]]]]]]].
      destruct (set_phase_fields
                  loading (set_pendingPromise (Some (length (loads st))) base))
        as [B1 [_ [B3 [_ [B5 [B6 [_ [B8 [B9 [B10 _]]]]]]]]]].
      destruct (set_pendingPromise_fields (Some (length (loads st))) base)
        as [C1 [C2 [C3 [_ [C5 [C6 [_ [C8 [C9 [C10 _]]]]]]]]]].
      cbv zeta in *.
      rewrite A1, A3, A5, A6, A8, A9, A10, B3, B5, B6, B8, B9, B10,
        C3, C5, C6, C8, C9, C10.
      rewrite Bd, Bn, Bi, Bt, Bc, Bw, Hds.
      repeat split; try reflexivity; try assumption.
    - destruct (set_pendingPromise_fields (Some (length (loads st))) base)
        as [C1 [C2 [C3 [_ [C5 [C6 [_ [C8 [C9 [C10 _]]]]]]]]]].
      cbv zeta in *.
      rewrite C1, C2, C3, C5, C6, C8, C9, C10.
      rewrite Bd, Bn, Bi, Bt, Bc, Bw, Hds, Bp.
      repeat split; try reflexivity; assumption. }
  clear S.
  destruct F as [F1 [F2 [F3 [F4 [F5 [F6 [F7 F8]]]]]]].
  split; [exact Hsign|].
  rewrite Hss. clear Hss.
  destruct (Qlt_bool 0 carry) eqn:C.
  - destruct (set_pendingScrollCarry_fields carry (sectionState started))
      as [G1 [G2 [G3 [G4 [_ [G6 [G7 [_ [G9 [G10 _]]]]]]]]]].
    cbv zeta in *. rewrite G1, G2, G3, G4, G6, G7, G9, G10.
    rewrite F1, F2, F3, F4, F5, F8.
    repeat split; try reflexivity; try assumption.
  - apply Qlt_bool_false in C.
    rewrite F1, F2, F3, F4, F5, F7, F8.
    repeat split; try reflexivity; try assumption.
    apply Qle_antisym; assumption.
Qed.

(** C5.  While idle, a scroll delta is added to the accumulator.  Below the
    threshold nothing else happens.  Once the accumulator's absolute value
    reaches the threshold, the direction is its sign, the overshoot is
    [accumulator - direction * threshold], a transition toward the neighbouring
    section starts (its preload becomes the pending promise) with initial
    progress [min(1, |overshoot| / progressScale)], what exceeds a full
    progress of 1 is stored as pending scroll carry, and the accumulator is
    reset to 0. *)
Theorem idle_scroll_accumulates_and_triggers
    (delta : Q) (isTouch : bool) (st : State) :
  isReady (sectionState st) = true ->
  phase (sectionState st) = idle ->
  (2 <= getSectionCount)%Z ->
  (0 <= index (sectionState st) < getSectionCount)%Z ->
  let progressScale := if isTouch then TOUCH_PROGRESS_SCALE else SCROLL_PROGRESS_SCALE in
  let threshold := if isTouch then TOUCH_TRIGGER_THRESHOLD else SCROLL_TRIGGER_THRESHOLD in
  0 < threshold ->
  0 < progressScale ->
  let acc := wheelAccumulator (sectionState st) + delta in
  let st' := applyScrollDelta delta isTouch st in
  (Qabs acc < threshold ->
   st' = onSectionState (set_wheelAccumulator acc) st) /\
  (threshold <= Qabs acc ->
   let dir := if Qlt_bool 0 acc then 1%Z else (-1)%Z in
   let overshoot := acc - inject_Z dir * threshold in
   let progressRaw := Qabs overshoot / progressScale in
   let initialProgress := Qmin 1 progressRaw in
   ((0 < acc /\ dir = 1%Z) \/ (acc < 0 /\ dir = (-1)%Z)) /\
   phase (sectionState st')
   = (if Qle_bool (1 - (1 # 10000)) initialProgress then loading else fadeOut) /\
   direction (sectionState st') = dir /\
   nextIndex (sectionState st')
   = normalizeSectionIndex (index (sectionState st) + dir) /\
   nextIndex (sectionState st') <> index (sectionState st) /\
   index (sectionState st') = index (sectionState st) /\
   pendingPromise (sectionState st') = Some (length (loads st)) /\
   transitionProgress (sectionState st') == initialProgress /\
   pendingScrollCarry (sectionState st') == Qmax 0 (progressRaw - initialProgress) /\
   wheelAccumulator (sectionState st') = 0).
Proof.
  intros Hready Hidle Htotal Hindex progressScale threshold Hthr Hscale acc st'.
  assert (E : st' = accumulateScroll delta threshold progressScale st).
  { unfold st', applyScrollDelta, applyScrollDelta_upto, applyScrollDelta_with.
    rewrite Hready, Hidle. reflexivity. }
  split.
  { intro H. rewrite E. apply accumulateScroll_below. exact H. }
  intros Hreach dir overshoot progressRaw initialProgress.
  exact (accumulateScroll_starts delta threshold progressScale st acc dir progressRaw
           initialProgress (Qmax 0 (progressRaw - initialProgress))
           eq_refl eq_refl eq_refl eq_refl eq_refl
           Htotal Hindex Hthr Hscale Hreach st' E).
Qed.

(** ** From fade-out through loading into fade-in *)

Lemma sectionState_setMorphProgress_if (c : bool) v st :
  sectionState (if c then setMorphProgress v st else st) = sectionState st.
Proof. destruct c; reflexivity. Qed.

(** What the [.then] of [beginSectionLoad] does to the transition state on
    entering the fade-in. *)
Lemma sectionState_fadeInEntry st :
  sectionState (fadeInEntry st)
  = set_phase fadeIn
      (set_pendingScrollCarry
         (Qmax 0 (pendingScrollCarry (sectionState st)
                  - Qmin 1 (pendingScrollCarry (sectionState st))))
         (set_transitionProgress
            (Qmin 1 (pendingScrollCarry (sectionState st)))
            (set_scatterRest
               (nextScatterRest (sectionState st))
               (set_index (nextIndex (sectionState st))
                          (set_morphReady true (sectionState st)))))).
Proof.
  unfold fadeInEntry. cbv zeta.
  repeat first
    [ rewrite sectionState_updateSectionTransition
    | rewrite sectionState_ensureTextOpacity
    | rewrite sectionState_onSectionState
    | rewrite sectionState_setMorphProgress_if ].
  reflexivity.
Qed.

Lemma fadeInEntry_fields st :
  let c := pendingScrollCarry (sectionState st) in
  let ss := sectionState (fadeInEntry st) in
  phase ss = fadeIn /\
  transitionProgress ss = Qmin 1 c /\
  pendingScrollCarry ss = Qmax 0 (c - Qmin 1 c) /\
  index ss = nextIndex (sectionState st) /\
  morphReady ss = true /\
  direction ss = direction (sectionState st).
Proof.
  cbv zeta. rewrite sectionState_fadeInEntry. repeat split; reflexivity.
Qed.

Lemma beginSectionLoad_then_cases st :
  (transitionProgress (sectionState (fadeInEntry st)) < 1 - (1 # 10000) ->
   beginSectionLoad_then st = fadeInEntry st) /\
  (1 - (1 # 10000) <= transitionProgress (sectionState (fadeInEntry st)) ->
   beginSectionLoad_then st = completeFadeIn (fadeInEntry st)).
Proof.
  unfold beginSectionLoad_then. cbv zeta. split; intro H.
  - apply Qle_bool_false in H. rewrite H. reflexivity.
  - apply Qle_bool_iff in H. rewrite H. reflexivity.
Qed.

(** A fade-out that reaches progress 1 enters the loading phase and stores
    what it overshot. *)
Lemma fadeOut_overflow stepRaw st sec p signed next :
  phase (sectionState st) = fadeOut ->
  nextSection (sectionState st) = Some sec ->
  pendingPromise (sectionState st) = Some p ->
  signed = stepRaw * inject_Z (directionOr1 st) ->
  next = transitionProgress (sectionState st) + signed ->
  ~ signed == 0 ->
  1 <= next ->
  sectionState (advanceTransitionProgress stepRaw st)
  = set_pendingPromise
      (Some p)
      (set_phase loading
         (set_transitionProgress 1
            (set_pendingScrollCarry
               (pendingScrollCarry (sectionState st) + Qmax 0 (next - 1))
               (sectionState st)))).
Proof.
  intros Hp Hn Hpp Hsigned Hnext Hmove Hover.
  unfold advanceTransitionProgress, advanceTransitionProgress_with.
  rewrite Hp. cbv zeta. rewrite <- Hsigned, <- Hnext.
  destruct (Qeq_bool signed 0) eqn:Z0; [apply Qeq_bool_iff in Z0; contradiction|].
  destruct (Qle_bool next 0) eqn:L0.
  { apply Qle_bool_iff in L0. exfalso.
    apply (Qlt_not_le 0 1); [reflexivity|]. apply (Qle_trans _ next); assumption. }
  apply Qle_bool_iff in Hover. rewrite Hover.
  rewrite (sectionState_beginSectionLoad _ sec p).
  - rewrite sectionState_updateSectionTransition, !sectionState_onSectionState.
    reflexivity.
  - rewrite sectionState_updateSectionTransition, !sectionState_onSectionState.
    exact Hn.
  - rewrite sectionState_updateSectionTransition, !sectionState_onSectionState.
    exact Hpp.
Qed.

(** ** Completing the fade-in; the depth of the scroll cycle *)

Lemma sectionState_refreshAllMorphTargets st :
  sectionState (refreshAllMorphTargets st) = sectionState st.
Proof. reflexivity. Qed.

Lemma sectionState_setAssetMorphArray key arr st :
  sectionState (setAssetMorphArray key arr st) = sectionState st.
Proof. unfold setAssetMorphArray. frame. Qed.

Lemma sectionState_commitMorph sec st :
  sectionState (commitMorph sec st) = sectionState st.
Proof.
  unfold commitMorph, setAssetMorphArray.
  destruct (getSectionAsset (Some sec) st) as [asset|]; [|reflexivity].
  destruct (asset_morphArray asset) as [morphArr|]; [|reflexivity].
  destruct (points st) as [pts|]; [|reflexivity].
  cbv zeta.
  repeat match goal with
         | |- context [match ?c with _ => _ end] =>
           lazymatch c with
           | context [match _ with _ => _ end] => fail
           | _ => destruct c
           end
         end;
    reflexivity.
Qed.

Lemma sectionState_state_setters :
  (forall v st, sectionState (set_currentSectionId v st) = sectionState st) /\
  (forall v st, sectionState (set_scrollTweenState v st) = sectionState st) /\
  (forall v st, sectionState (set_scrollTargetsCurrent v st) = sectionState st) /\
  (forall v st, sectionState (set_cameraPathTarget v st) = sectionState st) /\
  (forall v st, sectionState (set_cameraPathT v st) = sectionState st) /\
  (forall v st, sectionState (set_cameraYawOffsetDeg v st) = sectionState st) /\
  (forall v st, sectionState (set_cameraPitchOffsetDeg v st) = sectionState st) /\
  (forall v st, sectionState (setCameraYawOffset v st) = sectionState st) /\
  (forall v st, sectionState (setCameraPitchOffset v st) = sectionState st).
Proof. repeat split; reflexivity. Qed.

Lemma sectionState_arrive (a : option SectionCfg) st :
  sectionState
    match a with
    | Some s => set_currentSectionId (Some (id s)) (commitMorph s st)
    | None => st
    end
  = sectionState st.
Proof.
  destruct a as [s|]; [|reflexivity].
  rewrite (proj1 sectionState_state_setters). apply sectionState_commitMorph.
Qed.

Lemma sectionState_fadeInSettled st :
  sectionState (fadeInSettled st)
  = set_cameraEndPose
      (Some (orElse (cameraEndPose (sectionState st)) (getCurrentCameraPose st)))
      (set_cameraStartPose
         (Some (orElse (cameraEndPose (sectionState st)) (getCurrentCameraPose st)))
         (set_rotationMid (groupRotationY st)
            (set_rotationTarget (groupRotationY st)
               (set_rotationStart (groupRotationY st)
                  (set_nextSection None
                     (set_pendingPromise None
                        (set_transitionProgress 0
                           (set_phase idle (sectionState st))))))))).
Proof.
  unfold fadeInSettled. cbv zeta.
  destruct sectionState_state_setters
    as (_ & Htw & Htc & Hpt & Hp & Hy & Hpi & Hsy & Hsp).
  rewrite sectionState_applyScrollTweenState, Htc, Htw, sectionState_arrive,
    sectionState_finishBackgroundBlend, sectionState_updateSectionTransition,
    Hsp, Hsy, Hpi, Hy, Hp, Hpt.
  rewrite !sectionState_onSectionState.
  rewrite !groupRotationY_onSectionState.
  reflexivity.
Qed.

Lemma phase_fadeInSettled st : phase (sectionState (fadeInSettled st)) = idle.
Proof. rewrite sectionState_fadeInSettled. reflexivity. Qed.

Lemma pendingScrollCarry_fadeInSettled st :
  pendingScrollCarry (sectionState (fadeInSettled st))
  = pendingScrollCarry (sectionState st).
Proof. rewrite sectionState_fadeInSettled. reflexivity. Qed.

(** At rest, [applyScrollDelta] does not reach its recursive call. *)
Lemma applyScrollDelta_with_idle self self' delta isTouch st :
  phase (sectionState st) = idle ->
  applyScrollDelta_with self delta isTouch st
  = applyScrollDelta_with self' delta isTouch st.
Proof. intro H. unfold applyScrollDelta_with. rewrite H. reflexivity. Qed.

Lemma completeFadeIn_with_depth self self' st :
  completeFadeIn_with (applyScrollDelta_with self) st
  = completeFadeIn_with (applyScrollDelta_with self') st.
Proof.
  unfold completeFadeIn_with. cbv zeta.
  destruct (Qlt_bool _ _); [|reflexivity].
  apply applyScrollDelta_with_idle.
  rewrite sectionState_onSectionState, sectionState_fadeInSettled. reflexivity.
Qed.

Lemma advanceTransitionProgress_with_depth self self' stepRaw st :
  advanceTransitionProgress_with (applyScrollDelta_with self) stepRaw st
  = advanceTransitionProgress_with (applyScrollDelta_with self') stepRaw st.
Proof.
  unfold advanceTransitionProgress_with. cbv zeta.
  destruct (phase (sectionState st));
    [reflexivity | reflexivity | reflexivity | reflexivity | ].
  destruct (Qeq_bool _ _); [reflexivity|].
  destruct (Qle_bool 1 _); [|reflexivity].
  apply completeFadeIn_with_depth.
Qed.

(** Depth two is all the call cycle ever uses: a deeper unfolding of
    [applyScrollDelta] computes the same state. *)
Lemma applyScrollDelta_depth (n : nat) delta isTouch st :
  applyScrollDelta_upto (2 + n) delta isTouch st = applyScrollDelta delta isTouch st.
Proof.
  unfold applyScrollDelta.
  change (applyScrollDelta_upto (2 + n))
    with (applyScrollDelta_with (applyScrollDelta_with (applyScrollDelta_upto n))).
  change (applyScrollDelta_upto 2)
    with (applyScrollDelta_with (applyScrollDelta_with (applyScrollDelta_upto 0))).
  unfold applyScrollDelta_with at 1 3.
  destruct (negb _); [reflexivity|]. cbv zeta.
  destruct (phase (sectionState st));
    [ reflexivity | reflexivity | apply advanceTransitionProgress_with_depth
    | reflexivity | apply advanceTransitionProgress_with_depth ].
Qed.

(** The replay at the end of [completeFadeIn]. *)
Lemma completeFadeIn_replay st :
  let settled := fadeInSettled st in
  let leftover := pendingScrollCarry (sectionState st) in
  let rest := onSectionState (set_pendingScrollCarry 0) settled in
  phase (sectionState rest) = idle /\
  pendingScrollCarry (sectionState rest) = 0 /\
  (leftover <= 1 # 10000 -> completeFadeIn st = rest) /\
  (1 # 10000 < leftover ->
   completeFadeIn st
   = applyScrollDelta
       (leftover * SCROLL_PROGRESS_SCALE * inject_Z (direction (sectionState rest)))
       false rest).
Proof.
  cbv zeta.
  split; [rewrite sectionState_onSectionState, sectionState_fadeInSettled; reflexivity|].
  split; [rewrite sectionState_onSectionState; reflexivity|].
  unfold completeFadeIn, completeFadeIn_with. cbv zeta.
  rewrite pendingScrollCarry_fadeInSettled.
  split; intro H.
  - apply Qlt_bool_false in H. rewrite H. reflexivity.
  - apply Qlt_bool_iff in H. rewrite H.
    apply applyScrollDelta_with_idle.
    rewrite sectionState_onSectionState, sectionState_fadeInSettled. reflexivity.
Qed.

Lemma fadeOut_overflow_fields stepRaw st sec p signed next :
  phase (sectionState st) = fadeOut ->
  nextSection (sectionState st) = Some sec ->
  pendingPromise (sectionState st) = Some p ->
  signed = stepRaw * inject_Z (directionOr1 st) ->
  next = transitionProgress (sectionState st) + signed ->
  ~ signed == 0 ->
  1 <= next ->
  phase (sectionState (advanceTransitionProgress stepRaw st)) = loading /\
  transitionProgress (sectionState (advanceTransitionProgress stepRaw st)) = 1 /\
  pendingScrollCarry (sectionState (advanceTransitionProgress stepRaw st))
  == pendingScrollCarry (sectionState st) + (next - 1).
Proof.
  intros Hp Hn Hpp Hsigned Hnext Hmove Hover.
  rewrite (fadeOut_overflow stepRaw st sec p signed next Hp Hn Hpp Hsigned Hnext
                            Hmove Hover).
  repeat split.
  change (pendingScrollCarry (sectionState st) + Qmax 0 (next - 1)
          == pendingScrollCarry (sectionState st) + (next - 1)).
  rewrite Q.max_r; [reflexivity|].
  apply (proj1 (Qle_minus_iff 1 next)). exact Hover.
Qed.

Lemma fadeInEntry_cases ld c :
  c = pendingScrollCarry (sectionState ld) ->
  phase (sectionState (fadeInEntry ld)) = fadeIn /\
  index (sectionState (fadeInEntry ld)) = nextIndex (sectionState ld) /\
  transitionProgress (sectionState (fadeInEntry ld)) = Qmin 1 c /\
  pendingScrollCarry (sectionState (fadeInEntry ld)) = Qmax 0 (c - Qmin 1 c) /\
  (Qmin 1 c < 1 - (1 # 10000) -> beginSectionLoad_then ld = fadeInEntry ld) /\
  (1 - (1 # 10000) <= Qmin 1 c ->
   beginSectionLoad_then ld = completeFadeIn (fadeInEntry ld)).
Proof.
  intros ->.
  destruct (fadeInEntry_fields ld) as (Hph & Hpr & Hca & Hix & _ & _).
  destruct (beginSectionLoad_then_cases ld) as [Hlow Hhigh].
  rewrite Hpr in Hlow, Hhigh.
  repeat split; assumption.
Qed.


(** ** The camera offsets *)

(** The direct setters keep the offsets in range. *)
Lemma setCameraYawOffset_clamps d st :
  -360 <= cameraYawOffsetDeg (setCameraYawOffset (Some d) st) <= 360.
Proof.
  change (cameraYawOffsetDeg (setCameraYawOffset (Some d) st))
    with (clamp d (-360) 360).
  apply clamp_bounds. discriminate.
Qed.

Lemma setCameraPitchOffset_clamps d st :
  -60 <= cameraPitchOffsetDeg (setCameraPitchOffset (Some d) st) <= 60.
Proof.
  change (cameraPitchOffsetDeg (setCameraPitchOffset (Some d) st))
    with (clamp d (-60) 60).
  apply clamp_bounds. discriminate.
Qed.

(** [updateCameraPose] writes the interpolated yaw and pitch as they are. *)
Lemma updateCameraPose_unclamped progress st s e :
  cameraStartPose (sectionState st) = Some s ->
  cameraEndPose (sectionState st) = Some e ->
  cameraYawOffsetDeg (updateCameraPose progress st)
  = lerp (yaw s) (yaw e) (clamp progress 0 1) /\
  cameraPitchOffsetDeg (updateCameraPose progress st)
  = lerp (pitch s) (pitch e) (clamp progress 0 1).
Proof.
  intros Hs He. unfold updateCameraPose. rewrite Hs, He. split; reflexivity.
Qed.

(** ** Bounds kept by every event *)

Lemma withinBounds_fields st st' :
  transitionProgress (sectionState st') = transitionProgress (sectionState st) ->
  pendingScrollCarry (sectionState st') = pendingScrollCarry (sectionState st) ->
  index (sectionState st') = index (sectionState st) ->
  nextIndex (sectionState st') = nextIndex (sectionState st) ->
  withinBounds st -> withinBounds st'.
Proof.
  unfold withinBounds. intros -> -> -> -> H. exact H.
Qed.

Lemma withinBounds_frame st st' :
  sectionState st' = sectionState st -> withinBounds st -> withinBounds st'.
Proof. unfold withinBounds. intros -> H. exact H. Qed.

Lemma withinBounds_reset st st' :
  transitionProgress (sectionState st') = 0 ->
  pendingScrollCarry (sectionState st') = 0 ->
  index (sectionState st') = index (sectionState st) ->
  nextIndex (sectionState st') = nextIndex (sectionState st) ->
  withinBounds st -> withinBounds st'.
Proof.
  unfold withinBounds. intros -> -> -> -> (_ & _ & Hi & Hn).
  repeat split; try lra; lia.
Qed.

Lemma withinBounds_cancelTransition st :
  withinBounds st -> withinBounds (cancelTransition st).
Proof.
  apply withinBounds_reset;
    rewrite sectionState_cancelTransition, sectionState_cancelSetup; reflexivity.
Qed.

Lemma sectionState_beginSectionLoad_any st sec :
  nextSection (sectionState st) = Some sec ->
  exists p,
    sectionState (beginSectionLoad st)
    = set_pendingPromise (Some p) (set_phase loading (sectionState st)).
Proof.
  intro Hn. destruct (pendingPromise (sectionState st)) as [p|] eqn:Hp.
  - exists p. apply (sectionState_beginSectionLoad st sec p Hn Hp).
  - exists (length (loads st)).
    unfold beginSectionLoad. rewrite Hn. cbv zeta.
    rewrite sectionState_updateSectionTransition, sectionState_onSectionState.
    change (pendingPromise (set_phase loading (sectionState st)))
      with (pendingPromise (sectionState st)).
    rewrite Hp. unfold ensureSectionMorphTarget.
    autorewrite with frame. rewrite loads_updateSectionTransition, loads_onSectionState.
    reflexivity.
Qed.

Lemma withinBounds_beginSectionLoad st :
  withinBounds st -> withinBounds (beginSectionLoad st).
Proof.
  destruct (nextSection (sectionState st)) as [sec|] eqn:Hn.
  - destruct (sectionState_beginSectionLoad_any st sec Hn) as [p E].
    apply withinBounds_fields; rewrite E; reflexivity.
  - unfold beginSectionLoad. rewrite Hn. apply withinBounds_cancelTransition.
Qed.

Lemma withinBounds_started st st' (X : SectionState) (p : nat) (b : bool) :
  sectionState st'
  = (if b
     then set_pendingPromise (Some p) (set_phase loading (set_pendingPromise (Some p) X))
     else set_pendingPromise (Some p) X) ->
  index X = index (sectionState st) ->
  (0 <= nextIndex X < getSectionCount)%Z ->
  0 <= transitionProgress X <= 1 ->
  pendingScrollCarry X = 0 ->
  withinBounds st -> withinBounds st'.
Proof.
  intros E Hi Hn Ht Hc (_ & _ & Hidx & _).
  unfold withinBounds. rewrite E.
  destruct b;
    cbn [transitionProgress pendingScrollCarry index nextIndex
         set_pendingPromise set_phase];
    rewrite Hi, Hc; repeat split; try apply Ht; try apply Hn; try apply Hidx; lra.
Qed.

Lemma withinBounds_startSectionTransition target dir initialProgress st :
  withinBounds st ->
  withinBounds (startSectionTransition target dir initialProgress st).
Proof.
  intro H.
  destruct (getSectionCount <=? 0)%Z eqn:Htotal;
    [unfold startSectionTransition; rewrite Htotal; exact H|].
  destruct ((normalizeSectionIndex target =? index (sectionState st))%Z
            && negb (Phase_eqb (phase (sectionState st)) boot)) eqn:Hsame;
    [unfold startSectionTransition; rewrite Htotal, Hsame; exact H|].
  destruct (getSectionByIndex (normalizeSectionIndex target)) as [sec|] eqn:Hsec;
    [|unfold startSectionTransition; rewrite Htotal, Hsame, Hsec; exact H].
  apply (withinBounds_started
           st _
           (sectionState (transitionSetup (normalizeSectionIndex target) sec dir
                                          initialProgress st))
           (length (loads st))
           (Qle_bool (1 - (1 # 10000)) (clamp initialProgress 0 1))).
  - exact (sectionState_startSectionTransition
             target dir initialProgress st sec Htotal Hsame Hsec).
  - reflexivity.
  - apply Z.leb_gt in Htotal.
    exact (normalizeSectionIndex_range target Htotal).
  - exact (clamp_bounds initialProgress 0 1 ltac:(lra)).
  - reflexivity.
  - exact H.
Qed.

Lemma withinBounds_onSectionState f st :
  transitionProgress (f (sectionState st)) = transitionProgress (sectionState st) ->
  pendingScrollCarry (f (sectionState st)) = pendingScrollCarry (sectionState st) ->
  index (f (sectionState st)) = index (sectionState st) ->
  nextIndex (f (sectionState st)) = nextIndex (sectionState st) ->
  withinBounds st -> withinBounds (onSectionState f st).
Proof.
  intros Ht Hc Hi Hn. apply withinBounds_fields;
    rewrite sectionState_onSectionState; assumption.
Qed.

Lemma withinBounds_set_carry c st :
  0 <= c -> withinBounds st ->
  withinBounds (onSectionState (set_pendingScrollCarry c) st).
Proof.
  intros Hc (Ht & _ & Hi & Hn). unfold withinBounds.
  rewrite sectionState_onSectionState.
  remember (sectionState st) as X eqn:EX. clear EX.
  repeat split; try apply Ht; try apply Hi; try apply Hn. exact Hc.
Qed.

Lemma withinBounds_set_progress v st :
  0 <= v <= 1 -> withinBounds st ->
  withinBounds (onSectionState (set_transitionProgress v) st).
Proof.
  intros Hv (_ & Hc & Hi & Hn). unfold withinBounds.
  rewrite sectionState_onSectionState.
  remember (sectionState st) as X eqn:EX. clear EX.
  repeat split; try apply Hv; try apply Hi; try apply Hn. exact Hc.
Qed.

Lemma withinBounds_accumulateScroll delta threshold progressScale st :
  withinBounds st -> withinBounds (accumulateScroll delta threshold progressScale st).
Proof.
  intro H.
  destruct (Qlt_le_dec (Qabs (wheelAccumulator (sectionState st) + delta)) threshold)
    as [Hlow | Hhigh].
  - rewrite (accumulateScroll_below _ _ _ _ Hlow).
    apply withinBounds_onSectionState; try reflexivity. exact H.
  - rewrite (accumulateScroll_trigger _ _ _ _ Hhigh).
    assert (S : withinBounds
                  (onSectionState
                     (set_wheelAccumulator 0)
                     (onSectionState
                        (set_wheelAccumulator (wheelAccumulator (sectionState st) + delta))
                        st))).
    { apply withinBounds_onSectionState; try reflexivity.
      apply withinBounds_onSectionState; try reflexivity. exact H. }
    destruct (Qlt_bool 0 _) eqn:C.
    + apply withinBounds_set_carry.
      * apply Qlt_le_weak, Qlt_bool_iff, C.
      * apply withinBounds_startSectionTransition, S.
    + apply withinBounds_startSectionTransition, S.
Qed.

Lemma withinBounds_updateSectionTransition st :
  withinBounds st -> withinBounds (updateSectionTransition st).
Proof. apply withinBounds_frame, sectionState_updateSectionTransition. Qed.

Lemma withinBounds_fadeInSettled st :
  withinBounds st -> withinBounds (fadeInSettled st).
Proof.
  intros (_ & Hc & Hi & Hn). unfold withinBounds.
  rewrite sectionState_fadeInSettled.
  remember (sectionState st) as X eqn:EX.
  remember (groupRotationY st) as r eqn:Er.
  remember (getCurrentCameraPose st) as pose eqn:Ep.
  clear EX Er Ep.
  repeat split; try apply Hi; try apply Hn; try exact Hc; cbn; lra.
Qed.

Lemma withinBounds_completeFadeIn_with self st :
  (forall delta isTouch x, withinBounds x -> withinBounds (self delta isTouch x)) ->
  withinBounds st -> withinBounds (completeFadeIn_with self st).
Proof.
  intros Hself H. unfold completeFadeIn_with. cbv zeta.
  assert (S : withinBounds (onSectionState (set_pendingScrollCarry 0) (fadeInSettled st))).
  { apply withinBounds_set_carry; [lra|]. apply withinBounds_fadeInSettled, H. }
  destruct (Qlt_bool _ _); [apply Hself|]; exact S.
Qed.

Lemma withinBounds_overflow next st :
  withinBounds st ->
  withinBounds
    (updateSectionTransition
       (onSectionState
          (set_transitionProgress 1)
          (onSectionState
             (set_pendingScrollCarry
                (pendingScrollCarry (sectionState st) + Qmax 0 (next - 1))) st))).
Proof.
  intro H. apply withinBounds_updateSectionTransition.
  apply withinBounds_set_progress; [lra|].
  apply withinBounds_set_carry; [|exact H].
  destruct H as (_ & Hc & _). pose proof (Q.le_max_l 0 (next - 1)). lra.
Qed.

Lemma withinBounds_step next st :
  withinBounds st ->
  withinBounds
    (updateSectionTransition
       (onSectionState (set_transitionProgress (clamp next 0 1)) st)).
Proof.
  intro H. apply withinBounds_updateSectionTransition.
  apply withinBounds_set_progress; [|exact H].
  apply clamp_bounds. lra.
Qed.

Lemma withinBounds_advanceTransitionProgress_with self stepRaw st :
  (forall delta isTouch x, withinBounds x -> withinBounds (self delta isTouch x)) ->
  withinBounds st -> withinBounds (advanceTransitionProgress_with self stepRaw st).
Proof.
  intros Hself H. unfold advanceTransitionProgress_with. cbv zeta.
  destruct (phase (sectionState st)); try exact H.
  - destruct (Qeq_bool _ 0); [apply withinBounds_updateSectionTransition, H|].
    destruct (Qle_bool _ 0); [apply withinBounds_cancelTransition, H|].
    destruct (Qle_bool 1 _).
    + apply withinBounds_beginSectionLoad, withinBounds_overflow, H.
    + apply withinBounds_step, H.
  - destruct (Qeq_bool _ 0); [apply withinBounds_updateSectionTransition, H|].
    destruct (Qle_bool 1 _).
    + apply withinBounds_completeFadeIn_with; [exact Hself|].
      apply withinBounds_overflow, H.
    + apply withinBounds_step, H.
Qed.

Lemma withinBounds_applyScrollDelta_with self delta isTouch st :
  (forall d t x, withinBounds x -> withinBounds (self d t x)) ->
  withinBounds st -> withinBounds (applyScrollDelta_with self delta isTouch st).
Proof.
  intros Hself H. unfold applyScrollDelta_with.
  destruct (negb _); [exact H|]. cbv zeta.
  destruct (phase (sectionState st)).
  - apply withinBounds_accumulateScroll, H.
  - apply withinBounds_accumulateScroll, H.
  - apply withinBounds_advanceTransitionProgress_with; assumption.
  - destruct (Qlt_bool 0 _) eqn:C; [|exact H].
    apply withinBounds_set_carry; [|exact H].
    apply Qlt_bool_iff in C. destruct H as (_ & Hc & _). lra.
  - apply withinBounds_advanceTransitionProgress_with; assumption.
Qed.

Lemma withinBounds_applyScrollDelta_upto depth : forall delta isTouch st,
  withinBounds st -> withinBounds (applyScrollDelta_upto depth delta isTouch st).
Proof.
  induction depth as [|depth IH]; intros delta isTouch st H; [exact H|].
  apply withinBounds_applyScrollDelta_with; [exact IH | exact H].
Qed.

Lemma withinBounds_fadeInEntry st :
  withinBounds st -> withinBounds (fadeInEntry st).
Proof.
  intros (_ & Hc & _ & Hn). unfold withinBounds.
  rewrite sectionState_fadeInEntry.
  remember (sectionState st) as X eqn:EX. clear EX.
  cbn [transitionProgress pendingScrollCarry index nextIndex set_phase
       set_pendingScrollCarry set_transitionProgress set_scatterRest set_index
       set_morphReady].
  repeat split; try apply Hn.
  - apply Q.min_glb; [lra | exact Hc].
  - apply Q.le_min_l.
  - apply Q.le_max_l.
Qed.

Lemma withinBounds_beginSectionLoad_then st :
  withinBounds st -> withinBounds (beginSectionLoad_then st).
Proof.
  intro H. unfold beginSectionLoad_then. cbv zeta.
  destruct (Qle_bool _ _).
  - apply withinBounds_completeFadeIn_with.
    + apply withinBounds_applyScrollDelta_upto.
    + apply withinBounds_fadeInEntry, H.
  - apply withinBounds_fadeInEntry, H.
Qed.

Lemma withinBounds_beginSectionLoad_catch st :
  withinBounds st -> withinBounds (beginSectionLoad_catch st).
Proof.
  apply withinBounds_reset; unfold beginSectionLoad_catch; cbv zeta;
    rewrite sectionState_updateSectionTransition, sectionState_finishBackgroundBlend,
      !sectionState_onSectionState; reflexivity.
Qed.

Lemma withinBounds_set_loads l st :
  withinBounds st -> withinBounds (set_loads l st).
Proof. apply withinBounds_frame. reflexivity. Qed.

Lemma withinBounds_runLoadHandler handle st :
  withinBounds st -> withinBounds (runLoadHandler handle st).
Proof.
  intro H. unfold runLoadHandler.
  destruct (nth_error (loads st) handle) as [ld|]; [|exact H].
  destruct (load_handler ld); try exact H.
  destruct (load_status ld); try exact H; cbv zeta.
  - apply withinBounds_beginSectionLoad_then, withinBounds_set_loads, H.
  - apply withinBounds_beginSectionLoad_catch, withinBounds_set_loads, H.
Qed.

Lemma withinBounds_settleChain handle outcome ld st :
  withinBounds st -> withinBounds (settleChain handle outcome ld st).
Proof.
  destruct (settleChain_frames handle outcome ld st) as [[E | [b E]] _].
  - apply withinBounds_frame. exact E.
  - apply withinBounds_fields; rewrite E; reflexivity.
Qed.

Lemma withinBounds_settleLoad handle outcome st :
  withinBounds st -> withinBounds (settleLoad handle outcome st).
Proof.
  intro H. unfold settleLoad.
  destruct (nth_error (loads st) handle) as [ld|]; [|exact H].
  destruct (load_status ld); try exact H.
  apply withinBounds_runLoadHandler, withinBounds_settleChain, H.
Qed.

Lemma withinBounds_runMicrotasks fuel : forall st,
  withinBounds st -> withinBounds (runMicrotasks fuel st).
Proof.
  induction fuel as [|fuel IH]; intros st H; [exact H|]. cbn [runMicrotasks].
  destruct (firstRunnable (loads st) 0) as [handle|]; [|exact H].
  destruct (nth_error (loads st) handle) as [ld|]; [|exact H].
  destruct (load_status ld); apply IH;
    first [apply withinBounds_settleLoad | apply withinBounds_runLoadHandler]; exact H.
Qed.

Lemma withinBounds_dispatch ev st :
  withinBounds st -> withinBounds (dispatch ev st).
Proof.
  intro H. unfold dispatch. apply withinBounds_runMicrotasks.
  destruct ev as [deltaY | deltaY | handle outcome]; unfold handleEvent.
  - destruct (Qeq_bool deltaY 0); [exact H|].
    apply withinBounds_applyScrollDelta_upto, H.
  - apply withinBounds_applyScrollDelta_upto, H.
  - destruct (nth_error (loads st) handle) as [ld|]; [|exact H].
    destruct (load_source ld); try exact H.
    apply withinBounds_settleLoad, H.
Qed.

Lemma fold_left_invariant {A B} (f : A -> B -> A) (P : A -> Prop) :
  (forall a b, P a -> P (f a b)) -> forall l a, P a -> P (fold_left f l a).
Proof.
  intro Hf. induction l as [|b l IH]; intros a Ha; [exact Ha|].
  cbn [fold_left]. apply IH, Hf, Ha.
Qed.

Lemma withinBounds_run evs st :
  withinBounds st -> withinBounds (run evs st).
Proof.
  unfold run.
  apply (fold_left_invariant (fun s ev => dispatch ev s) withinBounds).
  intros a b. apply withinBounds_dispatch.
Qed.

(** Whatever the browser delivers (wheel and touch scrolls, loads that
    finish or fail, in any order), the transition progress stays a fraction in
    [0,1], the pending scroll carry stays non-negative, and the displayed and
    the target section index stay indices of [sections], so that
    [getSectionByIndex] finds the displayed section. *)
Theorem events_keep_progress_and_index_in_range (evs : list Event) (st : State) :
  withinBounds st ->
  let st' := run evs st in
  0 <= transitionProgress (sectionState st') <= 1 /\
  0 <= pendingScrollCarry (sectionState st') /\
  (0 <= index (sectionState st') < getSectionCount)%Z /\
  (0 <= nextIndex (sectionState st') < getSectionCount)%Z /\
  exists sec,
    nth_error sections (Z.to_nat (index (sectionState st'))) = Some sec /\
    getSectionByIndex (index (sectionState st')) = Some sec.
Proof.
  intros H st'. pose proof (withinBounds_run evs st H) as (Ht & Hc & Hi & Hn).
  fold st' in Ht, Hc, Hi, Hn.
  remember st' as final eqn:E. clear E st'.
  repeat split; try apply Ht; try apply Hi; try apply Hn; try exact Hc.
  destruct (getSectionByIndex_some (index (sectionState final)) ltac:(lia)) as [sec S].
  exists sec. split; [|exact S].
  unfold getSectionByIndex in S.
  destruct (getSectionCount =? 0)%Z; [discriminate|].
  rewrite normalizeSectionIndex_mod, Z.mod_small in S by lia. exact S.
Qed.

(** ** Section indices wrap around *)

(** With at least one section, [normalizeSectionIndex] maps every integer
    into the index range, leaves indices in range alone, has period
    [getSectionCount], and a step forward followed by a step back (or back,
    then forward) returns to the same section. *)
Theorem normalizeSectionIndex_wraps (i : Z) :
  (0 < getSectionCount)%Z ->
  (0 <= normalizeSectionIndex i < getSectionCount)%Z /\
  ((0 <= i < getSectionCount)%Z -> normalizeSectionIndex i = i) /\
  normalizeSectionIndex (i + getSectionCount) = normalizeSectionIndex i /\
  normalizeSectionIndex (i - getSectionCount) = normalizeSectionIndex i /\
  normalizeSectionIndex (normalizeSectionIndex (i + 1) - 1) = normalizeSectionIndex i /\
  normalizeSectionIndex (normalizeSectionIndex (i - 1) + 1) = normalizeSectionIndex i.
Proof.
  intro H. rewrite !normalizeSectionIndex_mod by exact H.
  split; [apply Z.mod_pos_bound; exact H|].
  split; [intro R; apply Z.mod_small; exact R|].
  split.
  { replace (i + getSectionCount)%Z with (i + 1 * getSectionCount)%Z by lia.
    apply Z.mod_add. lia. }
  split.
  { replace (i - getSectionCount)%Z with (i + (-1) * getSectionCount)%Z by lia.
    apply Z.mod_add. lia. }
  split.
  - rewrite Zminus_mod_idemp_l. f_equal. lia.
  - rewrite Zplus_mod_idemp_l. f_equal. lia.
Qed.

(** [getSectionByIndex] answers [null] only when there is no section at all;
    otherwise every integer index, negative or past the end, names a section
    of [sections], the same one as the index shifted by any number of full
    turns. *)
Theorem getSectionByIndex_total_and_periodic (i k : Z) :
  (sections = [] -> getSectionByIndex i = None) /\
  (sections <> [] ->
   exists sec,
     getSectionByIndex i = Some sec /\
     nth_error sections (Z.to_nat (i mod getSectionCount)) = Some sec /\
     getSectionByIndex (i + k * getSectionCount) = Some sec).
Proof.
  split.
  - intro E. unfold getSectionByIndex, getSectionCount. rewrite E. reflexivity.
  - intro N.
    assert (H : (0 < getSectionCount)%Z).
    { unfold getSectionCount. destruct sections; [contradiction N; reflexivity|].
      simpl length. lia. }
    destruct (getSectionByIndex_some i H) as [sec E]. exists sec.
    split; [exact E|].
    unfold getSectionByIndex in *.
    destruct (getSectionCount =? 0)%Z eqn:Z0; [apply Z.eqb_eq in Z0; lia|].
    rewrite !normalizeSectionIndex_mod in * by exact H.
    rewrite Z.mod_add by lia. split; exact E.
Qed.

(** ** The background blend *)

Lemma blend_ends_applyBackgroundBlend v st :
  backgroundTransition (applyBackgroundBlend v st) = backgroundTransition st.
Proof.
  unfold applyBackgroundBlend, setBackgroundGradient. cbv zeta.
  destruct (bg_active (backgroundTransition st)),
           (bg_from (backgroundTransition st)),
           (bg_to (backgroundTransition st)); reflexivity.
Qed.

Lemma blend_ends_animateBackgroundBlend v immediate st :
  bg_active (backgroundTransition (animateBackgroundBlend v immediate st))
  = bg_active (backgroundTransition st) /\
  bg_from (backgroundTransition (animateBackgroundBlend v immediate st))
  = bg_from (backgroundTransition st) /\
  bg_to (backgroundTransition (animateBackgroundBlend v immediate st))
  = bg_to (backgroundTransition st).
Proof.
  unfold animateBackgroundBlend. cbv zeta.
  destruct (negb _); [repeat split; reflexivity|].
  destruct (_ && _); [repeat split; reflexivity|].
  destruct immediate; [|repeat split; reflexivity].
  rewrite blend_ends_applyBackgroundBlend. repeat split; reflexivity.
Qed.

Lemma blend_ends_moves (moves : list (Q * bool)) : forall st,
  let moved :=
    fold_left (fun s m => animateBackgroundBlend (fst m) (snd m) s) moves st in
  bg_active (backgroundTransition moved) = bg_active (backgroundTransition st) /\
  bg_from (backgroundTransition moved) = bg_from (backgroundTransition st) /\
  bg_to (backgroundTransition moved) = bg_to (backgroundTransition st).
Proof.
  induction moves as [|m moves IH]; intro st; [repeat split; reflexivity|].
  cbn [fold_left]. cbv zeta in IH.
  destruct (IH (animateBackgroundBlend (fst m) (snd m) st)) as (A & F & T).
  destruct (blend_ends_animateBackgroundBlend (fst m) (snd m) st) as (A' & F' & T').
  rewrite A, F, T. repeat split; assumption.
Qed.

Lemma finishBackgroundBlend_result commit st from to :
  bg_active (backgroundTransition st) = true ->
  bg_from (backgroundTransition st) = Some from ->
  bg_to (backgroundTransition st) = Some to ->
  backgroundGradient (fst (finishBackgroundBlend commit st))
  = (if commit then to else from) /\
  snd (finishBackgroundBlend commit st) = Some (if commit then to else from) /\
  bg_active (backgroundTransition (fst (finishBackgroundBlend commit st))) = false.
Proof.
  intros A F T. unfold finishBackgroundBlend, setBackgroundGradient. cbv zeta.
  rewrite A. cbn [negb]. destruct commit; rewrite ?F, ?T; repeat split; reflexivity.
Qed.

(** A background blend that has been started can be animated to any values,
    any number of times; finishing it without commit restores exactly the
    gradient it started from, finishing it with commit leaves exactly the
    target, and either way the blend is over.  Finishing when no blend is
    active changes nothing and reports no colours. *)
Theorem background_blend_finishes_exactly
    (target : Gradient) (moves : list (Q * bool)) (commit : bool) (st : State) :
  let started := startBackgroundBlend (Some target) st in
  let moved :=
    fold_left (fun s m => animateBackgroundBlend (fst m) (snd m) s) moves started in
  let done := finishBackgroundBlend commit moved in
  backgroundGradient (fst done)
  = (if commit then target else backgroundGradient st) /\
  snd done = Some (if commit then target else backgroundGradient st) /\
  bg_active (backgroundTransition (fst done)) = false /\
  finishBackgroundBlend commit (fst done) = (fst done, None).
Proof.
  intros started moved done.
  assert (S : bg_active (backgroundTransition started) = true /\
              bg_from (backgroundTransition started) = Some (backgroundGradient st) /\
              bg_to (backgroundTransition started) = Some target).
  { unfold started, startBackgroundBlend. cbv zeta.
    rewrite blend_ends_applyBackgroundBlend. repeat split; reflexivity. }
  destruct S as (A & F & T).
  destruct (blend_ends_moves moves started) as (A' & F' & T').
  fold moved in A', F', T'. rewrite A in A'. rewrite F in F'. rewrite T in T'.
  remember moved as m eqn:E. clear E moved.
  destruct (finishBackgroundBlend_result commit m _ _ A' F' T') as (G & R & I).
  fold done in G, R, I.
  remember done as d eqn:E. clear E done.
  repeat split; try assumption.
  unfold finishBackgroundBlend. cbv zeta. rewrite I. reflexivity.
Qed.

(** ** Camera poses *)

Lemma lerp_between x y t lo hi :
  0 <= t <= 1 -> lo <= x <= hi -> lo <= y <= hi -> lo <= lerp x y t <= hi.
Proof. intros Ht Hx Hy. unfold lerp. split; nra. Qed.

(** [setSectionCameraPose] never stores a pose outside the camera's range:
    the path position it takes from a section is clamped to [0,1], the yaw to
    [-360,360] and the pitch to [-60,60]; an entry the section leaves out
    keeps its current value, and the transition state is not touched. *)
Theorem setSectionCameraPose_clamps
    (s : SectionCfg) (cam : CameraCfg) (immediate : bool) (st : State) :
  camera s = Some cam ->
  let st' := setSectionCameraPose (Some s) immediate st in
  cameraPathTarget st'
  = match cam_pathT cam with
    | Some p => clamp p 0 1
    | None => cameraPathTarget st
    end /\
  cameraYawOffsetDeg st'
  = match cam_yaw cam with
    | Some y => clamp y (-360) 360
    | None => cameraYawOffsetDeg st
    end /\
  cameraPitchOffsetDeg st'
  = match cam_pitch cam with
    | Some p => clamp p (-60) 60
    | None => cameraPitchOffsetDeg st
    end /\
  (cam_pathT cam <> None -> 0 <= cameraPathTarget st' <= 1) /\
  (cam_yaw cam <> None -> -360 <= cameraYawOffsetDeg st' <= 360) /\
  (cam_pitch cam <> None -> -60 <= cameraPitchOffsetDeg st' <= 60) /\
  (immediate = true -> cam_pathT cam <> None -> cameraPathT st' = cameraPathTarget st') /\
  sectionState st' = sectionState st.
Proof.
  intros Hcam st'. unfold st', setSectionCameraPose. rewrite Hcam. cbv zeta.
  destruct (cam_pathT cam) as [p|], (cam_yaw cam) as [y|], (cam_pitch cam) as [q|],
    immediate;
    (split; [reflexivity|]); (split; [reflexivity|]); (split; [reflexivity|]);
    (split; [intro N; first [contradiction N; reflexivity | apply clamp_bounds; lra]|]);
    (split; [intro N; first [contradiction N; reflexivity | apply clamp_bounds; lra]|]);
    (split; [intro N; first [contradiction N; reflexivity | apply clamp_bounds; lra]|]);
    (split; [|reflexivity]);
    intros I N; first [reflexivity | discriminate I | contradiction N; reflexivity].
Qed.


(** ** The failure handler of the loading phase *)

Lemma background_onSectionState f st :
  backgroundTransition (onSectionState f st) = backgroundTransition st /\
  backgroundGradient (onSectionState f st) = backgroundGradient st.
Proof. split; reflexivity. Qed.

(** When the [.catch] handler of [beginSectionLoad] runs, the machine is at
    rest again on the section it was showing: phase idle, progress 0, no
    carry, no pending promise, [morphReady] cleared, section index and base
    positions untouched, no blend active, and the background back at the
    colours the blend started from (unchanged if no blend was active). *)
Theorem beginSectionLoad_catch_restores (st : State) :
  let st' := beginSectionLoad_catch st in
  phase (sectionState st') = idle /\
  transitionProgress (sectionState st') = 0 /\
  pendingScrollCarry (sectionState st') = 0 /\
  pendingPromise (sectionState st') = None /\
  morphReady (sectionState st') = false /\
  index (sectionState st') = index (sectionState st) /\
  pointsPosition st' = pointsPosition st /\
  loads st' = loads st /\
  bg_active (backgroundTransition st') = false /\
  backgroundGradient st'
  = (if bg_active (backgroundTransition st)
     then orElse (bg_from (backgroundTransition st)) (backgroundGradient st)
     else backgroundGradient st).
Proof.
  intro st'.
  assert (S : sectionState st'
              = set_morphReady false
                  (set_pendingScrollCarry 0
                     (set_pendingPromise None
                        (set_transitionProgress 0
                           (set_phase idle (sectionState st)))))).
  { unfold st', beginSectionLoad_catch. cbv zeta.
    rewrite sectionState_updateSectionTransition, sectionState_finishBackgroundBlend,
      !sectionState_onSectionState. reflexivity. }
  assert (P : pointsPosition st' = pointsPosition st).
  { unfold st', beginSectionLoad_catch. cbv zeta.
    rewrite pointsPosition_updateSectionTransition.
    rewrite (proj1 (pointsPosition_of_points _ _ (points_finishBackgroundBlend false _))).
    rewrite !pointsPosition_onSectionState. reflexivity. }
  assert (L : loads st' = loads st).
  { unfold st', beginSectionLoad_catch. cbv zeta.
    rewrite loads_updateSectionTransition.
    rewrite (proj2 (proj2 (proj2 (proj2 loads_frames)))).
    rewrite !loads_onSectionState. reflexivity. }
  assert (B : bg_active (backgroundTransition st') = false /\
              backgroundGradient st'
              = (if bg_active (backgroundTransition st)
                 then orElse (bg_from (backgroundTransition st)) (backgroundGradient st)
                 else backgroundGradient st)).
  { unfold st', beginSectionLoad_catch. cbv zeta.
    match goal with
    | |- context [updateSectionTransition ?s] =>
      assert (I : phase (sectionState s) = idle)
        by (rewrite sectionState_finishBackgroundBlend, !sectionState_onSectionState;
            reflexivity);
      destruct (background_updateSectionTransition_idle s I) as [T G];
      remember s as finished eqn:E
    end.
    rewrite T.
    assert (F : bg_active (backgroundTransition finished) = false /\
                backgroundGradient finished
                = (if bg_active (backgroundTransition st)
                   then orElse (bg_from (backgroundTransition st)) (backgroundGradient st)
                   else backgroundGradient st)).
    { rewrite E. unfold finishBackgroundBlend, setBackgroundGradient. cbv zeta.
      rewrite !(proj1 (background_onSectionState _ _)).
      destruct (bg_active (backgroundTransition st)) eqn:A; cbn [negb fst].
      - destruct (bg_from (backgroundTransition st)); split; reflexivity.
      - rewrite !(proj1 (background_onSectionState _ _)),
                !(proj2 (background_onSectionState _ _)).
        split; [exact A | reflexivity]. }
    destruct F as [F1 F2]. split; [exact F1|].
    rewrite (G F1). exact F2. }
  destruct B as [B1 B2].
  remember st' as final eqn:E. clear E st'.
  rewrite S. repeat split; try assumption.
Qed.

(** ** Scrolling during the fade-in *)

Lemma fadeIn_step_state stepRaw st signed next :
  phase (sectionState st) = fadeIn ->
  signed = stepRaw * inject_Z (directionOr1 st) ->
  next = transitionProgress (sectionState st) + signed ->
  next < 1 ->
  advanceTransitionProgress stepRaw st
  = if Qeq_bool signed 0
    then updateSectionTransition st
    else updateSectionTransition
           (onSectionState (set_transitionProgress (clamp next 0 1)) st).
Proof.
  intros Hp Hsigned Hnext Hlow.
  unfold advanceTransitionProgress, advanceTransitionProgress_with.
  rewrite Hp. cbv zeta. rewrite <- Hsigned, <- Hnext.
  destruct (Qeq_bool signed 0); [reflexivity|].
  apply Qle_bool_false in Hlow. rewrite Hlow. reflexivity.
Qed.

Lemma fadeIn_step_fields st st' signed next :
  phase (sectionState st) = fadeIn ->
  st' = (if Qeq_bool signed 0
         then updateSectionTransition st
         else updateSectionTransition
                (onSectionState (set_transitionProgress (clamp next 0 1)) st)) ->
  phase (sectionState st') = fadeIn /\
  index (sectionState st') = index (sectionState st) /\
  nextSection (sectionState st') = nextSection (sectionState st) /\
  pendingScrollCarry (sectionState st') = pendingScrollCarry (sectionState st) /\
  transitionProgress (sectionState st')
  = (if Qeq_bool signed 0
     then transitionProgress (sectionState st)
     else clamp next 0 1).
Proof.
  intros Hp ->. destruct (Qeq_bool signed 0);
    rewrite sectionState_updateSectionTransition, ?sectionState_onSectionState;
    repeat split; try reflexivity; exact Hp.
Qed.

(** There is no way back out of a fade-in.  A scroll that does not complete
    it, a reverse scroll included, leaves the machine in the fade-in on the
    section it has switched to, with the carry untouched; the progress moves
    to the new value, held at 0 from below, and a reverse scroll past 0 just
    leaves it at 0. *)
Theorem fadeIn_scroll_never_goes_back (delta : Q) (isTouch : bool) (st : State) :
  isReady (sectionState st) = true ->
  phase (sectionState st) = fadeIn ->
  let progressScale := if isTouch then TOUCH_PROGRESS_SCALE else SCROLL_PROGRESS_SCALE in
  let signed := delta / progressScale * inject_Z (directionOr1 st) in
  let next := transitionProgress (sectionState st) + signed in
  next < 1 ->
  let st' := applyScrollDelta delta isTouch st in
  phase (sectionState st') = fadeIn /\
  index (sectionState st') = index (sectionState st) /\
  nextSection (sectionState st') = nextSection (sectionState st) /\
  pendingScrollCarry (sectionState st') = pendingScrollCarry (sectionState st) /\
  transitionProgress (sectionState st')
  = (if Qeq_bool signed 0
     then transitionProgress (sectionState st)
     else clamp next 0 1) /\
  (next <= 0 -> ~ signed == 0 -> transitionProgress (sectionState st') == 0).
Proof.
  intros Hready Hp progressScale signed next Hlow st'.
  assert (E : st' = advanceTransitionProgress (delta / progressScale) st).
  { unfold st', applyScrollDelta, applyScrollDelta_upto, applyScrollDelta_with.
    rewrite Hready, Hp. reflexivity. }
  rewrite (fadeIn_step_state (delta / progressScale) st signed next
                             Hp eq_refl eq_refl Hlow) in E.
  destruct (fadeIn_step_fields st st' signed next Hp E) as (A & B & C & D & F).
  split; [exact A|]. split; [exact B|]. split; [exact C|]. split; [exact D|].
  split; [exact F|].
  intros Hneg Hmove. rewrite F.
  destruct (Qeq_bool signed 0) eqn:Z0; [apply Qeq_bool_iff in Z0; contradiction|].
  unfold clamp. rewrite (Q.min_r 1 next) by lra. apply Q.max_l. exact Hneg.
Qed.

(** ** The preload promise *)

Lemma loads_resolved_morphed ld outcome st :
  loads (fst match snd (resolveGeometry ld outcome st) with
             | Some g =>
               ensureSectionMorphTarget_then (load_section ld) g
                                             (fst (resolveGeometry ld outcome st))
             | None => (fst (resolveGeometry ld outcome st), false)
             end)
  = loads st.
Proof.
  destruct (resolveGeometry_frames ld outcome st) as (_ & _ & _ & _ & _ & _ & L).
  destruct (snd (resolveGeometry ld outcome st)) as [g|].
  - rewrite loads_ensureSectionMorphTarget_then. exact L.
  - exact L.
Qed.

(** The promise that [startSectionTransition] stores as pending promise is
    fulfilled however its load ends, because its [.catch] returns a value.
    When the loader fails, [morphReady] is cleared and neither the displayed
    buffers nor the asset cache change. *)
Theorem preload_promise_is_always_fulfilled
    (handle : nat) (outcome : option Geometry) (ld : Load) (st : State) :
  nth_error (loads st) handle = Some ld ->
  load_guarded ld = true ->
  let st' := settleChain handle outcome ld st in
  nth_error (loads st') handle = Some (set_load_status Fulfilled ld) /\
  length (loads st') = length (loads st) /\
  (load_source ld = FromLoader -> outcome = None ->
   morphReady (sectionState st') = false /\
   points st' = points st /\
   sectionAssets st' = sectionAssets st).
Proof.
  intros Hnth Hguard st'.
  assert (L : loads st' = updateLoad handle (set_load_status Fulfilled) (loads st)).
  { unfold st', settleChain. cbv zeta. rewrite Hguard. rewrite loads_set_loads.
    rewrite loads_onSectionState, loads_resolved_morphed. reflexivity. }
  split; [rewrite L; apply nth_error_updateLoad; exact Hnth|].
  split.
  { rewrite L. clear. generalize (loads st). intro ls. revert handle.
    induction ls as [|l ls IH]; intros [|n]; simpl; try reflexivity.
    rewrite IH. reflexivity. }
  intros Hsrc Hout. unfold st', settleChain, resolveGeometry. cbv zeta.
  rewrite Hguard, Hsrc, Hout. repeat split; reflexivity.
Qed.

(** ** The displayed buffers keep their sizes *)

Lemma bufferSizes_points st st' : points st' = points st -> bufferSizes st' = bufferSizes st.
Proof. unfold bufferSizes. intros ->. reflexivity. Qed.

Lemma attrSize_setAttrArray attr arr : attrSize (setAttrArray attr arr) = attrSize attr.
Proof.
  unfold setAttrArray. destruct attr as [a|]; [|reflexivity].
  destruct arr as [new|]; [|reflexivity].
  destruct (length new =? length (array a))%nat eqn:E; [|reflexivity].
  apply Nat.eqb_eq in E. cbn. rewrite E. reflexivity.
Qed.

Lemma bufferSizes_setters arr st :
  bufferSizes (set_points (setPointsMorphTarget arr (points st)) st) = bufferSizes st /\
  bufferSizes (set_points (setPointsMorphColor arr (points st)) st) = bufferSizes st /\
  bufferSizes (set_points (setPointsPositionArray arr (points st)) st) = bufferSizes st.
Proof.
  unfold bufferSizes, setPointsMorphTarget, setPointsMorphColor, setPointsPositionArray,
    withGeometry.
  destruct (points st) as [pts|]; cbn; [|repeat split; reflexivity].
  rewrite !attrSize_setAttrArray. repeat split; reflexivity.
Qed.

Lemma bufferSizes_applyScrollTweenState st :
  bufferSizes (applyScrollTweenState st) = bufferSizes st.
Proof.
  unfold bufferSizes, applyScrollTweenState, setScatterAmplitude, setMorphProgress.
  cbn. destruct (points st) eqn:E; cbn; rewrite ?E; reflexivity.
Qed.

Lemma bufferSizes_tweenToScrollTargets t b st :
  bufferSizes (tweenToScrollTargets t b st) = bufferSizes st.
Proof.
  unfold tweenToScrollTargets. destruct (_ && _); [reflexivity|].
  destruct b; [|reflexivity]. cbv zeta.
  rewrite bufferSizes_applyScrollTweenState. reflexivity.
Qed.

Lemma bufferSizes_frames :
  (forall v st, bufferSizes (ensureTextOpacity v st) = bufferSizes st) /\
  (forall p st, bufferSizes (updateCameraPose p st) = bufferSizes st) /\
  (forall v b st, bufferSizes (animateBackgroundBlend v b st) = bufferSizes st) /\
  (forall c st, bufferSizes (fst (finishBackgroundBlend c st)) = bufferSizes st) /\
  (forall t st, bufferSizes (startBackgroundBlend t st) = bufferSizes st) /\
  (forall f st, bufferSizes (onSectionState f st) = bufferSizes st) /\
  (forall l st, bufferSizes (set_loads l st) = bufferSizes st) /\
  (forall v st, bufferSizes (setMorphProgress v st) = bufferSizes st).
Proof.
  repeat split; intros; apply bufferSizes_points;
    first [ apply points_ensureTextOpacity | apply points_updateCameraPose
          | apply points_animateBackgroundBlend | apply points_finishBackgroundBlend
          | apply points_startBackgroundBlend | reflexivity ].
Qed.

Lemma bufferSizes_updateSectionTransition st :
  bufferSizes (updateSectionTransition st) = bufferSizes st.
Proof.
  destruct bufferSizes_frames as (A & B & C & _).
  unfold updateSectionTransition.
  destruct (phase (sectionState st)); cbv zeta;
    repeat first [ rewrite A | rewrite B | rewrite C
                 | rewrite bufferSizes_tweenToScrollTargets | case_split ];
    reflexivity.
Qed.

Lemma bufferSizes_cancelTransition st :
  bufferSizes (cancelTransition st) = bufferSizes st.
Proof.
  destruct bufferSizes_frames as (_ & B & _ & D & _ & F & _).
  rewrite cancelTransition_eq, D, F, bufferSizes_updateSectionTransition, B.
  apply bufferSizes_points. apply cancelSetup_rest.
Qed.

Lemma bufferSizes_beginSectionLoad st :
  bufferSizes (beginSectionLoad st) = bufferSizes st.
Proof.
  destruct bufferSizes_frames as (_ & _ & _ & _ & _ & F & L & _).
  unfold beginSectionLoad.
  destruct (nextSection (sectionState st)); [|apply bufferSizes_cancelTransition].
  cbv zeta.
  destruct (pendingPromise _); unfold ensureSectionMorphTarget; cbv beta iota zeta;
    rewrite L, F, ?L, bufferSizes_updateSectionTransition, F; reflexivity.
Qed.

Lemma bufferSizes_startSectionTransition target dir initialProgress st :
  bufferSizes (startSectionTransition target dir initialProgress st) = bufferSizes st.
Proof.
  destruct bufferSizes_frames as (_ & _ & _ & _ & S & F & L & _).
  unfold startSectionTransition. cbv zeta.
  destruct (_ <=? _)%Z; [reflexivity|].
  destruct (_ && _); [reflexivity|].
  destruct (getSectionByIndex _) as [sec|]; [|reflexivity].
  assert (T : bufferSizes (transitionStarted (normalizeSectionIndex target) sec dir
                                             initialProgress st)
              = bufferSizes st).
  { unfold transitionStarted, ensureSectionMorphTarget. cbv zeta.
    rewrite F, L, S. apply bufferSizes_points. apply transitionSetup_rest. }
  destruct (Qle_bool _ _);
    rewrite ?bufferSizes_beginSectionLoad, bufferSizes_updateSectionTransition; exact T.
Qed.

Lemma bufferSizes_accumulateScroll delta threshold progressScale st :
  bufferSizes (accumulateScroll delta threshold progressScale st) = bufferSizes st.
Proof.
  destruct bufferSizes_frames as (_ & _ & _ & _ & _ & F & _).
  unfold accumulateScroll. cbv zeta.
  destruct (Qle_bool _ _); [|apply F].
  destruct (Qlt_bool _ _);
    rewrite ?F, bufferSizes_startSectionTransition, !F; reflexivity.
Qed.

Lemma bufferSizes_state_setters :
  (forall v st, bufferSizes (set_morphUniformValue v st) = bufferSizes st) /\
  (forall v st, bufferSizes (set_baseVertexCount v st) = bufferSizes st) /\
  (forall v st, bufferSizes (set_originalGeom v st) = bufferSizes st) /\
  (forall v st, bufferSizes (set_morphTargetOriginal v st) = bufferSizes st) /\
  (forall v st, bufferSizes (set_sectionAssets v st) = bufferSizes st) /\
  (forall v st, bufferSizes (set_currentSectionId v st) = bufferSizes st) /\
  (forall v st, bufferSizes (set_scrollTweenState v st) = bufferSizes st) /\
  (forall v st, bufferSizes (set_scrollTargetsCurrent v st) = bufferSizes st) /\
  (forall v st, bufferSizes (set_cameraPathTarget v st) = bufferSizes st) /\
  (forall v st, bufferSizes (set_cameraPathT v st) = bufferSizes st) /\
  (forall v st, bufferSizes (set_cameraYawOffsetDeg v st) = bufferSizes st) /\
  (forall v st, bufferSizes (set_cameraPitchOffsetDeg v st) = bufferSizes st) /\
  (forall v st, bufferSizes (setCameraYawOffset v st) = bufferSizes st) /\
  (forall v st, bufferSizes (setCameraPitchOffset v st) = bufferSizes st) /\
  (forall v st, bufferSizes (set_currentModelPath v st) = bufferSizes st) /\
  (forall st, bufferSizes (refreshAllMorphTargets st) = bufferSizes st) /\
  (forall k a st, bufferSizes (setAssetMorphArray k a st) = bufferSizes st).
Proof.
  repeat split; intros; try reflexivity.
  unfold setAssetMorphArray. destruct (assetGet _ _); reflexivity.
Qed.

Ltac sizes_step :=
  first
    [ rewrite (proj1 bufferSizes_state_setters)
    | rewrite (proj1 (proj2 bufferSizes_state_setters))
    | rewrite (proj1 (proj2 (proj2 bufferSizes_state_setters)))
    | rewrite (proj1 (proj2 (proj2 (proj2 bufferSizes_state_setters))))
    | rewrite (proj1 (proj2 (proj2 (proj2 (proj2 bufferSizes_state_setters)))))
    | rewrite (proj1 (proj2 (proj2 (proj2 (proj2 (proj2 bufferSizes_state_setters))))))
    | rewrite (proj1 (proj2 (proj2 (proj2 (proj2 (proj2 (proj2
                 bufferSizes_state_setters)))))))
    | rewrite (proj1 (proj2 (proj2 (proj2 (proj2 (proj2 (proj2 (proj2
                 bufferSizes_state_setters))))))))
    | rewrite (proj1 (proj2 (proj2 (proj2 (proj2 (proj2 (proj2 (proj2 (proj2
                 bufferSizes_state_setters)))))))))
    | rewrite (proj1 (proj2 (proj2 (proj2 (proj2 (proj2 (proj2 (proj2 (proj2 (proj2
                 bufferSizes_state_setters))))))))))
    | rewrite (proj1 (proj2 (proj2 (proj2 (proj2 (proj2 (proj2 (proj2 (proj2 (proj2
                 (proj2 bufferSizes_state_setters)))))))))))
    | rewrite (proj1 (proj2 (proj2 (proj2 (proj2 (proj2 (proj2 (proj2 (proj2 (proj2
                 (proj2 (proj2 bufferSizes_state_setters))))))))))))
    | rewrite (proj1 (proj2 (proj2 (proj2 (proj2 (proj2 (proj2 (proj2 (proj2 (proj2
                 (proj2 (proj2 (proj2 bufferSizes_state_setters)))))))))))))
    | rewrite (proj1 (proj2 (proj2 (proj2 (proj2 (proj2 (proj2 (proj2 (proj2 (proj2
                 (proj2 (proj2 (proj2 (proj2 bufferSizes_state_setters))))))))))))))
    | rewrite (proj1 (proj2 (proj2 (proj2 (proj2 (proj2 (proj2 (proj2 (proj2 (proj2
                 (proj2 (proj2 (proj2 (proj2 (proj2 bufferSizes_state_setters)))))))))))))))
    | rewrite (proj1 (proj2 (proj2 (proj2 (proj2 (proj2 (proj2 (proj2 (proj2 (proj2
                 (proj2 (proj2 (proj2 (proj2 (proj2 (proj2
                 bufferSizes_state_setters))))))))))))))))
    | rewrite (proj2 (proj2 (proj2 (proj2 (proj2 (proj2 (proj2 (proj2 (proj2 (proj2
                 (proj2 (proj2 (proj2 (proj2 (proj2 (proj2
                 bufferSizes_state_setters))))))))))))))))
    | rewrite (proj1 (bufferSizes_setters _ _))
    | rewrite (proj1 (proj2 (bufferSizes_setters _ _)))
    | rewrite (proj2 (proj2 (bufferSizes_setters _ _)))
    | rewrite (proj1 bufferSizes_frames)
    | rewrite (proj1 (proj2 bufferSizes_frames))
    | rewrite (proj1 (proj2 (proj2 bufferSizes_frames)))
    | rewrite (proj1 (proj2 (proj2 (proj2 bufferSizes_frames))))
    | rewrite (proj1 (proj2 (proj2 (proj2 (proj2 bufferSizes_frames)))))
    | rewrite (proj1 (proj2 (proj2 (proj2 (proj2 (proj2 bufferSizes_frames))))))
    | rewrite (proj1 (proj2 (proj2 (proj2 (proj2 (proj2 (proj2 bufferSizes_frames)))))))
    | rewrite (proj2 (proj2 (proj2 (proj2 (proj2 (proj2 (proj2 bufferSizes_frames)))))))
    | rewrite bufferSizes_updateSectionTransition
    | rewrite bufferSizes_applyScrollTweenState ].

Lemma bufferSizes_commitMorph sec st :
  bufferSizes (commitMorph sec st) = bufferSizes st.
Proof.
  unfold commitMorph.
  destruct (getSectionAsset (Some sec) st) as [asset|]; [|reflexivity].
  destruct (asset_morphArray asset) as [morphArr|]; [|reflexivity].
  destruct (points st) as [pts0|] eqn:P0; [|reflexivity].
  cbv zeta. rewrite <- P0.
  repeat sizes_step.
  match goal with
  | |- bufferSizes match points ?s with _ => _ end = _ =>
    assert (S : bufferSizes s = bufferSizes st);
      [ repeat first [ sizes_step | case_split ]; reflexivity
      | remember s as mid eqn:E; clear E ]
  end.
  destruct (points mid) as [pts|] eqn:P; [|exact S].
  destruct (morphColor (geometry pts)) as [mc|] eqn:M; [|exact S].
  destruct (color (geometry pts)) as [c|] eqn:C; [|exact S].
  destruct (_ =? _)%nat eqn:L; [|exact S].
  apply Nat.eqb_eq in L. rewrite <- S. unfold bufferSizes. rewrite P.
  cbn. rewrite C, M. cbn. rewrite L. reflexivity.
Qed.

Lemma bufferSizes_arrive (a : option SectionCfg) st :
  bufferSizes
    match a with
    | Some s => set_currentSectionId (Some (id s)) (commitMorph s st)
    | None => st
    end
  = bufferSizes st.
Proof.
  destruct a as [s|]; [|reflexivity].
  sizes_step. apply bufferSizes_commitMorph.
Qed.

Lemma bufferSizes_fadeInSettled st : bufferSizes (fadeInSettled st) = bufferSizes st.
Proof.
  destruct bufferSizes_state_setters
    as (_ & _ & _ & _ & _ & _ & Htw & Htc & Hpt & Hp & Hy & Hpi & Hsy & Hsp & _).
  destruct bufferSizes_frames as (_ & _ & _ & Hfin & _ & Hss & _).
  unfold fadeInSettled. cbv zeta.
  rewrite bufferSizes_applyScrollTweenState, Htc, Htw, bufferSizes_arrive, Hfin,
    bufferSizes_updateSectionTransition, Hsp, Hsy, Hpi, Hy, Hp, Hpt.
  rewrite !Hss. reflexivity.
Qed.

Lemma bufferSizes_completeFadeIn_with self st :
  (forall delta isTouch x, bufferSizes (self delta isTouch x) = bufferSizes x) ->
  bufferSizes (completeFadeIn_with self st) = bufferSizes st.
Proof.
  intro Hself. unfold completeFadeIn_with. cbv zeta.
  destruct (Qlt_bool _ _); rewrite ?Hself; sizes_step; apply bufferSizes_fadeInSettled.
Qed.

Lemma bufferSizes_advanceTransitionProgress_with self stepRaw st :
  (forall delta isTouch x, bufferSizes (self delta isTouch x) = bufferSizes x) ->
  bufferSizes (advanceTransitionProgress_with self stepRaw st) = bufferSizes st.
Proof.
  intro Hself. unfold advanceTransitionProgress_with. cbv zeta.
  destruct (phase (sectionState st)); try reflexivity.
  - destruct (Qeq_bool _ 0); [apply bufferSizes_updateSectionTransition|].
    destruct (Qle_bool _ 0); [apply bufferSizes_cancelTransition|].
    destruct (Qle_bool 1 _);
      rewrite ?bufferSizes_beginSectionLoad; repeat sizes_step; reflexivity.
  - destruct (Qeq_bool _ 0); [apply bufferSizes_updateSectionTransition|].
    destruct (Qle_bool 1 _);
      rewrite ?(bufferSizes_completeFadeIn_with self _ Hself);
      repeat sizes_step; reflexivity.
Qed.

Lemma bufferSizes_applyScrollDelta_with self delta isTouch st :
  (forall d t x, bufferSizes (self d t x) = bufferSizes x) ->
  bufferSizes (applyScrollDelta_with self delta isTouch st) = bufferSizes st.
Proof.
  intro Hself. unfold applyScrollDelta_with.
  destruct (negb _); [reflexivity|]. cbv zeta.
  destruct (phase (sectionState st));
    first [ apply bufferSizes_accumulateScroll
          | apply bufferSizes_advanceTransitionProgress_with; exact Hself
          | idtac ].
  destruct (Qlt_bool 0 _); [sizes_step|]; reflexivity.
Qed.

Lemma bufferSizes_applyScrollDelta_upto depth : forall delta isTouch st,
  bufferSizes (applyScrollDelta_upto depth delta isTouch st) = bufferSizes st.
Proof.
  induction depth as [|depth IH]; intros delta isTouch st; [reflexivity|].
  apply bufferSizes_applyScrollDelta_with. exact IH.
Qed.

Lemma bufferSizes_fadeInEntry st : bufferSizes (fadeInEntry st) = bufferSizes st.
Proof.
  unfold fadeInEntry. cbv zeta.
  repeat first [ sizes_step | case_split ]; reflexivity.
Qed.

Lemma bufferSizes_beginSectionLoad_then st :
  bufferSizes (beginSectionLoad_then st) = bufferSizes st.
Proof.
  unfold beginSectionLoad_then. cbv zeta.
  destruct (Qle_bool _ _); [|apply bufferSizes_fadeInEntry].
  unfold completeFadeIn.
  rewrite (bufferSizes_completeFadeIn_with _ _ (bufferSizes_applyScrollDelta_upto 1)).
  apply bufferSizes_fadeInEntry.
Qed.

Lemma bufferSizes_beginSectionLoad_catch st :
  bufferSizes (beginSectionLoad_catch st) = bufferSizes st.
Proof.
  unfold beginSectionLoad_catch. cbv zeta. repeat sizes_step. reflexivity.
Qed.

Lemma bufferSizes_runLoadHandler handle st :
  bufferSizes (runLoadHandler handle st) = bufferSizes st.
Proof.
  unfold runLoadHandler.
  destruct (nth_error (loads st) handle) as [ld|]; [|reflexivity].
  destruct (load_handler ld); try reflexivity.
  destruct (load_status ld); try reflexivity; cbv zeta;
    rewrite ?bufferSizes_beginSectionLoad_then, ?bufferSizes_beginSectionLoad_catch;
    sizes_step; reflexivity.
Qed.

Lemma bufferSizes_ensureSectionMorphTarget_then sec g st :
  bufferSizes (fst (ensureSectionMorphTarget_then sec g st)) = bufferSizes st.
Proof.
  unfold ensureSectionMorphTarget_then. cbv zeta.
  repeat case_split; cbn [fst]; repeat sizes_step; reflexivity.
Qed.

Lemma bufferSizes_settleChain handle outcome ld st :
  bufferSizes (settleChain handle outcome ld st) = bufferSizes st.
Proof.
  unfold settleChain. cbv zeta.
  assert (R : bufferSizes (fst (resolveGeometry ld outcome st)) = bufferSizes st)
    by (apply bufferSizes_points, resolveGeometry_frames).
  sizes_step.
  destruct (load_guarded ld); [sizes_step|];
    (destruct (snd (resolveGeometry ld outcome st));
     [rewrite bufferSizes_ensureSectionMorphTarget_then | cbn [fst]]; exact R).
Qed.

Lemma bufferSizes_settleLoad handle outcome st :
  bufferSizes (settleLoad handle outcome st) = bufferSizes st.
Proof.
  unfold settleLoad.
  destruct (nth_error (loads st) handle) as [ld|]; [|reflexivity].
  destruct (load_status ld); try reflexivity.
  rewrite bufferSizes_runLoadHandler. apply bufferSizes_settleChain.
Qed.

Lemma bufferSizes_runMicrotasks fuel : forall st,
  bufferSizes (runMicrotasks fuel st) = bufferSizes st.
Proof.
  induction fuel as [|fuel IH]; intro st; [reflexivity|]. cbn [runMicrotasks].
  destruct (firstRunnable (loads st) 0) as [handle|]; [|reflexivity].
  destruct (nth_error (loads st) handle) as [ld|]; [|reflexivity].
  destruct (load_status ld); rewrite IH;
    first [apply bufferSizes_settleLoad | apply bufferSizes_runLoadHandler].
Qed.

Lemma bufferSizes_dispatch ev st : bufferSizes (dispatch ev st) = bufferSizes st.
Proof.
  unfold dispatch. rewrite bufferSizes_runMicrotasks.
  destruct ev as [deltaY | deltaY | handle outcome]; unfold handleEvent.
  - destruct (Qeq_bool deltaY 0); [reflexivity|].
    apply bufferSizes_applyScrollDelta_upto.
  - apply bufferSizes_applyScrollDelta_upto.
  - destruct (nth_error (loads st) handle) as [ld|]; [|reflexivity].
    destruct (load_source ld); try reflexivity.
    apply bufferSizes_settleLoad.
Qed.

(** No event changes the size of a displayed buffer: whatever is scrolled
    and whatever the loader delivers, in any order, the [position], [color],
    [morphTarget] and [morphColor] attributes of the displayed cloud keep
    their length and item size, and a cloud that is displayed stays
    displayed. *)
Theorem events_keep_buffer_sizes (evs : list Event) (st : State) :
  bufferSizes (run evs st) = bufferSizes st.
Proof.
  unfold run.
  apply (fold_left_invariant (fun s ev => dispatch ev s)
                             (fun s => bufferSizes s = bufferSizes st)).
  - intros a b H. rewrite bufferSizes_dispatch. exact H.
  - reflexivity.
Qed.

(** ** Completing a transition commits the target cloud *)

Lemma displayedGeometry_points st st' :
  points st' = points st -> displayedGeometry st' = displayedGeometry st.
Proof. unfold displayedGeometry. intros ->. reflexivity. Qed.

Lemma cloudCore_parts st st' :
  points st' = points st ->
  sectionAssets st' = sectionAssets st ->
  currentSectionId st' = currentSectionId st ->
  cloudCore st' = cloudCore st.
Proof. unfold cloudCore, displayedGeometry. intros -> -> ->. reflexivity. Qed.

Lemma cloudCore_applyScrollTweenState st :
  cloudCore (applyScrollTweenState st) = cloudCore st.
Proof.
  unfold cloudCore, displayedGeometry, applyScrollTweenState, setScatterAmplitude,
    setMorphProgress.
  cbn. destruct (points st) eqn:E; cbn; rewrite ?E; reflexivity.
Qed.

Lemma cloudCore_tweenToScrollTargets t b st :
  cloudCore (tweenToScrollTargets t b st) = cloudCore st.
Proof.
  unfold tweenToScrollTargets. destruct (_ && _); [reflexivity|].
  destruct b; [|reflexivity]. cbv zeta.
  rewrite cloudCore_applyScrollTweenState. reflexivity.
Qed.

Lemma cloudCore_frames :
  (forall v st, cloudCore (ensureTextOpacity v st) = cloudCore st) /\
  (forall p st, cloudCore (updateCameraPose p st) = cloudCore st) /\
  (forall v b st, cloudCore (animateBackgroundBlend v b st) = cloudCore st) /\
  (forall c st, cloudCore (fst (finishBackgroundBlend c st)) = cloudCore st) /\
  (forall f st, cloudCore (onSectionState f st) = cloudCore st).
Proof.
  repeat split; intros; try reflexivity;
    (apply cloudCore_parts;
     [ first [ apply points_ensureTextOpacity | apply points_animateBackgroundBlend
             | apply points_finishBackgroundBlend ]
     | unfold ensureTextOpacity, setTextOpacityTarget, animateBackgroundBlend,
         applyBackgroundBlend, finishBackgroundBlend, setBackgroundGradient;
       cbv zeta; repeat case_split; reflexivity .. ]).
Qed.

Lemma cloudCore_updateSectionTransition st :
  cloudCore (updateSectionTransition st) = cloudCore st.
Proof.
  destruct cloudCore_frames as (A & B & C & _).
  unfold updateSectionTransition.
  destruct (phase (sectionState st)); cbv zeta;
    repeat first [ rewrite A | rewrite B | rewrite C
                 | rewrite cloudCore_tweenToScrollTargets | case_split ];
    reflexivity.
Qed.

Lemma commitMorph_cloud sec st asset arr g a :
  assetGet (id sec) (sectionAssets st) = Some asset ->
  asset_morphArray asset = Some arr ->
  displayedGeometry st = Some g ->
  position g = Some a ->
  length arr = length (array a) ->
  displayedGeometry (commitMorph sec st)
  = Some {| position := Some {| array := arr; itemSize := itemSize a |};
            color :=
              match morphColor g, color g with
              | Some mc, Some c =>
                if (length (array c) =? length (array mc))%nat
                then Some {| array := array mc; itemSize := itemSize c |}
                else color g
              | _, _ => color g
              end;
            morphTarget := setAttrArray (morphTarget g) (Some arr);
            morphColor := morphColor g |}.
Proof.
  intros Hasset Harr Hg Hpos Hlen.
  unfold displayedGeometry in Hg.
  destruct (points st) as [pts|] eqn:P; [|discriminate].
  injection Hg as <-.
  unfold commitMorph, getSectionAsset. rewrite Hasset, Harr, P. cbv zeta.
  unfold setPointsPositionArray, withGeometry.
  cbn [points set_points geometry position setAttrArray].
  rewrite Hpos. cbn [setAttrArray]. rewrite Hlen, Nat.eqb_refl.
  match goal with
  | |- context [setAssetMorphArray ?k ?v ?s] =>
    assert (Z : points (setAssetMorphArray k v s)
                = Some {| geometry :=
                            {| position := Some {| array := arr; itemSize := itemSize a |};
                               color := color (geometry pts);
                               morphTarget := morphTarget (geometry pts);
                               morphColor := morphColor (geometry pts) |};
                          placement := placement pts |});
      [ clear Hasset; unfold setAssetMorphArray;
        destruct (asset_geometry asset);
        match goal with
        | |- context [match assetGet ?key ?l with _ => _ end] =>
          destruct (assetGet key l)
        end; reflexivity
      | remember (setAssetMorphArray k v s) as z eqn:E; clear E ]
  end.
  rewrite Z. unfold setPointsMorphTarget, withGeometry, displayedGeometry, setMorphProgress.
  cbn [points set_points geometry position color morphTarget morphColor placement
       set_morphUniformValue set_morphProgress array].
  destruct (morphColor (geometry pts)) as [mc|]; [|reflexivity].
  destruct (color (geometry pts)) as [c|]; [|reflexivity].
  destruct (_ =? _)%nat; reflexivity.
Qed.

Lemma cloudCore_state_setters :
  (forall v st, cloudCore (set_scrollTweenState v st) = cloudCore st) /\
  (forall v st, cloudCore (set_scrollTargetsCurrent v st) = cloudCore st) /\
  (forall v st, cloudCore (set_cameraPathTarget v st) = cloudCore st) /\
  (forall v st, cloudCore (set_cameraPathT v st) = cloudCore st) /\
  (forall v st, cloudCore (set_cameraYawOffsetDeg v st) = cloudCore st) /\
  (forall v st, cloudCore (set_cameraPitchOffsetDeg v st) = cloudCore st) /\
  (forall v st, cloudCore (setCameraYawOffset v st) = cloudCore st) /\
  (forall v st, cloudCore (setCameraPitchOffset v st) = cloudCore st).
Proof. repeat split; reflexivity. Qed.

Lemma cloudCore_arrived v st :
  cloudCore (set_currentSectionId v st) = (displayedGeometry st, sectionAssets st, v).
Proof. reflexivity. Qed.

Lemma fadeInSettled_commit st sec :
  nextSection (sectionState st) = Some sec ->
  exists X,
    cloudCore X = cloudCore st /\
    cloudCore (fadeInSettled st)
    = (displayedGeometry (commitMorph sec X), sectionAssets (commitMorph sec X),
       Some (id sec)).
Proof.
  intro Hn.
  destruct cloudCore_state_setters as (Htw & Htc & Hpt & Hp & Hy & Hpi & Hsy & Hsp).
  destruct cloudCore_frames as (_ & _ & _ & Hfin & Hss).
  unfold fadeInSettled. cbv zeta.
  rewrite cloudCore_applyScrollTweenState, Htc, Htw.
  rewrite !sectionState_onSectionState.
  change (nextSection
            (set_pendingPromise None
               (set_transitionProgress 0 (set_phase idle (sectionState st)))))
    with (nextSection (sectionState st)).
  rewrite Hn. cbn [orElseOpt].
  rewrite cloudCore_arrived.
  eexists. split; [|reflexivity].
  rewrite Hfin, cloudCore_updateSectionTransition, Hsp, Hsy, Hpi, Hy, Hp, Hpt.
  rewrite !Hss. reflexivity.
Qed.

Lemma settled_fields (ss : SectionState) (r : Q) (pose : Pose) :
  let ss' :=
    set_pendingScrollCarry 0
      (set_cameraEndPose (Some pose)
         (set_cameraStartPose (Some pose)
            (set_rotationMid r
               (set_rotationTarget r
                  (set_rotationStart r
                     (set_nextSection None
                        (set_pendingPromise None
                           (set_transitionProgress 0 (set_phase idle ss))))))))) in
  phase ss' = idle /\
  transitionProgress ss' = 0 /\
  pendingScrollCarry ss' = 0 /\
  nextSection ss' = None /\
  pendingPromise ss' = None /\
  index ss' = index ss /\
  cameraStartPose ss' = cameraEndPose ss'.
Proof. repeat split; reflexivity. Qed.

Lemma settled_commits st st' sec asset arr g a :
  st' = onSectionState (set_pendingScrollCarry 0) (fadeInSettled st) ->
  nextSection (sectionState st) = Some sec ->
  assetGet (id sec) (sectionAssets st) = Some asset ->
  asset_morphArray asset = Some arr ->
  displayedGeometry st = Some g ->
  position g = Some a ->
  length arr = length (array a) ->
  (phase (sectionState st') = idle /\
   transitionProgress (sectionState st') = 0 /\
   pendingScrollCarry (sectionState st') = 0 /\
   nextSection (sectionState st') = None /\
   pendingPromise (sectionState st') = None /\
   index (sectionState st') = index (sectionState st) /\
   cameraStartPose (sectionState st') = cameraEndPose (sectionState st')) /\
  currentSectionId st' = Some (id sec) /\
  exists g',
    displayedGeometry st' = Some g' /\
    position g' = Some {| array := arr; itemSize := itemSize a |} /\
    morphTarget g' = setAttrArray (morphTarget g) (Some arr) /\
    morphColor g' = morphColor g.
Proof.
  intros E Hn Hasset Harr Hg Hpos Hlen.
  assert (S : sectionState st'
              = set_pendingScrollCarry 0 (sectionState (fadeInSettled st)))
    by (rewrite E; apply sectionState_onSectionState).
  rewrite sectionState_fadeInSettled in S.
  assert (C : cloudCore st' = cloudCore (fadeInSettled st))
    by (rewrite E; apply cloudCore_frames).
  clear E.
  destruct (fadeInSettled_commit st sec Hn) as (X & HX & HC).
  rewrite HC in C. clear HC.
  unfold cloudCore in HX. injection HX as GX AX _.
  rewrite Hg in GX. rewrite <- AX in Hasset.
  rewrite (commitMorph_cloud sec X asset arr g a Hasset Harr GX Hpos Hlen) in C.
  remember (sectionAssets (commitMorph sec X)) as assets eqn:Ea. clear Ea.
  unfold cloudCore in C. injection C as CG _ CI.
  remember (groupRotationY st) as r eqn:Er.
  remember (orElse (cameraEndPose (sectionState st)) (getCurrentCameraPose st))
    as pose eqn:Ep.
  remember (sectionState st) as ss eqn:Es.
  clear Er Ep Es.
  split; [rewrite S; apply settled_fields|].
  split; [exact CI|].
  eexists. split; [exact CG|].
  repeat split; reflexivity.
Qed.

(** When [completeFadeIn] runs with no carry left to replay, the machine
    comes to rest on the target section: phase idle, progress 0, no target and
    no promise left, the start pose of the camera equal to its end pose.  If
    the asset of the target holds a morph array as long as the position
    buffer, that array is now the position buffer of the displayed cloud and
    its morph target, and the target is the current section. *)
Theorem completeFadeIn_commits_target
    (st : State) (sec : SectionCfg) (asset : Asset) (arr : list Q)
    (g : Geometry) (a : BufferAttribute) :
  nextSection (sectionState st) = Some sec ->
  assetGet (id sec) (sectionAssets st) = Some asset ->
  asset_morphArray asset = Some arr ->
  displayedGeometry st = Some g ->
  position g = Some a ->
  length arr = length (array a) ->
  pendingScrollCarry (sectionState st) <= 1 # 10000 ->
  let st' := completeFadeIn st in
  (phase (sectionState st') = idle /\
   transitionProgress (sectionState st') = 0 /\
   pendingScrollCarry (sectionState st') = 0 /\
   nextSection (sectionState st') = None /\
   pendingPromise (sectionState st') = None /\
   index (sectionState st') = index (sectionState st) /\
   cameraStartPose (sectionState st') = cameraEndPose (sectionState st')) /\
  currentSectionId st' = Some (id sec) /\
  exists g',
    displayedGeometry st' = Some g' /\
    position g' = Some {| array := arr; itemSize := itemSize a |} /\
    morphTarget g' = setAttrArray (morphTarget g) (Some arr) /\
    morphColor g' = morphColor g.
Proof.
  intros Hn Hasset Harr Hg Hpos Hlen Hcarry st'.
  exact (settled_commits st (completeFadeIn st) sec asset arr g a
           (proj1 (proj2 (proj2 (completeFadeIn_replay st))) Hcarry)
           Hn Hasset Harr Hg Hpos Hlen).
Qed.

(** ** A loaded target is resampled onto the displayed slots *)

Lemma setAttrArray_same_length (a : BufferAttribute) (new : list Q) :
  length new = length (array a) ->
  setAttrArray (Some a) (Some new) = Some {| array := new; itemSize := itemSize a |}.
Proof. intro H. unfold setAttrArray. rewrite H, Nat.eqb_refl. reflexivity. Qed.

(** When the geometry of a target section arrives, the body of
    [ensureSectionMorphTarget] succeeds for every non-empty target of at most
    [2^24] points, and the morph buffer it writes is the target itself
    downsampled to the displayed slot count: slot [i] holds the target point
    [sampleIndex] picks for it, the one [createPointGeometry] would pick.
    The base positions and the transition state are left alone.  ([2^24]
    points is as far as the sample fractions, which are stored as singles,
    tell neighbouring points apart.) *)
Theorem ensureSectionMorphTarget_then_samples_target
    (sec : SectionCfg) (geom : Geometry) (tgtPos morphAttr : BufferAttribute)
    (pts : Points) (n : nat) (st : State) :
  points st = Some pts ->
  morphTarget (geometry pts) = Some morphAttr ->
  itemSize morphAttr = 3%Z ->
  length (array morphAttr) = (3 * n)%nat ->
  (1 <= n)%nat ->
  position geom = Some tgtPos ->
  (1 <= count tgtPos <= 2 ^ 24)%Z ->
  let result := ensureSectionMorphTarget_then sec geom st in
  snd result = true /\
  fst (morphBuffer (fst result))
  = Some {| array :=
              flat_map (fun i => copyPoint3 (array tgtPos) (strideOf tgtPos)
                                            (sampleIndex (count tgtPos) (Z.of_nat n) i))
                       (loopRange (Z.of_nat n));
            itemSize := 3 |} /\
  pointsPosition (fst result) = pointsPosition st /\
  sectionState (fst result) = sectionState st.
Proof.
  intros Hpts Hm Hsize Hlen Hn Hp [Hc Hsmall] result.
  assert (Hcount : count morphAttr = Z.of_nat n).
  { unfold count. rewrite Hsize, Hlen, Nat2Z.inj_mul, Z.mul_comm.
    apply Z.div_mul. lia. }
  assert (F : computeSampleFractions (Some geom) (count morphAttr)
              = Some (map (fun i => sampleFraction (count tgtPos)
                                      (sampleIndex (count tgtPos) (Z.of_nat n) i))
                          (loopRange (Z.of_nat n)))).
  { rewrite Hcount. apply computeSampleFractions_eq; [exact Hp | lia | exact Hc]. }
  assert (G : generateMorphTargetArrayWithFractions
                (Some pts) (Some geom)
                (Some (map (fun i => sampleFraction (count tgtPos)
                                       (sampleIndex (count tgtPos) (Z.of_nat n) i))
                           (loopRange (Z.of_nat n))))
              = Some (flat_map
                        (fun i => copyPoint3 (array tgtPos) (strideOf tgtPos)
                                             (sampleIndex (count tgtPos) (Z.of_nat n) i))
                        (loopRange (Z.of_nat n)))).
  { unfold generateMorphTargetArrayWithFractions. rewrite Hm, Hp, Hcount.
    rewrite length_map, loopRange_length, Nat2Z.id, Z.eqb_refl. cbn [negb].
    destruct (count tgtPos <=? 0)%Z eqn:E; [apply Z.leb_le in E; lia|].
    f_equal. apply resample_self; lia. }
  assert (L : length (flat_map
                        (fun i => copyPoint3 (array tgtPos) (strideOf tgtPos)
                                             (sampleIndex (count tgtPos) (Z.of_nat n) i))
                        (loopRange (Z.of_nat n)))
              = length (array morphAttr)).
  { rewrite length_flat_map_copyPoint3, loopRange_length, Nat2Z.id. lia. }
  assert (S : sectionState (fst result) = sectionState st)
    by apply sectionState_ensureSectionMorphTarget_then.
  assert (P : pointsPosition (fst result) = pointsPosition st)
    by apply ensureSectionMorphTarget_then_frames.
  split; [|split; [|split; [exact P | exact S]]];
    unfold result, ensureSectionMorphTarget_then; rewrite Hpts, Hm, F, G; cbv zeta.
  - reflexivity.
  - remember (flat_map _ _) as arr eqn:Ea. clear Ea F G.
    cbn [fst].
    match goal with
    | |- fst (morphBuffer (set_currentModelPath _ ?s)) = _ =>
      change (fst (morphBuffer (set_currentModelPath _ s)))
        with (fst (morphBuffer s))
    end.
    assert (B : forall s : State,
               fst (morphBuffer
                      (set_points (setPointsMorphTarget (Some arr) (points s)) s))
               = match points s with
                 | Some p => setAttrArray (morphTarget (geometry p)) (Some arr)
                 | None => None
                 end).
    { intro s. unfold morphBuffer, setPointsMorphTarget, withGeometry.
      cbn [points set_points]. destruct (points s); reflexivity. }
    assert (K : forall (c : option (list Q)) (s : State),
               fst (morphBuffer (set_points (setPointsMorphColor c (points s)) s))
               = fst (morphBuffer s)).
    { intros c s. unfold morphBuffer, setPointsMorphColor, withGeometry.
      cbn [points set_points]. destruct (points s); reflexivity. }
    match goal with
    | |- fst (morphBuffer match ?c with _ => _ end) = _ =>
      destruct c; [rewrite K|]
    end;
      rewrite B;
      (match goal with
       | |- match points match ?x with _ => _ end with _ => _ end = _ =>
         assert (Q0 : points match x with
                             | Some asset0 =>
                               set_sectionAssets
                                 (assetSet (id sec)
                                    {| asset_path := asset_path asset0;
                                       asset_geometry := asset_geometry asset0;
                                       asset_morphArray := Some arr |}
                                    (sectionAssets st)) st
                             | None => st
                             end = Some pts)
           by (destruct x; exact Hpts);
         rewrite Q0
       end);
      rewrite Hm, (setAttrArray_same_length morphAttr arr L), Hsize; reflexivity.
Qed.

(** ** Colour strings *)

Lemma toLowerCase1_hex (c : ascii) :
  isHexDigit c = true ->
  isHexDigit (toLowerCase1 c) = true /\
  toLowerCase1 (toLowerCase1 c) = toLowerCase1 c.
Proof.
  destruct c as [[] [] [] [] [] [] [] []]; vm_compute; intro H;
    first [discriminate H | split; reflexivity].
Qed.

Lemma toLowerCase_hex (s : string) :
  allHex s = true ->
  allHex (toLowerCase s) = true /\
  toLowerCase (toLowerCase s) = toLowerCase s.
Proof.
  induction s as [|c s IH]; intro H; [split; reflexivity|].
  cbn [allHex] in H. apply andb_true_iff in H as [Hc Hs].
  destruct (toLowerCase1_hex c Hc) as [A B].
  destruct (IH Hs) as [A' B'].
  cbn [toLowerCase allHex]. rewrite A, A', B, B'. split; reflexivity.
Qed.

Lemma toLowerCase_length (s : string) :
  String.length (toLowerCase s) = String.length s.
Proof. induction s as [|c s IH]; [reflexivity | cbn; rewrite IH; reflexivity]. Qed.

Lemma substring_prefix_hex (n : nat) (s : string) :
  allHex s = true -> allHex (substring 0 n s) = true.
Proof.
  revert s. induction n as [|n IH]; intros [|c s] H; try reflexivity.
  cbn [allHex] in H. apply andb_true_iff in H as [Hc Hs].
  cbn [substring allHex]. rewrite Hc, (IH s Hs). reflexivity.
Qed.

Lemma substring_prefix_length (n : nat) (s : string) :
  (n <= String.length s)%nat -> String.length (substring 0 n s) = n.
Proof.
  revert s. induction n as [|n IH]; intros [|c s] H; try reflexivity.
  - cbn in H. lia.
  - cbn [substring String.length]. rewrite IH; [reflexivity | cbn in H; lia].
Qed.

Lemma substring_whole (s : string) :
  substring 0 (String.length s) s = s.
Proof. induction s as [|c s IH]; [reflexivity | cbn; rewrite IH; reflexivity]. Qed.

Lemma substring_of_append (n : nat) (s t : string) :
  String.length s = n -> substring 0 n (s ++ t) = s.
Proof.
  revert s. induction n as [|n IH]; intros [|c s] H; try discriminate H.
  - cbn. destruct t; reflexivity.
  - cbn [append substring]. rewrite IH; [reflexivity | cbn in H; lia].
Qed.

Lemma allHex_append (s t : string) :
  allHex (s ++ t) = allHex s && allHex t.
Proof.
  induction s as [|c s IH]; [reflexivity|].
  cbn [append allHex]. rewrite IH, andb_assoc. reflexivity.
Qed.

Lemma append_length (s t : string) :
  String.length (s ++ t) = (String.length s + String.length t)%nat.
Proof. induction s as [|c s IH]; [reflexivity | cbn; rewrite IH; reflexivity]. Qed.

(** The group that the pattern captures: six hex digits. *)
Lemma matchHex_group (s group1 : string) :
  matchHex s = Some group1 ->
  allHex group1 = true /\ String.length group1 = 6%nat.
Proof.
  unfold matchHex.
  set (body := match s with String "#"%char rest => rest | _ => s end).
  destruct (allHex body) eqn:Hhex; [|discriminate].
  destruct ((String.length body =? 6)%nat || (String.length body =? 8)%nat) eqn:Hlen;
    [|discriminate].
  cbn [andb]. intro H. injection H as <-.
  split; [apply substring_prefix_hex; exact Hhex|].
  apply substring_prefix_length.
  apply orb_true_iff in Hlen as [E|E]; apply Nat.eqb_eq in E; lia.
Qed.

(** Six lower-case hex digits behind a [#] come back as they are. *)
Lemma normalizeHex_hexOf (group1 : string) :
  allHex group1 = true -> String.length group1 = 6%nat ->
  normalizeHex (hexOf group1) = Some (hexOf group1).
Proof.
  intros Hhex Hlen.
  destruct (toLowerCase_hex group1 Hhex) as [A B].
  unfold normalizeHex, matchHex, hexOf.
  rewrite A, toLowerCase_length, Hlen. cbn [Nat.eqb orb andb].
  rewrite <- Hlen at 1. rewrite <- (toLowerCase_length group1) at 1.
  rewrite substring_whole, B. reflexivity.
Qed.

Lemma normalizeHex_normal (s h : string) :
  normalizeHex s = Some h -> normalizeHex h = Some h.
Proof.
  unfold normalizeHex at 1. destruct (matchHex s) as [g|] eqn:E; [|discriminate].
  intro H. injection H as <-.
  destruct (matchHex_group s g E) as [A B].
  apply normalizeHex_hexOf; assumption.
Qed.

Lemma hexOf_shape (group1 : string) :
  allHex group1 = true -> String.length group1 = 6%nat ->
  String.length (hexOf group1) = 7%nat /\
  exists digits,
    hexOf group1 = String "#"%char digits /\
    allHex digits = true /\ toLowerCase digits = digits.
Proof.
  intros Hhex Hlen. destruct (toLowerCase_hex group1 Hhex) as [A B].
  split.
  - unfold hexOf. cbn [String.length]. rewrite toLowerCase_length, Hlen. reflexivity.
  - exists (toLowerCase group1). split; [reflexivity|]. split; assumption.
Qed.

(** Whatever [HEX_PATTERN] accepts is turned into one normal form: a [#]
    and six lower-case hex digits, seven characters in all.  The normal form
    is accepted and left as it is, so normalizing twice is normalizing once.
    The leading [#] is optional and a two-digit alpha suffix is dropped. *)
Theorem normalizeHex_normal_form (s : string) (h : HexColor) :
  normalizeHex s = Some h ->
  String.length h = 7%nat /\
  (exists digits,
     h = String "#"%char digits /\
     allHex digits = true /\ toLowerCase digits = digits /\
     normalizeHex digits = Some h /\
     forall alpha,
       allHex alpha = true -> String.length alpha = 2%nat ->
       normalizeHex (h ++ alpha) = Some h /\
       normalizeHex (digits ++ alpha) = Some h) /\
  normalizeHex h = Some h.
Proof.
  intro H. pose proof (normalizeHex_normal s h H) as N.
  unfold normalizeHex in H. destruct (matchHex s) as [g|] eqn:E; [|discriminate].
  injection H as <-.
  destruct (matchHex_group s g E) as [A B].
  destruct (hexOf_shape g A B) as [L (digits & Eh & Dh & Dl)].
  split; [exact L|]. split; [|exact N].
  exists digits. split; [exact Eh|]. split; [exact Dh|]. split; [exact Dl|].
  assert (Ld : String.length digits = 6%nat).
  { rewrite Eh in L. cbn [String.length] in L. lia. }
  assert (P : forall tail,
             allHex tail = true ->
             (String.length tail = 0%nat \/ String.length tail = 2%nat) ->
             normalizeHex (digits ++ tail) = Some (hexOf g) /\
             normalizeHex (String "#"%char (digits ++ tail)) = Some (hexOf g)).
  { intros tail Ht Hl.
    assert (M : forall body,
               body = (digits ++ tail)%string ->
               (if allHex body
                   && ((String.length body =? 6)%nat || (String.length body =? 8)%nat)
                then Some (substring 0 6 body) else None) = Some digits).
    { intros body ->. rewrite allHex_append, Dh, Ht, append_length, Ld.
      destruct Hl as [-> | ->]; cbn [Nat.add Nat.eqb orb andb];
        rewrite (substring_of_append 6 digits tail Ld); reflexivity. }
    assert (F : hexOf digits = hexOf g).
    { rewrite Eh. unfold hexOf. rewrite Dl. reflexivity. }
    split.
    - unfold normalizeHex, matchHex.
      destruct digits as [|c d]; [discriminate Ld|].
      cbn [append].
      assert (Hc : c <> "#"%char).
      { intros ->. cbn [allHex] in Dh. discriminate Dh. }
      assert (S : match String c (d ++ tail) with
                  | String "#"%char rest => rest
                  | _ => String c (d ++ tail)
                  end = String c (d ++ tail)).
      { destruct c as [[] [] [] [] [] [] [] []]; try reflexivity.
        contradiction Hc; reflexivity. }
      rewrite S. change (String c (d ++ tail)) with (String c d ++ tail)%string.
      rewrite (M _ eq_refl), F. reflexivity.
    - unfold normalizeHex, matchHex. rewrite (M _ eq_refl), F. reflexivity. }
  split.
  - destruct (P EmptyString eq_refl (or_introl eq_refl)) as [Q0 _].
    assert (Z0 : (digits ++ "")%string = digits).
    { clear. induction digits as [|c d IH]; [reflexivity | cbn; rewrite IH; reflexivity]. }
    rewrite Z0 in Q0. exact Q0.
  - intros alpha Ha La.
    destruct (P alpha Ha (or_intror La)) as [Q1 Q2].
    split; [|exact Q1].
    rewrite Eh in Q2 |- *. exact Q2.
Qed.

Lemma normalizeHex_of_match (s group1 : string) :
  matchHex s = Some group1 -> normalizeHex (hexOf group1) = Some (hexOf group1).
Proof.
  intro E. destruct (matchHex_group s group1 E) as [A B].
  apply normalizeHex_hexOf; assumption.
Qed.

Lemma matchHex_of_normal (h : HexColor) :
  normalizeHex h = Some h -> exists group1, matchHex h = Some group1 /\ hexOf group1 = h.
Proof.
  unfold normalizeHex. destruct (matchHex h) as [g|]; [|discriminate].
  intro H. injection H as H. exists g. split; [reflexivity | exact H].
Qed.

Lemma normal_truthy (h : HexColor) :
  normalizeHex h = Some h -> truthy (JsString h) = true.
Proof. destruct h; [discriminate | reflexivity]. Qed.

Lemma hexOrFallback_normal (v : JsValue) (fallback h : HexColor) :
  normalizeHex fallback = Some fallback ->
  hexOrFallback v fallback = Returns h ->
  normalizeHex h = Some h.
Proof.
  intros F. unfold hexOrFallback.
  destruct (truthy v).
  - destruct v as [s| |]; try discriminate.
    destruct (matchHex s) as [g|] eqn:E; intro H; injection H as <-.
    + apply (normalizeHex_of_match s g E).
    + exact F.
  - intro H. injection H as <-. exact F.
Qed.

Lemma hexOrFallback_of_normal (h fallback : HexColor) :
  normalizeHex h = Some h ->
  hexOrFallback (JsString h) fallback = Returns h.
Proof.
  intro N. unfold hexOrFallback. rewrite (normal_truthy h N).
  destruct (matchHex_of_normal h N) as (g & -> & ->). reflexivity.
Qed.

Lemma normalizeBackgroundInput_gradient (g : Gradient) :
  normalGradient g ->
  normalizeBackgroundInput (BgObject (fieldsOfGradient g)) = Returns (Some g).
Proof.
  intros (Nt & Nm & Nb). unfold normalizeBackgroundInput, fieldsOfGradient.
  cbn [f_top f_mid f_bottom f_color f_topColor f_middle f_midColor f_bottomColor stringOr].
  rewrite (normal_truthy _ Nt). cbn [negb].
  destruct (matchHex_of_normal _ Nt) as (gt & -> & Et).
  rewrite (hexOrFallback_of_normal _ _ Nm), (hexOrFallback_of_normal _ _ Nb), Et.
  destruct g; reflexivity.
Qed.

Lemma normalizeBackgroundInput_returns_normal (value : BackgroundInput) (g : Gradient) :
  normalizeBackgroundInput value = Returns (Some g) -> normalGradient g.
Proof.
  destruct value as [|s|f|]; cbn [normalizeBackgroundInput]; try discriminate.
  - destruct (negb (truthy (JsString s))); [discriminate|].
    destruct (matchHex s) as [gr|] eqn:E; [|discriminate].
    intro H. injection H as <-.
    pose proof (normalizeHex_of_match s gr E) as N.
    repeat split; exact N.
  - cbv zeta.
    destruct (negb (truthy (stringOr (f_top f) (jsOr (f_color f) (f_topColor f)))));
      [discriminate|].
    destruct (stringOr (f_top f) (jsOr (f_color f) (f_topColor f))) as [t| |];
      try discriminate.
    destruct (matchHex t) as [gr|] eqn:E; [|discriminate].
    pose proof (normalizeHex_of_match t gr E) as N.
    destruct (hexOrFallback (stringOr (f_mid f) (jsOr (f_middle f) (f_midColor f)))
                            (hexOf gr)) as [m|] eqn:Em; [|discriminate].
    destruct (hexOrFallback (stringOr (f_bottom f) (f_bottomColor f)) (hexOf gr))
      as [b|] eqn:Eb; [|discriminate].
    intro H. injection H as <-.
    split; [exact N|]. split; cbn [mid bottom].
    + exact (hexOrFallback_normal _ _ _ N Em).
    + exact (hexOrFallback_normal _ _ _ N Eb).
Qed.

(** Every gradient that [normalizeBackgroundInput] returns has its three
    colours in the normal form of the pattern, and is returned unchanged when
    passed in again as [{ top, mid, bottom }].  From a string the three
    colours are the same one; from an object without a usable [mid] or
    [bottom] those two take the [top] colour. *)
Theorem normalizeBackgroundInput_is_a_normal_form (value : BackgroundInput) (g : Gradient) :
  normalizeBackgroundInput value = Returns (Some g) ->
  normalGradient g /\
  normalizeBackgroundInput (BgObject (fieldsOfGradient g)) = Returns (Some g) /\
  (forall s, value = BgString s ->
             normalizeHex s = Some (top g) /\ mid g = top g /\ bottom g = top g) /\
  (forall f, value = BgObject f ->
             (stringMatch (stringOr (f_mid f) (jsOr (f_middle f) (f_midColor f))) = None ->
              mid g = top g) /\
             (stringMatch (stringOr (f_bottom f) (f_bottomColor f)) = None ->
              bottom g = top g)).
Proof.
  intro H. pose proof (normalizeBackgroundInput_returns_normal value g H) as N.
  split; [exact N|]. split; [apply normalizeBackgroundInput_gradient; exact N|].
  split.
  - intros s ->. cbn [normalizeBackgroundInput] in H.
    destruct (negb (truthy (JsString s))); [discriminate|].
    unfold normalizeHex. destruct (matchHex s) as [gr|]; [|discriminate].
    injection H as <-. repeat split; reflexivity.
  - intros f ->. cbn [normalizeBackgroundInput] in H. cbv zeta in H.
    destruct (negb (truthy (stringOr (f_top f) (jsOr (f_color f) (f_topColor f)))));
      [discriminate|].
    destruct (stringOr (f_top f) (jsOr (f_color f) (f_topColor f))) as [t| |];
      try discriminate.
    destruct (matchHex t) as [gr|]; [|discriminate].
    destruct (hexOrFallback (stringOr (f_mid f) (jsOr (f_middle f) (f_midColor f)))
                            (hexOf gr)) as [m|] eqn:Em; [|discriminate].
    destruct (hexOrFallback (stringOr (f_bottom f) (f_bottomColor f)) (hexOf gr))
      as [b|] eqn:Eb; [|discriminate].
    injection H as <-. cbn [top mid bottom].
    split; intro M.
    + unfold hexOrFallback in Em.
      destruct (stringOr (f_mid f) (jsOr (f_middle f) (f_midColor f))) as [x| |];
        cbn [stringMatch] in M.
      * rewrite M in Em. destruct (truthy (JsString x)); injection Em as <-; reflexivity.
      * cbn [truthy] in Em. injection Em as <-. reflexivity.
      * discriminate Em.
    + unfold hexOrFallback in Eb.
      destruct (stringOr (f_bottom f) (f_bottomColor f)) as [x| |];
        cbn [stringMatch] in M.
      * rewrite M in Eb. destruct (truthy (JsString x)); injection Eb as <-; reflexivity.
      * cbn [truthy] in Eb. injection Eb as <-. reflexivity.
      * discriminate Eb.
Qed.

Lemma setBackgroundGradient_fields_normal (g : Gradient) (st : State) :
  normalGradient g ->
  setBackgroundGradient_fields (JsString (top g)) (JsString (mid g))
                               (JsString (bottom g)) st
  = setBackgroundGradient g st.
Proof.
  intros (Nt & Nm & Nb). unfold setBackgroundGradient_fields, setBackgroundGradient.
  cbn [stringMatch].
  destruct (matchHex_of_normal _ Nt) as (gt & -> & Et).
  destruct (matchHex_of_normal _ Nm) as (gm & -> & Em).
  destruct (matchHex_of_normal _ Nb) as (gb & -> & Eb).
  cbv zeta. rewrite Et, Em, Eb. destruct g; reflexivity.
Qed.

(** [setBackgroundGradient(normalizeBackgroundInput(x))], as the settings
    code calls it: whatever [normalizeBackgroundInput] returns is stored as it
    is, so the stored gradient is the returned one, and storing it a second
    time changes nothing. *)
Theorem setBackgroundGradient_stores_normalized
    (value : BackgroundInput) (g : Gradient) (st : State) :
  normalizeBackgroundInput value = Returns (Some g) ->
  let store :=
    setBackgroundGradient_fields (JsString (top g)) (JsString (mid g))
                                 (JsString (bottom g)) in
  store st = setBackgroundGradient g st /\
  backgroundGradient (store st) = g /\
  store (store st) = store st.
Proof.
  intros H store.
  pose proof (normalizeBackgroundInput_returns_normal value g H) as N.
  unfold store. rewrite !(setBackgroundGradient_fields_normal g _ N).
  unfold setBackgroundGradient.
  split; [reflexivity|]. split; [reflexivity|].
  destruct st; reflexivity.
Qed.

(** [setBackgroundGradient] never stores a colour the pattern rejects.  If
    [top] is not a string that matches, nothing changes at all; otherwise a
    [mid] that does not match takes the new [top] and a [bottom] that does not
    match takes the new [mid], so a gradient in normal form stays in normal
    form, and the transition state is not touched. *)
Theorem setBackgroundGradient_fields_keeps_normal_form
    (topValue midValue bottomValue : JsValue) (st : State) :
  let st' := setBackgroundGradient_fields topValue midValue bottomValue st in
  (stringMatch topValue = None -> st' = st) /\
  (forall group1, stringMatch topValue = Some group1 ->
     top (backgroundGradient st') = hexOf group1 /\
     normalGradient (backgroundGradient st') /\
     (stringMatch midValue = None ->
      mid (backgroundGradient st') = top (backgroundGradient st')) /\
     (stringMatch bottomValue = None ->
      bottom (backgroundGradient st') = mid (backgroundGradient st'))) /\
  (normalGradient (backgroundGradient st) -> normalGradient (backgroundGradient st')) /\
  sectionState st' = sectionState st /\
  backgroundTransition st' = backgroundTransition st.
Proof.
  intro st'.
  assert (M : forall v gr, stringMatch v = Some gr ->
                           normalizeHex (hexOf gr) = Some (hexOf gr)).
  { intros [s| |] gr E; try discriminate E. exact (normalizeHex_of_match s gr E). }
  assert (K : forall gr, stringMatch topValue = Some gr ->
                         top (backgroundGradient st') = hexOf gr /\
                         normalGradient (backgroundGradient st') /\
                         (stringMatch midValue = None ->
                          mid (backgroundGradient st') = top (backgroundGradient st')) /\
                         (stringMatch bottomValue = None ->
                          bottom (backgroundGradient st') = mid (backgroundGradient st'))).
  { intros gr E. unfold st', setBackgroundGradient_fields. rewrite E. cbv zeta.
    pose proof (M topValue gr E) as Nt.
    destruct (stringMatch midValue) as [gm|] eqn:Em;
      destruct (stringMatch bottomValue) as [gb|] eqn:Eb;
      cbn [backgroundGradient set_backgroundGradient etaState top mid bottom];
      (split; [reflexivity|]);
      (split; [repeat split; cbn [top mid bottom];
               first [exact Nt | exact (M _ _ Em) | exact (M _ _ Eb)]|]);
      split; intro D; first [discriminate D | reflexivity]. }
  split.
  { intro E. unfold st', setBackgroundGradient_fields. rewrite E. reflexivity. }
  split; [exact K|].
  split.
  { intro N. destruct (stringMatch topValue) as [gr|] eqn:E.
    - apply (K gr eq_refl).
    - unfold st', setBackgroundGradient_fields. rewrite E. exact N. }
  unfold st', setBackgroundGradient_fields.
  destruct (stringMatch topValue); split; reflexivity.
Qed.

(** ** The displayed fractions stay fractions *)

Lemma fractionsInRange_iff st :
  fractionsInRange st <->
  (0 <= scatterAmp st <= 1 /\ 0 <= scatterGoal st <= 1 /\
   0 <= morphProgress st <= 1 /\ 0 <= morphUniformValue st <= 1 /\
   0 <= textOpacityTarget st <= 1 /\ 0 <= textOpacityValue st <= 1 /\
   0 <= cameraPathTarget st <= 1 /\ 0 <= cameraPathT st <= 1).
Proof.
  unfold fractionsInRange, displayedFractions. split.
  - intro H.
    repeat match goal with
           | H : Forall _ (_ :: _) |- _ => apply Forall_cons_iff in H; destruct H as [? H]
           end.
    cbv beta in *. tauto.
  - intros (A & B & C & D & E & F & G & I).
    repeat apply Forall_cons; try assumption. apply Forall_nil.
Qed.

Lemma fractionsInRange_same st st' :
  displayedFractions st' = displayedFractions st ->
  fractionsInRange st -> fractionsInRange st'.
Proof. unfold fractionsInRange. intros ->. exact (fun H => H). Qed.

Ltac fractions_set Hv :=
  let H := fresh "H" in
  intros Hv H; apply fractionsInRange_iff in H; apply fractionsInRange_iff;
  destruct H as (A & B & C & D & E & F & G & I);
  split; [first [exact Hv | exact A]|];
  split; [first [exact Hv | exact B]|];
  split; [first [exact Hv | exact C]|];
  split; [first [exact Hv | exact D]|];
  split; [first [exact Hv | exact E]|];
  split; [first [exact Hv | exact F]|];
  split; [first [exact Hv | exact G]|];
  first [exact Hv | exact I].

Lemma fractionsInRange_set_scatterAmp v st :
  0 <= v <= 1 -> fractionsInRange st -> fractionsInRange (set_scatterAmp v st).
Proof. fractions_set Hv. Qed.

Lemma fractionsInRange_set_scatterGoal v st :
  0 <= v <= 1 -> fractionsInRange st -> fractionsInRange (set_scatterGoal v st).
Proof. fractions_set Hv. Qed.

Lemma fractionsInRange_set_morphProgress v st :
  0 <= v <= 1 -> fractionsInRange st -> fractionsInRange (set_morphProgress v st).
Proof. fractions_set Hv. Qed.

Lemma fractionsInRange_set_morphUniformValue v st :
  0 <= v <= 1 -> fractionsInRange st -> fractionsInRange (set_morphUniformValue v st).
Proof. fractions_set Hv. Qed.

Lemma fractionsInRange_set_textOpacityTarget v st :
  0 <= v <= 1 -> fractionsInRange st -> fractionsInRange (set_textOpacityTarget v st).
Proof. fractions_set Hv. Qed.

Lemma fractionsInRange_set_textOpacityValue v st :
  0 <= v <= 1 -> fractionsInRange st -> fractionsInRange (set_textOpacityValue v st).
Proof. fractions_set Hv. Qed.

Lemma fractionsInRange_set_cameraPathTarget v st :
  0 <= v <= 1 -> fractionsInRange st -> fractionsInRange (set_cameraPathTarget v st).
Proof. fractions_set Hv. Qed.

Lemma fractionsInRange_set_cameraPathT v st :
  0 <= v <= 1 -> fractionsInRange st -> fractionsInRange (set_cameraPathT v st).
Proof. fractions_set Hv. Qed.

Lemma clamp01 v : 0 <= clamp v 0 1 <= 1.
Proof. apply clamp_bounds. lra. Qed.

Lemma fractionsInRange_sync_cameraPathT st :
  fractionsInRange st -> fractionsInRange (set_cameraPathT (cameraPathTarget st) st).
Proof.
  intro H. apply fractionsInRange_set_cameraPathT; [|exact H].
  apply fractionsInRange_iff in H. apply H.
Qed.

(** What leaves the displayed fractions alone. *)
Lemma fractionsInRange_frames :
  (forall f st, fractionsInRange st -> fractionsInRange (onSectionState f st)) /\
  (forall v st, fractionsInRange st -> fractionsInRange (set_loads v st)) /\
  (forall v st, fractionsInRange st -> fractionsInRange (set_points v st)) /\
  (forall v st, fractionsInRange st -> fractionsInRange (set_sectionAssets v st)) /\
  (forall v st, fractionsInRange st -> fractionsInRange (set_currentSectionId v st)) /\
  (forall v st, fractionsInRange st -> fractionsInRange (set_currentModelPath v st)) /\
  (forall v st, fractionsInRange st -> fractionsInRange (set_scrollTweenState v st)) /\
  (forall v st, fractionsInRange st -> fractionsInRange (set_scrollTargetsCurrent v st)) /\
  (forall v st, fractionsInRange st -> fractionsInRange (set_scrollTween v st)) /\
  (forall v st, fractionsInRange st -> fractionsInRange (set_backgroundTransition v st)) /\
  (forall v st, fractionsInRange st -> fractionsInRange (set_backgroundGradient v st)) /\
  (forall v st, fractionsInRange st -> fractionsInRange (set_groupRotationY v st)) /\
  (forall v st, fractionsInRange st -> fractionsInRange (set_cameraYawOffsetDeg v st)) /\
  (forall v st, fractionsInRange st -> fractionsInRange (set_cameraPitchOffsetDeg v st)) /\
  (forall v st, fractionsInRange st -> fractionsInRange (setCameraYawOffset v st)) /\
  (forall v st, fractionsInRange st -> fractionsInRange (setCameraPitchOffset v st)) /\
  (forall v st, fractionsInRange st -> fractionsInRange (set_baseVertexCount v st)) /\
  (forall v st, fractionsInRange st -> fractionsInRange (set_originalGeom v st)) /\
  (forall v st, fractionsInRange st -> fractionsInRange (set_morphTargetOriginal v st)) /\
  (forall v st, fractionsInRange st -> fractionsInRange (set_baseSampleFractions v st)).
Proof.
  repeat split; intros;
    (apply (fractionsInRange_same st); [reflexivity | assumption]).
Qed.

Lemma fractionsInRange_onSectionState f st :
  fractionsInRange st -> fractionsInRange (onSectionState f st).
Proof. apply fractionsInRange_frames. Qed.

Lemma fractionsInRange_set_loads v st :
  fractionsInRange st -> fractionsInRange (set_loads v st).
Proof. apply fractionsInRange_frames. Qed.

Lemma fractionsInRange_set_points v st :
  fractionsInRange st -> fractionsInRange (set_points v st).
Proof. apply fractionsInRange_frames. Qed.

Lemma fractionsInRange_set_sectionAssets v st :
  fractionsInRange st -> fractionsInRange (set_sectionAssets v st).
Proof. apply fractionsInRange_frames. Qed.

Lemma fractionsInRange_set_currentSectionId v st :
  fractionsInRange st -> fractionsInRange (set_currentSectionId v st).
Proof. apply fractionsInRange_frames. Qed.

Lemma fractionsInRange_set_currentModelPath v st :
  fractionsInRange st -> fractionsInRange (set_currentModelPath v st).
Proof. apply fractionsInRange_frames. Qed.

Lemma fractionsInRange_set_scrollTweenState v st :
  fractionsInRange st -> fractionsInRange (set_scrollTweenState v st).
Proof. apply fractionsInRange_frames. Qed.

Lemma fractionsInRange_set_scrollTargetsCurrent v st :
  fractionsInRange st -> fractionsInRange (set_scrollTargetsCurrent v st).
Proof. apply fractionsInRange_frames. Qed.

Lemma fractionsInRange_set_scrollTween v st :
  fractionsInRange st -> fractionsInRange (set_scrollTween v st).
Proof. apply fractionsInRange_frames. Qed.

Lemma fractionsInRange_set_backgroundTransition v st :
  fractionsInRange st -> fractionsInRange (set_backgroundTransition v st).
Proof. apply fractionsInRange_frames. Qed.

Lemma fractionsInRange_set_backgroundGradient v st :
  fractionsInRange st -> fractionsInRange (set_backgroundGradient v st).
Proof. apply fractionsInRange_frames. Qed.

Lemma fractionsInRange_set_groupRotationY v st :
  fractionsInRange st -> fractionsInRange (set_groupRotationY v st).
Proof. apply fractionsInRange_frames. Qed.

Lemma fractionsInRange_set_cameraYawOffsetDeg v st :
  fractionsInRange st -> fractionsInRange (set_cameraYawOffsetDeg v st).
Proof. apply fractionsInRange_frames. Qed.

Lemma fractionsInRange_set_cameraPitchOffsetDeg v st :
  fractionsInRange st -> fractionsInRange (set_cameraPitchOffsetDeg v st).
Proof. apply fractionsInRange_frames. Qed.

Lemma fractionsInRange_setCameraYawOffset v st :
  fractionsInRange st -> fractionsInRange (setCameraYawOffset v st).
Proof. apply fractionsInRange_frames. Qed.

Lemma fractionsInRange_setCameraPitchOffset v st :
  fractionsInRange st -> fractionsInRange (setCameraPitchOffset v st).
Proof. apply fractionsInRange_frames. Qed.

Lemma fractionsInRange_set_baseVertexCount v st :
  fractionsInRange st -> fractionsInRange (set_baseVertexCount v st).
Proof. apply fractionsInRange_frames. Qed.

Lemma fractionsInRange_set_originalGeom v st :
  fractionsInRange st -> fractionsInRange (set_originalGeom v st).
Proof. apply fractionsInRange_frames. Qed.

Lemma fractionsInRange_set_morphTargetOriginal v st :
  fractionsInRange st -> fractionsInRange (set_morphTargetOriginal v st).
Proof. apply fractionsInRange_frames. Qed.

Lemma fractionsInRange_set_baseSampleFractions v st :
  fractionsInRange st -> fractionsInRange (set_baseSampleFractions v st).
Proof. apply fractionsInRange_frames. Qed.

Create HintDb fractions.

#[local] Hint Extern 1 (fractionsInRange (set_scatterAmp (clamp _ 0 1) _)) =>
  apply fractionsInRange_set_scatterAmp; [apply clamp01|] : fractions.
#[local] Hint Extern 1 (fractionsInRange (set_scatterGoal (clamp _ 0 1) _)) =>
  apply fractionsInRange_set_scatterGoal; [apply clamp01|] : fractions.
#[local] Hint Extern 1 (fractionsInRange (set_morphProgress (clamp _ 0 1) _)) =>
  apply fractionsInRange_set_morphProgress; [apply clamp01|] : fractions.
#[local] Hint Extern 1 (fractionsInRange (set_morphUniformValue (clamp _ 0 1) _)) =>
  apply fractionsInRange_set_morphUniformValue; [apply clamp01|] : fractions.
#[local] Hint Extern 1 (fractionsInRange (set_textOpacityTarget (clamp _ 0 1) _)) =>
  apply fractionsInRange_set_textOpacityTarget; [apply clamp01|] : fractions.
#[local] Hint Extern 1 (fractionsInRange (set_textOpacityValue (clamp _ 0 1) _)) =>
  apply fractionsInRange_set_textOpacityValue; [apply clamp01|] : fractions.
#[local] Hint Extern 1 (fractionsInRange (set_cameraPathTarget (clamp _ 0 1) _)) =>
  apply fractionsInRange_set_cameraPathTarget; [apply clamp01|] : fractions.
#[local] Hint Extern 1 (fractionsInRange (set_cameraPathT (cameraPathTarget ?s) ?s)) =>
  apply fractionsInRange_sync_cameraPathT : fractions.
#[local] Hint Extern 1 (fractionsInRange (onSectionState _ _)) =>
  apply fractionsInRange_onSectionState : fractions.
#[local] Hint Extern 1 (fractionsInRange (set_loads _ _)) =>
  apply fractionsInRange_set_loads : fractions.
#[local] Hint Extern 1 (fractionsInRange (set_points _ _)) =>
  apply fractionsInRange_set_points : fractions.
#[local] Hint Extern 1 (fractionsInRange (set_sectionAssets _ _)) =>
  apply fractionsInRange_set_sectionAssets : fractions.
#[local] Hint Extern 1 (fractionsInRange (set_currentSectionId _ _)) =>
  apply fractionsInRange_set_currentSectionId : fractions.
#[local] Hint Extern 1 (fractionsInRange (set_currentModelPath _ _)) =>
  apply fractionsInRange_set_currentModelPath : fractions.
#[local] Hint Extern 1 (fractionsInRange (set_scrollTweenState _ _)) =>
  apply fractionsInRange_set_scrollTweenState : fractions.
#[local] Hint Extern 1 (fractionsInRange (set_scrollTargetsCurrent _ _)) =>
  apply fractionsInRange_set_scrollTargetsCurrent : fractions.
#[local] Hint Extern 1 (fractionsInRange (set_scrollTween _ _)) =>
  apply fractionsInRange_set_scrollTween : fractions.
#[local] Hint Extern 1 (fractionsInRange (set_backgroundTransition _ _)) =>
  apply fractionsInRange_set_backgroundTransition : fractions.
#[local] Hint Extern 1 (fractionsInRange (set_backgroundGradient _ _)) =>
  apply fractionsInRange_set_backgroundGradient : fractions.
#[local] Hint Extern 1 (fractionsInRange (set_groupRotationY _ _)) =>
  apply fractionsInRange_set_groupRotationY : fractions.
#[local] Hint Extern 1 (fractionsInRange (set_cameraYawOffsetDeg _ _)) =>
  apply fractionsInRange_set_cameraYawOffsetDeg : fractions.
#[local] Hint Extern 1 (fractionsInRange (set_cameraPitchOffsetDeg _ _)) =>
  apply fractionsInRange_set_cameraPitchOffsetDeg : fractions.
#[local] Hint Extern 1 (fractionsInRange (setCameraYawOffset _ _)) =>
  apply fractionsInRange_setCameraYawOffset : fractions.
#[local] Hint Extern 1 (fractionsInRange (setCameraPitchOffset _ _)) =>
  apply fractionsInRange_setCameraPitchOffset : fractions.
#[local] Hint Extern 1 (fractionsInRange (set_baseVertexCount _ _)) =>
  apply fractionsInRange_set_baseVertexCount : fractions.
#[local] Hint Extern 1 (fractionsInRange (set_originalGeom _ _)) =>
  apply fractionsInRange_set_originalGeom : fractions.
#[local] Hint Extern 1 (fractionsInRange (set_morphTargetOriginal _ _)) =>
  apply fractionsInRange_set_morphTargetOriginal : fractions.
#[local] Hint Extern 1 (fractionsInRange (set_baseSampleFractions _ _)) =>
  apply fractionsInRange_set_baseSampleFractions : fractions.

Lemma fractionsInRange_setScatterAmplitude v b st :
  fractionsInRange st -> fractionsInRange (setScatterAmplitude v b st).
Proof.
  intro H. unfold setScatterAmplitude. cbv zeta.
  change (Qmax 0 (Qmin 1 v)) with (clamp v 0 1).
  destruct b; auto with fractions.
Qed.

Lemma fractionsInRange_setMorphProgress v st :
  fractionsInRange st -> fractionsInRange (setMorphProgress v st).
Proof. intro H. unfold setMorphProgress. auto with fractions. Qed.

Lemma fractionsInRange_ensureTextOpacity v st :
  fractionsInRange st -> fractionsInRange (ensureTextOpacity v st).
Proof.
  intro H. unfold ensureTextOpacity, setTextOpacityTarget. cbv zeta.
  destruct (Qlt_bool _ _); auto with fractions.
Qed.

#[local] Hint Extern 1 (fractionsInRange (setScatterAmplitude _ _ _)) =>
  apply fractionsInRange_setScatterAmplitude : fractions.
#[local] Hint Extern 1 (fractionsInRange (setMorphProgress _ _)) =>
  apply fractionsInRange_setMorphProgress : fractions.
#[local] Hint Extern 1 (fractionsInRange (ensureTextOpacity _ _)) =>
  apply fractionsInRange_ensureTextOpacity : fractions.

Lemma fractionsInRange_applyScrollTweenState st :
  fractionsInRange st -> fractionsInRange (applyScrollTweenState st).
Proof.
  intro H. unfold applyScrollTweenState. cbv zeta.
  case_split; auto 10 with fractions.
Qed.

#[local] Hint Extern 1 (fractionsInRange (applyScrollTweenState _)) =>
  apply fractionsInRange_applyScrollTweenState : fractions.

Lemma fractionsInRange_tweenToScrollTargets t b st :
  fractionsInRange st -> fractionsInRange (tweenToScrollTargets t b st).
Proof.
  intro H. unfold tweenToScrollTargets. cbv zeta.
  destruct (_ && _); [exact H|]. destruct b; auto 10 with fractions.
Qed.

Lemma fractionsInRange_updateCameraPose p st :
  fractionsInRange st -> fractionsInRange (updateCameraPose p st).
Proof. intro H. unfold updateCameraPose. cbv zeta. auto 10 with fractions. Qed.

Lemma fractionsInRange_applyBackgroundBlend v st :
  fractionsInRange st -> fractionsInRange (applyBackgroundBlend v st).
Proof.
  intro H. unfold applyBackgroundBlend, setBackgroundGradient. cbv zeta.
  repeat case_split; auto with fractions.
Qed.

#[local] Hint Extern 1 (fractionsInRange (tweenToScrollTargets _ _ _)) =>
  apply fractionsInRange_tweenToScrollTargets : fractions.
#[local] Hint Extern 1 (fractionsInRange (updateCameraPose _ _)) =>
  apply fractionsInRange_updateCameraPose : fractions.
#[local] Hint Extern 1 (fractionsInRange (applyBackgroundBlend _ _)) =>
  apply fractionsInRange_applyBackgroundBlend : fractions.

Lemma fractionsInRange_finishBackgroundBlend c st :
  fractionsInRange st -> fractionsInRange (fst (finishBackgroundBlend c st)).
Proof.
  intro H. unfold finishBackgroundBlend, setBackgroundGradient. cbv zeta.
  repeat case_split; cbn [fst]; auto with fractions.
Qed.

Lemma fractionsInRange_animateBackgroundBlend v b st :
  fractionsInRange st -> fractionsInRange (animateBackgroundBlend v b st).
Proof.
  intro H. unfold animateBackgroundBlend. cbv zeta.
  destruct (negb _); [exact H|]. destruct (_ && _); [exact H|].
  destruct b; auto with fractions.
Qed.

#[local] Hint Extern 1 (fractionsInRange (fst (finishBackgroundBlend _ _))) =>
  apply fractionsInRange_finishBackgroundBlend : fractions.
#[local] Hint Extern 1 (fractionsInRange (animateBackgroundBlend _ _ _)) =>
  apply fractionsInRange_animateBackgroundBlend : fractions.

Lemma fractionsInRange_startBackgroundBlend t st :
  fractionsInRange st -> fractionsInRange (startBackgroundBlend t st).
Proof.
  intro H. unfold startBackgroundBlend. destruct t; cbv zeta; auto with fractions.
Qed.

Lemma fractionsInRange_updateSectionTransition st :
  fractionsInRange st -> fractionsInRange (updateSectionTransition st).
Proof.
  intro H. unfold updateSectionTransition. cbv zeta.
  destruct (phase (sectionState st)); try case_split; auto 10 with fractions.
Qed.

#[local] Hint Extern 1 (fractionsInRange (startBackgroundBlend _ _)) =>
  apply fractionsInRange_startBackgroundBlend : fractions.
#[local] Hint Extern 1 (fractionsInRange (updateSectionTransition _)) =>
  apply fractionsInRange_updateSectionTransition : fractions.

Lemma fractionsInRange_cancelTransition st :
  fractionsInRange st -> fractionsInRange (cancelTransition st).
Proof.
  intro H. rewrite cancelTransition_eq.
  assert (S : fractionsInRange (cancelSetup st))
    by (apply (fractionsInRange_same st); [reflexivity | exact H]).
  apply fractionsInRange_finishBackgroundBlend, fractionsInRange_onSectionState,
    fractionsInRange_updateSectionTransition, fractionsInRange_updateCameraPose.
  exact S.
Qed.

Lemma fractionsInRange_beginSectionLoad st :
  fractionsInRange st -> fractionsInRange (beginSectionLoad st).
Proof.
  intro H. unfold beginSectionLoad.
  destruct (nextSection (sectionState st)); [|apply fractionsInRange_cancelTransition, H].
  cbv zeta.
  destruct (pendingPromise _); unfold ensureSectionMorphTarget; cbv beta iota zeta;
    auto 10 with fractions.
Qed.

#[local] Hint Extern 1 (fractionsInRange (cancelTransition _)) =>
  apply fractionsInRange_cancelTransition : fractions.
#[local] Hint Extern 1 (fractionsInRange (beginSectionLoad _)) =>
  apply fractionsInRange_beginSectionLoad : fractions.

Lemma fractionsInRange_startSectionTransition target dir initialProgress st :
  fractionsInRange st ->
  fractionsInRange (startSectionTransition target dir initialProgress st).
Proof.
  intro H. unfold startSectionTransition. cbv zeta.
  destruct (_ <=? _)%Z; [exact H|].
  destruct (_ && _); [exact H|].
  destruct (getSectionByIndex _) as [sec|]; [|exact H].
  assert (T : fractionsInRange
                (transitionStarted (normalizeSectionIndex target) sec dir
                                   initialProgress st)).
  { unfold transitionStarted, ensureSectionMorphTarget. cbv zeta.
    apply fractionsInRange_onSectionState, fractionsInRange_set_loads,
      fractionsInRange_startBackgroundBlend.
    apply (fractionsInRange_same st); [reflexivity | exact H]. }
  destruct (Qle_bool _ _);
    [apply fractionsInRange_beginSectionLoad|];
    apply fractionsInRange_updateSectionTransition; exact T.
Qed.

#[local] Hint Extern 1 (fractionsInRange (startSectionTransition _ _ _ _)) =>
  apply fractionsInRange_startSectionTransition : fractions.

Lemma fractionsInRange_accumulateScroll delta threshold progressScale st :
  fractionsInRange st ->
  fractionsInRange (accumulateScroll delta threshold progressScale st).
Proof.
  intro H. unfold accumulateScroll. cbv zeta.
  destruct (Qle_bool _ _); [|auto with fractions].
  destruct (Qlt_bool _ _); auto 10 with fractions.
Qed.

Lemma displayedFractions_commitMorph sec st :
  displayedFractions (commitMorph sec st) = displayedFractions st \/
  displayedFractions (commitMorph sec st)
  = [scatterAmp st; scatterGoal st; clamp 0 0 1; 0;
     textOpacityTarget st; textOpacityValue st; cameraPathTarget st; cameraPathT st].
Proof.
  unfold commitMorph.
  destruct (getSectionAsset (Some sec) st) as [asset|]; [|left; reflexivity].
  destruct (asset_morphArray asset) as [morphArr|]; [|left; reflexivity].
  destruct (points st) as [pts0|] eqn:P0; [|left; reflexivity].
  right. cbv zeta. unfold setAssetMorphArray, refreshAllMorphTargets.
  repeat case_split; reflexivity.
Qed.

Lemma fractionsInRange_commitMorph sec st :
  fractionsInRange st -> fractionsInRange (commitMorph sec st).
Proof.
  intro H. destruct (displayedFractions_commitMorph sec st) as [E | E].
  - apply (fractionsInRange_same st); assumption.
  - unfold fractionsInRange. rewrite E.
    apply fractionsInRange_iff in H.
    destruct H as (A & B & C & D & F & G & I & J).
    repeat apply Forall_cons; try assumption; try apply Forall_nil.
    + apply clamp01.
    + lra.
Qed.

#[local] Hint Extern 1 (fractionsInRange (accumulateScroll _ _ _ _)) =>
  apply fractionsInRange_accumulateScroll : fractions.
#[local] Hint Extern 1 (fractionsInRange (commitMorph _ _)) =>
  apply fractionsInRange_commitMorph : fractions.

Lemma fractionsInRange_fadeInSettled st :
  fractionsInRange st -> fractionsInRange (fadeInSettled st).
Proof.
  intro H. unfold fadeInSettled. cbv zeta.
  apply fractionsInRange_applyScrollTweenState,
    fractionsInRange_set_scrollTargetsCurrent, fractionsInRange_set_scrollTweenState.
  match goal with
  | |- fractionsInRange match ?a with _ => _ end =>
    assert (S : forall x, fractionsInRange x ->
                          fractionsInRange
                            match a with
                            | Some s => set_currentSectionId (Some (id s)) (commitMorph s x)
                            | None => x
                            end)
      by (intros x Hx; destruct a; auto with fractions);
      apply S; clear S
  end.
  apply fractionsInRange_finishBackgroundBlend, fractionsInRange_updateSectionTransition,
    fractionsInRange_setCameraPitchOffset, fractionsInRange_setCameraYawOffset,
    fractionsInRange_set_cameraPitchOffsetDeg, fractionsInRange_set_cameraYawOffsetDeg,
    fractionsInRange_sync_cameraPathT, fractionsInRange_set_cameraPathTarget;
    [apply clamp01|].
  repeat apply fractionsInRange_onSectionState. exact H.
Qed.

Lemma fractionsInRange_completeFadeIn_with self st :
  (forall delta isTouch x, fractionsInRange x -> fractionsInRange (self delta isTouch x)) ->
  fractionsInRange st -> fractionsInRange (completeFadeIn_with self st).
Proof.
  intros Hself H. unfold completeFadeIn_with. cbv zeta.
  assert (S : fractionsInRange
                (onSectionState (set_pendingScrollCarry 0) (fadeInSettled st)))
    by (apply fractionsInRange_onSectionState, fractionsInRange_fadeInSettled, H).
  destruct (Qlt_bool _ _); [apply Hself|]; exact S.
Qed.

Lemma fractionsInRange_advanceTransitionProgress_with self stepRaw st :
  (forall delta isTouch x, fractionsInRange x -> fractionsInRange (self delta isTouch x)) ->
  fractionsInRange st ->
  fractionsInRange (advanceTransitionProgress_with self stepRaw st).
Proof.
  intros Hself H. unfold advanceTransitionProgress_with. cbv zeta.
  destruct (phase (sectionState st)); try exact H.
  - destruct (Qeq_bool _ 0); [auto with fractions|].
    destruct (Qle_bool _ 0); [auto with fractions|].
    destruct (Qle_bool 1 _); auto 10 with fractions.
  - destruct (Qeq_bool _ 0); [auto with fractions|].
    destruct (Qle_bool 1 _); [|auto 10 with fractions].
    apply fractionsInRange_completeFadeIn_with; [exact Hself|].
    auto 10 with fractions.
Qed.

Lemma fractionsInRange_applyScrollDelta_with self delta isTouch st :
  (forall d t x, fractionsInRange x -> fractionsInRange (self d t x)) ->
  fractionsInRange st -> fractionsInRange (applyScrollDelta_with self delta isTouch st).
Proof.
  intros Hself H. unfold applyScrollDelta_with.
  destruct (negb _); [exact H|]. cbv zeta.
  destruct (phase (sectionState st)).
  - apply fractionsInRange_accumulateScroll, H.
  - apply fractionsInRange_accumulateScroll, H.
  - apply fractionsInRange_advanceTransitionProgress_with; assumption.
  - destruct (Qlt_bool 0 _); auto with fractions.
  - apply fractionsInRange_advanceTransitionProgress_with; assumption.
Qed.

Lemma fractionsInRange_applyScrollDelta_upto depth : forall delta isTouch st,
  fractionsInRange st -> fractionsInRange (applyScrollDelta_upto depth delta isTouch st).
Proof.
  induction depth as [|depth IH]; intros delta isTouch st H; [exact H|].
  apply fractionsInRange_applyScrollDelta_with; [exact IH | exact H].
Qed.

Lemma fractionsInRange_fadeInEntry st :
  fractionsInRange st -> fractionsInRange (fadeInEntry st).
Proof.
  intro H. unfold fadeInEntry. cbv zeta.
  apply fractionsInRange_updateSectionTransition, fractionsInRange_ensureTextOpacity.
  repeat apply fractionsInRange_onSectionState.
  apply fractionsInRange_updateSectionTransition.
  destruct (_ && _); auto with fractions.
Qed.

Lemma fractionsInRange_beginSectionLoad_then st :
  fractionsInRange st -> fractionsInRange (beginSectionLoad_then st).
Proof.
  intro H. unfold beginSectionLoad_then. cbv zeta.
  destruct (Qle_bool _ _).
  - apply fractionsInRange_completeFadeIn_with.
    + apply fractionsInRange_applyScrollDelta_upto.
    + apply fractionsInRange_fadeInEntry, H.
  - apply fractionsInRange_fadeInEntry, H.
Qed.

Lemma fractionsInRange_beginSectionLoad_catch st :
  fractionsInRange st -> fractionsInRange (beginSectionLoad_catch st).
Proof. intro H. unfold beginSectionLoad_catch. cbv zeta. auto 10 with fractions. Qed.

Lemma fractionsInRange_runLoadHandler handle st :
  fractionsInRange st -> fractionsInRange (runLoadHandler handle st).
Proof.
  intro H. unfold runLoadHandler.
  destruct (nth_error (loads st) handle) as [ld|]; [|exact H].
  destruct (load_handler ld); try exact H.
  destruct (load_status ld); try exact H; cbv zeta.
  - apply fractionsInRange_beginSectionLoad_then, fractionsInRange_set_loads, H.
  - apply fractionsInRange_beginSectionLoad_catch, fractionsInRange_set_loads, H.
Qed.

Lemma fractionsInRange_ensureSectionMorphTarget_then sec g st :
  fractionsInRange st -> fractionsInRange (fst (ensureSectionMorphTarget_then sec g st)).
Proof.
  intro H. apply (fractionsInRange_same st); [|exact H].
  unfold ensureSectionMorphTarget_then. cbv zeta.
  repeat case_split; reflexivity.
Qed.

Lemma fractionsInRange_settleChain handle outcome ld st :
  fractionsInRange st -> fractionsInRange (settleChain handle outcome ld st).
Proof.
  intro H. unfold settleChain. cbv zeta.
  assert (R : fractionsInRange (fst (resolveGeometry ld outcome st))).
  { apply (fractionsInRange_same st); [|exact H].
    unfold resolveGeometry. cbv zeta. repeat case_split; reflexivity. }
  apply fractionsInRange_set_loads.
  destruct (load_guarded ld); [apply fractionsInRange_onSectionState|];
    (destruct (snd (resolveGeometry ld outcome st));
     [apply fractionsInRange_ensureSectionMorphTarget_then | cbn [fst]]; exact R).
Qed.

Lemma fractionsInRange_settleLoad handle outcome st :
  fractionsInRange st -> fractionsInRange (settleLoad handle outcome st).
Proof.
  intro H. unfold settleLoad.
  destruct (nth_error (loads st) handle) as [ld|]; [|exact H].
  destruct (load_status ld); try exact H.
  apply fractionsInRange_runLoadHandler, fractionsInRange_settleChain, H.
Qed.

Lemma fractionsInRange_runMicrotasks fuel : forall st,
  fractionsInRange st -> fractionsInRange (runMicrotasks fuel st).
Proof.
  induction fuel as [|fuel IH]; intros st H; [exact H|]. cbn [runMicrotasks].
  destruct (firstRunnable (loads st) 0) as [handle|]; [|exact H].
  destruct (nth_error (loads st) handle) as [ld|]; [|exact H].
  destruct (load_status ld); apply IH;
    first [apply fractionsInRange_settleLoad | apply fractionsInRange_runLoadHandler];
    exact H.
Qed.

Lemma fractionsInRange_dispatch ev st :
  fractionsInRange st -> fractionsInRange (dispatch ev st).
Proof.
  intro H. unfold dispatch. apply fractionsInRange_runMicrotasks.
  destruct ev as [deltaY | deltaY | handle outcome]; unfold handleEvent.
  - destruct (Qeq_bool deltaY 0); [exact H|].
    apply fractionsInRange_applyScrollDelta_upto, H.
  - apply fractionsInRange_applyScrollDelta_upto, H.
  - destruct (nth_error (loads st) handle) as [ld|]; [|exact H].
    destruct (load_source ld); try exact H.
    apply fractionsInRange_settleLoad, H.
Qed.

(** ** The render loop *)

Lemma ease_factor (speed dt : Q) :
  0 <= speed -> 0 <= dt -> 0 <= Qmin 1 (speed * dt) <= 1.
Proof.
  intros Hs Hd. split.
  - apply Q.min_glb; [lra | apply Qmult_le_0_compat; assumption].
  - apply Q.le_min_l.
Qed.

Lemma ease_between (old target k : Q) :
  0 <= k <= 1 ->
  Qmin old target <= old + (target - old) * k <= Qmax old target.
Proof.
  intros [K0 K1].
  destruct (Qlt_le_dec target old) as [L | L].
  - rewrite Q.min_r, Q.max_l by lra. split; nra.
  - rewrite Q.min_l, Q.max_r by lra. split; nra.
Qed.

Lemma ease_in_range (old target k : Q) :
  0 <= k <= 1 -> 0 <= old <= 1 -> 0 <= target <= 1 ->
  0 <= old + (target - old) * k <= 1.
Proof. intros [K0 K1] [A B] [C D]. split; nra. Qed.

Lemma animate_eq scatterSpeed floatingTextEl dt st :
  animate scatterSpeed floatingTextEl dt st
  = animateTextOpacity floatingTextEl dt
      (animateScatter scatterSpeed dt
         (updateSectionTransition (animateMorphFactor dt (animateCameraPath dt st)))).
Proof. reflexivity. Qed.

(** What the easing blocks leave alone. *)
Lemma animate_blocks_frame scatterSpeed floatingTextEl dt st :
  (sectionState (animateCameraPath dt st) = sectionState st /\
   loads (animateCameraPath dt st) = loads st /\
   cloudCore (animateCameraPath dt st) = cloudCore st) /\
  (sectionState (animateMorphFactor dt st) = sectionState st /\
   loads (animateMorphFactor dt st) = loads st /\
   cloudCore (animateMorphFactor dt st) = cloudCore st) /\
  (sectionState (animateScatter scatterSpeed dt st) = sectionState st /\
   loads (animateScatter scatterSpeed dt st) = loads st /\
   cloudCore (animateScatter scatterSpeed dt st) = cloudCore st) /\
  (sectionState (animateTextOpacity floatingTextEl dt st) = sectionState st /\
   loads (animateTextOpacity floatingTextEl dt st) = loads st /\
   cloudCore (animateTextOpacity floatingTextEl dt st) = cloudCore st).
Proof.
  unfold animateCameraPath, animateMorphFactor, animateScatter, animateTextOpacity,
    setScatterAmplitude.
  cbv zeta.
  repeat split; repeat case_split; reflexivity.
Qed.

Lemma fractionsInRange_animateCameraPath dt st :
  fractionsInRange st -> fractionsInRange (animateCameraPath dt st).
Proof.
  intro H. unfold animateCameraPath. cbv zeta.
  destruct (Qlt_bool _ _); [|exact H].
  apply fractionsInRange_set_cameraPathT; [apply clamp01 | exact H].
Qed.

Lemma fractionsInRange_animateMorphFactor dt st :
  0 <= dt -> fractionsInRange st -> fractionsInRange (animateMorphFactor dt st).
Proof.
  intros Hd H. unfold animateMorphFactor. cbv zeta.
  destruct (points st); [|exact H].
  pose proof (proj1 (fractionsInRange_iff st) H) as (_ & _ & Hm & Hu & _).
  destruct (Qlt_bool _ _); apply fractionsInRange_set_morphUniformValue;
    try exact H; try exact Hm.
  apply ease_in_range; try assumption.
  apply ease_factor; [unfold MORPH_LERP_SPEED; lra | exact Hd].
Qed.

Lemma fractionsInRange_animateScatter scatterSpeed dt st :
  fractionsInRange st -> fractionsInRange (animateScatter scatterSpeed dt st).
Proof.
  intro H. unfold animateScatter. cbv zeta.
  destruct (Qlt_bool _ _); [|exact H].
  apply fractionsInRange_setScatterAmplitude, H.
Qed.

Lemma fractionsInRange_animateTextOpacity floatingTextEl dt st :
  0 <= dt -> fractionsInRange st ->
  fractionsInRange (animateTextOpacity floatingTextEl dt st).
Proof.
  intros Hd H. unfold animateTextOpacity. cbv zeta.
  destruct floatingTextEl; [|exact H].
  pose proof (proj1 (fractionsInRange_iff st) H) as (_ & _ & _ & _ & Ht & Hv & _).
  destruct (Qlt_bool _ _); apply fractionsInRange_set_textOpacityValue;
    try exact H; try exact Ht.
  apply ease_in_range; try assumption.
  apply ease_factor; [unfold TEXT_FADE_SPEED; lra | exact Hd].
Qed.

Lemma fractionsInRange_animate scatterSpeed floatingTextEl dt st :
  0 <= dt -> fractionsInRange st ->
  fractionsInRange (animate scatterSpeed floatingTextEl dt st).
Proof.
  intros Hd H. rewrite animate_eq.
  apply fractionsInRange_animateTextOpacity; [exact Hd|].
  apply fractionsInRange_animateScatter, fractionsInRange_updateSectionTransition.
  apply fractionsInRange_animateMorphFactor; [exact Hd|].
  apply fractionsInRange_animateCameraPath, H.
Qed.

Lemma morphUniformValue_frames :
  (forall v st, morphUniformValue (ensureTextOpacity v st) = morphUniformValue st) /\
  (forall t b st, morphUniformValue (tweenToScrollTargets t b st) = morphUniformValue st) /\
  (forall p st, morphUniformValue (updateCameraPose p st) = morphUniformValue st) /\
  (forall v b st, morphUniformValue (animateBackgroundBlend v b st) = morphUniformValue st).
Proof.
  repeat split; intros;
    unfold ensureTextOpacity, setTextOpacityTarget, tweenToScrollTargets,
      applyScrollTweenState, setScatterAmplitude, setMorphProgress,
      animateBackgroundBlend, applyBackgroundBlend, setBackgroundGradient;
    cbv zeta; repeat case_split; reflexivity.
Qed.

Lemma morphUniformValue_updateSectionTransition st :
  morphUniformValue (updateSectionTransition st) = morphUniformValue st.
Proof.
  destruct morphUniformValue_frames as [A [B [C D]]].
  unfold updateSectionTransition.
  destruct (phase (sectionState st)); cbv zeta;
    repeat first [ rewrite A | rewrite B | rewrite C | rewrite D | case_split ];
    reflexivity.
Qed.

Lemma fold_left_invariant_on {A B} (f : A -> B -> A) (P : A -> Prop) (Q0 : B -> Prop) :
  (forall a b, Q0 b -> P a -> P (f a b)) ->
  forall l a, Forall Q0 l -> P a -> P (fold_left f l a).
Proof.
  intro Hf. induction l as [|b l IH]; intros a Hl Ha; [exact Ha|].
  apply Forall_cons_iff in Hl as [Hb Hl].
  cbn [fold_left]. apply IH; [exact Hl|]. apply Hf; assumption.
Qed.


(** Events and rendered frames in any order, with time running forwards:
    the values handed to the renderer as fractions stay in [0,1], that is
    the scatter amplitude and its target, the morph progress and the morph
    uniform, the text opacity and its target, and the position of the camera
    on its path.  (The yaw and the pitch of the camera are not among
    them.) *)
Theorem displayed_fractions_stay_in_range
    (scatterSpeed : option Q) (floatingTextEl : bool) (ticks : list Tick) (st : State) :
  fractionsInRange st ->
  forwardInTime ticks ->
  let st' := runTicks scatterSpeed floatingTextEl ticks st in
  0 <= scatterAmp st' <= 1 /\ 0 <= scatterGoal st' <= 1 /\
  0 <= morphProgress st' <= 1 /\ 0 <= morphUniformValue st' <= 1 /\
  0 <= textOpacityTarget st' <= 1 /\ 0 <= textOpacityValue st' <= 1 /\
  0 <= cameraPathTarget st' <= 1 /\ 0 <= cameraPathT st' <= 1.
Proof.
  intros H Ht st'. apply fractionsInRange_iff. unfold st', runTicks.
  apply (fold_left_invariant_on
           (fun s t => tick scatterSpeed floatingTextEl t s) fractionsInRange
           (fun t => match t with Frame dt => 0 <= dt | Input _ => True end)).
  - intros a [ev | dt] Hb Ha; cbn [tick].
    + apply fractionsInRange_dispatch, Ha.
    + apply fractionsInRange_animate; assumption.
  - exact Ht.
  - exact H.
Qed.

(** ** Phase, target and promises stay coherent *)

Lemma length_updateLoad handle f ls : length (updateLoad handle f ls) = length ls.
Proof.
  revert handle. induction ls as [|l ls IH]; intros [|n]; simpl; try reflexivity.
  rewrite IH. reflexivity.
Qed.

Lemma nth_error_updateLoad_other handle f ls h :
  h <> handle -> nth_error (updateLoad handle f ls) h = nth_error ls h.
Proof.
  revert handle h. induction ls as [|l ls IH]; intros [|n] [|m] H; simpl;
    try reflexivity.
  - contradiction H; reflexivity.
  - apply IH. intro E. apply H. rewrite E. reflexivity.
Qed.

Lemma nth_error_updateLoad_inv handle f ls h ld' :
  nth_error (updateLoad handle f ls) h = Some ld' ->
  (h = handle /\ exists ld, nth_error ls h = Some ld /\ ld' = f ld) \/
  (h <> handle /\ nth_error ls h = Some ld').
Proof.
  intro H. destruct (Nat.eq_dec h handle) as [E | E].
  - left. split; [exact E|]. subst h.
    destruct (nth_error ls handle) as [ld|] eqn:N.
    + rewrite (nth_error_updateLoad handle f ls ld N) in H. injection H as <-.
      exists ld. split; reflexivity.
    + exfalso. apply nth_error_None in N.
      assert (L : (length (updateLoad handle f ls) <= handle)%nat)
        by (rewrite length_updateLoad; exact N).
      apply nth_error_None in L. rewrite L in H. discriminate H.
  - right. split; [exact E|]. rewrite nth_error_updateLoad_other in H by exact E.
    exact H.
Qed.

Lemma Forall_updateLoad (P : Load -> Prop) handle f ls :
  (forall ld, nth_error ls handle = Some ld -> P ld -> P (f ld)) ->
  Forall P ls -> Forall P (updateLoad handle f ls).
Proof.
  revert handle. induction ls as [|l ls IH]; intros handle Hf H; [destruct handle; exact H|].
  apply Forall_cons_iff in H as [Hl Hls].
  destruct handle as [|n]; simpl.
  - apply Forall_cons; [apply Hf; [reflexivity | exact Hl] | exact Hls].
  - apply Forall_cons; [exact Hl|]. apply IH; [|exact Hls].
    intros ld N. apply Hf. exact N.
Qed.

Lemma Forall_nth_error {A} (P : A -> Prop) ls n x :
  Forall P ls -> nth_error ls n = Some x -> P x.
Proof.
  intros H N. apply nth_error_In in N. rewrite Forall_forall in H. apply H, N.
Qed.

Lemma coherentOf_quiet ss ls :
  coherentOf ss ls -> phase ss <> loading -> quiet ls.
Proof.
  intros (_ & _ & _ & _ & K4) Hp handle ld N A.
  destruct (K4 handle ld N A) as [L _]. contradiction.
Qed.

Lemma coherenceCore_eq ss ss' :
  coherenceCore ss' = coherenceCore ss ->
  phase ss' = phase ss /\ nextSection ss' = nextSection ss /\
  pendingPromise ss' = pendingPromise ss /\
  transitionProgress ss' = transitionProgress ss.
Proof. unfold coherenceCore. intro H. injection H as A B C D. repeat split; assumption. Qed.

Lemma coherentOf_core ss ss' ls :
  coherenceCore ss' = coherenceCore ss -> coherentOf ss ls -> coherentOf ss' ls.
Proof.
  intro H. apply coherenceCore_eq in H as (A & B & C & D).
  unfold coherentOf. rewrite A, B, C, D. exact (fun K => K).
Qed.

(** Progress moves only while a transition is in flight. *)
Lemma coherentOf_progress ss ss' ls :
  phase ss' = phase ss -> nextSection ss' = nextSection ss ->
  pendingPromise ss' = pendingPromise ss ->
  phase ss <> idle ->
  coherentOf ss ls -> coherentOf ss' ls.
Proof.
  intros A B C N (K0 & K1 & _ & K3 & K4).
  unfold coherentOf. rewrite A, B, C.
  split; [exact K0|]. split; [exact K1|]. split; [intro I; contradiction|].
  split; [exact K3 | exact K4].
Qed.

(** Coming to rest. *)
Lemma coherentOf_rest ss ss' ls :
  phase ss' = idle -> nextSection ss' = None -> pendingPromise ss' = None ->
  transitionProgress ss' = 0 ->
  phase ss <> loading ->
  coherentOf ss ls -> coherentOf ss' ls.
Proof.
  intros A B C D N K. pose proof (coherentOf_quiet ss ls K N) as Q0.
  destruct K as (_ & K1 & _).
  unfold coherentOf. rewrite A, B, C, D.
  split; [discriminate|]. split; [exact K1|].
  split; [intros _; repeat split|].
  split; [intro I; contradiction I; reflexivity|].
  intros handle ld Hn Ha. exfalso. exact (Q0 handle ld Hn Ha).
Qed.

(** [startSectionTransition] appends its guarded preload and makes it the
    pending promise. *)
Lemma coherentOf_started ss X ls sec new :
  phase X = fadeOut -> nextSection X = Some sec ->
  load_guarded new = true -> load_status new = Pending -> load_handler new = NoHandler ->
  phase ss <> loading ->
  coherentOf ss ls ->
  coherentOf (set_pendingPromise (Some (length ls)) X) (ls ++ [new]).
Proof.
  intros Hp Hn Hg Hs Hh N K. pose proof (coherentOf_quiet ss ls K N) as Q0.
  destruct K as (_ & K1 & _).
  destruct (set_pendingPromise_fields (Some (length ls)) X)
    as (Fp & Fph & _ & _ & _ & _ & Fn & _).
  unfold coherentOf. rewrite Fp, Fph, Fn, Hp, Hn.
  split; [discriminate|].
  split.
  { apply Forall_app. split; [exact K1|].
    apply Forall_cons; [|apply Forall_nil].
    unfold soundLoad. rewrite Hg, Hs, Hh.
    split; [reflexivity|]. split; discriminate. }
  split; [discriminate|].
  split.
  { intros _. split; [discriminate|].
    exists (length ls). split; [reflexivity|]. rewrite length_app. simpl. lia. }
  intros handle ld Hnth Ha. exfalso.
  destruct (Nat.lt_ge_cases handle (length ls)) as [L | L].
  - rewrite nth_error_app1 in Hnth by exact L. exact (Q0 handle ld Hnth Ha).
  - rewrite nth_error_app2 in Hnth by exact L.
    destruct (handle - length ls)%nat as [|k]; simpl in Hnth.
    + injection Hnth as <-. rewrite Hh in Ha. discriminate Ha.
    + destruct k; discriminate Hnth.
Qed.

(** [beginSectionLoad] attaches its handlers to the pending promise. *)
Lemma coherentOf_loading ss ls p :
  phase ss = fadeOut -> pendingPromise ss = Some p ->
  coherentOf ss ls ->
  coherentOf (set_pendingPromise (Some p) (set_phase loading ss))
             (updateLoad p (set_load_handler Attached) ls).
Proof.
  intros Hp Hpp K.
  assert (N : phase ss <> loading) by (rewrite Hp; discriminate).
  pose proof (coherentOf_quiet ss ls K N) as Q0.
  destruct K as (_ & K1 & _ & K3 & _).
  destruct (K3 ltac:(rewrite Hp; discriminate)) as (Hn & q & Hq & Hlen).
  rewrite Hpp in Hq. injection Hq as <-.
  unfold coherentOf.
  change (phase (set_pendingPromise (Some p) (set_phase loading ss))) with loading.
  change (nextSection (set_pendingPromise (Some p) (set_phase loading ss)))
    with (nextSection ss).
  change (pendingPromise (set_pendingPromise (Some p) (set_phase loading ss)))
    with (Some p).
  split; [discriminate|].
  split.
  { apply Forall_updateLoad; [|exact K1].
    intros ld _ (A & B & C). unfold soundLoad. cbn.
    split; [exact A|]. split; [exact B|]. discriminate. }
  split; [discriminate|].
  split.
  { intros _. split; [exact Hn|]. exists p. split; [reflexivity|].
    rewrite length_updateLoad. exact Hlen. }
  intros handle ld Hnth Ha. split; [reflexivity|].
  destruct (nth_error_updateLoad_inv _ _ _ _ _ Hnth) as [[E _] | [_ Hold]].
  - rewrite E. reflexivity.
  - exfalso. exact (Q0 handle ld Hold Ha).
Qed.

(** The handlers run on a fulfilled chain: the machine is loading on it,
    and no handler waits any more. *)
Lemma coherentOf_ran ss ls handle ld :
  nth_error ls handle = Some ld -> load_handler ld = Attached ->
  load_status ld = Fulfilled ->
  coherentOf ss ls ->
  coherentOf ss (updateLoad handle (set_load_handler Ran) ls) /\
  quiet (updateLoad handle (set_load_handler Ran) ls) /\
  phase ss = loading.
Proof.
  intros Hnth Ha Hs K.
  destruct K as (K0 & K1 & K2 & K3 & K4).
  destruct (K4 handle ld Hnth Ha) as [Hl Hp].
  assert (Q0 : quiet (updateLoad handle (set_load_handler Ran) ls)).
  { intros h ld' Hn' Ha'.
    destruct (nth_error_updateLoad_inv _ _ _ _ _ Hn') as [[_ (x & _ & ->)] | [Hne Hold]].
    - discriminate Ha'.
    - destruct (K4 h ld' Hold Ha') as [_ Hp'].
      rewrite Hp in Hp'. injection Hp' as E. apply Hne. symmetry. exact E. }
  split; [|split; [exact Q0 | exact Hl]].
  unfold coherentOf. rewrite length_updateLoad.
  split; [exact K0|].
  split.
  { apply Forall_updateLoad; [|exact K1].
    intros x Hx (A & B & C). rewrite Hnth in Hx. injection Hx as <-.
    unfold soundLoad. cbn. split; [exact A|]. split; [exact B|]. intros _. exact Hs. }
  split; [exact K2|]. split; [exact K3|].
  intros h ld' Hn' Ha'. exfalso. exact (Q0 h ld' Hn' Ha').
Qed.

(** The fade-in is entered from the loading phase once no handler waits. *)
Lemma coherentOf_entered ss ss' ls :
  phase ss' = fadeIn -> nextSection ss' = nextSection ss ->
  pendingPromise ss' = pendingPromise ss ->
  phase ss = loading -> quiet ls ->
  coherentOf ss ls -> coherentOf ss' ls.
Proof.
  intros A B C Hl Q0 (_ & K1 & _ & K3 & _).
  unfold coherentOf. rewrite A, B, C.
  split; [discriminate|]. split; [exact K1|]. split; [discriminate|].
  split; [intros _; apply K3; rewrite Hl; discriminate|].
  intros h ld Hn Ha. exfalso. exact (Q0 h ld Hn Ha).
Qed.

(** A guarded chain settles as fulfilled. *)
Lemma coherentOf_settled ss ls handle :
  coherentOf ss ls ->
  coherentOf ss (updateLoad handle (set_load_status Fulfilled) ls).
Proof.
  intros (K0 & K1 & K2 & K3 & K4).
  unfold coherentOf. rewrite length_updateLoad.
  split; [exact K0|].
  split.
  { apply Forall_updateLoad; [|exact K1].
    intros ld _ (A & B & C). unfold soundLoad. cbn.
    split; [exact A|]. split; [discriminate | reflexivity]. }
  split; [exact K2|]. split; [exact K3|].
  intros h ld' Hn' Ha'.
  destruct (nth_error_updateLoad_inv _ _ _ _ _ Hn') as [[_ (x & Hx & ->)] | [_ Hold]].
  - apply (K4 h x Hx). exact Ha'.
  - apply (K4 h ld' Hold Ha').
Qed.

(** *** What each step does to the promise chains *)

Lemma loads_cancelTransition st : loads (cancelTransition st) = loads st.
Proof.
  destruct loads_frames as (_ & _ & C & _ & E).
  rewrite cancelTransition_eq, E, loads_onSectionState, loads_updateSectionTransition, C.
  apply cancelSetup_rest.
Qed.

Lemma loads_beginSectionLoad st sec p :
  nextSection (sectionState st) = Some sec ->
  pendingPromise (sectionState st) = Some p ->
  loads (beginSectionLoad st) = updateLoad p (set_load_handler Attached) (loads st).
Proof.
  intros Hn Hp. unfold beginSectionLoad. rewrite Hn. cbv zeta.
  rewrite sectionState_updateSectionTransition, sectionState_onSectionState.
  change (pendingPromise (set_phase loading (sectionState st)))
    with (pendingPromise (sectionState st)).
  rewrite Hp. rewrite loads_set_loads, loads_onSectionState,
    loads_updateSectionTransition, loads_onSectionState.
  reflexivity.
Qed.

Lemma loads_startBackgroundBlend t st : loads (startBackgroundBlend t st) = loads st.
Proof.
  unfold startBackgroundBlend, applyBackgroundBlend, finishBackgroundBlend,
    setBackgroundGradient.
  repeat case_split; reflexivity.
Qed.

Lemma loads_transitionStarted targetIndex sec dir initialProgress st :
  exists source,
    loads (transitionStarted targetIndex sec dir initialProgress st)
    = loads st ++ [ {| load_section := sec; load_source := source;
                       load_guarded := true; load_status := Pending;
                       load_handler := NoHandler |} ].
Proof.
  unfold transitionStarted, ensureSectionMorphTarget. cbv zeta.
  eexists. rewrite loads_onSectionState, loads_set_loads, loads_startBackgroundBlend.
  rewrite (proj1 (proj2 (proj2 (proj2 (proj2 (proj2
             (transitionSetup_rest targetIndex sec dir initialProgress st))))))).
  reflexivity.
Qed.

Lemma loads_commitMorph sec st : loads (commitMorph sec st) = loads st.
Proof.
  unfold commitMorph, setAssetMorphArray.
  destruct (getSectionAsset (Some sec) st) as [asset|]; [|reflexivity].
  destruct (asset_morphArray asset) as [morphArr|]; [|reflexivity].
  destruct (points st) as [pts|]; [|reflexivity].
  cbv zeta.
  repeat match goal with
         | |- context [match ?c with _ => _ end] =>
           lazymatch c with
           | context [match _ with _ => _ end] => fail
           | _ => destruct c
           end
         end;
    reflexivity.
Qed.

Lemma loads_applyScrollTweenState st : loads (applyScrollTweenState st) = loads st.
Proof.
  unfold applyScrollTweenState, setScatterAmplitude, setMorphProgress. cbv zeta.
  repeat case_split; reflexivity.
Qed.

Lemma loads_fadeInSettled st : loads (fadeInSettled st) = loads st.
Proof.
  destruct loads_frames as (_ & _ & _ & _ & E).
  unfold fadeInSettled. cbv zeta.
  rewrite loads_applyScrollTweenState.
  change (loads (set_scrollTargetsCurrent ?v ?s)) with (loads s).
  change (loads (set_scrollTweenState ?v ?s)) with (loads s).
  match goal with
  | |- loads match ?a with _ => _ end = _ =>
    assert (S : forall x, loads match a with
                                | Some s => set_currentSectionId (Some (id s)) (commitMorph s x)
                                | None => x
                                end = loads x)
      by (intro x; destruct a as [s|]; [apply loads_commitMorph | reflexivity]);
      rewrite S; clear S
  end.
  rewrite E, loads_updateSectionTransition. reflexivity.
Qed.

Lemma loads_fadeInEntry st : loads (fadeInEntry st) = loads st.
Proof.
  destruct loads_frames as (A & _).
  unfold fadeInEntry. cbv zeta.
  rewrite loads_updateSectionTransition, A, !loads_onSectionState,
    loads_updateSectionTransition.
  destruct (_ && _); reflexivity.
Qed.

(** *** Each step keeps the machine coherent *)

Lemma coherent_same st st' :
  sectionState st' = sectionState st -> loads st' = loads st ->
  coherent st -> coherent st'.
Proof. unfold coherent. intros -> ->. exact (fun K => K). Qed.

Lemma coherent_core st st' :
  coherenceCore (sectionState st') = coherenceCore (sectionState st) ->
  loads st' = loads st ->
  coherent st -> coherent st'.
Proof. unfold coherent. intros C ->. apply coherentOf_core, C. Qed.

Lemma coherent_updateSectionTransition st :
  coherent st -> coherent (updateSectionTransition st).
Proof.
  apply coherent_same;
    [apply sectionState_updateSectionTransition | apply loads_updateSectionTransition].
Qed.

Lemma coherent_onSectionState f st :
  coherenceCore (f (sectionState st)) = coherenceCore (sectionState st) ->
  coherent st -> coherent (onSectionState f st).
Proof.
  intro C. apply coherent_core; [|reflexivity].
  rewrite sectionState_onSectionState. exact C.
Qed.

Lemma coherent_set_carry c st :
  coherent st -> coherent (onSectionState (set_pendingScrollCarry c) st).
Proof.
  apply coherent_core; [|reflexivity].
  rewrite sectionState_onSectionState.
  generalize (sectionState st). intro ss. reflexivity.
Qed.

Lemma coherent_set_wheel a st :
  coherent st -> coherent (onSectionState (set_wheelAccumulator a) st).
Proof.
  apply coherent_core; [|reflexivity].
  rewrite sectionState_onSectionState.
  generalize (sectionState st). intro ss. reflexivity.
Qed.

Lemma coherent_set_progress v st :
  phase (sectionState st) <> idle ->
  coherent st -> coherent (onSectionState (set_transitionProgress v) st).
Proof.
  intros N K. unfold coherent. rewrite sectionState_onSectionState, loads_onSectionState.
  apply (coherentOf_progress (sectionState st)); try reflexivity; assumption.
Qed.

Lemma coherent_cancelTransition st :
  phase (sectionState st) <> loading ->
  coherent st -> coherent (cancelTransition st).
Proof.
  intros N K. unfold coherent.
  rewrite loads_cancelTransition, sectionState_cancelTransition, sectionState_cancelSetup.
  apply (coherentOf_rest (sectionState st)); try reflexivity; assumption.
Qed.

Lemma coherent_beginSectionLoad st :
  phase (sectionState st) = fadeOut ->
  coherent st -> coherent (beginSectionLoad st).
Proof.
  intros Hp K.
  destruct K as (K0 & K1 & K2 & K3 & K4).
  destruct (K3 ltac:(rewrite Hp; discriminate)) as (Hn & p & Hpp & Hlen).
  destruct (nextSection (sectionState st)) as [sec|] eqn:Hsec;
    [|contradiction Hn; reflexivity].
  unfold coherent.
  rewrite (loads_beginSectionLoad st sec p Hsec Hpp),
    (sectionState_beginSectionLoad st sec p Hsec Hpp).
  apply coherentOf_loading; [exact Hp | exact Hpp|].
  unfold coherentOf. rewrite Hsec.
  split; [exact K0|]. split; [exact K1|]. split; [exact K2|].
  split; [exact K3 | exact K4].
Qed.

Lemma coherent_transitionStarted targetIndex sec dir initialProgress st :
  phase (sectionState st) <> loading ->
  coherent st ->
  coherent (transitionStarted targetIndex sec dir initialProgress st) /\
  phase (sectionState (transitionStarted targetIndex sec dir initialProgress st))
  = fadeOut.
Proof.
  intros N K.
  destruct (loads_transitionStarted targetIndex sec dir initialProgress st) as [source L].
  destruct (transitionSetup_sectionState targetIndex sec dir initialProgress st)
    as (Hp & _ & _ & _ & _ & Hn & _).
  split.
  - unfold coherent. rewrite L, transitionStarted_sectionState.
    apply (coherentOf_started (sectionState st) _ (loads st) sec);
      try reflexivity; assumption.
  - rewrite transitionStarted_sectionState.
    rewrite (proj1 (proj2 (set_pendingPromise_fields _ _))). exact Hp.
Qed.

Lemma coherent_startSectionTransition target dir initialProgress st :
  phase (sectionState st) <> loading ->
  coherent st ->
  coherent (startSectionTransition target dir initialProgress st).
Proof.
  intros N K.
  destruct (getSectionCount <=? 0)%Z eqn:Htotal;
    [unfold startSectionTransition; rewrite Htotal; exact K|].
  destruct ((normalizeSectionIndex target =? index (sectionState st))%Z
            && negb (Phase_eqb (phase (sectionState st)) boot)) eqn:Hsame;
    [unfold startSectionTransition; rewrite Htotal, Hsame; exact K|].
  destruct (getSectionByIndex (normalizeSectionIndex target)) as [sec|] eqn:Hsec;
    [|unfold startSectionTransition; rewrite Htotal, Hsame, Hsec; exact K].
  rewrite (startSectionTransition_eq target dir initialProgress st sec Htotal Hsame Hsec).
  cbv zeta.
  destruct (coherent_transitionStarted (normalizeSectionIndex target) sec dir
                                       initialProgress st N K) as [KS PS].
  remember (transitionStarted (normalizeSectionIndex target) sec dir initialProgress st)
    as started eqn:E. clear E.
  destruct (Qle_bool _ _).
  - apply coherent_beginSectionLoad.
    + rewrite sectionState_updateSectionTransition. exact PS.
    + apply coherent_updateSectionTransition, KS.
  - apply coherent_updateSectionTransition, KS.
Qed.

Lemma coherent_accumulateScroll delta threshold progressScale st :
  phase (sectionState st) <> loading ->
  coherent st -> coherent (accumulateScroll delta threshold progressScale st).
Proof.
  intros N K.
  destruct (Qlt_le_dec (Qabs (wheelAccumulator (sectionState st) + delta)) threshold)
    as [Hlow | Hhigh].
  - rewrite (accumulateScroll_below _ _ _ _ Hlow).
    apply coherent_set_wheel, K.
  - rewrite (accumulateScroll_trigger _ _ _ _ Hhigh).
    assert (S : coherent
                  (onSectionState
                     (set_wheelAccumulator 0)
                     (onSectionState
                        (set_wheelAccumulator (wheelAccumulator (sectionState st) + delta))
                        st))).
    { apply coherent_set_wheel, coherent_set_wheel, K. }
    assert (P : phase (sectionState
                         (onSectionState
                            (set_wheelAccumulator 0)
                            (onSectionState
                               (set_wheelAccumulator
                                  (wheelAccumulator (sectionState st) + delta)) st)))
                <> loading) by exact N.
    remember (onSectionState (set_wheelAccumulator 0) _) as armed eqn:E. clear E.
    destruct (Qlt_bool 0 _).
    + apply coherent_set_carry.
      apply coherent_startSectionTransition; assumption.
    + apply coherent_startSectionTransition; assumption.
Qed.

Lemma coherent_fadeInSettled st :
  phase (sectionState st) <> loading ->
  coherent st -> coherent (fadeInSettled st).
Proof.
  intros N K. unfold coherent.
  rewrite loads_fadeInSettled, sectionState_fadeInSettled.
  apply (coherentOf_rest (sectionState st)); try reflexivity; assumption.
Qed.

Lemma coherent_completeFadeIn_with self st :
  (forall delta isTouch x, coherent x -> coherent (self delta isTouch x)) ->
  phase (sectionState st) <> loading ->
  coherent st -> coherent (completeFadeIn_with self st).
Proof.
  intros Hself N K. unfold completeFadeIn_with. cbv zeta.
  assert (S : coherent (onSectionState (set_pendingScrollCarry 0) (fadeInSettled st))).
  { apply coherent_set_carry.
    apply coherent_fadeInSettled; assumption. }
  destruct (Qlt_bool _ _); [apply Hself|]; exact S.
Qed.

Lemma coherent_overflow c st :
  phase (sectionState st) <> idle ->
  coherent st ->
  coherent
    (updateSectionTransition
       (onSectionState
          (set_transitionProgress 1)
          (onSectionState (set_pendingScrollCarry c) st))).
Proof.
  intros N K. apply coherent_updateSectionTransition.
  apply coherent_set_progress; [exact N|].
  apply coherent_set_carry, K.
Qed.

Lemma phase_overflow c v st :
  phase (sectionState
           (updateSectionTransition
              (onSectionState
                 (set_transitionProgress v)
                 (onSectionState (set_pendingScrollCarry c) st))))
  = phase (sectionState st).
Proof.
  rewrite sectionState_updateSectionTransition, !sectionState_onSectionState.
  reflexivity.
Qed.

Lemma coherent_step v st :
  phase (sectionState st) <> idle ->
  coherent st ->
  coherent (updateSectionTransition (onSectionState (set_transitionProgress v) st)).
Proof.
  intros N K. apply coherent_updateSectionTransition.
  apply coherent_set_progress; assumption.
Qed.

Lemma coherent_advanceTransitionProgress_with self stepRaw st :
  (forall delta isTouch x, coherent x -> coherent (self delta isTouch x)) ->
  coherent st -> coherent (advanceTransitionProgress_with self stepRaw st).
Proof.
  intros Hself K. unfold advanceTransitionProgress_with. cbv zeta.
  destruct (phase (sectionState st)) eqn:P; try exact K.
  - destruct (Qeq_bool _ 0); [apply coherent_updateSectionTransition, K|].
    destruct (Qle_bool _ 0).
    { apply coherent_cancelTransition; [rewrite P; discriminate | exact K]. }
    destruct (Qle_bool 1 _).
    + apply coherent_beginSectionLoad.
      * rewrite phase_overflow. exact P.
      * apply coherent_overflow; [rewrite P; discriminate | exact K].
    + apply coherent_step; [rewrite P; discriminate | exact K].
  - destruct (Qeq_bool _ 0); [apply coherent_updateSectionTransition, K|].
    destruct (Qle_bool 1 _).
    + apply coherent_completeFadeIn_with; [exact Hself | |].
      * rewrite phase_overflow, P. discriminate.
      * apply coherent_overflow; [rewrite P; discriminate | exact K].
    + apply coherent_step; [rewrite P; discriminate | exact K].
Qed.

Lemma coherent_applyScrollDelta_with self delta isTouch st :
  (forall d t x, coherent x -> coherent (self d t x)) ->
  coherent st -> coherent (applyScrollDelta_with self delta isTouch st).
Proof.
  intros Hself K. unfold applyScrollDelta_with.
  destruct (negb _); [exact K|]. cbv zeta.
  destruct (phase (sectionState st)) eqn:P.
  - apply coherent_accumulateScroll; [rewrite P; discriminate | exact K].
  - apply coherent_accumulateScroll; [rewrite P; discriminate | exact K].
  - apply coherent_advanceTransitionProgress_with; assumption.
  - destruct (Qlt_bool 0 _); [|exact K].
    apply coherent_set_carry, K.
  - apply coherent_advanceTransitionProgress_with; assumption.
Qed.

Lemma coherent_applyScrollDelta_upto depth : forall delta isTouch st,
  coherent st -> coherent (applyScrollDelta_upto depth delta isTouch st).
Proof.
  induction depth as [|depth IH]; intros delta isTouch st K; [exact K|].
  apply coherent_applyScrollDelta_with; [exact IH | exact K].
Qed.

Lemma coherent_fadeInEntry st :
  phase (sectionState st) = loading -> quiet (loads st) ->
  coherent st ->
  coherent (fadeInEntry st) /\ phase (sectionState (fadeInEntry st)) = fadeIn.
Proof.
  intros P Q0 K. split.
  - unfold coherent. rewrite loads_fadeInEntry, sectionState_fadeInEntry.
    apply (coherentOf_entered (sectionState st)); try reflexivity; assumption.
  - apply fadeInEntry_fields.
Qed.

Lemma coherent_beginSectionLoad_then st :
  phase (sectionState st) = loading -> quiet (loads st) ->
  coherent st -> coherent (beginSectionLoad_then st).
Proof.
  intros P Q0 K. unfold beginSectionLoad_then. cbv zeta.
  destruct (coherent_fadeInEntry st P Q0 K) as [KE PE].
  remember (fadeInEntry st) as entered eqn:E. clear E.
  destruct (Qle_bool _ _); [|exact KE].
  apply coherent_completeFadeIn_with.
  - apply coherent_applyScrollDelta_upto.
  - rewrite PE. discriminate.
  - exact KE.
Qed.

Lemma coherent_runLoadHandler handle st :
  coherent st -> coherent (runLoadHandler handle st).
Proof.
  intro K. unfold runLoadHandler.
  destruct (nth_error (loads st) handle) as [ld|] eqn:N; [|exact K].
  destruct (load_handler ld) eqn:A; try exact K.
  destruct (load_status ld) eqn:S; try exact K; cbv zeta.
  - destruct (coherentOf_ran (sectionState st) (loads st) handle ld N A S K)
      as (KR & Q0 & P).
    apply coherent_beginSectionLoad_then; [exact P | exact Q0 | exact KR].
  - exfalso. destruct K as (_ & K1 & _).
    destruct (Forall_nth_error _ _ _ _ K1 N) as (_ & R & _). exact (R S).
Qed.

Lemma sectionState_resolved_morphed ld outcome st :
  sectionState (fst match snd (resolveGeometry ld outcome st) with
                    | Some g =>
                      ensureSectionMorphTarget_then (load_section ld) g
                                                    (fst (resolveGeometry ld outcome st))
                    | None => (fst (resolveGeometry ld outcome st), false)
                    end)
  = sectionState st.
Proof.
  destruct (resolveGeometry_frames ld outcome st) as (S & _).
  destruct (snd (resolveGeometry ld outcome st)) as [g|].
  - rewrite sectionState_ensureSectionMorphTarget_then. exact S.
  - exact S.
Qed.

Lemma coherent_settleChain handle outcome ld st :
  load_guarded ld = true ->
  coherent st -> coherent (settleChain handle outcome ld st).
Proof.
  intros G K. unfold coherent, settleChain. cbv zeta. rewrite G.
  rewrite loads_set_loads, sectionState_set_loads.
  rewrite loads_onSectionState, sectionState_onSectionState.
  rewrite loads_resolved_morphed, sectionState_resolved_morphed.
  apply coherentOf_settled.
  apply (coherentOf_core (sectionState st)); [reflexivity | exact K].
Qed.

Lemma coherent_settleLoad handle outcome st :
  coherent st -> coherent (settleLoad handle outcome st).
Proof.
  intro K. unfold settleLoad.
  destruct (nth_error (loads st) handle) as [ld|] eqn:N; [|exact K].
  destruct (load_status ld); try exact K.
  apply coherent_runLoadHandler, coherent_settleChain; [|exact K].
  destruct K as (_ & K1 & _).
  apply (Forall_nth_error _ _ _ _ K1 N).
Qed.

Lemma coherent_runMicrotasks fuel : forall st,
  coherent st -> coherent (runMicrotasks fuel st).
Proof.
  induction fuel as [|fuel IH]; intros st K; [exact K|]. cbn [runMicrotasks].
  destruct (firstRunnable (loads st) 0) as [handle|]; [|exact K].
  destruct (nth_error (loads st) handle) as [ld|]; [|exact K].
  destruct (load_status ld); apply IH;
    first [apply coherent_settleLoad | apply coherent_runLoadHandler]; exact K.
Qed.

Lemma coherent_dispatch ev st : coherent st -> coherent (dispatch ev st).
Proof.
  intro K. unfold dispatch. apply coherent_runMicrotasks.
  destruct ev as [deltaY | deltaY | handle outcome]; unfold handleEvent.
  - destruct (Qeq_bool deltaY 0); [exact K|].
    apply coherent_applyScrollDelta_upto, K.
  - apply coherent_applyScrollDelta_upto, K.
  - destruct (nth_error (loads st) handle) as [ld|]; [|exact K].
    destruct (load_source ld); try exact K.
    apply coherent_settleLoad, K.
Qed.

Lemma animate_keeps_machine scatterSpeed floatingTextEl dt st :
  sectionState (animate scatterSpeed floatingTextEl dt st) = sectionState st /\
  loads (animate scatterSpeed floatingTextEl dt st) = loads st.
Proof.
  rewrite animate_eq.
  destruct (animate_blocks_frame scatterSpeed floatingTextEl dt
              (animateScatter scatterSpeed dt
                 (updateSectionTransition
                    (animateMorphFactor dt (animateCameraPath dt st)))))
    as (_ & _ & _ & (S4 & L4 & _)).
  destruct (animate_blocks_frame scatterSpeed floatingTextEl dt
              (updateSectionTransition
                 (animateMorphFactor dt (animateCameraPath dt st))))
    as (_ & _ & (S3 & L3 & _) & _).
  destruct (animate_blocks_frame scatterSpeed floatingTextEl dt
              (animateCameraPath dt st))
    as (_ & (S2 & L2 & _) & _).
  destruct (animate_blocks_frame scatterSpeed floatingTextEl dt st)
    as ((S1 & L1 & _) & _).
  rewrite S4, L4, S3, L3, sectionState_updateSectionTransition,
    loads_updateSectionTransition, S2, L2, S1, L1.
  split; reflexivity.
Qed.

Lemma coherent_tick scatterSpeed floatingTextEl t st :
  coherent st -> coherent (tick scatterSpeed floatingTextEl t st).
Proof.
  intro K. destruct t as [ev | dt]; cbn [tick].
  - apply coherent_dispatch, K.
  - destruct (animate_keeps_machine scatterSpeed floatingTextEl dt st) as [S L].
    apply (coherent_same st); assumption.
Qed.

Lemma coherent_runTicks scatterSpeed floatingTextEl ticks st :
  coherent st -> coherent (runTicks scatterSpeed floatingTextEl ticks st).
Proof.
  unfold runTicks.
  apply (fold_left_invariant
           (fun s t => tick scatterSpeed floatingTextEl t s) coherent).
  intros a b. apply coherent_tick.
Qed.

Lemma buildPoints_keeps_machine st :
  sectionState (buildPoints st) = sectionState st /\ loads (buildPoints st) = loads st.
Proof.
  unfold buildPoints, setScatterAmplitude, refreshAllMorphTargets. cbv zeta.
  repeat case_split; split; reflexivity.
Qed.

Lemma setSectionCameraPose_keeps_machine s b st :
  sectionState (setSectionCameraPose s b st) = sectionState st /\
  loads (setSectionCameraPose s b st) = loads st.
Proof.
  unfold setSectionCameraPose, setCameraYawOffset, setCameraPitchOffset. cbv zeta.
  repeat case_split; split; reflexivity.
Qed.

Lemma coherent_set_cameraPoses v st :
  (coherent st -> coherent (onSectionState (set_cameraStartPose v) st)) /\
  (coherent st -> coherent (onSectionState (set_cameraEndPose v) st)).
Proof.
  split; (apply coherent_core; [|reflexivity]);
    rewrite sectionState_onSectionState;
    generalize (sectionState st); intro ss; reflexivity.
Qed.

(** A page at rest with no promise chain is coherent. *)
Lemma coherent_at_rest st :
  phase (sectionState st) = idle -> nextSection (sectionState st) = None ->
  pendingPromise (sectionState st) = None ->
  transitionProgress (sectionState st) = 0 -> loads st = [] ->
  coherent st.
Proof.
  intros A B C D E. unfold coherent, coherentOf. rewrite A, B, C, D, E.
  split; [discriminate|]. split; [apply Forall_nil|].
  split; [intros _; repeat split|].
  split; [intro N; contradiction N; reflexivity|].
  intros handle ld H. destruct handle; discriminate H.
Qed.

(** The page as [bootstrapSections] leaves it is coherent. *)
Lemma coherent_displayedState cloud ratio : coherent (displayedState cloud ratio).
Proof.
  unfold displayedState. cbv zeta.
  apply (proj2 (coherent_set_cameraPoses _ _)).
  apply (proj1 (coherent_set_cameraPoses _ _)).
  match goal with
  | |- coherent (setSectionCameraPose ?s ?b ?x) =>
    apply (coherent_same x);
      [apply setSectionCameraPose_keeps_machine
      |apply setSectionCameraPose_keeps_machine|]
  end.
  match goal with
  | |- coherent (buildPoints ?x) =>
    apply (coherent_same x);
      [apply buildPoints_keeps_machine | apply buildPoints_keeps_machine|]
  end.
  apply coherent_at_rest; reflexivity.
Qed.

(** No promise of the machine is ever rejected.  Under events and rendered
    frames in any order, every promise chain is the guarded preload of
    [startSectionTransition], so [beginSectionLoad] never has to start a load
    of its own; no chain is rejected, whether its load succeeds or fails; the
    handlers of [beginSectionLoad] have only ever run on a fulfilled chain;
    and when they run, it is the [.then] that runs, never the [.catch]. *)
Theorem no_promise_is_ever_rejected
    (scatterSpeed : option Q) (floatingTextEl : bool) (ticks : list Tick) (st : State) :
  coherent st ->
  let st' := runTicks scatterSpeed floatingTextEl ticks st in
  (forall handle ld,
     nth_error (loads st') handle = Some ld ->
     load_guarded ld = true /\
     load_status ld <> Rejected /\
     (load_handler ld = Ran -> load_status ld = Fulfilled)) /\
  (forall handle,
     runLoadHandler handle st' = st' \/
     runLoadHandler handle st'
     = beginSectionLoad_then
         (set_loads (updateLoad handle (set_load_handler Ran) (loads st')) st')).
Proof.
  intros K st'.
  pose proof (coherent_runTicks scatterSpeed floatingTextEl ticks st K) as K'.
  fold st' in K'. remember st' as final eqn:E. clear E st'.
  destruct K' as (_ & K1 & _).
  split.
  - intros handle ld N. exact (Forall_nth_error _ _ _ _ K1 N).
  - intro handle. unfold runLoadHandler.
    destruct (nth_error (loads final) handle) as [ld|] eqn:N; [|left; reflexivity].
    destruct (load_handler ld); try (left; reflexivity).
    destruct (load_status ld) eqn:S; try (left; reflexivity).
    + right. reflexivity.
    + exfalso. destruct (Forall_nth_error _ _ _ _ K1 N) as (_ & R & _). exact (R S).
Qed.

(** The phase, the target section and the pending promise always fit
    together, under events and rendered frames in any order.  The phase is
    never [boot] again.  At rest there is no target section, no pending
    promise and the progress is 0.  In a fade-out, a loading phase or a
    fade-in there is a target section and a pending promise, and that promise
    is one of the machine's chains.  Handlers of [beginSectionLoad] wait only
    on the pending promise of a loading phase. *)
Theorem phase_target_and_promise_agree
    (scatterSpeed : option Q) (floatingTextEl : bool) (ticks : list Tick) (st : State) :
  coherent st ->
  let st' := runTicks scatterSpeed floatingTextEl ticks st in
  phase (sectionState st') <> boot /\
  (phase (sectionState st') = idle ->
   nextSection (sectionState st') = None /\
   pendingPromise (sectionState st') = None /\
   transitionProgress (sectionState st') = 0) /\
  (phase (sectionState st') <> idle ->
   nextSection (sectionState st') <> None /\
   exists p ld,
     pendingPromise (sectionState st') = Some p /\
     nth_error (loads st') p = Some ld) /\
  (forall handle ld,
     nth_error (loads st') handle = Some ld -> load_handler ld = Attached ->
     phase (sectionState st') = loading /\
     pendingPromise (sectionState st') = Some handle).
Proof.
  intros K st'.
  pose proof (coherent_runTicks scatterSpeed floatingTextEl ticks st K) as K'.
  fold st' in K'. remember st' as final eqn:E. clear E st'.
  destruct K' as (K0 & _ & K2 & K3 & K4).
  split; [exact K0|]. split; [exact K2|]. split; [|exact K4].
  intro N. destruct (K3 N) as (Hn & p & Hp & Hlen).
  split; [exact Hn|].
  destruct (nth_error (loads final) p) as [ld|] eqn:L.
  - exists p, ld. split; [exact Hp | exact L].
  - apply nth_error_None in L. lia.
Qed.

(** ** The carry across the load *)

(** A fade-out that overshoots hands its promise to [beginSectionLoad],
    which attaches its handlers and waits. *)
Lemma loads_fadeOut_overflow stepRaw st sec p signed next :
  phase (sectionState st) = fadeOut ->
  nextSection (sectionState st) = Some sec ->
  pendingPromise (sectionState st) = Some p ->
  signed = stepRaw * inject_Z (directionOr1 st) ->
  next = transitionProgress (sectionState st) + signed ->
  ~ signed == 0 ->
  1 <= next ->
  loads (advanceTransitionProgress stepRaw st)
  = updateLoad p (set_load_handler Attached) (loads st).
Proof.
  intros Hp Hn Hpp Hsigned Hnext Hmove Hover.
  unfold advanceTransitionProgress, advanceTransitionProgress_with.
  rewrite Hp. cbv zeta. rewrite <- Hsigned, <- Hnext.
  destruct (Qeq_bool signed 0) eqn:Z0; [apply Qeq_bool_iff in Z0; contradiction|].
  destruct (Qle_bool next 0) eqn:L0.
  { apply Qle_bool_iff in L0. exfalso.
    apply (Qlt_not_le 0 1); [reflexivity|]. apply (Qle_trans _ next); assumption. }
  apply Qle_bool_iff in Hover. rewrite Hover.
  rewrite (loads_beginSectionLoad _ sec p).
  - rewrite loads_updateSectionTransition, !loads_onSectionState. reflexivity.
  - rewrite sectionState_updateSectionTransition, !sectionState_onSectionState.
    exact Hn.
  - rewrite sectionState_updateSectionTransition, !sectionState_onSectionState.
    exact Hpp.
Qed.

Lemma awaitingLoad_fadeOut_overflow stepRaw st sec p chain signed next :
  phase (sectionState st) = fadeOut ->
  nextSection (sectionState st) = Some sec ->
  pendingPromise (sectionState st) = Some p ->
  nth_error (loads st) p = Some chain ->
  load_status chain = Pending ->
  load_guarded chain = true ->
  signed = stepRaw * inject_Z (directionOr1 st) ->
  next = transitionProgress (sectionState st) + signed ->
  ~ signed == 0 ->
  1 <= next ->
  awaitingLoad p (advanceTransitionProgress stepRaw st).
Proof.
  intros Hp Hn Hpp Hnth Hst Hg Hsigned Hnext Hmove Hover. unfold awaitingLoad.
  rewrite (fadeOut_overflow stepRaw st sec p signed next Hp Hn Hpp Hsigned Hnext
                            Hmove Hover).
  rewrite (loads_fadeOut_overflow stepRaw st sec p signed next Hp Hn Hpp Hsigned Hnext
                                  Hmove Hover).
  split; [reflexivity|]. split; [reflexivity|].
  exists (set_load_handler Attached chain).
  split; [apply nth_error_updateLoad; exact Hnth|].
  split; [exact Hst|]. split; [exact Hg | reflexivity].
Qed.

(** When the awaited chain settles it is fulfilled, whatever the loader
    delivers, and the [.then] of [beginSectionLoad] runs on a state whose
    transition state differs from the waiting one in [morphReady] only. *)
Lemma settleLoad_awaited p outcome st :
  awaitingLoad p st ->
  exists mid b,
    settleLoad p outcome st = beginSectionLoad_then mid /\
    sectionState mid = set_morphReady b (sectionState st).
Proof.
  intros (_ & _ & chain & Hnth & Hst & Hg & Ha).
  unfold settleLoad. rewrite Hnth, Hst.
  assert (L : loads (settleChain p outcome chain st)
              = updateLoad p (set_load_status Fulfilled) (loads st)).
  { unfold settleChain. cbv zeta. rewrite Hg. rewrite loads_set_loads.
    rewrite loads_onSectionState, loads_resolved_morphed. reflexivity. }
  assert (S : exists b, sectionState (settleChain p outcome chain st)
                        = set_morphReady b (sectionState st)).
  { unfold settleChain. cbv zeta. rewrite Hg. rewrite sectionState_set_loads.
    rewrite sectionState_onSectionState, sectionState_resolved_morphed.
    eexists. reflexivity. }
  destruct S as [b S].
  remember (settleChain p outcome chain st) as settled eqn:E. clear E.
  unfold runLoadHandler. rewrite L.
  rewrite (nth_error_updateLoad p (set_load_status Fulfilled) (loads st) chain Hnth).
  change (load_handler (set_load_status Fulfilled chain)) with (load_handler chain).
  rewrite Ha. change (load_status (set_load_status Fulfilled chain)) with Fulfilled.
  cbv iota zeta.
  eexists. exists b. split; [reflexivity|].
  rewrite sectionState_set_loads. exact S.
Qed.


End Machine.

(** * The machine of the site

    The machine instantiated with src/js/sections.js, started from the first
    section displayed as a cloud of four points, and run on concrete events. *)

Abbreviation site_run :=
  (run sections_js SECTION_TRANSITION_js nearestEndColor keepGeometry).
Abbreviation site_start :=
  (displayedState sections_js SECTION_TRANSITION_js (lineCloud 0 4) 1).
Abbreviation site_scroll :=
  (applyScrollDelta sections_js SECTION_TRANSITION_js nearestEndColor).

(** ** Scenario: a load that resolves after a newer transition has started *)

(** C1.  The code has no token for morph-target loads.  A scroll starts a
    transition toward "harbour" (load 0), a reverse scroll cancels it, and a
    further reverse scroll starts a transition toward "nature" (load 1).  When
    load 0 then resolves, the body of [ensureSectionMorphTarget] writes the
    cloud of "harbour" into the displayed morph buffer and the [.then] of the
    old preload sets [morphReady] of the newer transition. *)
Theorem stale_load_overwrites_newer_transition :
  let newer := site_run [Wheel 100; Wheel (-200); Wheel (-100)] site_start in
  let late := site_run [LoaderFinished 0 (Some (lineCloud 100 8))] newer in
  (phase (sectionState newer) = fadeOut /\
   nextIndex (sectionState newer) = 4%Z /\
   map (fun ld => id (load_section ld)) (loads newer) = ["harbour"; "nature"]%string /\
   map load_status (loads newer) = [Pending; Pending] /\
   morphReady (sectionState newer) = false /\
   coordinates (fst (morphBuffer newer)) = Some [0; 0; 0; 1; 0; 0; 2; 0; 0; 3; 0; 0]) /\
  (phase (sectionState late) = fadeOut /\
   nextIndex (sectionState late) = 4%Z /\
   map load_status (loads late) = [Fulfilled; Pending] /\
   morphReady (sectionState late) = true /\
   coordinates (fst (morphBuffer late))
   = Some [100; 0; 0; 102; 0; 0; 104; 0; 0; 107; 0; 0] /\
   currentModelPath late = "point/nz2.ply"%string).
Proof. vm_compute. repeat split. Qed.

(** ** Scenario: the model of the next section fails to load *)

(** C4.  A scroll drives the fade-out to completion, so the machine waits in
    the loading phase on the preload promise of [startSectionTransition].
    That promise ends in a [.catch] that returns [false], so it is fulfilled
    when the loader fails, and the [.then] of [beginSectionLoad] runs: the
    machine enters the fade-in on the new section index with [morphReady]
    set, instead of aborting to idle on the old one. *)
Theorem failed_load_enters_fadeIn :
  let waiting := site_run [Wheel 980] site_start in
  let failed := site_run [LoaderFinished 0 None] waiting in
  (phase (sectionState waiting) = loading /\
   index (sectionState waiting) = 0%Z /\
   nextIndex (sectionState waiting) = 1%Z /\
   map load_status (loads waiting) = [Pending] /\
   map load_handler (loads waiting) = [Attached]) /\
  (phase (sectionState failed) = fadeIn /\
   index (sectionState failed) = 1%Z /\
   morphReady (sectionState failed) = true /\
   pendingPromise (sectionState failed) = Some 0%nat /\
   map load_status (loads failed) = [Fulfilled] /\
   map load_handler (loads failed) = [Ran] /\
   morphBuffer failed = morphBuffer waiting).
Proof. vm_compute. repeat split. Qed.

(** ** Scenario: a section that asks for a pose outside the camera's range *)

Abbreviation steep_run :=
  (run sections_steep SECTION_TRANSITION_js nearestEndColor keepGeometry).
Abbreviation steep_start :=
  (displayedState sections_steep SECTION_TRANSITION_js (lineCloud 0 4) 1).

(** C9.  The setters clamp, the interpolation does not.  With a section
    whose camera entry is yaw 400 and pitch -80, [setCameraYawOffset] and
    [setCameraPitchOffset] store 360 and -60, but the pose written by
    [updateCameraPose] during the transition reaches yaw 400 and pitch -80,
    and the pose left after [completeFadeIn] is still yaw 400 and
    pitch -80. *)
Theorem camera_interpolation_leaves_range :
  let reached := steep_run [Wheel 980] steep_start in
  let arrived :=
    steep_run [LoaderFinished 0 (Some (lineCloud 100 8)); Wheel 900] reached in
  (cameraYawOffsetDeg (setCameraYawOffset (Some 400) steep_start) == 360 /\
   cameraPitchOffsetDeg (setCameraPitchOffset (Some (-80)) steep_start) == -60) /\
  (phase (sectionState reached) = loading /\
   cameraYawOffsetDeg reached == 400 /\
   cameraPitchOffsetDeg reached == -80) /\
  (phase (sectionState arrived) = idle /\
   index (sectionState arrived) = 1%Z /\
   cameraYawOffsetDeg arrived == 400 /\
   cameraPitchOffsetDeg arrived == -80) /\
  ~ cameraYawOffsetDeg arrived <= 360 /\
  ~ -60 <= cameraPitchOffsetDeg arrived.
Proof.
  vm_compute. repeat split; try reflexivity; intro H; apply H; reflexivity.
Qed.

(** ** Scenario: overshoot carried through the loading phase *)


(** Against C6 as stated: a scroll against the direction of the
    transition, received while loading, is dropped.  The state is the
    same with and without it, so it is never replayed. *)
Lemma loading_reverse_scroll_is_lost :
  let waiting := site_run [Wheel 980] site_start in
  phase (sectionState waiting) = loading /\
  site_run [Wheel (-90)] waiting = waiting /\
  pendingScrollCarry (sectionState (site_run [Wheel (-90)] waiting)) == 0 /\
  site_run [Wheel (-90); LoaderFinished 0 (Some (lineCloud 100 8))] waiting
  = site_run [LoaderFinished 0 (Some (lineCloud 100 8))] waiting.
Proof. vm_compute. repeat split. Qed.

(** Against C7 as stated: with 14 slots over a cloud of 122 points, slot
    7 does not hold the fraction of point [floor(7 * 122 / 14) = 61].  The
    step 122/14 is not a double, seven times the double next to it rounds to
    a double below 61, and [Math.floor] gives 60: the slot holds the
    fraction of point 60, which is neither 61/121 nor the single next to
    it. *)
Lemma slot_index_is_not_the_exact_floor :
  exists fractions,
    computeSampleFractions (Some (lineCloud 0 122)) 14 = Some fractions /\
    (7 * 122 / 14 = 61)%Z /\
    sampleIndex 122 14 7 = 60%Z /\
    nth 7 fractions 0 = fround (double (60 # 121)) /\
    nth 7 fractions 0 <> fround (double (61 # 121)) /\
    ~ nth 7 fractions 0 == 61 # 121.
Proof.
  eexists. split; [vm_compute; reflexivity|].
  split; [reflexivity|].
  split; [vm_compute; reflexivity|].
  split; [vm_compute; reflexivity|].
  split; vm_compute; intro H; discriminate H.
Qed.

(** *** A cloud too large for the fractions

    Reading a cloud of points on a line without building it. *)
Lemma nth_flat_map_triple {A B} (f : A -> list B) (l : list A) (i j : nat)
    (d : B) (d' : A) :
  (forall x, length (f x) = 3%nat) -> (i < length l)%nat -> (j < 3)%nat ->
  nth (3 * i + j) (flat_map f l) d = nth j (f (nth i l d')) d.
Proof.
  intros Hf Hi Hj.
  rewrite <- (flat_map_chunk f d' l i Hf Hi).
  rewrite nth_firstn, nth_skipn.
  replace (j <? 3)%nat with true by (symmetry; apply Nat.ltb_lt; exact Hj).
  reflexivity.
Qed.

Lemma length_flat_map_triple {A B} (f : A -> list B) (l : list A) :
  (forall x, length (f x) = 3%nat) -> length (flat_map f l) = (3 * length l)%nat.
Proof.
  intro Hf. induction l as [|x l IH]; [reflexivity|].
  simpl flat_map. rewrite length_app, IH, (Hf x). simpl length. lia.
Qed.

Lemma count_lineCloud base (n : Z) : (0 <= n)%Z ->
  count {| array := flat_map (fun k => [inject_Z (base + Z.of_nat k); 0; 0])
                             (seq 0 (Z.to_nat n));
           itemSize := 3 |} = n.
Proof.
  intro H. unfold count. cbn [array itemSize].
  rewrite length_flat_map_triple by reflexivity.
  rewrite length_seq, Nat2Z.inj_mul, Z2Nat.id by exact H.
  rewrite Z.mul_comm. apply Z.div_mul. lia.
Qed.

Lemma copyPoint3_lineCloud base (n k : Z) : (0 <= k < n)%Z ->
  copyPoint3 (flat_map (fun j => [inject_Z (base + Z.of_nat j); 0; 0])
                       (seq 0 (Z.to_nat n))) 3 k
  = [inject_Z (base + k); 0; 0].
Proof.
  intro H. unfold copyPoint3, readOr0. cbv zeta.
  change (1 <? 3)%Z with true. change (2 <? 3)%Z with true. cbv iota.
  repeat match goal with
         | |- context [(?x <? 0)%Z] =>
           replace (x <? 0)%Z with false by (symmetry; apply Z.ltb_ge; lia)
         end.
  replace (Z.to_nat (k * 3 + 0)) with (3 * Z.to_nat k + 0)%nat by lia.
  replace (Z.to_nat (k * 3 + 1)) with (3 * Z.to_nat k + 1)%nat by lia.
  replace (Z.to_nat (k * 3 + 2)) with (3 * Z.to_nat k + 2)%nat by lia.
  rewrite !(nth_flat_map_triple _ _ _ _ _ 0%nat)
    by (try reflexivity; try (rewrite length_seq); lia).
  rewrite seq_nth by lia. cbn [nth Nat.add].
  rewrite Z2Nat.id by lia. reflexivity.
Qed.

(** Against C8 as stated: a cloud of 25165826 points on a line, downsampled
    to five slots.  Slot 3 holds point 15099495; its fraction
    15099495/25165825 is stored as the single 5033165/8388608, and
    [Math.round] of that fraction times 25165825 is 15099496: resampling the
    cloud by its own fractions puts the next point into slot 3. *)
Lemma self_resample_moves_a_slot_of_a_large_cloud :
  let A := lineCloud 0 (Z.to_nat 25165826) in
  exists built positions fractions resampled,
    createPointGeometry (Some A) None (1 # 5000000) = Some built /\
    position built = Some {| array := positions; itemSize := 3 |} /\
    computeSampleFractions (Some A) 5 = Some fractions /\
    nth 3 fractions 0 = 5033165 # 8388608 /\
    generateMorphTargetArrayWithFractions
      (Some {| geometry := built; placement := getDefaultTransform |})
      (Some A) (Some fractions)
    = Some resampled /\
    firstn 3 (skipn 9 positions) = [15099495; 0; 0] /\
    firstn 3 (skipn 9 resampled) = [15099496; 0; 0] /\
    resampled <> positions.
Proof.
  intro A.
  set (arr := flat_map (fun k => [inject_Z (0 + Z.of_nat k); 0; 0])
                       (seq 0 (Z.to_nat 25165826))).
  assert (Hc : count {| array := arr; itemSize := 3 |} = 25165826%Z)
    by (apply count_lineCloud; lia).
  assert (Hk : keepCountOf 25165826 (1 # 5000000) = 5%Z) by (vm_compute; reflexivity).
  assert (S3 : sampleIndex 25165826 5 3 = 15099495%Z) by (vm_compute; reflexivity).
  assert (T3 : targetIndexOf (clamp (sampleFraction 25165826 15099495) 0 1) 25165826
               = 15099496%Z) by (vm_compute; reflexivity).
  assert (P : firstn 3 (skipn 9 (flat_map
                 (fun i => copyPoint3 arr 3 (sampleIndex 25165826 5 i))
                 (loopRange 5)))
              = [15099495; 0; 0]).
  { change 9%nat with (3 * 3)%nat.
    rewrite (flat_map_chunk _ 0%Z) by (reflexivity || (vm_compute; lia)).
    change (nth 3 (loopRange 5) 0%Z) with 3%Z. rewrite S3.
    unfold arr. rewrite copyPoint3_lineCloud by lia. reflexivity. }
  assert (R : firstn 3 (skipn 9 (flat_map
                 (fun f => copyPoint3 arr 3 (targetIndexOf (clamp f 0 1) 25165826))
                 (map (fun i => sampleFraction 25165826 (sampleIndex 25165826 5 i))
                      (loopRange 5))))
              = [15099496; 0; 0]).
  { change 9%nat with (3 * 3)%nat.
    rewrite (flat_map_chunk _ 0) by (reflexivity || (vm_compute; lia)).
    rewrite (nth_indep _ 0 (sampleFraction 25165826 (sampleIndex 25165826 5 0)))
      by (vm_compute; lia).
    rewrite (map_nth (fun i => sampleFraction 25165826 (sampleIndex 25165826 5 i))).
    change (nth 3 (loopRange 5) 0%Z) with 3%Z. rewrite S3, T3.
    unfold arr. rewrite copyPoint3_lineCloud by lia. reflexivity. }
  exists {| position :=
              Some {| array :=
                        flat_map (fun i => copyPoint3 arr 3 (sampleIndex 25165826 5 i))
                                 (loopRange 5);
                      itemSize := 3 |};
            color := None;
            morphTarget :=
              Some {| array :=
                        flat_map (fun i => copyPoint3 arr 3 (sampleIndex 25165826 5 i))
                                 (loopRange 5);
                      itemSize := 3 |};
            morphColor := None |}.
  exists (flat_map (fun i => copyPoint3 arr 3 (sampleIndex 25165826 5 i)) (loopRange 5)).
  exists (map (fun i => sampleFraction 25165826 (sampleIndex 25165826 5 i)) (loopRange 5)).
  exists (flat_map (fun f => copyPoint3 arr 3 (targetIndexOf (clamp f 0 1) 25165826))
                   (map (fun i => sampleFraction 25165826 (sampleIndex 25165826 5 i))
                        (loopRange 5))).
  split.
  { unfold createPointGeometry, A, lineCloud. cbn [position color]. fold arr.
    rewrite Hc, Hk. reflexivity. }
  split; [reflexivity|].
  split.
  { unfold computeSampleFractions, A, lineCloud. cbn [position]. fold arr.
    rewrite Hc. reflexivity. }
  split; [vm_compute; reflexivity|].
  split.
  { unfold generateMorphTargetArrayWithFractions, A, lineCloud.
    cbn [geometry morphTarget position]. fold arr. rewrite Hc.
    reflexivity. }
  split; [exact P|]. split; [exact R|].
  intro E. rewrite E, P in R. discriminate R.
Qed.

(** ** The theorems at concrete inputs *)

(** Index 5 is the first section again: asking for it changes nothing. *)
Lemma startSectionTransition_same_section_noop_at_site :
  startSectionTransition sections_js SECTION_TRANSITION_js nearestEndColor
                         5 1 0 site_start
  = site_start.
Proof.
  apply (startSectionTransition_same_section_noop
           sections_js SECTION_TRANSITION_js nearestEndColor 5 1 0 site_start).
  - vm_compute. reflexivity.
  - vm_compute. intro H. discriminate H.
Defined.

(** A forward scroll while the second section loads. *)
Lemma loading_scroll_feeds_carry_at_site :
  let waiting := site_run [Wheel 980] site_start in
  phase (sectionState (site_scroll 90 false waiting)) = loading /\
  transitionProgress (sectionState (site_scroll 90 false waiting))
  = transitionProgress (sectionState waiting).
Proof.
  intro waiting.
  destruct (loading_scroll_feeds_carry_forward_only
              sections_js SECTION_TRANSITION_js nearestEndColor 90 false waiting)
    as (Hphase & Hprogress & _).
  - vm_compute. reflexivity.
  - vm_compute. reflexivity.
  - split; [exact Hphase | exact Hprogress].
Defined.

(** A fade-out toward the second section, started half-way; a tick of the
    scroll tween has turned the cloud when the scroll comes back. *)
Lemma fadeOut_reversal_cancels_at_site :
  let started :=
    startSectionTransition sections_js SECTION_TRANSITION_js nearestEndColor
                           1 1 (1 # 2) site_start in
  let played := playScrollTween (1 # 2) started in
  let back :=
    advanceTransitionProgress sections_js SECTION_TRANSITION_js nearestEndColor
                              (- (3 # 4)) played in
  ~ groupRotationY played == groupRotationY site_start /\
  phase (sectionState back) = idle /\
  transitionProgress (sectionState back) = 0 /\
  pendingScrollCarry (sectionState back) = 0 /\
  groupRotationY back = groupRotationY site_start.
Proof.
  intros started played back.
  destruct (fadeOut_reversal_cancels
              sections_js SECTION_TRANSITION_js nearestEndColor keepGeometry
              1 1 (1 # 2) (- (3 # 4)) site_start played)
    as (Hphase & Hprogress & Hcarry & _ & _ & Hrotation & _).
  - vm_compute. reflexivity.
  - vm_compute. reflexivity.
  - vm_compute. split; intro H; discriminate H.
  - vm_compute. reflexivity.
  - apply (run_more _ _ _ _ _ started); [apply run_here | apply step_scrollTween].
  - vm_compute. intro H. discriminate H.
  - vm_compute. intro H. discriminate H.
  - split; [vm_compute; intro H; discriminate H|].
    split; [exact Hphase|]. split; [exact Hprogress|].
    split; [exact Hcarry | exact Hrotation].
Defined.

(** A wheel delta of 100 at rest: 20 past the threshold of 80. *)
Lemma idle_scroll_triggers_at_site :
  phase (sectionState (site_scroll 100 false site_start)) = fadeOut /\
  direction (sectionState (site_scroll 100 false site_start)) = 1%Z /\
  transitionProgress (sectionState (site_scroll 100 false site_start)) == 1 # 45 /\
  wheelAccumulator (sectionState (site_scroll 100 false site_start)) = 0.
Proof.
  destruct (idle_scroll_accumulates_and_triggers
              sections_js SECTION_TRANSITION_js nearestEndColor 100 false site_start)
    as [_ Hstart].
  - vm_compute. reflexivity.
  - vm_compute. reflexivity.
  - vm_compute. intro H. discriminate H.
  - vm_compute. split; [intro H; discriminate H | reflexivity].
  - vm_compute. reflexivity.
  - vm_compute. reflexivity.
  - destruct Hstart as (_ & Hphase & Hdir & _ & _ & _ & _ & Hprogress & _ & Hacc).
    + vm_compute. intro H. discriminate H.
    + split; [exact Hphase|]. split; [exact Hdir|]. split; [|exact Hacc].
      rewrite Hprogress. vm_compute. reflexivity.
Defined.


(** Fourteen slots over a cloud of 122 points: slot 7 holds the fraction of
    point 60. *)
Lemma computeSampleFractions_spec_at_cloud :
  exists fractions,
    computeSampleFractions (Some (lineCloud 0 122)) 14 = Some fractions /\
    Z.of_nat (length fractions) = 14%Z /\
    Forall (fun x => 0 <= x <= 1) fractions /\
    last fractions 0 = 1 /\
    nth 7 fractions 0 = fround (double (60 # 121)).
Proof.
  destruct (computeSampleFractions_spec
              (lineCloud 0 122)
              {| array := flat_map (fun k => [inject_Z (0 + Z.of_nat k); 0; 0])
                                   (seq 0 122);
                 itemSize := 3 |}
              14)
    as (fractions & Hsome & Hlen & Hrange & _ & Hlast & Hslot).
  - reflexivity.
  - lia.
  - vm_compute. intro H. discriminate H.
  - exists fractions. split; [exact Hsome|]. split; [exact Hlen|].
    split; [exact Hrange|]. split; [exact Hlast|].
    destruct (Hslot 7%Z ltac:(lia)) as [H7 _].
    transitivity (nth (Z.to_nat 7) fractions 0); [reflexivity|].
    rewrite H7. vm_compute. reflexivity.
Defined.

(** A cloud of five points kept at ratio 1/2. *)
Lemma self_resample_roundtrip_at_cloud :
  exists built selfBuilt,
    createPointGeometry (Some (lineCloud 0 5)) None (1 # 2) = Some built /\
    createPointGeometry (Some (lineCloud 0 5)) (Some (lineCloud 0 5)) (1 # 2)
    = Some selfBuilt /\
    position selfBuilt = position built /\
    morphTarget selfBuilt = position built.
Proof.
  destruct (self_resample_roundtrip
              (lineCloud 0 5)
              {| array := flat_map (fun k => [inject_Z (0 + Z.of_nat k); 0; 0])
                                   (seq 0 5);
                 itemSize := 3 |}
              None (1 # 2)
              {| rotation_x := 0; rotation_y := 0; rotation_z := 0; scale := 1;
                 offset_x := 0; offset_y := 0; offset_z := 0 |})
    as (built & positions & fractions & selfBuilt
        & Hbuilt & _ & _ & _ & _ & Hself & Hpos & Hmorph).
  - reflexivity.
  - vm_compute. split; intro H; discriminate H.
  - exists built, selfBuilt.
    split; [exact Hbuilt|]. split; [exact Hself|]. split; [exact Hpos | exact Hmorph].
Defined.

(** * The further properties at concrete inputs *)

(** A cloud of five points kept whole. *)
Lemma createPointGeometry_keeps_every_point_at_cloud :
  exists built,
    createPointGeometry (Some (lineCloud 0 5)) None 1 = Some built /\
    position built = position (lineCloud 0 5).
Proof.
  destruct (createPointGeometry_keeps_every_point
              (lineCloud 0 5)
              {| array := flat_map (fun k => [inject_Z (0 + Z.of_nat k); 0; 0])
                                   (seq 0 5);
                 itemSize := 3 |}
              None 1 5%nat)
    as (built & Hbuilt & Hpos).
  - reflexivity.
  - reflexivity.
  - reflexivity.
  - lia.
  - vm_compute. intro H. discriminate H.
  - vm_compute. intro H. discriminate H.
  - exists built. split; [exact Hbuilt | exact Hpos].
Defined.

(** A cloud of five points kept at ratio 1/2, morphing to one of eight. *)
Lemma createPointGeometry_buffers_agree_at_cloud :
  exists built pos target,
    createPointGeometry (Some (lineCloud 0 5)) (Some (lineCloud 100 8)) (1 # 2)
    = Some built /\
    position built = Some {| array := pos; itemSize := 3 |} /\
    morphTarget built = Some {| array := target; itemSize := 3 |} /\
    length target = length pos.
Proof.
  destruct (createPointGeometry_buffers_agree
              (lineCloud 0 5)
              {| array := flat_map (fun k => [inject_Z (0 + Z.of_nat k); 0; 0])
                                   (seq 0 5);
                 itemSize := 3 |}
              (Some (lineCloud 100 8)) (1 # 2))
    as (_ & built & pos & target & Hbuilt & Hpos & Hmorph & _ & Hlen & _).
  - reflexivity.
  - vm_compute. intro H. discriminate H.
  - exists built, pos, target.
    split; [exact Hbuilt|]. split; [exact Hpos|]. split; [exact Hmorph | exact Hlen].
Defined.

(** Two slots, fractions -1 and 2, over a target of eight points. *)
Lemma generateMorphTargetArrayWithFractions_points_of_target_at_cloud :
  exists result,
    generateMorphTargetArrayWithFractions
      (Some {| geometry :=
                 {| position := None; color := None;
                    morphTarget := Some {| array := [0; 0; 0; 0; 0; 0]; itemSize := 3 |};
                    morphColor := None |};
               placement := getDefaultTransform |})
      (Some (lineCloud 100 8)) (Some [-1; 2])
    = Some result /\
    length result = 6%nat.
Proof.
  destruct (generateMorphTargetArrayWithFractions_points_of_target
              {| geometry :=
                   {| position := None; color := None;
                      morphTarget := Some {| array := [0; 0; 0; 0; 0; 0]; itemSize := 3 |};
                      morphColor := None |};
                 placement := getDefaultTransform |}
              {| array := [0; 0; 0; 0; 0; 0]; itemSize := 3 |}
              {| array := flat_map (fun k => [inject_Z (100 + Z.of_nat k); 0; 0])
                                   (seq 0 8);
                 itemSize := 3 |}
              (lineCloud 100 8) [-1; 2])
    as (result & Hsome & Hlen & _).
  - reflexivity.
  - reflexivity.
  - reflexivity.
  - vm_compute. intro H. discriminate H.
  - exists result. split; [exact Hsome | exact Hlen].
Defined.

(** A scroll, a reverse touch and a failed load on the site. *)
Lemma events_keep_progress_and_index_in_range_at_site :
  let st' := site_run [Wheel 100; TouchMove (-30); LoaderFinished 0 None] site_start in
  0 <= transitionProgress (sectionState st') <= 1 /\
  0 <= pendingScrollCarry (sectionState st') /\
  (0 <= index (sectionState st') < 5)%Z.
Proof.
  intro st'.
  destruct (events_keep_progress_and_index_in_range
              sections_js SECTION_TRANSITION_js nearestEndColor keepGeometry
              [Wheel 100; TouchMove (-30); LoaderFinished 0 None] site_start)
    as (Hprogress & Hcarry & Hindex & _).
  - vm_compute.
    split; [split; intro H; discriminate H|].
    split; [intro H; discriminate H|].
    split; (split; [intro H; discriminate H | reflexivity]).
  - split; [exact Hprogress|]. split; [exact Hcarry | exact Hindex].
Defined.

(** Index -1 on the five sections of the site. *)
Lemma normalizeSectionIndex_wraps_at_site :
  (0 <= normalizeSectionIndex sections_js (-1) < 5)%Z /\
  normalizeSectionIndex sections_js (-1 + 5) = normalizeSectionIndex sections_js (-1).
Proof.
  destruct (normalizeSectionIndex_wraps sections_js (-1)) as (Hrange & _ & Hperiod & _).
  - reflexivity.
  - split; [exact Hrange | exact Hperiod].
Defined.

(** The section that asks for yaw 400 and pitch -80. *)
Lemma setSectionCameraPose_clamps_at_steep :
  let st' :=
    setSectionCameraPose (nth_error sections_steep 1) true steep_start in
  -360 <= cameraYawOffsetDeg st' <= 360 /\
  -60 <= cameraPitchOffsetDeg st' <= 60.
Proof.
  intro st'.
  destruct (setSectionCameraPose_clamps
              (nth 1 sections_steep (nth 0 sections_js (nth 2 sections_js
                 {| id := EmptyString; modelPath := EmptyString; camera := None;
                    transform := None; transition := None; background := None |})))
              {| cam_pathT := Some (1 # 10); cam_yaw := Some 400;
                 cam_pitch := Some (-80) |}
              true steep_start)
    as (_ & _ & _ & _ & Hyaw & Hpitch & _).
  - reflexivity.
  - split; [apply Hyaw | apply Hpitch]; intro H; discriminate H.
Defined.


(** A reverse scroll of 200 at the start of the fade-in on the second
    section. *)
Lemma fadeIn_scroll_never_goes_back_at_site :
  let entering :=
    site_run [Wheel 980; LoaderFinished 0 (Some (lineCloud 100 8))] site_start in
  let st' := site_scroll (-200) false entering in
  phase (sectionState st') = fadeIn /\
  index (sectionState st') = 1%Z /\
  transitionProgress (sectionState st') == 0.
Proof.
  intros entering st'.
  destruct (fadeIn_scroll_never_goes_back
              sections_js SECTION_TRANSITION_js nearestEndColor (-200) false entering)
    as (Hphase & Hindex & _ & _ & _ & Hzero).
  - vm_compute. reflexivity.
  - vm_compute. reflexivity.
  - vm_compute. reflexivity.
  - split; [exact Hphase|]. split.
    + transitivity (index (sectionState entering));
        [exact Hindex | vm_compute; reflexivity].
    + apply Hzero; vm_compute; intro H; discriminate H.
Defined.

(** The preload of the second section fails while the fade-out runs. *)
Lemma preload_promise_is_always_fulfilled_at_site :
  let fading := site_run [Wheel 100] site_start in
  let st' :=
    settleChain keepGeometry 0 None
                {| load_section :=
                     nth 1 sections_js (nth 0 sections_js (nth 2 sections_js
                       {| id := EmptyString; modelPath := EmptyString; camera := None;
                          transform := None; transition := None; background := None |}));
                   load_source := FromLoader; load_guarded := true;
                   load_status := Pending; load_handler := NoHandler |}
                fading in
  map load_status (firstn 1 (loads st')) = [Fulfilled] /\
  morphReady (sectionState st') = false /\
  points st' = points fading.
Proof.
  intros fading st'.
  destruct (preload_promise_is_always_fulfilled
              keepGeometry 0 None
              {| load_section :=
                   nth 1 sections_js (nth 0 sections_js (nth 2 sections_js
                     {| id := EmptyString; modelPath := EmptyString; camera := None;
                        transform := None; transition := None; background := None |}));
                 load_source := FromLoader; load_guarded := true;
                 load_status := Pending; load_handler := NoHandler |}
              fading)
    as (Hload & _ & Hfail).
  - vm_compute. reflexivity.
  - reflexivity.
  - destruct (Hfail eq_refl eq_refl) as (Hready & Hpoints & _).
    split; [|split; [exact Hready | exact Hpoints]].
    fold st' in Hload.
    destruct (loads st') as [|l ls]; [discriminate Hload|].
    injection Hload as ->. reflexivity.
Defined.

(** The fade-in on the second section, completed with no carry. *)
Lemma completeFadeIn_commits_target_at_site :
  let entering :=
    site_run [Wheel 980; LoaderFinished 0 (Some (lineCloud 100 8))] site_start in
  let st' := completeFadeIn sections_js SECTION_TRANSITION_js nearestEndColor entering in
  phase (sectionState st') = idle /\
  currentSectionId st' = Some "harbour"%string /\
  exists g',
    displayedGeometry st' = Some g' /\
    position g'
    = Some {| array := [100; 0; 0; 102; 0; 0; 104; 0; 0; 107; 0; 0]; itemSize := 3 |}.
Proof.
  intros entering st'.
  destruct (completeFadeIn_commits_target
              sections_js SECTION_TRANSITION_js nearestEndColor entering
              (nth 1 sections_js (nth 0 sections_js (nth 2 sections_js
                 {| id := EmptyString; modelPath := EmptyString; camera := None;
                    transform := None; transition := None; background := None |})))
              {| asset_path := "point/nz2.ply";
                 asset_geometry := Some (lineCloud 100 8);
                 asset_morphArray := Some [100; 0; 0; 102; 0; 0; 104; 0; 0; 107; 0; 0] |}
              [100; 0; 0; 102; 0; 0; 104; 0; 0; 107; 0; 0]
              {| position :=
                   Some {| array := [0; 0; 0; 1; 0; 0; 2; 0; 0; 3; 0; 0]; itemSize := 3 |};
                 color := None;
                 morphTarget :=
                   Some {| array := [100; 0; 0; 102; 0; 0; 104; 0; 0; 107; 0; 0];
                           itemSize := 3 |};
                 morphColor := None |}
              {| array := [0; 0; 0; 1; 0; 0; 2; 0; 0; 3; 0; 0]; itemSize := 3 |})
    as ((Hphase & _) & Hid & g' & Hg & Hpos & _).
  - vm_compute. reflexivity.
  - vm_compute. reflexivity.
  - reflexivity.
  - vm_compute. reflexivity.
  - reflexivity.
  - reflexivity.
  - vm_compute. intro H. discriminate H.
  - split; [exact Hphase|]. split; [exact Hid|].
    exists g'. split; [exact Hg | exact Hpos].
Defined.

(** The cloud of the second section, eight points, arrives while four
    points are displayed. *)
Lemma ensureSectionMorphTarget_then_samples_target_at_site :
  let result :=
    ensureSectionMorphTarget_then
      (nth 1 sections_js (nth 0 sections_js (nth 2 sections_js
         {| id := EmptyString; modelPath := EmptyString; camera := None;
            transform := None; transition := None; background := None |})))
      (lineCloud 100 8) site_start in
  snd result = true /\
  coordinates (fst (morphBuffer (fst result)))
  = Some [100; 0; 0; 102; 0; 0; 104; 0; 0; 107; 0; 0] /\
  pointsPosition (fst result) = pointsPosition site_start.
Proof.
  intro result.
  destruct (ensureSectionMorphTarget_then_samples_target
              (nth 1 sections_js (nth 0 sections_js (nth 2 sections_js
                 {| id := EmptyString; modelPath := EmptyString; camera := None;
                    transform := None; transition := None; background := None |})))
              (lineCloud 100 8)
              {| array := flat_map (fun k => [inject_Z (100 + Z.of_nat k); 0; 0])
                                   (seq 0 8);
                 itemSize := 3 |}
              {| array := [0; 0; 0; 1; 0; 0; 2; 0; 0; 3; 0; 0]; itemSize := 3 |}
              {| geometry :=
                   {| position :=
                        Some {| array := [0; 0; 0; 1; 0; 0; 2; 0; 0; 3; 0; 0];
                                itemSize := 3 |};
                      color := None;
                      morphTarget :=
                        Some {| array := [0; 0; 0; 1; 0; 0; 2; 0; 0; 3; 0; 0];
                                itemSize := 3 |};
                      morphColor := None |};
                 placement := getDefaultTransform |}
              4%nat site_start)
    as (Hok & Hbuffer & Hposition & _).
  - vm_compute. reflexivity.
  - reflexivity.
  - reflexivity.
  - reflexivity.
  - lia.
  - reflexivity.
  - vm_compute. split; intro H; discriminate H.
  - split; [exact Hok|]. split; [|exact Hposition].
    unfold result. rewrite Hbuffer. vm_compute. reflexivity.
Defined.

(** An upper-case colour with an alpha suffix. *)
Lemma normalizeHex_normal_form_at_colour :
  normalizeHex "#4F6469CC" = Some "#4f6469"%string /\
  normalizeHex "#4f6469" = Some "#4f6469"%string /\
  normalizeHex "4f6469" = Some "#4f6469"%string.
Proof.
  destruct (normalizeHex_normal_form "#4F6469CC" "#4f6469"%string)
    as (_ & (digits & Hh & _ & _ & Hbare & _) & Hidem).
  - reflexivity.
  - split; [reflexivity|]. split; [exact Hidem|].
    injection Hh as <-. exact Hbare.
Defined.

(** The background of the first section of src/js/sections.js. *)
Lemma normalizeBackgroundInput_is_a_normal_form_at_site :
  normalizeBackgroundInput
    (BgObject {| f_top := JsString "#4f6469"; f_mid := JsString "#162227";
                 f_bottom := JsString "#000000";
                 f_color := JsFalsy; f_topColor := JsFalsy; f_middle := JsFalsy;
                 f_midColor := JsFalsy; f_bottomColor := JsFalsy |})
  = Returns (Some initialBackgroundGradient) /\
  normalGradient initialBackgroundGradient.
Proof.
  destruct (normalizeBackgroundInput_is_a_normal_form
              (BgObject {| f_top := JsString "#4f6469"; f_mid := JsString "#162227";
                           f_bottom := JsString "#000000";
                           f_color := JsFalsy; f_topColor := JsFalsy;
                           f_middle := JsFalsy; f_midColor := JsFalsy;
                           f_bottomColor := JsFalsy |})
              initialBackgroundGradient)
    as (Hnormal & _).
  - reflexivity.
  - split; [reflexivity | exact Hnormal].
Defined.

(** A single colour string, stored as the gradient of the page. *)
Lemma setBackgroundGradient_stores_normalized_at_site :
  backgroundGradient
    (setBackgroundGradient_fields (JsString "#8fa4b7") (JsString "#8fa4b7")
                                  (JsString "#8fa4b7") site_start)
  = {| top := "#8fa4b7"; mid := "#8fa4b7"; bottom := "#8fa4b7" |}%string.
Proof.
  destruct (setBackgroundGradient_stores_normalized
              (BgString "8FA4B7")
              {| top := "#8fa4b7"; mid := "#8fa4b7"; bottom := "#8fa4b7" |}%string
              site_start)
    as (_ & Hstored & _).
  - reflexivity.
  - exact Hstored.
Defined.

(** A scroll through the first transition with frames in between and the
    arrival of its cloud. *)
Lemma displayed_fractions_stay_in_range_at_site :
  let st' :=
    runTicks sections_js SECTION_TRANSITION_js nearestEndColor keepGeometry
             (Some (45 # 10)) true
             [Input (Wheel 500); Frame (1 # 60);
              Input (LoaderFinished 0 (Some (lineCloud 100 8))); Frame (1 # 2);
              Input (Wheel 700); Frame 0]
             site_start in
  0 <= scatterAmp st' <= 1 /\ 0 <= morphUniformValue st' <= 1 /\
  0 <= cameraPathT st' <= 1.
Proof.
  intro st'.
  destruct (displayed_fractions_stay_in_range
              sections_js SECTION_TRANSITION_js nearestEndColor keepGeometry
              (Some (45 # 10)) true
              [Input (Wheel 500); Frame (1 # 60);
               Input (LoaderFinished 0 (Some (lineCloud 100 8))); Frame (1 # 2);
               Input (Wheel 700); Frame 0]
              site_start)
    as (Hscatter & _ & _ & Hmorph & _ & _ & _ & Hpath).
  - vm_compute. repeat constructor; intro H; discriminate H.
  - vm_compute. repeat constructor; intro H; discriminate H.
  - split; [exact Hscatter|]. split; [exact Hmorph | exact Hpath].
Defined.

(** A transition whose load fails, with frames in between. *)
Lemma no_promise_is_ever_rejected_at_site :
  let st' :=
    runTicks sections_js SECTION_TRANSITION_js nearestEndColor keepGeometry
             (Some (45 # 10)) true
             [Input (Wheel 980); Frame (1 # 60); Input (LoaderFinished 0 None)]
             site_start in
  exists ld,
    nth_error (loads st') 0 = Some ld /\
    load_guarded ld = true /\
    load_status ld = Fulfilled.
Proof.
  intro st'.
  destruct (no_promise_is_ever_rejected
              sections_js SECTION_TRANSITION_js nearestEndColor keepGeometry
              (Some (45 # 10)) true
              [Input (Wheel 980); Frame (1 # 60); Input (LoaderFinished 0 None)]
              site_start)
    as [Hsound _].
  - apply coherent_displayedState.
  - assert (Hload : nth_error (loads st') 0
                    = Some {| load_section :=
                                nth 1 sections_js (nth 0 sections_js (nth 2 sections_js
                                  {| id := EmptyString; modelPath := EmptyString;
                                     camera := None; transform := None;
                                     transition := None; background := None |}));
                              load_source := FromLoader; load_guarded := true;
                              load_status := Fulfilled; load_handler := Ran |})
      by (vm_compute; reflexivity).
    destruct (Hsound 0%nat _ Hload) as (Hguard & _ & Hran).
    eexists. split; [exact Hload|]. split; [exact Hguard|]. apply Hran. reflexivity.
Defined.

(** A scroll that starts a fade-out, and a frame. *)
Lemma phase_target_and_promise_agree_at_site :
  let st' :=
    runTicks sections_js SECTION_TRANSITION_js nearestEndColor keepGeometry
             (Some (45 # 10)) true
             [Input (Wheel 100); Frame (1 # 60)]
             site_start in
  phase (sectionState st') = fadeOut /\
  nextSection (sectionState st') <> None /\
  pendingPromise (sectionState st') = Some 0%nat.
Proof.
  intro st'.
  destruct (phase_target_and_promise_agree
              sections_js SECTION_TRANSITION_js nearestEndColor keepGeometry
              (Some (45 # 10)) true
              [Input (Wheel 100); Frame (1 # 60)]
              site_start)
    as (_ & _ & Hflight & _).
  - apply coherent_displayedState.
  - assert (Hphase : phase (sectionState st') = fadeOut) by (vm_compute; reflexivity).
    split; [exact Hphase|].
    destruct Hflight as [Htarget _].
    + change (phase (sectionState st') <> idle). rewrite Hphase. discriminate.
    + split; [exact Htarget | vm_compute; reflexivity].
Defined.
